(** * Service access layer of the invoice dashboard: a shallow embedding

    The development follows [service_manager.py] (retry wrapper, circuit
    breaker, adaptive rate limiter, TTL/LRU cache, cache-aware reads and
    writes, start-up of the services, generation with the AI agent),
    [azure_search_service.py] (what the manager reads from the search
    index) and [components/invoice_queue.py] (generation job queue, its
    worker pool and its statistics).

    Conventions.
    - Every reading of [datetime.now()] is an input of the operation that
      takes it (in the retry wrapper, the next value of a clock its
      surroundings supply), an integer number of microseconds, the
      resolution of [datetime]; a duration of [n] seconds is [seconds n].
      The breaker and the limiter subtract [datetime] values, which is
      exact.  The cache subtracts the floats of [datetime.timestamp()]:
      there, for the dates of this century and the next, the age of the
      model and the age the code computes differ by less than a
      microsecond, so the two agree on every comparison of an age with a
      time to live from which it differs by a microsecond or more; at the
      very microsecond of expiry the code may fall on either side.
    - Delays handed to [time.sleep] are rationals, in seconds.  [sleep]
      stands for the calls of [time.sleep] that return, those with a delay
      that is not negative and not beyond what the platform can wait; the
      backoff delays are those of the code as long as its float arithmetic
      raises nothing, that is for attempts below 1024.  The facts on whole
      calls of the wrapper are stated within these bounds.
    - Python [str] is [string]; [lower] is [str.lower] on the texts that
      hold ASCII characters only ([isascii]).
    - Answers of the external services (document store, search index, AI
      agent) are inputs of the operation that calls them. *)

From Stdlib Require Import ZArith QArith Qminmax Qpower String Ascii List Bool Lia Permutation Sorted.
From stdpp Require Import gmap strings list pretty.

#[local] Set Warnings "-register-all".
Local Open Scope string_scope.
Local Open Scope list_scope.
Local Open Scope Z_scope.

(** ** Python values and strings *)

Module Py.

(** Opaque payloads held by the cache: enough structure for truthiness. *)
Inductive pyval : Type :=
| PyNone
| PyBool (b : bool)
| PyInt (z : Z)
| PyFloat (q : Q)
| PyStr (s : string)
| PyList (xs : list pyval)
| PyDict (kvs : list (string * pyval)).

(** [bool(v)]: what [if v:] tests. *)
Definition truthy (v : pyval) : bool :=
  match v with
  | PyNone => false
  | PyBool b => b
  | PyInt z => negb (z =? 0)
  | PyFloat q => negb (Qeq_bool q 0)
  | PyStr s => negb (String.eqb s "")
  | PyList xs => match xs with [] => false | _ => true end
  | PyDict kvs => match kvs with [] => false | _ => true end
  end.

Definition lower_ascii (c : ascii) : ascii :=
  let n := nat_of_ascii c in
  if ((65 <=? n)%nat && (n <=? 90)%nat)%bool then ascii_of_nat (n + 32) else c.

(** [s.isascii()] *)
Fixpoint isascii (s : string) : bool :=
  match s with
  | EmptyString => true
  | String c s' => (nat_of_ascii c <? 128)%nat && isascii s'
  end.

(** [s.lower()], for [s] with [s.isascii()]: the letters A to Z are
    lowered and nothing else changes. *)
Fixpoint lower (s : string) : string :=
  match s with
  | EmptyString => EmptyString
  | String c s' => String (lower_ascii c) (lower s')
  end.

(** [s.startswith(p)] *)
Definition startswith (s p : string) : bool := String.prefix p s.

(** [needle in hay] *)
Fixpoint contains (needle hay : string) : bool :=
  String.prefix needle hay
  || match hay with
     | EmptyString => false
     | String _ hay' => contains needle hay'
     end.

(** [any(keyword in s for keyword in keywords)] *)
Definition any_in (keywords : list string) (s : string) : bool :=
  existsb (fun keyword => contains keyword s) keywords.

(** [s.split("_")[0]]: the text before the first underscore. *)
Fixpoint split_first (s : string) : string :=
  match s with
  | EmptyString => EmptyString
  | String c s' => if Ascii.eqb c "_" then EmptyString else String c (split_first s')
  end.

(** [s.replace(" ", "_")] *)
Fixpoint replace_space (s : string) : string :=
  match s with
  | EmptyString => EmptyString
  | String c s' => String (if Ascii.eqb c " " then "_"%char else c) (replace_space s')
  end.

(** An insertion-ordered [dict] with [str] keys: assignment to a key that
    is present keeps its place, a new key goes last. *)
Definition dict (V : Type) : Type := list (string * V).

Fixpoint dict_get {V} (k : string) (d : dict V) : option V :=
  match d with
  | [] => None
  | (k', v) :: d' => if String.eqb k' k then Some v else dict_get k d'
  end.

Fixpoint dict_set {V} (k : string) (v : V) (d : dict V) : dict V :=
  match d with
  | [] => [(k, v)]
  | (k', v') :: d' =>
      if String.eqb k' k then (k', v) :: d' else (k', v') :: dict_set k v d'
  end.

(** [d.pop(k, None)] *)
Fixpoint dict_pop {V} (k : string) (d : dict V) : dict V :=
  match d with
  | [] => []
  | (k', v') :: d' => if String.eqb k' k then d' else (k', v') :: dict_pop k d'
  end.

Definition dict_keys {V} (d : dict V) : list string := map fst d.

(** [v.get(k, default)]; [None] stands for the [AttributeError] raised
    when [v] is not a [dict]. *)
Definition py_get (k : string) (dflt : pyval) (v : pyval) : option pyval :=
  match v with
  | PyDict kvs => Some (default dflt (dict_get k kvs))
  | _ => None
  end.

(** What a call does: return a value or raise an [Exception] with a message. *)
Inductive outcome (V : Type) : Type :=
| Returns (v : V)
| Raises (message : string).
Arguments Returns {V} v.
Arguments Raises {V} message.

End Py.

(** Microseconds in [n] seconds. *)
Definition seconds (n : Z) : Z := n * 1000000.

(** ** CircuitBreaker *)

Module CircuitBreaker.

Inductive breaker_state : Type := CLOSED | OPEN | HALF_OPEN.

Record t : Type := mk {
  failure_threshold : Z;
  recovery_timeout : Z;
  half_open_max_calls : Z;
  failure_count : Z;
  last_failure_time : option Z;
  state : breaker_state;
  half_open_calls : Z
}.

(** [CircuitBreaker(failure_threshold=5, recovery_timeout=60, half_open_max_calls=3)] *)
Definition init : t :=
  {| failure_threshold := 5; recovery_timeout := 60; half_open_max_calls := 3;
     failure_count := 0; last_failure_time := None; state := CLOSED;
     half_open_calls := 0 |}.

Definition _should_attempt_reset (now : Z) (b : t) : bool :=
  match last_failure_time b with
  | None => true
  | Some last => now - last >? seconds (recovery_timeout b)
  end.

Definition can_execute (now : Z) (b : t) : bool * t :=
  match state b with
  | CLOSED => (true, b)
  | OPEN =>
      if _should_attempt_reset now b
      then (true, {| failure_threshold := failure_threshold b;
                     recovery_timeout := recovery_timeout b;
                     half_open_max_calls := half_open_max_calls b;
                     failure_count := failure_count b;
                     last_failure_time := last_failure_time b;
                     state := HALF_OPEN;
                     half_open_calls := 0 |})
      else (false, b)
  | HALF_OPEN => (half_open_calls b <? half_open_max_calls b, b)
  end.

Definition record_success (b : t) : t :=
  match state b with
  | HALF_OPEN =>
      let calls := half_open_calls b + 1 in
      if calls >=? half_open_max_calls b
      then {| failure_threshold := failure_threshold b;
              recovery_timeout := recovery_timeout b;
              half_open_max_calls := half_open_max_calls b;
              failure_count := 0;
              last_failure_time := last_failure_time b;
              state := CLOSED;
              half_open_calls := calls |}
      else {| failure_threshold := failure_threshold b;
              recovery_timeout := recovery_timeout b;
              half_open_max_calls := half_open_max_calls b;
              failure_count := failure_count b;
              last_failure_time := last_failure_time b;
              state := HALF_OPEN;
              half_open_calls := calls |}
  | CLOSED =>
      {| failure_threshold := failure_threshold b;
         recovery_timeout := recovery_timeout b;
         half_open_max_calls := half_open_max_calls b;
         failure_count := Z.max 0 (failure_count b - 1);
         last_failure_time := last_failure_time b;
         state := CLOSED;
         half_open_calls := half_open_calls b |}
  | OPEN => b
  end.

Definition record_failure (now : Z) (b : t) : t :=
  let count := failure_count b + 1 in
  {| failure_threshold := failure_threshold b;
     recovery_timeout := recovery_timeout b;
     half_open_max_calls := half_open_max_calls b;
     failure_count := count;
     last_failure_time := Some now;
     state := if count >=? failure_threshold b then OPEN else state b;
     half_open_calls := half_open_calls b |}.

(** The calls a client can make, each with the clock reading it takes. *)
Inductive call : Type :=
| CanExecute (now : Z)
| RecordSuccess
| RecordFailure (now : Z).

Definition step (b : t) (c : call) : t :=
  match c with
  | CanExecute now => snd (can_execute now b)
  | RecordSuccess => record_success b
  | RecordFailure now => record_failure now b
  end.

Definition run (b : t) (cs : list call) : t := fold_left step cs b.

(** States a default breaker can be in. *)
Definition reachable (b : t) : Prop := exists cs, b = run init cs.

(** The answers of [n] successive [can_execute] calls, all at time [now]. *)
Fixpoint can_execute_n (n : nat) (now : Z) (b : t) : list bool * t :=
  match n with
  | O => ([], b)
  | S n' =>
      let '(ok, b1) := can_execute now b in
      let '(oks, b2) := can_execute_n n' now b1 in
      (ok :: oks, b2)
  end.

End CircuitBreaker.

(** ** AdaptiveRateLimiter *)

Module AdaptiveRateLimiter.

Record t : Type := mk {
  requests_per_minute : Z;
  last_request_time : option Z;
  request_count : Z;
  window_start : Z;
  consecutive_successes : Z;
  consecutive_rate_limits : Z
}.

Definition init (now : Z) : t :=
  {| requests_per_minute := 60; last_request_time := None; request_count := 0;
     window_start := now; consecutive_successes := 0; consecutive_rate_limits := 0 |}.

Definition can_proceed (now : Z) (l : t) : bool * t :=
  let l1 :=
    if now - window_start l >=? seconds 60
    then {| requests_per_minute := requests_per_minute l;
            last_request_time := last_request_time l;
            request_count := 0;
            window_start := now;
            consecutive_successes := consecutive_successes l;
            consecutive_rate_limits := consecutive_rate_limits l |}
    else l in
  (request_count l1 <? requests_per_minute l1, l1).

Definition record_success (now : Z) (l : t) : t :=
  let successes := consecutive_successes l + 1 in
  let bump := successes >=? 10 in
  {| requests_per_minute :=
       if bump then Z.min 120 (requests_per_minute l + 5) else requests_per_minute l;
     last_request_time := Some now;
     request_count := request_count l + 1;
     window_start := window_start l;
     consecutive_successes := if bump then 0 else successes;
     consecutive_rate_limits := 0 |}.

Definition record_rate_limit (l : t) : t :=
  let limits := consecutive_rate_limits l + 1 in
  let reduction := Z.min 20 (limits * 5) in
  {| requests_per_minute := Z.max 10 (requests_per_minute l - reduction);
     last_request_time := last_request_time l;
     request_count := request_count l;
     window_start := window_start l;
     consecutive_successes := 0;
     consecutive_rate_limits := limits |}.

(** Seconds to wait; [60.0 / requests_per_minute] is taken in [Q]. *)
Definition get_delay (now : Z) (l : t) : Q :=
  match last_request_time l with
  | None => 0%Q
  | Some last =>
      let time_since_last := (inject_Z (now - last) / inject_Z 1000000)%Q in
      let min_interval := (60 / inject_Z (requests_per_minute l))%Q in
      if Qlt_le_dec time_since_last min_interval
      then (min_interval - time_since_last)%Q
      else 0%Q
  end.

Inductive call : Type :=
| CanProceed (now : Z)
| RecordSuccess (now : Z)
| RecordRateLimit.

Definition step (l : t) (c : call) : t :=
  match c with
  | CanProceed now => snd (can_proceed now l)
  | RecordSuccess now => record_success now l
  | RecordRateLimit => record_rate_limit l
  end.

Definition run (l : t) (cs : list call) : t := fold_left step cs l.

Definition reachable (l : t) : Prop := exists now cs, l = run (init now) cs.

End AdaptiveRateLimiter.

(** ** RateLimitHandler: the retry wrapper *)

Module RateLimitHandler.
Import Py.

Inductive error_type : Type := rate_limit | transient | permanent | unknown.

Definition rate_limit_keywords : list string :=
  ["rate limit"; "too many requests"; "quota exceeded"; "throttled"].
Definition transient_keywords : list string :=
  ["timeout"; "connection"; "network"; "temporary"; "service unavailable"].
Definition permanent_keywords : list string :=
  ["authentication"; "authorization"; "forbidden"; "not found"; "invalid"].

(** [_classify_error], on [str(error)]. *)
Definition _classify_error (message : string) : error_type :=
  let error_str := Py.lower message in
  if Py.any_in rate_limit_keywords error_str then rate_limit
  else if Py.any_in transient_keywords error_str then transient
  else if Py.any_in permanent_keywords error_str then permanent
  else unknown.

(** What the wrapper does that can be observed from outside. *)
Inductive event : Type :=
| Invoked (call_index : nat)
| Slept (delay : Q)
| BreakerSuccess
| BreakerFailure
| LimiterSuccess
| LimiterRateLimit.

(** The surroundings of one wrapped call: the answer of the wrapped
    function at each invocation, the clock at each timed operation, and
    the draws of [random.uniform(0, 1)]. *)
Record env (V : Type) : Type := mk_env {
  func : nat -> outcome V;
  clock : nat -> Z;
  uniform : nat -> Q
}.
Arguments func {V} e _.
Arguments clock {V} e _.
Arguments uniform {V} e _.

Record handler : Type := mk {
  circuit_breaker : CircuitBreaker.t;
  rate_limiter : AdaptiveRateLimiter.t;
  ticks : nat;
  calls : nat;
  draws : nat;
  trace : list event
}.

Definition init (now : Z) : handler :=
  {| circuit_breaker := CircuitBreaker.init;
     rate_limiter := AdaptiveRateLimiter.init now;
     ticks := 0; calls := 0; draws := 0; trace := [] |}.

Definition breaker_open_message : string :=
  "Circuit breaker is open - service temporarily unavailable".

Definition raise_none_message : string :=
  "exceptions must derive from BaseException".

(** The delays every [time.sleep] accepts: not negative, at most a day. *)
Definition sleepable (delay : Q) : Prop := (0 <= delay <= 86400)%Q.

Section with_retry.
Context {V : Type}.
Variable max_retries : nat.
Variables base_delay max_delay : Q.
Variable e : env V.

(** A computation over the handler. *)
Definition M (A : Type) : Type := handler -> A * handler.
Definition ret {A} (a : A) : M A := fun h => (a, h).
Definition bind {A B} (m : M A) (k : A -> M B) : M B :=
  fun h => let '(a, h1) := m h in k a h1.

Notation "x <- m ;; k" := (bind m (fun x => k))
  (at level 100, m at next level, k at level 200, only parsing).
Notation "m ;; k" := (bind m (fun _ => k))
  (at level 100, k at level 200, only parsing).

Definition emit (ev : event) : M unit := fun h =>
  (tt, {| circuit_breaker := circuit_breaker h; rate_limiter := rate_limiter h;
          ticks := ticks h; calls := calls h; draws := draws h;
          trace := trace h ++ [ev] |}).

Definition now : M Z := fun h =>
  (clock e (ticks h),
   {| circuit_breaker := circuit_breaker h; rate_limiter := rate_limiter h;
      ticks := S (ticks h); calls := calls h; draws := draws h;
      trace := trace h |}).

Definition random_uniform : M Q := fun h =>
  (uniform e (draws h),
   {| circuit_breaker := circuit_breaker h; rate_limiter := rate_limiter h;
      ticks := ticks h; calls := calls h; draws := S (draws h);
      trace := trace h |}).

Definition invoke : M (outcome V) := fun h =>
  (func e (calls h),
   {| circuit_breaker := circuit_breaker h; rate_limiter := rate_limiter h;
      ticks := ticks h; calls := S (calls h); draws := draws h;
      trace := trace h ++ [Invoked (calls h)] |}).

Definition with_breaker {A} (f : CircuitBreaker.t -> A * CircuitBreaker.t) : M A :=
  fun h =>
    let '(a, b) := f (circuit_breaker h) in
    (a, {| circuit_breaker := b; rate_limiter := rate_limiter h;
           ticks := ticks h; calls := calls h; draws := draws h;
           trace := trace h |}).

Definition with_limiter {A}
    (f : AdaptiveRateLimiter.t -> A * AdaptiveRateLimiter.t) : M A :=
  fun h =>
    let '(a, l) := f (rate_limiter h) in
    (a, {| circuit_breaker := circuit_breaker h; rate_limiter := l;
           ticks := ticks h; calls := calls h; draws := draws h;
           trace := trace h |}).

(** [time.sleep(delay)], for a delay it accepts: it returns after the
    wait.  On a negative delay [time.sleep] raises [ValueError], and
    [OverflowError] on one beyond what the platform can wait. *)
Definition sleep (delay : Q) : M unit := emit (Slept delay).

Definition breaker_can_execute : M bool :=
  t <- now ;; with_breaker (CircuitBreaker.can_execute t).
Definition breaker_record_success : M unit :=
  with_breaker (fun b => (tt, CircuitBreaker.record_success b)) ;;
  emit BreakerSuccess.
Definition breaker_record_failure : M unit :=
  t <- now ;;
  with_breaker (fun b => (tt, CircuitBreaker.record_failure t b)) ;;
  emit BreakerFailure.
Definition limiter_can_proceed : M bool :=
  t <- now ;; with_limiter (AdaptiveRateLimiter.can_proceed t).
Definition limiter_get_delay : M Q :=
  t <- now ;; with_limiter (fun l => (AdaptiveRateLimiter.get_delay t l, l)).
Definition limiter_record_success : M unit :=
  t <- now ;;
  with_limiter (fun l => (tt, AdaptiveRateLimiter.record_success t l)) ;;
  emit LimiterSuccess.
Definition limiter_record_rate_limit : M unit :=
  with_limiter (fun l => (tt, AdaptiveRateLimiter.record_rate_limit l)) ;;
  emit LimiterRateLimit.

(** The [try] block of one attempt. *)
Definition try_block : M (outcome V) :=
  allowed <- breaker_can_execute ;;
  if negb allowed then ret (Raises breaker_open_message)
  else
    proceed <- limiter_can_proceed ;;
    (if negb proceed
     then (delay <- limiter_get_delay ;; sleep delay)
     else ret tt) ;;
    result <- invoke ;;
    match result with
    | Returns v =>
        breaker_record_success ;;
        limiter_record_success ;;
        ret (Returns v)
    | Raises message => ret (Raises message)
    end.

(** The three delays of the [except] block, [base_delay] and [max_delay]
    being floats: as long as [attempt] is below 1024 the code computes
    them without an error ([2**attempt] no longer converts to a float from
    1024 on, [1.5**attempt] is out of range from 1751 on). *)
Definition rate_limit_delay (attempt : nat) (jitter : Q) : Q :=
  Qmin (base_delay * 2 ^ Z.of_nat attempt + jitter) max_delay.
Definition transient_delay (attempt : nat) : Q :=
  Qmin (base_delay * inject_Z (Z.of_nat attempt + 1)) max_delay.
Definition default_delay (attempt : nat) : Q :=
  Qmin (base_delay * (3 # 2) ^ Z.of_nat attempt) max_delay.

(** The [except Exception as e] block; [true] when the loop goes on,
    [false] on [break]. *)
Definition except_block (attempt : nat) (message : string) : M bool :=
  let error_type := _classify_error message in
  breaker_record_failure ;;
  match error_type with
  | rate_limit =>
      jitter <- random_uniform ;;
      sleep (rate_limit_delay attempt jitter) ;;
      limiter_record_rate_limit ;;
      ret true
  | transient => sleep (transient_delay attempt) ;; ret true
  | permanent => ret false
  | unknown => sleep (default_delay attempt) ;; ret true
  end.

(** [raise last_exception] *)
Definition raise_last (last_exception : option string) : outcome V :=
  match last_exception with
  | Some message => Raises message
  | None => Raises raise_none_message
  end.

(** [for attempt in range(max_retries)], from [attempt] on with
    [remaining] iterations left. *)
Fixpoint attempts (remaining attempt : nat) (last_exception : option string)
  : M (outcome V) :=
  match remaining with
  | O => ret (raise_last last_exception)
  | S remaining' =>
      result <- try_block ;;
      match result with
      | Returns v => ret (Returns v)
      | Raises message =>
          continue <- except_block attempt message ;;
          if continue
          then attempts remaining' (S attempt) (Some message)
          else ret (raise_last (Some message))
      end
  end.

Definition wrapper : M (outcome V) := attempts max_retries 0%nat None.

End with_retry.

(** How often the wrapped function was invoked, by the trace. *)
Definition invocations (tr : list event) : nat :=
  length (List.filter (fun ev => match ev with Invoked _ => true | _ => false end) tr).

Definition breaker_records (tr : list event) : nat :=
  length (List.filter (fun ev => match ev with
                            | BreakerSuccess | BreakerFailure => true
                            | _ => false end) tr).

(** The delays slept right after a failure was recorded: the backoff
    sleeps of the [except] block, in order. *)
Fixpoint backoffs (tr : list event) : list Q :=
  match tr with
  | [] => []
  | BreakerFailure :: Slept delay :: rest => delay :: backoffs rest
  | _ :: rest => backoffs rest
  end.

End RateLimitHandler.

(** ** AzureSearchService: the search index *)

Module AzureSearchService.
Import Py.

(** The attributes [available] and [search_client], the latter [true]
    when it holds a client and [false] when it is [None]. *)
Record t : Type := mk {
  available : bool;
  search_client : bool
}.

(** [__init__]; [setup] is what building the clients and creating the
    index does.  Whatever it raises is caught. *)
Definition init (setup : outcome unit) : t :=
  match setup with
  | Returns _ => {| available := true; search_client := true |}
  | Raises _ => {| available := false; search_client := false |}
  end.

(** The record [search_invoices] builds from one hit; [None] stands for
    the [KeyError] of a hit without ["@search.score"]. *)
Definition search_record (result : dict pyval) : option pyval :=
  match dict_get "@search.score" result with
  | None => None
  | Some score =>
      Some (PyDict
        [("score", score);
         ("invoice_number", default PyNone (dict_get "invoice_number" result));
         ("client_name", default PyNone (dict_get "client_name" result));
         ("invoice_date", default PyNone (dict_get "invoice_date" result));
         ("total_amount", default PyNone (dict_get "total_amount" result));
         ("status", default PyNone (dict_get "status" result));
         ("highlights", default (PyDict []) (dict_get "@search.highlights" result))])
  end.

Fixpoint search_records (results : list (dict pyval)) : option (list pyval) :=
  match results with
  | [] => Some []
  | result :: rest =>
      match search_record result, search_records rest with
      | Some record, Some records => Some (record :: records)
      | _, _ => None
      end
  end.

(** [search_invoices]; [answer] is what the search client does when it is
    asked and its hits are read. *)
Definition search_invoices (s : t) (answer : outcome (list (dict pyval))) : list pyval :=
  if negb (available s) || negb (search_client s) then []
  else
    match answer with
    | Returns results => default [] (search_records results)
    | Raises _ => []
    end.

End AzureSearchService.

(** ** ServiceManager: the cache and the cache-aware operations *)

Module ServiceManager.
Import Py.

(** [self.cache_ttl], in seconds. *)
Definition cache_ttl : dict Z :=
  [("statistics", 300); ("invoice_list", 180); ("search_results", 120);
   ("invoice_detail", 600); ("client_data", 900); ("agent_config", 3600);
   ("service_status", 60)].

(** [self.cache_max_size] *)
Definition cache_max_size : dict Z :=
  [("statistics", 10); ("invoice_list", 20); ("search_results", 50);
   ("invoice_detail", 100); ("client_data", 200); ("agent_config", 5);
   ("service_status", 5)].

Record stats : Type := mk_stats {
  total_requests : Z;
  cache_hits : Z;
  cache_misses : Z;
  evictions : Z;
  cleanup_runs : Z
}.

(** A call that reaches the document store or the search index. *)
Inductive backend_call : Type :=
| CosmosStatistics
| CosmosList (limit : Z)
| CosmosGet (invoice_number : string)
| CosmosSearch (query : string)
| IndexSearch (query : string)
| CosmosSave
| IndexInvoice
| CosmosUpdateStatus (invoice_number status : string)
| IndexUpdateStatus (invoice_number status : string).

(** The attributes of the manager the operations below touch.
    [cosmos_ready] is [services_available["cosmos"] and cosmos_service],
    [search_ready] likewise; [backend_log] is not in the source: it
    records, in order, the calls made to the document store and to the
    search index.  Calls to the AI service are not recorded. *)
Record t : Type := mk {
  cache : dict pyval;
  cache_timestamps : gmap string Z;
  cache_access_count : gmap string Z;
  cache_hit_count : gmap string Z;
  cache_miss_count : gmap string Z;
  cache_stats : stats;
  cosmos_ready : bool;
  search_ready : bool;
  backend_log : list backend_call
}.

(** [_initialize_cache] with the availability flags found at start-up. *)
Definition init (cosmos search : bool) : t :=
  {| cache := []; cache_timestamps := ∅; cache_access_count := ∅;
     cache_hit_count := ∅; cache_miss_count := ∅;
     cache_stats := mk_stats 0 0 0 0 0;
     cosmos_ready := cosmos; search_ready := search; backend_log := [] |}.

Definition with_stats (f : stats -> stats) (s : t) : t :=
  {| cache := cache s; cache_timestamps := cache_timestamps s;
     cache_access_count := cache_access_count s;
     cache_hit_count := cache_hit_count s;
     cache_miss_count := cache_miss_count s;
     cache_stats := f (cache_stats s);
     cosmos_ready := cosmos_ready s; search_ready := search_ready s;
     backend_log := backend_log s |}.

Definition log_call (c : backend_call) (s : t) : t :=
  {| cache := cache s; cache_timestamps := cache_timestamps s;
     cache_access_count := cache_access_count s;
     cache_hit_count := cache_hit_count s;
     cache_miss_count := cache_miss_count s;
     cache_stats := cache_stats s;
     cosmos_ready := cosmos_ready s; search_ready := search_ready s;
     backend_log := backend_log s ++ [c] |}.

(** The category the code reads off a key. *)
Definition cache_type_of (cache_key : string) : string := split_first cache_key.

(** [self.cache_ttl.get(cache_type, 300)] *)
Definition ttl_of (cache_key : string) : Z :=
  default 300 (dict_get (cache_type_of cache_key) cache_ttl).

(** [self.cache_max_size.get(cache_type, 50)] *)
Definition max_size_of (cache_key : string) : Z :=
  default 50 (dict_get (cache_type_of cache_key) cache_max_size).

(** [_is_cache_valid]: the age is counted in whole microseconds; the code
    subtracts two floats of [datetime.timestamp()], each within a fraction
    of a microsecond of its [datetime]. *)
Definition _is_cache_valid (now : Z) (cache_key : string) (s : t) : bool :=
  match cache_timestamps s !! cache_key with
  | None => false
  | Some timestamp => now - timestamp <? seconds (ttl_of cache_key)
  end.

(** [_get_from_cache]: [now] is the reading of the validity check,
    [touched] the one that refreshes the timestamp on a hit. *)
Definition _get_from_cache (now touched : Z) (cache_key : string) (s : t) : pyval * t :=
  let s1 := with_stats (fun st =>
              mk_stats (total_requests st + 1) (cache_hits st) (cache_misses st)
                       (evictions st) (cleanup_runs st)) s in
  if _is_cache_valid now cache_key s1
  then
    (default PyNone (dict_get cache_key (cache s1)),
     {| cache := cache s1;
        cache_timestamps := <[cache_key := touched]> (cache_timestamps s1);
        cache_access_count :=
          <[cache_key := default 0 (cache_access_count s1 !! cache_key) + 1]>
            (cache_access_count s1);
        cache_hit_count :=
          <[cache_key := default 0 (cache_hit_count s1 !! cache_key) + 1]>
            (cache_hit_count s1);
        cache_miss_count := cache_miss_count s1;
        cache_stats :=
          (let st := cache_stats s1 in
           mk_stats (total_requests st) (cache_hits st + 1) (cache_misses st)
                    (evictions st) (cleanup_runs st));
        cosmos_ready := cosmos_ready s1; search_ready := search_ready s1;
        backend_log := backend_log s1 |})
  else
    (PyNone,
     {| cache := cache s1;
        cache_timestamps := cache_timestamps s1;
        cache_access_count := cache_access_count s1;
        cache_hit_count := cache_hit_count s1;
        cache_miss_count :=
          <[cache_key := default 0 (cache_miss_count s1 !! cache_key) + 1]>
            (cache_miss_count s1);
        cache_stats :=
          (let st := cache_stats s1 in
           mk_stats (total_requests st) (cache_hits st) (cache_misses st + 1)
                    (evictions st) (cleanup_runs st));
        cosmos_ready := cosmos_ready s1; search_ready := search_ready s1;
        backend_log := backend_log s1 |}).

Definition _remove_cache_entry (cache_key : string) (s : t) : t :=
  {| cache := dict_pop cache_key (cache s);
     cache_timestamps := delete cache_key (cache_timestamps s);
     cache_access_count := delete cache_key (cache_access_count s);
     cache_hit_count := delete cache_key (cache_hit_count s);
     cache_miss_count := delete cache_key (cache_miss_count s);
     cache_stats := cache_stats s;
     cosmos_ready := cosmos_ready s; search_ready := search_ready s;
     backend_log := backend_log s |}.

(** [[key for key in self.cache.keys() if key.startswith(prefix)]] *)
Definition keys_with_prefix (prefix : string) (s : t) : list string :=
  List.filter (fun key => startswith key prefix) (dict_keys (cache s)).

(** [list.sort(key=lambda x: x[1])]: stable, oldest first. *)
Fixpoint insert_by_timestamp (x : string * Z) (l : list (string * Z)) : list (string * Z) :=
  match l with
  | [] => [x]
  | y :: l' => if snd y <? snd x then y :: insert_by_timestamp x l' else x :: y :: l'
  end.

Definition sort_by_timestamp (l : list (string * Z)) : list (string * Z) :=
  fold_right insert_by_timestamp [] l.

Definition count_eviction (s : t) : t :=
  with_stats (fun st =>
    mk_stats (total_requests st) (cache_hits st) (cache_misses st)
             (evictions st + 1) (cleanup_runs st)) s.

(** [_evict_lru_items].  [self.cache_timestamps[key]] raises [KeyError]
    on a key without a timestamp; the operations on the cache keep every
    key of [cache] among those of [cache_timestamps] (lemmas
    [wf_set_cache], [wf_remove], [wf_get_from_cache] and [wf_clear_cache]
    of [ServiceManagerFacts]), so the default is never used. *)
Definition _evict_lru_items (cache_type : string) (count : Z) (s : t) : t :=
  let type_items :=
    map (fun key => (key, default 0 (cache_timestamps s !! key)))
        (keys_with_prefix cache_type s) in
  let sorted := sort_by_timestamp type_items in
  let n := Z.to_nat (Z.min count (Z.of_nat (length sorted))) in
  fold_left (fun s' key_to_evict => count_eviction (_remove_cache_entry key_to_evict s'))
            (map fst (take n sorted)) s.

Definition _set_cache (now : Z) (cache_key : string) (data : pyval) (s : t) : t :=
  let cache_type := cache_type_of cache_key in
  let max_size := max_size_of cache_key in
  let current_items := keys_with_prefix cache_type s in
  let size := Z.of_nat (length current_items) in
  let s1 := if size >=? max_size
            then _evict_lru_items cache_type (size - max_size + 1) s
            else s in
  {| cache := dict_set cache_key data (cache s1);
     cache_timestamps := <[cache_key := now]> (cache_timestamps s1);
     cache_access_count := <[cache_key := 1]> (cache_access_count s1);
     cache_hit_count := <[cache_key := 0]> (cache_hit_count s1);
     cache_miss_count := <[cache_key := 0]> (cache_miss_count s1);
     cache_stats := cache_stats s1;
     cosmos_ready := cosmos_ready s1; search_ready := search_ready s1;
     backend_log := backend_log s1 |}.

(** [_clear_cache(pattern)]; [None] and the empty string clear everything. *)
Definition _clear_cache (pattern : option string) (s : t) : t :=
  match pattern with
  | Some p =>
      if String.eqb p "" then
        {| cache := []; cache_timestamps := ∅; cache_access_count := ∅;
           cache_hit_count := ∅; cache_miss_count := ∅;
           cache_stats := cache_stats s;
           cosmos_ready := cosmos_ready s; search_ready := search_ready s;
           backend_log := backend_log s |}
      else
        let keys_to_remove := List.filter (fun key => contains p key) (dict_keys (cache s)) in
        fold_left (fun s' key => _remove_cache_entry key s') keys_to_remove s
  | None =>
      {| cache := []; cache_timestamps := ∅; cache_access_count := ∅;
         cache_hit_count := ∅; cache_miss_count := ∅;
         cache_stats := cache_stats s;
         cosmos_ready := cosmos_ready s; search_ready := search_ready s;
         backend_log := backend_log s |}
  end.

(** The clock readings of one cache-aware read. *)
Record instants : Type := mk_instants {
  checked : Z;
  touched : Z;
  stored : Z
}.

(** [if not force_refresh: cached = self._get_from_cache(key); if cached:
    return cached]: the cached value when it is served, and the state. *)
Definition cached_read (force_refresh : bool) (i : instants) (cache_key : string)
    (s : t) : option pyval * t :=
  if force_refresh then (None, s)
  else
    let '(cached, s1) := _get_from_cache (checked i) (touched i) cache_key s in
    if truthy cached then (Some cached, s1) else (None, s1).

Definition degraded_statistics : pyval :=
  PyDict [("total_invoices", PyInt 0); ("status_breakdown", PyList []);
          ("total_outstanding_amount", PyFloat 0);
          ("error", PyStr "CosmosDB service not available")].

(** [get_statistics]; [fresh] is what the document store answers. *)
Definition get_statistics (force_refresh : bool) (i : instants) (fresh : pyval)
    (s : t) : pyval * t :=
  let cache_key := "statistics_main" in
  match cached_read force_refresh i cache_key s with
  | (Some cached_stats, s1) => (cached_stats, s1)
  | (None, s1) =>
      if negb (cosmos_ready s1) then (degraded_statistics, s1)
      else
        let s2 := log_call CosmosStatistics s1 in
        (fresh, _set_cache (stored i) cache_key fresh s2)
  end.

(** [list_invoices] *)
Definition list_invoices (limit : Z) (force_refresh : bool) (i : instants)
    (fresh : list pyval) (s : t) : pyval * t :=
  let cache_key := "invoice_list_" +:+ pretty limit in
  match cached_read force_refresh i cache_key s with
  | (Some cached_list, s1) => (cached_list, s1)
  | (None, s1) =>
      if negb (cosmos_ready s1) then (PyList [], s1)
      else
        let s2 := log_call (CosmosList limit) s1 in
        (PyList fresh, _set_cache (stored i) cache_key (PyList fresh) s2)
  end.

(** [get_invoice]; the document store answers a record or [None]. *)
Definition get_invoice (invoice_number : string) (force_refresh : bool)
    (i : instants) (fresh : pyval) (s : t) : pyval * t :=
  let cache_key := "invoice_detail_" +:+ invoice_number in
  match cached_read force_refresh i cache_key s with
  | (Some cached_invoice, s1) => (cached_invoice, s1)
  | (None, s1) =>
      if negb (cosmos_ready s1) then (PyNone, s1)
      else
        let s2 := log_call (CosmosGet invoice_number) s1 in
        (fresh, _set_cache (stored i) cache_key fresh s2)
  end.

Section search.
(** [hashlib.md5(text.encode()).hexdigest()], from the standard library. *)
Variable md5_hexdigest : string -> string.

Definition search_cache_key (query : string) : string :=
  let query_hash := String.substring 0 8 (md5_hexdigest (lower query)) in
  "search_results_" +:+ query_hash.

(** [search_invoices]; [index_answer] and [cosmos_answer] are what the
    search index and the document store do when they are asked. *)
Definition search_invoices (query : string) (force_refresh : bool) (i : instants)
    (index_answer cosmos_answer : outcome (list pyval)) (s : t) : pyval * t :=
  let cache_key := search_cache_key query in
  match cached_read force_refresh i cache_key s with
  | (Some cached_results, s1) => (cached_results, s1)
  | (None, s1) =>
      let '(results, s2) :=
        if search_ready s1 then
          match index_answer with
          | Returns found => (found, log_call (IndexSearch query) s1)
          | Raises _ => ([], log_call (IndexSearch query) s1)
          end
        else ([], s1) in
      let '(results, s3) :=
        if (match results with [] => true | _ => false end) && cosmos_ready s2 then
          match cosmos_answer with
          | Returns found => (found, log_call (CosmosSearch query) s2)
          | Raises _ => (results, log_call (CosmosSearch query) s2)
          end
        else (results, s2) in
      (PyList results, _set_cache (stored i) cache_key (PyList results) s3)
  end.

(** [invoice.get("invoice_data", {}).get("client", {}).get("name", "").lower()
    == client_name.lower()]; [None] when an attribute is missing. *)
Definition is_client_match (client_name : string) (invoice : pyval) : option bool :=
  match py_get "invoice_data" (PyDict []) invoice with
  | None => None
  | Some invoice_data =>
      match py_get "client" (PyDict []) invoice_data with
      | None => None
      | Some client =>
          match py_get "name" (PyStr "") client with
          | Some (PyStr invoice_client) =>
              Some (String.eqb (lower invoice_client) (lower client_name))
          | _ => None
          end
      end
  end.

Fixpoint filter_client (client_name : string) (invoices : list pyval)
  : option (list pyval) :=
  match invoices with
  | [] => Some []
  | invoice :: rest =>
      match is_client_match client_name invoice with
      | None => None
      | Some keep =>
          match filter_client client_name rest with
          | None => None
          | Some kept => Some (if keep then invoice :: kept else kept)
          end
      end
  end.

Definition client_cache_key (client_name : string) : string :=
  "client_data_" +:+ replace_space (lower client_name).

(** [get_client_invoices]; [i_search] are the readings of the inner
    [search_invoices] call. *)
Definition get_client_invoices (client_name : string) (force_refresh : bool)
    (i i_search : instants) (index_answer cosmos_answer : outcome (list pyval))
    (s : t) : outcome pyval * t :=
  let cache_key := client_cache_key client_name in
  match cached_read force_refresh i cache_key s with
  | (Some cached_invoices, s1) => (Returns cached_invoices, s1)
  | (None, s1) =>
      let '(invoices, s2) :=
        search_invoices client_name false i_search index_answer cosmos_answer s1 in
      match invoices with
      | PyList found =>
          match filter_client client_name found with
          | Some client_invoices =>
              (Returns (PyList client_invoices),
               _set_cache (stored i) cache_key (PyList client_invoices) s2)
          | None => (Raises "AttributeError", s2)
          end
      | _ => (Raises "AttributeError", s2)
      end
  end.

End search.

(** [get_service_status_cached]; [status] is the answer of
    [get_service_status()] and [cache_statistics] that of
    [get_cache_statistics()].  With the AI project client available
    [get_service_status] runs [test_ai_connectivity], which creates a
    thread and a message on the AI service: what that probe found is part
    of [status], and its calls are not in [backend_log]. *)
Definition get_service_status_cached (force_refresh : bool) (i : instants)
    (status : dict pyval) (cache_statistics : pyval) (s : t) : pyval * t :=
  let cache_key := "service_status_main" in
  match cached_read force_refresh i cache_key s with
  | (Some cached_status, s1) => (cached_status, s1)
  | (None, s1) =>
      let status' := PyDict (dict_set "cache_statistics" cache_statistics status) in
      (status', _set_cache (stored i) cache_key status' s1)
  end.

Record save_result : Type := mk_save_result {
  cosmos_saved : bool;
  search_indexed : bool;
  storage_warnings : list string
}.

(** The block of [save_invoice] under [if result["cosmos_saved"]:]. *)
Definition invalidate_after_save (invoice_number : option string) (client_name : string)
    (s : t) : t :=
  let s_a := _clear_cache (Some "statistics") s in
  let s_b := _clear_cache (Some "invoice_list") s_a in
  let s_c :=
    match invoice_number with
    | Some number =>
        if String.eqb number "" then s_b
        else _remove_cache_entry ("invoice_detail_" +:+ number) s_b
    | None => s_b
    end in
  if String.eqb client_name "" then s_c
  else _remove_cache_entry
         ("client_data_" +:+ replace_space (lower client_name)) s_c.

(** The block of [update_invoice_status] under [if success:]. *)
Definition invalidate_after_status_update (invoice_number : string) (s : t) : t :=
  let s_a := _clear_cache (Some "statistics") s in
  let s_b := _remove_cache_entry ("invoice_detail_" +:+ invoice_number) s_a in
  let search_keys := keys_with_prefix "search_results" s_b in
  fold_left (fun s' key => _remove_cache_entry key s') search_keys s_b.

(** [save_invoice]: [invoice_number] is [invoice_data.get("invoice_number")],
    [client_name] is [invoice_data.get("client", {}).get("name", "")], for
    invoice data whose ["client"], if there is one, is a [dict]; on other
    data the code raises [AttributeError] there, after the services were
    called and before any entry is removed. *)
Definition save_invoice (invoice_number : option string) (client_name : string)
    (cosmos_answer index_answer : outcome bool) (s : t) : save_result * t :=
  let '(saved, warnings, s1) :=
    if cosmos_ready s then
      match cosmos_answer with
      | Returns ok => (ok, [], log_call CosmosSave s)
      | Raises _ => (false, ["Failed to save to CosmosDB"], log_call CosmosSave s)
      end
    else (false, [], s) in
  let '(indexed, warnings, s2) :=
    if search_ready s1 then
      match index_answer with
      | Returns ok => (ok, warnings, log_call IndexInvoice s1)
      | Raises _ =>
          (false, warnings ++ ["Failed to index in Azure Search"],
           log_call IndexInvoice s1)
      end
    else (false, warnings, s1) in
  let s3 :=
    if saved then invalidate_after_save invoice_number client_name s2 else s2 in
  (mk_save_result saved indexed warnings, s3).

(** [update_invoice_status]; the two services answer with a [bool]. *)
Definition update_invoice_status (invoice_number status : string)
    (cosmos_answer index_answer : bool) (s : t) : bool * t :=
  let '(success, s1) :=
    if cosmos_ready s
    then (cosmos_answer, log_call (CosmosUpdateStatus invoice_number status) s)
    else (false, s) in
  let s2 :=
    if search_ready s1
    then log_call (IndexUpdateStatus invoice_number status) s1
    else s1 in
  let s3 := if success then invalidate_after_status_update invoice_number s2 else s2 in
  (success, s3).

(** [cleanup_expired_cache], the function the cache timer runs every five
    minutes; [current_time] is its one reading of the clock.  The expired
    keys are collected first and removed afterwards, so the order in which
    [cache_timestamps.items()] lists them does not show in the result. *)
Definition expired_keys (current_time : Z) (s : t) : list string :=
  map fst
    (List.filter (fun item => current_time - snd item >? seconds (ttl_of (fst item)))
                 (map_to_list (cache_timestamps s))).

Definition cleanup_expired_cache (current_time : Z) (s : t) : t :=
  let s1 := fold_left (fun s' key => _remove_cache_entry key s')
                      (expired_keys current_time s) s in
  with_stats (fun st =>
    mk_stats (total_requests st) (cache_hits st) (cache_misses st)
             (evictions st) (cleanup_runs st + 1)) s1.

(** What [get_cache_statistics] returns.  [counters] are the five numbers
    of ["performance"]; [hit_rate] is the sixth before [round(_, 2)], the
    division taken in [Q]; [cache_entries], [timestamp_entries] and
    [access_count_entries] are the numbers of ["memory_usage"]. *)
Record cache_statistics : Type := mk_cache_statistics {
  counters : stats;
  hit_rate : Q;
  cache_sizes : dict Z;
  total_cached_items : Z;
  cache_entries : Z;
  timestamp_entries : Z;
  access_count_entries : Z
}.

Definition get_cache_statistics (s : t) : cache_statistics :=
  let requests := total_requests (cache_stats s) in
  {| counters := cache_stats s;
     hit_rate :=
       if requests >? 0
       then (inject_Z (cache_hits (cache_stats s)) / inject_Z requests * 100)%Q
       else 0%Q;
     cache_sizes :=
       map (fun cache_type =>
              (cache_type, Z.of_nat (length (keys_with_prefix cache_type s))))
           (dict_keys cache_ttl);
     total_cached_items := Z.of_nat (length (cache s));
     cache_entries := Z.of_nat (length (cache s));
     timestamp_entries := Z.of_nat (size (cache_timestamps s));
     access_count_entries := Z.of_nat (size (cache_access_count s)) |}.

(** The calls made on a manager: its cache-aware operations, the timer's
    sweep, and [_clear_cache], which the dashboard calls to empty the
    cache. *)
Inductive call : Type :=
| GetStatistics (force_refresh : bool) (i : instants) (fresh : pyval)
| ListInvoices (limit : Z) (force_refresh : bool) (i : instants) (fresh : list pyval)
| GetInvoice (invoice_number : string) (force_refresh : bool) (i : instants)
    (fresh : pyval)
| SearchInvoices (query : string) (force_refresh : bool) (i : instants)
    (index_answer cosmos_answer : outcome (list pyval))
| GetClientInvoices (client_name : string) (force_refresh : bool) (i i_search : instants)
    (index_answer cosmos_answer : outcome (list pyval))
| GetServiceStatusCached (force_refresh : bool) (i : instants) (status : dict pyval)
    (statistics : pyval)
| SaveInvoice (invoice_number : option string) (client_name : string)
    (cosmos_answer index_answer : outcome bool)
| UpdateInvoiceStatus (invoice_number status : string) (cosmos_answer index_answer : bool)
| CleanupExpiredCache (current_time : Z)
| ClearCache (pattern : option string).

Section calls.
Variable md5_hexdigest : string -> string.

Definition step (s : t) (c : call) : t :=
  match c with
  | GetStatistics force_refresh i fresh => snd (get_statistics force_refresh i fresh s)
  | ListInvoices limit force_refresh i fresh =>
      snd (list_invoices limit force_refresh i fresh s)
  | GetInvoice invoice_number force_refresh i fresh =>
      snd (get_invoice invoice_number force_refresh i fresh s)
  | SearchInvoices query force_refresh i index_answer cosmos_answer =>
      snd (search_invoices md5_hexdigest query force_refresh i index_answer
             cosmos_answer s)
  | GetClientInvoices client_name force_refresh i i_search index_answer cosmos_answer =>
      snd (get_client_invoices md5_hexdigest client_name force_refresh i i_search
             index_answer cosmos_answer s)
  | GetServiceStatusCached force_refresh i status statistics =>
      snd (get_service_status_cached force_refresh i status statistics s)
  | SaveInvoice invoice_number client_name cosmos_answer index_answer =>
      snd (save_invoice invoice_number client_name cosmos_answer index_answer s)
  | UpdateInvoiceStatus invoice_number status cosmos_answer index_answer =>
      snd (update_invoice_status invoice_number status cosmos_answer index_answer s)
  | CleanupExpiredCache current_time => cleanup_expired_cache current_time s
  | ClearCache pattern => _clear_cache pattern s
  end.

Definition run (s : t) (cs : list call) : t := fold_left step cs s.

(** The states a manager can be in. *)
Definition reachable (s : t) : Prop :=
  exists cosmos search cs, s = run (init cosmos search) cs.

End calls.

(** The service attributes of the manager.  A handle is [true] when the
    attribute holds an object and [false] when it is [None]. *)
Record services : Type := mk_services {
  services_available : dict bool;
  cosmos_service : bool;
  search_service : option AzureSearchService.t;
  ai_project_client : bool;
  blob_service : bool;
  agent : bool
}.

(** What start-up meets: whether [CosmosDBService()] returns and what its
    [is_available()] then answers, what [AzureSearchService()] and
    [AIProjectClient(...)] do, whether a storage connection string is
    configured and what [from_connection_string] does, and whether
    [_get_or_create_agent()] returns an agent. *)
Record startup : Type := mk_startup {
  cosmos_constructed : outcome bool;
  search_constructed : outcome AzureSearchService.t;
  ai_client_constructed : outcome unit;
  storage_configured : bool;
  blob_constructed : outcome unit;
  agent_obtained : bool
}.

(** [services_available[name] = True] *)
Definition flag (name : string) (sv : services) : services :=
  {| services_available := dict_set name true (services_available sv);
     cosmos_service := cosmos_service sv; search_service := search_service sv;
     ai_project_client := ai_project_client sv; blob_service := blob_service sv;
     agent := agent sv |}.

Definition no_services : services :=
  {| services_available :=
       [("cosmos", false); ("search", false); ("ai_project", false);
        ("blob_storage", false); ("agent", false)];
     cosmos_service := false; search_service := None; ai_project_client := false;
     blob_service := false; agent := false |}.

Definition _init_cosmos_service (st : startup) (sv : services) : services :=
  let with_handle (handle : bool) :=
    {| services_available := services_available sv;
       cosmos_service := handle; search_service := search_service sv;
       ai_project_client := ai_project_client sv; blob_service := blob_service sv;
       agent := agent sv |} in
  match cosmos_constructed st with
  | Returns is_available =>
      if is_available then flag "cosmos" (with_handle true) else with_handle true
  | Raises _ => with_handle false
  end.

Definition _init_search_service (st : startup) (sv : services) : services :=
  let with_handle (handle : option AzureSearchService.t) :=
    {| services_available := services_available sv;
       cosmos_service := cosmos_service sv; search_service := handle;
       ai_project_client := ai_project_client sv; blob_service := blob_service sv;
       agent := agent sv |} in
  match search_constructed st with
  | Returns service => flag "search" (with_handle (Some service))
  | Raises _ => with_handle None
  end.

Definition _init_ai_project_client (st : startup) (sv : services) : services :=
  let with_handle (handle : bool) :=
    {| services_available := services_available sv;
       cosmos_service := cosmos_service sv; search_service := search_service sv;
       ai_project_client := handle; blob_service := blob_service sv;
       agent := agent sv |} in
  match ai_client_constructed st with
  | Returns _ => flag "ai_project" (with_handle true)
  | Raises _ => with_handle false
  end.

Definition _init_blob_service (st : startup) (sv : services) : services :=
  let with_handle (handle : bool) :=
    {| services_available := services_available sv;
       cosmos_service := cosmos_service sv; search_service := search_service sv;
       ai_project_client := ai_project_client sv; blob_service := handle;
       agent := agent sv |} in
  if storage_configured st then
    match blob_constructed st with
    | Returns _ => flag "blob_storage" (with_handle true)
    | Raises _ => with_handle false
    end
  else sv.

Definition _init_agent (st : startup) (sv : services) : services :=
  let with_handle (handle : bool) :=
    {| services_available := services_available sv;
       cosmos_service := cosmos_service sv; search_service := search_service sv;
       ai_project_client := ai_project_client sv; blob_service := blob_service sv;
       agent := handle |} in
  if ai_project_client sv then
    if agent_obtained st then flag "agent" (with_handle true) else with_handle false
  else sv.

Definition _initialize_services (st : startup) : services :=
  _init_agent st
    (_init_blob_service st
       (_init_ai_project_client st
          (_init_search_service st
             (_init_cosmos_service st no_services)))).

(** [services_available.get(service_name, False)], refined for the AI
    services. *)
Definition is_service_available (service_name : string) (sv : services) : bool :=
  let base_available := default false (dict_get service_name (services_available sv)) in
  if String.eqb service_name "ai_project" && base_available
  then ai_project_client sv
  else if String.eqb service_name "agent" && base_available
  then agent sv && ai_project_client sv
  else base_available.

(** [get_ai_project_client] and [get_agent]: the handle when the flag is
    set, [None] otherwise; [services_available] holds the five names from
    start-up on, so the subscript finds its key. *)
Definition get_ai_project_client (sv : services) : bool :=
  if default false (dict_get "ai_project" (services_available sv))
  then ai_project_client sv else false.

Definition get_agent (sv : services) : bool :=
  if default false (dict_get "agent" (services_available sv))
  then agent sv else false.

(** What the agent run ends as: [run.status] and the text of
    [run.last_error]. *)
Record agent_run : Type := mk_agent_run {
  run_status : string;
  last_error : string
}.

(** A message of the thread: its role and the values of its text parts. *)
Record agent_message : Type := mk_agent_message {
  role : string;
  text_messages : list string
}.

(** What the AI service does during one generation: creating the thread
    (its id), posting the message, running the agent, listing the
    messages. *)
Record ai_backend : Type := mk_ai_backend {
  thread_created : outcome string;
  message_created : outcome unit;
  run_processed : outcome agent_run;
  messages_listed : outcome (list agent_message)
}.

Definition not_completed_message : string :=
  "AI processing did not complete successfully".

(** [_ai_generate_with_fallback]; the [except] block prints the error and
    raises it again. *)
Definition _ai_generate_with_fallback (sv : services) (ai : ai_backend) : outcome pyval :=
  if negb (is_service_available "ai_project" sv) || negb (is_service_available "agent" sv)
  then Raises "AI services not available"
  else if negb (get_ai_project_client sv) || negb (get_agent sv)
  then Raises "AI client or agent not properly initialized"
  else
    match thread_created ai with
    | Raises message => Raises message
    | Returns thread_id =>
        match message_created ai with
        | Raises message => Raises message
        | Returns _ =>
            match run_processed ai with
            | Raises message => Raises message
            | Returns run =>
                if String.eqb (run_status run) "completed" then
                  match messages_listed ai with
                  | Raises message => Raises message
                  | Returns messages =>
                      let assistant_messages :=
                        List.filter (fun msg => String.eqb (role msg) "assistant")
                                    messages in
                      match last assistant_messages with
                      | Some last_message =>
                          match last (text_messages last_message) with
                          | Some response =>
                              Returns (PyDict [("success", PyBool true);
                                               ("response", PyStr response);
                                               ("thread_id", PyStr thread_id);
                                               ("method", PyStr "ai_generated")])
                          | None => Raises not_completed_message
                          end
                      | None => Raises not_completed_message
                      end
                  end
                else if String.eqb (run_status run) "failed" then
                  Raises ("AI processing failed: " +:+ last_error run)
                else Raises not_completed_message
            end
        end
    end.

(** [enhanced_ai_generate]: [_ai_generate_with_fallback] under
    [with_retry(max_retries=5, base_delay=2.0, max_delay=120.0)]; [ai n] is
    what the AI service does at the [n]-th invocation. *)
Definition enhanced_ai_generate (sv : services) (ai : nat -> ai_backend)
    (clock : nat -> Z) (uniform : nat -> Q)
  : RateLimitHandler.handler -> outcome pyval * RateLimitHandler.handler :=
  RateLimitHandler.wrapper 5 2 120
    {| RateLimitHandler.func := fun n => _ai_generate_with_fallback sv (ai n);
       RateLimitHandler.clock := clock;
       RateLimitHandler.uniform := uniform |}.

End ServiceManager.

(** ** InvoiceQueue: generation jobs *)

Module InvoiceQueue.
Import Py.

Inductive JobStatus : Type := QUEUED | PROCESSING | COMPLETED | FAILED | CANCELLED.

Definition JobStatus_eqb (a b : JobStatus) : bool :=
  match a, b with
  | QUEUED, QUEUED | PROCESSING, PROCESSING | COMPLETED, COMPLETED
  | FAILED, FAILED | CANCELLED, CANCELLED => true
  | _, _ => false
  end.

Record InvoiceJob : Type := mk_job {
  job_id : string;
  order_details : pyval;
  status : JobStatus;
  created_at : Z;
  started_at : option Z;
  completed_at : option Z;
  result : option pyval;
  error : option string;
  progress : Q;
  retry_count : Z;
  max_retries : Z
}.

(** The queue object.  [jobs] is [_memory_jobs], or the hashes [job:<id>]
    of the Redis store; [queue] is [_memory_queue], or the sorted set
    [invoice_queue], highest priority first; [notified] lists the status
    changes handed to the callbacks. *)
Record t : Type := mk {
  redis_client : bool;
  jobs : gmap string InvoiceJob;
  queue : list (Z * string);
  notified : list (string * JobStatus)
}.

Definition init (redis : bool) : t :=
  {| redis_client := redis; jobs := ∅; queue := []; notified := [] |}.

(** Tuples [(priority, job_id)] compared as Python compares them. *)
Definition item_ltb (a b : Z * string) : bool :=
  (fst a <? fst b) || ((fst a =? fst b) && String.ltb (snd a) (snd b)).

(** [list.sort(reverse=True)]: stable, largest first. *)
Fixpoint insert_desc (x : Z * string) (l : list (Z * string)) : list (Z * string) :=
  match l with
  | [] => [x]
  | y :: l' => if item_ltb x y then y :: insert_desc x l' else x :: y :: l'
  end.

Definition sort_desc (l : list (Z * string)) : list (Z * string) :=
  fold_right insert_desc [] l.

(** [_memory_queue.append(item); _memory_queue.sort(reverse=True)], or
    [zadd] into the sorted set, where an item already present stays once. *)
Definition push (item : Z * string) (q : t) : list (Z * string) :=
  if redis_client q
  then if existsb (fun other => (fst other =? fst item) && String.eqb (snd other) (snd item))
                  (queue q)
       then queue q
       else sort_desc (queue q ++ [item])
  else sort_desc (queue q ++ [item]).

Definition notify (job : InvoiceJob) (q : t) : t :=
  {| redis_client := redis_client q; jobs := jobs q; queue := queue q;
     notified := notified q ++ [(job_id job, status job)] |}.

(** [enqueue_invoice]; [new_id] is the [uuid4] drawn for the job. *)
Definition enqueue_invoice (now : Z) (new_id : string) (details : pyval)
    (priority : Z) (q : t) : string * t :=
  let job :=
    {| job_id := new_id; order_details := details; status := QUEUED;
       created_at := now; started_at := None; completed_at := None;
       result := None; error := None; progress := 0;
       retry_count := 0; max_retries := 3 |} in
  (new_id,
   notify job
     {| redis_client := redis_client q;
        jobs := <[new_id := job]> (jobs q);
        queue := push (priority, new_id) q;
        notified := notified q |}).

(** [get_job_status]: the job object itself from [_memory_jobs], a fresh
    object built from the stored hash with Redis.  Either way its fields
    are those stored. *)
Definition get_job_status (id : string) (q : t) : option InvoiceJob := jobs q !! id.

(** [update_job_status] *)
Definition update_job_status (now : Z) (id : string) (new_status : JobStatus)
    (new_progress : option Q) (new_result : option pyval) (new_error : option string)
    (q : t) : t :=
  match get_job_status id q with
  | None => q
  | Some job =>
      let job' :=
        {| job_id := job_id job; order_details := order_details job;
           status := new_status;
           created_at := created_at job;
           started_at :=
             match new_status, started_at job with
             | PROCESSING, None => Some now
             | _, _ => started_at job
             end;
           completed_at :=
             match new_status with
             | COMPLETED | FAILED | CANCELLED => Some now
             | _ => completed_at job
             end;
           result := match new_result with Some r => Some r | None => result job end;
           error := match new_error with Some m => Some m | None => error job end;
           progress := match new_progress with Some p => p | None => progress job end;
           retry_count := retry_count job; max_retries := max_retries job |} in
      notify job'
        {| redis_client := redis_client q;
           jobs := <[id := job']> (jobs q);
           queue := queue q;
           notified := notified q |}
  end.

(** [_get_next_job] *)
Definition _get_next_job (q : t) : option string * t :=
  match queue q with
  | [] => (None, q)
  | (_, id) :: rest =>
      (Some id,
       {| redis_client := redis_client q; jobs := jobs q; queue := rest;
          notified := notified q |})
  end.

(** [job.retry_count += 1] on the object [get_job_status] returned: the
    stored job with [_memory_jobs], a copy with Redis. *)
Definition bump_retry_count (id : string) (job : InvoiceJob) (q : t) : InvoiceJob * t :=
  let job' :=
    {| job_id := job_id job; order_details := order_details job;
       status := status job; created_at := created_at job;
       started_at := started_at job; completed_at := completed_at job;
       result := result job; error := error job; progress := progress job;
       retry_count := retry_count job + 1; max_retries := max_retries job |} in
  (job',
   if redis_client q then q
   else {| redis_client := redis_client q;
           jobs := <[id := job']> (jobs q);
           queue := queue q;
           notified := notified q |}).

(** The [except] block of [_process_job]. *)
Definition on_failure (now : Z) (id : string) (error_msg : string) (q : t) : t :=
  match get_job_status id q with
  | Some job =>
      if retry_count job <? max_retries job then
        let '(job', q1) := bump_retry_count id job q in
        let q2 := update_job_status now id QUEUED None None None q1 in
        {| redis_client := redis_client q2; jobs := jobs q2;
           queue := push (- retry_count job', id) q2;
           notified := notified q2 |}
      else update_job_status now id FAILED None None (Some error_msg) q
  | None => update_job_status now id FAILED None None (Some error_msg) q
  end.

(** The message of [Exception(f"AI generation failed: {result.get('error',
    'Unknown error')}")]; the text of an error that is not a [str] is not
    followed. *)
Definition generation_failed_message (generated : pyval) : string :=
  "AI generation failed: " +:+
  match py_get "error" (PyStr "Unknown error") generated with
  | Some (PyStr message) => message
  | _ => ""
  end.

(** [_memory_queue.pop(0)] takes the head; [zrange] lists the sorted set
    lowest score first, and the first item of the job found there goes. *)
Fixpoint remove_first (id : string) (l : list (Z * string)) : list (Z * string) :=
  match l with
  | [] => []
  | item :: l' => if String.eqb (snd item) id then l' else item :: remove_first id l'
  end.

(** [result.get("success")] *)
Definition reports_success (generated : pyval) : option bool :=
  option_map truthy (py_get "success" PyNone generated).

(** [_process_job]: [generated] is what [enhanced_ai_generate] does,
    [stored_result] is what extracting and saving the invoice does (the
    ["storage_result"] it yields, or the error it raises); [started] and
    [finished] are the clock before and after the generation. *)
Definition _process_job (started finished : Z) (id : string)
    (generated : outcome pyval) (saved : outcome (pyval * pyval)) (q : t) : t :=
  match get_job_status id q with
  | None => q
  | Some job =>
      let q1 := update_job_status started id PROCESSING (Some 0%Q) None None q in
      let q2 := update_job_status started id PROCESSING (Some (2 # 10)) None None q1 in
      match generated with
      | Raises message => on_failure finished id message q2
      | Returns response =>
          let q3 := update_job_status finished id PROCESSING (Some (6 # 10)) None None q2 in
          match reports_success response with
          | None => on_failure finished id "AttributeError" q3
          | Some false =>
              on_failure finished id (generation_failed_message response) q3
          | Some true =>
              match saved with
              | Raises message => on_failure finished id message q3
              | Returns (invoice_data, storage_result) =>
                  let q4 := update_job_status finished id PROCESSING (Some (9 # 10))
                              None None q3 in
                  let final_result :=
                    PyDict [("success", PyBool true); ("invoice_data", invoice_data);
                            ("storage_result", storage_result);
                            ("method", PyStr "queue_processed")] in
                  update_job_status finished id COMPLETED (Some 1%Q)
                    (Some final_result) None q4
              end
          end
      end
  end.

(** [cancel_job] *)
Definition cancel_job (now : Z) (id : string) (q : t) : bool * t :=
  match get_job_status id q with
  | None => (false, q)
  | Some job =>
      if JobStatus_eqb (status job) QUEUED then
        let q1 := update_job_status now id CANCELLED None None None q in
        (true,
         {| redis_client := redis_client q1; jobs := jobs q1;
            queue :=
              if redis_client q1
              then rev (remove_first id (rev (queue q1)))
              else List.filter (fun item => negb (String.eqb (snd item) id)) (queue q1);
            notified := notified q1 |})
      else (false, q)
  end.

(** The worker: take the next job and process it. *)
Definition work (started finished : Z) (generated : outcome pyval)
    (saved : outcome (pyval * pyval)) (q : t) : t :=
  match _get_next_job q with
  | (Some id, q1) => _process_job started finished id generated saved q1
  | (None, q1) => q1
  end.

Definition status_of (id : string) (q : t) : option JobStatus :=
  option_map status (get_job_status id q).

Definition retries_of (id : string) (q : t) : option Z :=
  option_map retry_count (get_job_status id q).







(** The queue together with its worker pool: [submitted] lists the jobs
    handed to [worker_pool.submit(self._process_job, job_id)] whose
    [_process_job] has not run yet. *)
Record system : Type := mk_system {
  invoice_queue : t;
  submitted : list string
}.

(** One turn of the loop of [_worker_loop]: the next job, if there is
    one, is submitted to the pool; [if job_id:] takes an empty id for no
    job. *)
Definition _worker_loop (s : system) : system :=
  match _get_next_job (invoice_queue s) with
  | (Some id, q1) =>
      if String.eqb id ""
      then {| invoice_queue := q1; submitted := submitted s |}
      else {| invoice_queue := q1; submitted := submitted s ++ [id] |}
  | (None, q1) => {| invoice_queue := q1; submitted := submitted s |}
  end.

Fixpoint remove_submitted (id : string) (l : list string) : list string :=
  match l with
  | [] => []
  | id' :: l' => if String.eqb id' id then l' else id' :: remove_submitted id l'
  end.

(** What happens to a queue: a caller enqueues or cancels, the worker
    thread takes a turn, the pool runs a submitted [_process_job]. *)
Inductive call : Type :=
| EnqueueInvoice (now : Z) (new_id : string) (details : pyval) (priority : Z)
| WorkerLoop
| ProcessJob (started finished : Z) (id : string) (generated : outcome pyval)
    (saved : outcome (pyval * pyval))
| CancelJob (now : Z) (id : string).

Definition step (s : system) (c : call) : system :=
  match c with
  | EnqueueInvoice now new_id details priority =>
      {| invoice_queue := snd (enqueue_invoice now new_id details priority (invoice_queue s));
         submitted := submitted s |}
  | WorkerLoop => _worker_loop s
  | ProcessJob started finished id generated saved =>
      {| invoice_queue :=
           _process_job started finished id generated saved (invoice_queue s);
         submitted := remove_submitted id (submitted s) |}
  | CancelJob now id =>
      {| invoice_queue := snd (cancel_job now id (invoice_queue s));
         submitted := submitted s |}
  end.

(** [str(uuid.uuid4())] is not empty and is the id of no job, and the
    pool runs only what was submitted to it. *)
Definition possible (s : system) (c : call) : Prop :=
  match c with
  | EnqueueInvoice _ new_id _ _ =>
      new_id <> "" /\ jobs (invoice_queue s) !! new_id = None
  | ProcessJob _ _ id _ _ => In id (submitted s)
  | WorkerLoop | CancelJob _ _ => True
  end.

(** The states of a queue and its pool. *)
Inductive reachable : system -> Prop :=
| reachable_start (redis : bool) :
    reachable {| invoice_queue := init redis; submitted := [] |}
| reachable_next (s : system) (c : call) :
    reachable s -> possible s c -> reachable (step s c).

End InvoiceQueue.

(** * Properties *)

(** ** The circuit breaker *)

Module CircuitBreakerFacts.
Import CircuitBreaker.

(** What holds of a default breaker whatever calls were made on it. *)
Record inv (b : t) : Prop := mk_inv {
  inv_threshold : failure_threshold b = 5;
  inv_timeout : recovery_timeout b = 60;
  inv_max_calls : half_open_max_calls b = 3;
  inv_count : 0 <= failure_count b;
  inv_tripped : state b <> CLOSED -> 5 <= failure_count b;
  inv_clock : state b <> CLOSED -> last_failure_time b <> None;
  inv_trials : state b = HALF_OPEN -> 0 <= half_open_calls b < 3
}.

Lemma breaker_inv_init : inv init.
Proof. split; simpl; try lia; congruence. Qed.

Ltac close_inv :=
  split; simpl; intros; subst;
  repeat match goal with
         | H : ?a <> ?b -> _ |- _ =>
             first [ specialize (H ltac:(congruence)) | clear H ]
         | H : ?a = ?b -> _ |- _ =>
             first [ specialize (H ltac:(congruence)) | clear H ]
         end;
  try congruence; try lia.

Lemma breaker_inv_step b c : inv b -> inv (step b c).
Proof.
  intros [Ht Hr Hm Hc Htr Hcl Hh].
  destruct c as [now| |now]; simpl.
  - unfold can_execute.
    destruct (state b) eqn:Es; simpl; [close_inv| |close_inv].
    destruct (_should_attempt_reset now b); simpl; close_inv.
  - unfold record_success.
    destruct (state b) eqn:Es; [close_inv|close_inv|].
    rewrite Hm.
    destruct (half_open_calls b + 1 >=? 3) eqn:E; close_inv.
  - unfold record_failure. rewrite Ht.
    destruct (failure_count b + 1 >=? 5) eqn:E; close_inv.
Qed.

Lemma breaker_inv_run cs : forall b, inv b -> inv (run b cs).
Proof.
  induction cs as [|c cs IH]; intros b Hb; simpl; [exact Hb|].
  apply IH, breaker_inv_step, Hb.
Qed.

Lemma breaker_reachable_inv b : reachable b -> inv b.
Proof. intros [cs ->]. apply breaker_inv_run, breaker_inv_init. Qed.

Lemma breaker_reachable_init : reachable init.
Proof. exists []. reflexivity. Qed.

Lemma breaker_reachable_step b c : reachable b -> reachable (step b c).
Proof.
  intros [cs ->]. exists (cs ++ [c]). unfold run. now rewrite fold_left_app.
Qed.

(** [n] failures in a row, recorded at the times [times]. *)
Definition fail_all (times : list Z) (b : t) : t :=
  fold_left (fun b' now => record_failure now b') times b.

Lemma fail_all_count times : forall b,
  failure_threshold (fail_all times b) = failure_threshold b /\
  recovery_timeout (fail_all times b) = recovery_timeout b /\
  failure_count (fail_all times b) = failure_count b + Z.of_nat (length times).
Proof.
  induction times as [|now times IH]; intros b; simpl; [repeat split; lia|].
  destruct (IH (record_failure now b)) as (H1 & H2 & H3).
  rewrite H1, H2, H3. simpl. repeat split; lia.
Qed.

Lemma fail_all_snoc times now b :
  fail_all (times ++ [now]) b = record_failure now (fail_all times b).
Proof. unfold fail_all. now rewrite fold_left_app. Qed.

(** After five failures in a row the breaker is open and its recovery
    clock starts at the last of them. *)
Lemma five_failures_open b times last :
  inv b -> length times = 4%nat ->
  let b' := fail_all (times ++ [last]) b in
  state b' = OPEN /\ last_failure_time b' = Some last /\
  recovery_timeout b' = 60.
Proof.
  intros Hb Hlen b'. subst b'. rewrite fail_all_snoc.
  destruct (fail_all_count times b) as (H1 & H2 & H3).
  unfold record_failure; simpl.
  rewrite H1, H2, H3, Hlen, (inv_threshold _ Hb), (inv_timeout _ Hb).
  pose proof (inv_count _ Hb).
  replace (failure_count b + Z.of_nat 4 + 1 >=? 5) with true
    by (symmetry; apply Z.geb_le; lia).
  auto.
Qed.

Definition count_true (l : list bool) : nat := length (List.filter id l).

(** While half-open, [can_execute] answers from [half_open_calls] and
    changes nothing: asking again gives the same answer. *)
Lemma can_execute_half_open now b :
  state b = HALF_OPEN ->
  can_execute now b = (half_open_calls b <? half_open_max_calls b, b).
Proof. intros Hs. unfold can_execute. now rewrite Hs. Qed.

Lemma can_execute_n_half_open n now b :
  state b = HALF_OPEN -> half_open_calls b < half_open_max_calls b ->
  can_execute_n n now b = (repeat true n, b).
Proof.
  intros Hs Hlt. induction n as [|n IH]; simpl; [reflexivity|].
  rewrite can_execute_half_open by exact Hs.
  rewrite IH. replace (half_open_calls b <? half_open_max_calls b) with true
    by (symmetry; apply Z.ltb_lt; exact Hlt).
  reflexivity.
Qed.

Lemma can_execute_open_early now b last :
  state b = OPEN -> last_failure_time b = Some last ->
  now - last <= seconds (recovery_timeout b) ->
  can_execute now b = (false, b).
Proof.
  intros Hs Hl Hle. unfold can_execute, _should_attempt_reset.
  rewrite Hs, Hl.
  replace (now - last >? seconds (recovery_timeout b)) with false; [reflexivity|].
  symmetry. rewrite Z.gtb_ltb. apply Z.ltb_ge. exact Hle.
Qed.

Lemma can_execute_open_late now b last :
  state b = OPEN -> last_failure_time b = Some last ->
  seconds (recovery_timeout b) < now - last ->
  exists b1, can_execute now b = (true, b1) /\
    state b1 = HALF_OPEN /\ half_open_calls b1 = 0 /\
    half_open_max_calls b1 = half_open_max_calls b /\
    failure_count b1 = failure_count b /\
    last_failure_time b1 = Some last.
Proof.
  intros Hs Hl Hlt. unfold can_execute, _should_attempt_reset.
  rewrite Hs, Hl.
  replace (now - last >? seconds (recovery_timeout b)) with true
    by (symmetry; rewrite Z.gtb_ltb; apply Z.ltb_lt; exact Hlt).
  eexists. split; [reflexivity|]. simpl. auto.
Qed.

(** C3, on the code.  For a default breaker in any state it can reach:
    (a) five [record_failure] calls in a row leave it open, and until more
    than 60 s have passed since the last of them [can_execute] answers
    false and changes nothing; (b) once more than 60 s have passed,
    [can_execute] answers true and makes the breaker half-open with no
    trial counted, and every further [can_execute] made before an outcome
    is recorded answers true as well, whatever their number: the cap of
    [half_open_max_calls] trials never refuses a call, since
    [can_execute] compares [half_open_calls] with it and only
    [record_success] raises that counter; (c) from there the first two
    [record_success] calls leave it half-open and the third closes it and
    zeroes the failure counter; (d) a [record_success] while closed lowers
    the failure counter by one, not below zero; (e) a [record_failure]
    while half-open reopens the breaker and restarts the recovery clock
    at the time of that failure. *)
Theorem breaker_transitions (b : t) (Hb : reachable b) :
  (forall times last now, length times = 4%nat ->
     now - last <= seconds 60 ->
     can_execute now (fail_all (times ++ [last]) b)
     = (false, fail_all (times ++ [last]) b)) /\
  (forall times last now, length times = 4%nat ->
     seconds 60 < now - last ->
     exists b1,
       can_execute now (fail_all (times ++ [last]) b) = (true, b1) /\
       state b1 = HALF_OPEN /\ half_open_calls b1 = 0 /\
       forall n later, can_execute_n n later b1 = (repeat true n, b1)) /\
  (state b = HALF_OPEN -> half_open_calls b = 0 ->
     state (record_success b) = HALF_OPEN /\
     state (record_success (record_success b)) = HALF_OPEN /\
     state (record_success (record_success (record_success b))) = CLOSED /\
     failure_count (record_success (record_success (record_success b))) = 0) /\
  (state b = CLOSED ->
     state (record_success b) = CLOSED /\
     failure_count (record_success b) = Z.max 0 (failure_count b - 1)) /\
  (state b = HALF_OPEN -> forall now,
     state (record_failure now b) = OPEN /\
     last_failure_time (record_failure now b) = Some now).
Proof.
  pose proof (breaker_reachable_inv b Hb) as Hi.
  repeat split.
  - intros times last now Hlen Hle.
    destruct (five_failures_open b times last Hi Hlen) as (Hs & Hl & Hr).
    apply can_execute_open_early with (last := last); auto.
    rewrite Hr. exact Hle.
  - intros times last now Hlen Hlt.
    destruct (five_failures_open b times last Hi Hlen) as (Hs & Hl & Hr).
    destruct (can_execute_open_late now _ last Hs Hl) as (b1 & E & H1 & H2 & H3 & _).
    { rewrite Hr. exact Hlt. }
    exists b1. repeat split; auto.
    intros n later. apply can_execute_n_half_open; auto.
    rewrite H2, H3.
    destruct (fail_all_count (times ++ [last]) b) as (_ & _ & _).
    assert (Hm : half_open_max_calls (fail_all (times ++ [last]) b) = 3).
    { clear -Hi. generalize (inv_max_calls b Hi). generalize b.
      unfold fail_all. induction (times ++ [last]) as [|x l IH]; simpl; auto. }
    rewrite Hm. lia.
  - unfold record_success. rewrite H, H0, (inv_max_calls b Hi). reflexivity.
  - unfold record_success. rewrite H, H0, (inv_max_calls b Hi). reflexivity.
  - unfold record_success. rewrite H, H0, (inv_max_calls b Hi). reflexivity.
  - unfold record_success. rewrite H, H0, (inv_max_calls b Hi). reflexivity.
  - unfold record_success. rewrite H. reflexivity.
  - unfold record_success. rewrite H. reflexivity.
  - unfold record_failure. simpl. rewrite (inv_threshold b Hi).
    assert (5 <= failure_count b) by (apply (inv_tripped b Hi); congruence).
    replace (failure_count b + 1 >=? 5) with true
      by (symmetry; apply Z.geb_le; lia).
    reflexivity.
Qed.

(** A breaker that tripped at time 0 and was asked again 61 s later. *)
Definition half_open_example : t :=
  run init [RecordFailure 0; RecordFailure 0; RecordFailure 0; RecordFailure 0;
            RecordFailure 0; CanExecute (seconds 61)].

Lemma breaker_transitions_witness :
  state half_open_example = HALF_OPEN /\
  (forall now,
     state (record_failure now half_open_example) = OPEN /\
     last_failure_time (record_failure now half_open_example) = Some now).
Proof.
  split; [reflexivity|].
  refine (proj2 (proj2 (proj2 (proj2
    (breaker_transitions half_open_example _)))) _); [|reflexivity].
  eexists. reflexivity.
Defined.

(** A breaker that recorded five failures in a row at time 0. *)
Definition tripped_example : t := fail_all [0; 0; 0; 0; 0] init.

(** C3, where the code departs from it: a tripped breaker asked four
    times, 61 s after its last failure and with no outcome recorded in
    between, allows all four calls, one more than the three trial slots
    of [half_open_max_calls]. *)
Lemma breaker_trial_budget_counterexample :
  ~ (forall n now, seconds 60 < now ->
       Nat.le (count_true (fst (can_execute_n n now tripped_example))) 3).
Proof.
  intros H. specialize (H 4%nat (seconds 61) ltac:(reflexivity)).
  vm_compute in H. lia.
Qed.

End CircuitBreakerFacts.

(** ** The adaptive rate limiter *)

Module AdaptiveRateLimiterFacts.
Import AdaptiveRateLimiter.

(** What holds of a limiter whatever calls were made on it. *)
Record inv (l : t) : Prop := mk_inv {
  inv_floor : 10 <= requests_per_minute l;
  inv_ceiling : requests_per_minute l <= 120;
  inv_grid : (requests_per_minute l) mod 5 = 0;
  inv_successes : 0 <= consecutive_successes l <= 9;
  inv_limits : 0 <= consecutive_rate_limits l
}.

Lemma limiter_inv_init now : inv (init now).
Proof. split; simpl; try lia; reflexivity. Qed.

Lemma mod5_shift a k : a mod 5 = 0 -> (a + 5 * k) mod 5 = 0.
Proof.
  intros H. rewrite Z.add_mod by lia. rewrite H.
  rewrite (Z.mul_comm 5 k), Z.mod_mul by lia. reflexivity.
Qed.

Lemma inv_record_success now l : inv l -> inv (record_success now l).
Proof.
  intros [Hf Hc Hg Hs Hl]. unfold record_success.
  destruct (consecutive_successes l + 1 >=? 10) eqn:E; split; simpl; try lia.
  destruct (Z.min_spec 120 (requests_per_minute l + 5)) as [[_ ->]|[_ ->]];
    [reflexivity|].
  replace (requests_per_minute l + 5) with (requests_per_minute l + 5 * 1) by lia.
  now apply mod5_shift.
Qed.

Lemma inv_record_rate_limit l : inv l -> inv (record_rate_limit l).
Proof.
  intros [Hf Hc Hg Hs Hl]. unfold record_rate_limit.
  split; simpl; try lia.
  destruct (Z.max_spec 10 (requests_per_minute l
                           - Z.min 20 ((consecutive_rate_limits l + 1) * 5)))
    as [[_ ->]|[_ ->]]; [|reflexivity].
  destruct (Z.min_spec 20 ((consecutive_rate_limits l + 1) * 5)) as [[_ ->]|[_ ->]].
  - replace (requests_per_minute l - 20) with (requests_per_minute l + 5 * (-4)) by lia.
    now apply mod5_shift.
  - replace (requests_per_minute l - (consecutive_rate_limits l + 1) * 5)
      with (requests_per_minute l + 5 * (- (consecutive_rate_limits l + 1))) by lia.
    now apply mod5_shift.
Qed.

Lemma inv_can_proceed now l : inv l -> inv (snd (can_proceed now l)).
Proof.
  intros [Hf Hc Hg Hs Hl]. unfold can_proceed.
  destruct (now - window_start l >=? seconds 60); split; simpl; auto.
Qed.

Lemma limiter_inv_step l c : inv l -> inv (step l c).
Proof.
  intros Hl. destruct c as [now|now|]; simpl.
  - now apply inv_can_proceed.
  - now apply inv_record_success.
  - now apply inv_record_rate_limit.
Qed.

Lemma limiter_inv_run cs : forall l, inv l -> inv (run l cs).
Proof.
  induction cs as [|c cs IH]; intros l Hl; simpl; [exact Hl|].
  apply IH, limiter_inv_step, Hl.
Qed.

Lemma limiter_reachable_inv l : reachable l -> inv l.
Proof. intros (now & cs & ->). apply limiter_inv_run, limiter_inv_init. Qed.

(** Successes recorded in a row, at the times [times]. *)
Definition succeed_all (times : list Z) (l : t) : t :=
  fold_left (fun l' now => record_success now l') times l.

(** Below the tenth success in a row nothing moves but the counters. *)
Lemma succeed_all_below times : forall l,
  0 <= consecutive_successes l ->
  consecutive_successes l + Z.of_nat (length times) < 10 ->
  requests_per_minute (succeed_all times l) = requests_per_minute l /\
  consecutive_successes (succeed_all times l)
  = consecutive_successes l + Z.of_nat (length times).
Proof.
  induction times as [|now times IH]; intros l H0 Hlt; simpl in *; [lia|].
  assert (E : (consecutive_successes l + 1 >=? 10) = false).
  { rewrite Z.geb_leb. apply Z.leb_gt. lia. }
  destruct (IH (record_success now l)) as [H1 H2].
  - unfold record_success; simpl. rewrite E. lia.
  - unfold record_success; simpl. rewrite E. lia.
  - rewrite H1, H2. unfold record_success; simpl. rewrite E. lia.
Qed.

Lemma succeed_all_snoc times now l :
  succeed_all (times ++ [now]) l = record_success now (succeed_all times l).
Proof. unfold succeed_all. now rewrite fold_left_app. Qed.

Lemma tenth_success now l :
  consecutive_successes l = 9 ->
  requests_per_minute (record_success now l) = Z.min 120 (requests_per_minute l + 5) /\
  consecutive_successes (record_success now l) = 0.
Proof. intros H. unfold record_success; simpl. rewrite H. simpl. auto. Qed.

Lemma grid_step a : a mod 5 = 0 -> a < 120 -> a + 5 <= 120.
Proof.
  intros Hm Hlt. pose proof (Z.div_mod a 5 ltac:(lia)) as H. rewrite Hm in H. lia.
Qed.

(** C6.  The ceiling starts at 60 and stays within 10 and 120 in every
    state the limiter can reach.  Counting from a reset counter, the first
    nine successes in a row leave the ceiling alone and the tenth raises it
    by 5, capped at 120 (so strictly, by exactly 5, whenever it was below
    120), and resets the counter of successes in a row.  Every
    [record_rate_limit] lowers the ceiling by [min(20, 5 * n)], [n] the
    number of rate limits in a row including this one, floored at 10 (so
    strictly whenever it was above 10), and resets the counter of
    successes in a row. *)
Theorem limiter_adaptation (l : t) (Hl : reachable l) :
  (forall now, requests_per_minute (init now) = 60) /\
  10 <= requests_per_minute l <= 120 /\
  (forall times, consecutive_successes l = 0 -> (length times < 10)%nat ->
     requests_per_minute (succeed_all times l) = requests_per_minute l) /\
  (forall times, consecutive_successes l = 0 -> length times = 10%nat ->
     requests_per_minute (succeed_all times l)
     = Z.min 120 (requests_per_minute l + 5) /\
     consecutive_successes (succeed_all times l) = 0 /\
     (requests_per_minute l < 120 ->
      requests_per_minute (succeed_all times l) = requests_per_minute l + 5)) /\
  (let reduction := Z.min 20 ((consecutive_rate_limits l + 1) * 5) in
   requests_per_minute (record_rate_limit l)
   = Z.max 10 (requests_per_minute l - reduction) /\
   consecutive_rate_limits (record_rate_limit l) = consecutive_rate_limits l + 1 /\
   consecutive_successes (record_rate_limit l) = 0 /\
   (10 < requests_per_minute l ->
    requests_per_minute (record_rate_limit l) < requests_per_minute l)).
Proof.
  pose proof (limiter_reachable_inv l Hl) as [Hf Hc Hg Hs Hr].
  split; [reflexivity|]. split; [lia|]. split; [|split].
  - intros times H0 Hlen.
    apply (succeed_all_below times l); lia.
  - intros times H0 Hlen.
    destruct (exists_last (l := times)) as (front & now & ->).
    { intros ->. discriminate. }
    rewrite length_app in Hlen; simpl in Hlen.
    rewrite succeed_all_snoc.
    destruct (succeed_all_below front l) as [H1 H2]; [lia|lia|].
    destruct (tenth_success now (succeed_all front l)) as [H3 H4]; [lia|].
    rewrite H3, H4, H1. repeat split.
    intros Hlt. pose proof (grid_step _ Hg Hlt). lia.
  - simpl. repeat split. lia.
Qed.

Lemma limiter_adaptation_witness :
  10 <= requests_per_minute (init 0) <= 120 /\
  requests_per_minute (record_rate_limit (init 0)) < requests_per_minute (init 0).
Proof.
  assert (Hr : reachable (init 0)) by (exists 0, []; reflexivity).
  pose proof (limiter_adaptation (init 0) Hr) as (_ & Hb & _ & _ & Hd).
  split; [exact Hb|].
  apply Hd. reflexivity.
Defined.

End AdaptiveRateLimiterFacts.

(** ** Strings *)

Module PyFacts.
Import Py.



Lemma any_in_intro keywords keyword s :
  In keyword keywords -> contains keyword s = true -> any_in keywords s = true.
Proof.
  intros Hin Hc. unfold any_in. apply existsb_exists. eauto.
Qed.


End PyFacts.

(** ** The retry wrapper *)

Module RateLimitHandlerFacts.
Import Py RateLimitHandler.

Section wrapper_facts.
Context {V : Type}.
Variables base_delay max_delay : Q.
Variable e : env V.

(** One turn of the loop: the [try] block, then on an exception the
    [except] block, which decides between the next turn and [break]. *)
Lemma attempts_turn remaining attempt last h :
  attempts base_delay max_delay e (S remaining) attempt last h
  = let '(result, h1) := try_block e h in
    match result with
    | Returns v => (Returns v, h1)
    | Raises message =>
        let '(continue, h2) := except_block base_delay max_delay e attempt message h1 in
        if continue
        then attempts base_delay max_delay e remaining (S attempt) (Some message) h2
        else (Raises message, h2)
    end.
Proof.
  cbn [attempts]. unfold bind at 1. destruct (try_block e h) as [[v|message] h1].
  - reflexivity.
  - unfold bind at 1.
    destruct (except_block base_delay max_delay e attempt message h1) as [[|] h2];
      reflexivity.
Qed.



Lemma except_block_unknown attempt message h :
  _classify_error message = unknown ->
  exists h', except_block base_delay max_delay e attempt message h = (true, h') /\
    trace h' = trace h ++ [BreakerFailure;
                           Slept (default_delay base_delay max_delay attempt)] /\
    calls h' = calls h /\
    circuit_breaker h'
    = CircuitBreaker.record_failure (clock e (ticks h)) (circuit_breaker h).
Proof.
  intros Hc. unfold except_block. rewrite Hc.
  eexists. split; [reflexivity|]. simpl.
  rewrite <- !app_assoc. simpl. auto.
Qed.

(** When the breaker refuses, the [try] block raises at once: the wrapped
    function is not invoked and nothing is added to the trace. *)
Lemma try_block_refused h :
  fst (CircuitBreaker.can_execute (clock e (ticks h)) (circuit_breaker h)) = false ->
  exists h', try_block e h = (Raises breaker_open_message, h') /\
    trace h' = trace h /\ calls h' = calls h /\ ticks h' = S (ticks h) /\
    circuit_breaker h'
    = snd (CircuitBreaker.can_execute (clock e (ticks h)) (circuit_breaker h)).
Proof.
  intros Hno. unfold try_block, breaker_can_execute, bind, now, with_breaker. simpl.
  destruct (CircuitBreaker.can_execute (clock e (ticks h)) (circuit_breaker h))
    as [ok b] eqn:E.
  simpl in Hno. subst ok. simpl. eexists. split; [reflexivity|]. simpl. auto.
Qed.

(** The refused turn all the same goes through the [except] block: the
    message is of no known class, so the breaker records a failure, the
    default delay is slept, and the loop goes on with one turn less. *)
Lemma refused_turn remaining attempt last h :
  fst (CircuitBreaker.can_execute (clock e (ticks h)) (circuit_breaker h)) = false ->
  exists h2,
    attempts base_delay max_delay e (S remaining) attempt last h
    = attempts base_delay max_delay e remaining (S attempt)
        (Some breaker_open_message) h2 /\
    trace h2 = trace h ++ [BreakerFailure;
                           Slept (default_delay base_delay max_delay attempt)] /\
    calls h2 = calls h /\
    circuit_breaker h2
    = CircuitBreaker.record_failure (clock e (S (ticks h)))
        (snd (CircuitBreaker.can_execute (clock e (ticks h)) (circuit_breaker h))).
Proof.
  intros Hno. rewrite attempts_turn.
  destruct (try_block_refused h Hno) as (h1 & -> & Ht & Hc & Hk & Hb).
  destruct (except_block_unknown attempt breaker_open_message h1 eq_refl)
    as (h2 & -> & Ht2 & Hc2 & Hb2).
  exists h2. split; [reflexivity|].
  rewrite Ht2, Ht, Hc2, Hc, Hb2, Hk, Hb. auto.
Qed.

End wrapper_facts.






Lemma Qmin_bounds x y : (0 <= x -> 0 <= y -> 0 <= Qmin x y <= y)%Q.
Proof.
  intros Hx Hy. split; [apply Q.min_glb; assumption|apply Q.le_min_r].
Qed.

(** The calls of the wrapper on which nothing but the wrapped function and
    the breaker raises: the delays are floats that are not negative, the
    longest one [time.sleep] accepts; the draws of [random.uniform(0, 1)]
    lie between 0 and 1; the messages of the errors hold ASCII characters
    only; the limiter is in a state it can reach, and the clock is never
    read before the last request the limiter recorded. *)
Record regular {V : Type} (base_delay max_delay : Q) (e : env V) (h : handler)
  : Prop := mk_regular {
  regular_base : (0 <= base_delay)%Q;
  regular_max : sleepable max_delay;
  regular_jitter : forall n, (0 <= uniform e n <= 1)%Q;
  regular_messages : forall n message,
    func e n = Raises message -> isascii message = true;
  regular_limiter : AdaptiveRateLimiter.reachable (rate_limiter h);
  regular_clock : forall n last,
    AdaptiveRateLimiter.last_request_time (rate_limiter h) = Some last ->
    last <= clock e n
}.



(** A wrapped function that always returns 7, a clock that stands at one
    second, a jitter of one half. *)
Definition calm_env : env Z :=
  {| func := fun _ => Returns 7; clock := fun _ => seconds 1; uniform := fun _ => 1 # 2 |}.



(** A handler whose breaker recorded five failures in a row at time 0. *)
Definition tripped_handler : handler :=
  {| circuit_breaker :=
       fold_left (fun b now => CircuitBreaker.record_failure now b)
                 [0; 0; 0; 0; 0] CircuitBreaker.init;
     rate_limiter := AdaptiveRateLimiter.init 0;
     ticks := 0; calls := 0; draws := 0; trace := [] |}.

(** [with_retry(max_retries=2, base_delay=1.0, max_delay=60.0)] around the
    calm function, one second after the breaker tripped. *)
Definition refused_run : outcome Z * handler :=
  wrapper 2 1 60 calm_env tripped_handler.

(** C5, on the code: both turns are refused and the wrapped function is
    never invoked, the wrapper ends on the breaker's own error after using
    up its two turns; yet each refused turn recorded a failure on the
    breaker, which now counts seven failures and has its recovery clock
    restarted at the time of the refusals. *)
Theorem refused_turns_recorded_as_failures :
  fst refused_run = Raises breaker_open_message /\
  invocations (trace (snd refused_run)) = 0%nat /\
  breaker_records (trace (snd refused_run)) = 2%nat /\
  CircuitBreaker.failure_count (circuit_breaker tripped_handler) = 5 /\
  CircuitBreaker.last_failure_time (circuit_breaker tripped_handler) = Some 0 /\
  CircuitBreaker.failure_count (circuit_breaker (snd refused_run)) = 7 /\
  CircuitBreaker.last_failure_time (circuit_breaker (snd refused_run))
  = Some (seconds 1).
Proof. vm_compute. repeat split. Qed.

End RateLimitHandlerFacts.

(** ** The cache *)

Module ServiceManagerFacts.
Import Py ServiceManager.

Lemma dict_get_set_eq {V} k (v : V) d : dict_get k (dict_set k v d) = Some v.
Proof.
  induction d as [|[k' v'] d IH]; simpl.
  - now rewrite String.eqb_refl.
  - destruct (String.eqb k' k) eqn:E; simpl; rewrite E; auto.
Qed.

Lemma dict_get_set_ne {V} k k' (v : V) d :
  k <> k' -> dict_get k' (dict_set k v d) = dict_get k' d.
Proof.
  intros Hne. induction d as [|[k0 v0] d IH]; simpl.
  - apply String.eqb_neq in Hne. now rewrite Hne.
  - destruct (String.eqb k0 k) eqn:E; simpl.
    + apply String.eqb_eq in E. subst k0.
      apply String.eqb_neq in Hne. now rewrite Hne.
    + destruct (String.eqb k0 k'); auto.
Qed.

(** What the entries removed one after the other leave of the dictionary. *)
Definition pop_all {V} (keys : list string) (d : dict V) : dict V :=
  fold_left (fun d' key => dict_pop key d') keys d.

Lemma pop_all_skip {V} keys : forall k (v : V) d,
  ~ In k keys -> pop_all keys ((k, v) :: d) = (k, v) :: pop_all keys d.
Proof.
  induction keys as [|k0 keys IH]; intros k v d Hn; simpl; [reflexivity|].
  assert (E : String.eqb k k0 = false).
  { apply String.eqb_neq. intros ->. apply Hn. now left. }
  rewrite E. apply IH. intros Hin. apply Hn. now right.
Qed.

(** Removing every key that satisfies [p], as listed from the dictionary
    itself, leaves exactly the entries whose key does not. *)
Lemma pop_all_filter {V} (p : string -> bool) (d : dict V) :
  pop_all (List.filter p (dict_keys d)) d
  = List.filter (fun kv => negb (p (fst kv))) d.
Proof.
  induction d as [|[k v] d IH]; simpl; [reflexivity|].
  destruct (p k) eqn:E; simpl.
  - rewrite String.eqb_refl. exact IH.
  - rewrite pop_all_skip.
    + f_equal. exact IH.
    + intros Hin. apply filter_In in Hin. destruct Hin as [_ Hp]. congruence.
Qed.

Lemma dict_get_filter_out {V} (p : string -> bool) k (d : dict V) :
  p k = true -> dict_get k (List.filter (fun kv => negb (p (fst kv))) d) = None.
Proof.
  intros Hp. induction d as [|[k' v'] d IH]; simpl; [reflexivity|].
  destruct (p k') eqn:E; simpl; [exact IH|].
  assert (String.eqb k' k = false) as ->; [|exact IH].
  apply String.eqb_neq. intros ->. congruence.
Qed.

Lemma dict_get_filter_keep {V} (p : string -> bool) k (d : dict V) :
  p k = false -> dict_get k (List.filter (fun kv => negb (p (fst kv))) d) = dict_get k d.
Proof.
  intros Hp. induction d as [|[k' v'] d IH]; simpl; [reflexivity|].
  destruct (p k') eqn:E; simpl.
  - assert (String.eqb k' k = false) as ->; [|exact IH].
    apply String.eqb_neq. intros ->. congruence.
  - destruct (String.eqb k' k); auto.
Qed.

(** Entries removed one after the other: what becomes of each attribute. *)
Lemma remove_all_cache keys : forall s,
  cache (fold_left (fun s' key => _remove_cache_entry key s') keys s)
  = pop_all keys (cache s).
Proof. induction keys as [|k keys IH]; intros s; simpl; [reflexivity|]. now rewrite IH. Qed.

Lemma remove_all_frame keys : forall s,
  let s' := fold_left (fun s' key => _remove_cache_entry key s') keys s in
  cosmos_ready s' = cosmos_ready s /\ search_ready s' = search_ready s /\
  backend_log s' = backend_log s /\ cache_stats s' = cache_stats s.
Proof.
  induction keys as [|k keys IH]; intros s; simpl; [auto|].
  destruct (IH (_remove_cache_entry k s)) as (H1 & H2 & H3 & H4). simpl in *. auto.
Qed.

Lemma evict_all_cache keys : forall s,
  cache (fold_left (fun s' key => count_eviction (_remove_cache_entry key s')) keys s)
  = pop_all keys (cache s).
Proof. induction keys as [|k keys IH]; intros s; simpl; [reflexivity|]. now rewrite IH. Qed.

Lemma evict_all_frame keys : forall s,
  let s' := fold_left (fun s' key => count_eviction (_remove_cache_entry key s')) keys s in
  cosmos_ready s' = cosmos_ready s /\ search_ready s' = search_ready s /\
  backend_log s' = backend_log s /\
  evictions (cache_stats s') = evictions (cache_stats s) + Z.of_nat (length keys).
Proof.
  induction keys as [|k keys IH]; intros s; [simpl; repeat split; lia|].
  cbn [fold_left length].
  destruct (IH (count_eviction (_remove_cache_entry k s))) as (H1 & H2 & H3 & H4).
  cbn zeta. rewrite H1, H2, H3, H4. simpl. repeat split; lia.
Qed.

Lemma set_cache_frame now k data s :
  let s' := _set_cache now k data s in
  cosmos_ready s' = cosmos_ready s /\ search_ready s' = search_ready s /\
  backend_log s' = backend_log s.
Proof.
  unfold _set_cache. cbn zeta.
  destruct (_ >=? _); simpl; [|auto].
  unfold _evict_lru_items.
  match goal with
  | |- context [fold_left _ ?keys s] => destruct (evict_all_frame keys s) as (H1 & H2 & H3 & _)
  end.
  auto.
Qed.

(** What [_set_cache] leaves under the key it writes. *)
Lemma set_cache_entry now k data s :
  dict_get k (cache (_set_cache now k data s)) = Some data /\
  cache_timestamps (_set_cache now k data s) !! k = Some now.
Proof.
  unfold _set_cache. cbn zeta. simpl. split.
  - apply dict_get_set_eq.
  - apply lookup_insert_eq.
Qed.

(** The state a counted hit leaves. *)
Definition hit_state (touched : Z) (cache_key : string) (s : t) : t :=
  {| cache := cache s;
     cache_timestamps := <[cache_key := touched]> (cache_timestamps s);
     cache_access_count :=
       <[cache_key := default 0 (cache_access_count s !! cache_key) + 1]>
         (cache_access_count s);
     cache_hit_count :=
       <[cache_key := default 0 (cache_hit_count s !! cache_key) + 1]>
         (cache_hit_count s);
     cache_miss_count := cache_miss_count s;
     cache_stats :=
       (let st := cache_stats s in
        mk_stats (total_requests st + 1) (cache_hits st + 1) (cache_misses st)
                 (evictions st) (cleanup_runs st));
     cosmos_ready := cosmos_ready s; search_ready := search_ready s;
     backend_log := backend_log s |}.

(** The state a counted miss leaves. *)
Definition miss_state (cache_key : string) (s : t) : t :=
  {| cache := cache s;
     cache_timestamps := cache_timestamps s;
     cache_access_count := cache_access_count s;
     cache_hit_count := cache_hit_count s;
     cache_miss_count :=
       <[cache_key := default 0 (cache_miss_count s !! cache_key) + 1]>
         (cache_miss_count s);
     cache_stats :=
       (let st := cache_stats s in
        mk_stats (total_requests st + 1) (cache_hits st) (cache_misses st + 1)
                 (evictions st) (cleanup_runs st));
     cosmos_ready := cosmos_ready s; search_ready := search_ready s;
     backend_log := backend_log s |}.

Lemma get_from_cache_hit now touched k s timestamp :
  cache_timestamps s !! k = Some timestamp ->
  now - timestamp < seconds (ttl_of k) ->
  _get_from_cache now touched k s
  = (default PyNone (dict_get k (cache s)), hit_state touched k s).
Proof.
  intros Ht Hlt. unfold _get_from_cache, _is_cache_valid. simpl. rewrite Ht.
  replace (now - timestamp <? seconds (ttl_of k)) with true
    by (symmetry; apply Z.ltb_lt; exact Hlt).
  reflexivity.
Qed.

Lemma get_from_cache_expired now touched k s timestamp :
  cache_timestamps s !! k = Some timestamp ->
  seconds (ttl_of k) <= now - timestamp ->
  _get_from_cache now touched k s = (PyNone, miss_state k s).
Proof.
  intros Ht Hle. unfold _get_from_cache, _is_cache_valid. simpl. rewrite Ht.
  replace (now - timestamp <? seconds (ttl_of k)) with false
    by (symmetry; apply Z.ltb_ge; exact Hle).
  reflexivity.
Qed.

Lemma get_from_cache_absent now touched k s :
  cache_timestamps s !! k = None ->
  _get_from_cache now touched k s = (PyNone, miss_state k s).
Proof.
  intros Ht. unfold _get_from_cache, _is_cache_valid. simpl. now rewrite Ht.
Qed.

(** The time to live the code gives the keys of each category: the text
    before the first underscore is looked up, so only [statistics] finds
    its entry of [cache_ttl]; the others get the default of 300 s. *)
Lemma ttl_of_categories x :
  ttl_of ("statistics_" +:+ x) = 300 /\
  ttl_of ("invoice_list_" +:+ x) = 300 /\
  ttl_of ("search_results_" +:+ x) = 300 /\
  ttl_of ("invoice_detail_" +:+ x) = 300 /\
  ttl_of ("client_data_" +:+ x) = 300 /\
  ttl_of ("agent_config_" +:+ x) = 300 /\
  ttl_of ("service_status_" +:+ x) = 300.
Proof. repeat split. Qed.

(** The window in which an entry is served, on the code: a value written
    at [written] is served at any reading less than [ttl_of] seconds later
    and reported absent at any reading more than [ttl_of] seconds later,
    as long as the entry is as it was written; a hit moves the start of
    the window to the time of the hit. *)
Lemma ttl_window now touched k data written s :
  let s' := _set_cache written k data s in
  (now - written < seconds (ttl_of k) ->
   _get_from_cache now touched k s' = (data, hit_state touched k s') /\
   cache_timestamps (hit_state touched k s') !! k = Some touched) /\
  (seconds (ttl_of k) < now - written ->
   _get_from_cache now touched k s' = (PyNone, miss_state k s')).
Proof.
  intros s'. destruct (set_cache_entry written k data s) as [Hd Ht].
  fold s' in Hd, Ht. split.
  - intros Hlt. rewrite (get_from_cache_hit _ _ _ _ _ Ht Hlt), Hd.
    split; [reflexivity|]. simpl. apply lookup_insert_eq.
  - intros Hlt. apply (get_from_cache_expired _ _ _ _ _ Ht). lia.
Qed.

(** *** Entries written and read back at given times *)

Definition one_invoice : pyval := PyList [PyDict [("invoice_number", PyStr "INV-1")]].

Definition invoice_list_written : t :=
  _set_cache 0 "invoice_list_50" one_invoice (init true true).
Definition invoice_detail_written : t :=
  _set_cache 0 "invoice_detail_INV-1" one_invoice (init true true).
Definition service_status_written : t :=
  _set_cache 0 "service_status_main" one_invoice (init true true).
Definition statistics_written : t :=
  _set_cache 0 "statistics_main" one_invoice (init true true).

(** The entry under [k] holds [data] and was last written or served at
    [last]. *)
Definition entry_is (k : string) (data : pyval) (last : Z) (s : t) : Prop :=
  cache_timestamps s !! k = Some last /\ dict_get k (cache s) = Some data.

(** C1, as amended.  Let [t] be the time to live the code applies to the
    key ([ttl_of], 300 s for the keys of the [statistics] category).  A
    value written by [_set_cache] at [T] makes the entry of the key hold it
    with timestamp [T].  An entry with timestamp [T] is served by
    [_get_from_cache] at every reading less than [t] after [T], and is
    reported absent ([None] returned, a miss counted) at every reading
    more than [t] after [T].  A miss leaves the entry as it was; a hit
    moves its timestamp to the time of the hit, so the window of [t]
    starts again there: the value is served as long as reads follow one
    another by less than [t]. *)
Theorem ttl_window_from_last_touch (k : string) (data : pyval) (last : Z) (s : t)
    (Hentry : entry_is k data last s) :
  (forall x, ttl_of ("statistics_" +:+ x) = 300) /\
  (forall written s0, entry_is k data written (_set_cache written k data s0)) /\
  (forall now touched, now - last < seconds (ttl_of k) ->
     _get_from_cache now touched k s = (data, hit_state touched k s) /\
     cache_hits (cache_stats (hit_state touched k s)) = cache_hits (cache_stats s) + 1 /\
     entry_is k data touched (hit_state touched k s)) /\
  (forall now touched, seconds (ttl_of k) < now - last ->
     _get_from_cache now touched k s = (PyNone, miss_state k s) /\
     cache_misses (cache_stats (miss_state k s)) = cache_misses (cache_stats s) + 1 /\
     entry_is k data last (miss_state k s)).
Proof.
  destruct Hentry as [Ht Hd]. repeat split.
  - apply set_cache_entry.
  - apply set_cache_entry.
  - rewrite (get_from_cache_hit _ _ _ _ _ Ht H), Hd. reflexivity.
  - simpl. apply lookup_insert_eq.
  - exact Hd.
  - apply (get_from_cache_expired _ _ _ _ _ Ht). lia.
  - exact Ht.
  - exact Hd.
Qed.

Lemma ttl_window_from_last_touch_witness :
  entry_is "statistics_main" one_invoice 0 statistics_written /\
  _get_from_cache (seconds 299) (seconds 299) "statistics_main" statistics_written
  = (one_invoice, hit_state (seconds 299) "statistics_main" statistics_written) /\
  _get_from_cache (seconds 301) (seconds 301) "statistics_main" statistics_written
  = (PyNone, miss_state "statistics_main" statistics_written).
Proof.
  assert (H : entry_is "statistics_main" one_invoice 0 statistics_written)
    by (split; reflexivity).
  destruct (ttl_window_from_last_touch "statistics_main" one_invoice 0
              statistics_written H) as (_ & _ & Hhit & Hmiss).
  split; [exact H|]. split.
  - apply (Hhit (seconds 299) (seconds 299)). reflexivity.
  - apply (Hmiss (seconds 301) (seconds 301)). reflexivity.
Defined.

(** C1 as stated fails: a [statistics] entry (300 s) written at time 0 and
    read at 299 s is not reported absent at 400 s, a hundred seconds past
    its time to live: the read in between has restarted the window. *)
Lemma read_restarts_ttl_counterexample :
  fst (_get_from_cache (seconds 400) (seconds 400) "statistics_main"
         (snd (_get_from_cache (seconds 299) (seconds 299) "statistics_main"
                 statistics_written))) <> PyNone.
Proof. vm_compute. discriminate. Qed.

(** The categories of [cache_ttl], on the code.  [cache_ttl] gives [invoice_list] 180 s, yet an
    [invoice_list] entry is served 200 s after it was written; it gives
    [service_status] 60 s, yet the entry is served after 100 s; it gives
    [invoice_detail] 600 s, yet the entry is reported absent after 400 s.
    And a [statistics] entry (300 s) read at 299 s is served again at
    400 s, the first read having restarted its window. *)
Lemma ttl_of_category_not_applied :
  dict_get "invoice_list" cache_ttl = Some 180 /\
  fst (_get_from_cache (seconds 200) (seconds 200) "invoice_list_50" invoice_list_written)
  = one_invoice /\
  dict_get "service_status" cache_ttl = Some 60 /\
  fst (_get_from_cache (seconds 100) (seconds 100) "service_status_main"
         service_status_written) = one_invoice /\
  dict_get "invoice_detail" cache_ttl = Some 600 /\
  fst (_get_from_cache (seconds 400) (seconds 400) "invoice_detail_INV-1"
         invoice_detail_written) = PyNone /\
  cache_misses (cache_stats (snd (_get_from_cache (seconds 400) (seconds 400)
                                    "invoice_detail_INV-1" invoice_detail_written))) = 1 /\
  dict_get "statistics" cache_ttl = Some 300 /\
  fst (_get_from_cache (seconds 400) (seconds 400) "statistics_main"
         (snd (_get_from_cache (seconds 299) (seconds 299) "statistics_main"
                 statistics_written))) = one_invoice.
Proof. vm_compute. repeat split. Qed.

(** [n] entries written one after the other under the keys [prefix1],
    [prefix2], ..., the i-th at time [i]. *)
Definition fill (prefix : string) (n : nat) (s : t) : t :=
  fold_left (fun s' i => _set_cache (Z.of_nat i) (prefix +:+ pretty (Z.of_nat i))
                           (PyInt (Z.of_nat i)) s')
            (seq 1 n) s.

(** The entries of the category [category]: the keys that start with its
    name, as [get_cache_statistics] counts them. *)
Definition category_size (category : string) (s : t) : nat :=
  length (keys_with_prefix category s).

(** C4, on the code.  [cache_max_size] gives [invoice_list] 20 entries, yet
    after 21 writes the category holds 21 and nothing was evicted: the
    21st write found 20 entries and evicted none.  It gives [agent_config]
    and [service_status] 5 each, yet 6 writes leave 6 entries.  The limit
    applied is that of the text before the first underscore, 50 by default,
    counted over every key that starts with that text. *)
Theorem max_size_of_category_not_applied :
  dict_get "invoice_list" cache_max_size = Some 20 /\
  category_size "invoice_list" (fill "invoice_list_" 20 (init true true)) = 20%nat /\
  category_size "invoice_list" (fill "invoice_list_" 21 (init true true)) = 21%nat /\
  evictions (cache_stats (fill "invoice_list_" 21 (init true true))) = 0 /\
  dict_get "agent_config" cache_max_size = Some 5 /\
  category_size "agent_config" (fill "agent_config_" 6 (init true true)) = 6%nat /\
  dict_get "service_status" cache_max_size = Some 5 /\
  category_size "service_status" (fill "service_status_" 6 (init true true)) = 6%nat /\
  max_size_of "invoice_list_21" = 50 /\
  category_size "invoice_list" (fill "invoice_list_" 60 (init true true)) = 50%nat.
Proof. vm_compute. repeat split. Qed.

(** The [statistics] category, whose name has no underscore, is kept to
    its 10 entries: 15 writes evict the 5 oldest. *)
Example statistics_filled :
  category_size "statistics" (fill "statistics_test_" 15 (init true true)) = 10%nat /\
  evictions (cache_stats (fill "statistics_test_" 15 (init true true))) = 5 /\
  dict_keys (cache (fill "statistics_test_" 15 (init true true)))
  = ["statistics_test_6"; "statistics_test_7"; "statistics_test_8";
     "statistics_test_9"; "statistics_test_10"; "statistics_test_11";
     "statistics_test_12"; "statistics_test_13"; "statistics_test_14";
     "statistics_test_15"].
Proof. vm_compute. repeat split. Qed.

(** *** Cached values that are falsy *)

(** The entry under [key] is within its time to live at the reading
    [checked i], and what it holds is falsy. *)
Definition falsy_hit (key : string) (i : instants) (s : t) : Prop :=
  exists timestamp,
    cache_timestamps s !! key = Some timestamp /\
    checked i - timestamp < seconds (ttl_of key) /\
    truthy (default PyNone (dict_get key (cache s))) = false.

Lemma cached_read_forced i key s : cached_read true i key s = (None, s).
Proof. reflexivity. Qed.

Lemma cached_read_falsy i key s :
  falsy_hit key i s ->
  cached_read false i key s = (None, hit_state (touched i) key s).
Proof.
  intros (timestamp & Ht & Hlt & Hf). unfold cached_read.
  rewrite (get_from_cache_hit _ _ _ _ _ Ht Hlt). now rewrite Hf.
Qed.

Lemma cached_read_served i key s timestamp :
  cache_timestamps s !! key = Some timestamp ->
  checked i - timestamp < seconds (ttl_of key) ->
  truthy (default PyNone (dict_get key (cache s))) = true ->
  cached_read false i key s
  = (Some (default PyNone (dict_get key (cache s))), hit_state (touched i) key s).
Proof.
  intros Ht Hlt Hv. unfold cached_read.
  rewrite (get_from_cache_hit _ _ _ _ _ Ht Hlt). now rewrite Hv.
Qed.

Lemma cached_read_absent i key s :
  cache_timestamps s !! key = None ->
  cached_read false i key s = (None, miss_state key s).
Proof.
  intros Ht. unfold cached_read. now rewrite (get_from_cache_absent _ _ _ _ Ht).
Qed.

(** Whatever the timestamps say, nothing is served from a key the cache
    does not hold. *)
Lemma cached_read_no_entry force i key s :
  dict_get key (cache s) = None ->
  exists s', cached_read force i key s = (None, s') /\
    cache s' = cache s /\ cosmos_ready s' = cosmos_ready s /\
    search_ready s' = search_ready s /\ backend_log s' = backend_log s.
Proof.
  intros Hd. unfold cached_read. destruct force; [eauto 10|].
  unfold _get_from_cache. destruct (_is_cache_valid _ _ _); simpl.
  - rewrite Hd. simpl. eauto 10.
  - eauto 10.
Qed.

Section reads.
Variable md5 : string -> string.

Lemma get_statistics_falsy i fresh s :
  falsy_hit "statistics_main" i s ->
  get_statistics false i fresh s
  = get_statistics true i fresh (hit_state (touched i) "statistics_main" s).
Proof. intros H. unfold get_statistics. now rewrite (cached_read_falsy _ _ _ H). Qed.

Lemma list_invoices_falsy limit i fresh s :
  falsy_hit ("invoice_list_" +:+ pretty limit) i s ->
  list_invoices limit false i fresh s
  = list_invoices limit true i fresh
      (hit_state (touched i) ("invoice_list_" +:+ pretty limit) s).
Proof. intros H. unfold list_invoices. now rewrite (cached_read_falsy _ _ _ H). Qed.

Lemma get_invoice_falsy number i fresh s :
  falsy_hit ("invoice_detail_" +:+ number) i s ->
  get_invoice number false i fresh s
  = get_invoice number true i fresh
      (hit_state (touched i) ("invoice_detail_" +:+ number) s).
Proof. intros H. unfold get_invoice. now rewrite (cached_read_falsy _ _ _ H). Qed.

Lemma search_invoices_falsy query i index_answer cosmos_answer s :
  falsy_hit (search_cache_key md5 query) i s ->
  search_invoices md5 query false i index_answer cosmos_answer s
  = search_invoices md5 query true i index_answer cosmos_answer
      (hit_state (touched i) (search_cache_key md5 query) s).
Proof. intros H. unfold search_invoices. now rewrite (cached_read_falsy _ _ _ H). Qed.

Lemma get_client_invoices_falsy client i i_search index_answer cosmos_answer s :
  falsy_hit (client_cache_key client) i s ->
  get_client_invoices md5 client false i i_search index_answer cosmos_answer s
  = get_client_invoices md5 client true i i_search index_answer cosmos_answer
      (hit_state (touched i) (client_cache_key client) s).
Proof. intros H. unfold get_client_invoices. now rewrite (cached_read_falsy _ _ _ H). Qed.

Lemma get_service_status_cached_falsy i status cache_statistics s :
  falsy_hit "service_status_main" i s ->
  get_service_status_cached false i status cache_statistics s
  = get_service_status_cached true i status cache_statistics
      (hit_state (touched i) "service_status_main" s).
Proof.
  intros H. unfold get_service_status_cached. now rewrite (cached_read_falsy _ _ _ H).
Qed.

(** What a forced refresh does when the document store is there. *)
Lemma get_statistics_fresh i fresh s :
  cosmos_ready s = true ->
  exists s', get_statistics true i fresh s = (fresh, s') /\
    backend_log s' = backend_log s ++ [CosmosStatistics] /\
    dict_get "statistics_main" (cache s') = Some fresh.
Proof.
  intros Hc. unfold get_statistics. rewrite cached_read_forced, Hc. simpl negb.
  cbv iota. eexists. split; [reflexivity|]. split.
  - now destruct (set_cache_frame (stored i) "statistics_main" fresh
                    (log_call CosmosStatistics s)) as (_ & _ & ->).
  - apply set_cache_entry.
Qed.

Lemma list_invoices_fresh limit i fresh s :
  cosmos_ready s = true ->
  exists s', list_invoices limit true i fresh s = (PyList fresh, s') /\
    backend_log s' = backend_log s ++ [CosmosList limit] /\
    dict_get ("invoice_list_" +:+ pretty limit) (cache s') = Some (PyList fresh).
Proof.
  intros Hc. unfold list_invoices. rewrite cached_read_forced, Hc. simpl negb.
  cbv iota. eexists. split; [reflexivity|]. split.
  - now destruct (set_cache_frame (stored i) ("invoice_list_" +:+ pretty limit)
                    (PyList fresh) (log_call (CosmosList limit) s)) as (_ & _ & ->).
  - apply set_cache_entry.
Qed.

Lemma get_invoice_fresh number i fresh s :
  cosmos_ready s = true ->
  exists s', get_invoice number true i fresh s = (fresh, s') /\
    backend_log s' = backend_log s ++ [CosmosGet number] /\
    dict_get ("invoice_detail_" +:+ number) (cache s') = Some fresh.
Proof.
  intros Hc. unfold get_invoice. rewrite cached_read_forced, Hc. simpl negb.
  cbv iota. eexists. split; [reflexivity|]. split.
  - now destruct (set_cache_frame (stored i) ("invoice_detail_" +:+ number)
                    fresh (log_call (CosmosGet number) s)) as (_ & _ & ->).
  - apply set_cache_entry.
Qed.

(** A forced search asks the index when it is there, then the document
    store when the index gave nothing and the store is there, and caches
    what it ends with. *)
Lemma search_invoices_fresh query i index_answer cosmos_answer s :
  exists results s',
    search_invoices md5 query true i index_answer cosmos_answer s
    = (PyList results, s') /\
    dict_get (search_cache_key md5 query) (cache s') = Some (PyList results) /\
    (search_ready s = true ->
     exists later, backend_log s' = backend_log s ++ IndexSearch query :: later) /\
    (search_ready s = false -> cosmos_ready s = true ->
     backend_log s' = backend_log s ++ [CosmosSearch query]) /\
    (search_ready s = false -> cosmos_ready s = false ->
     results = [] /\ backend_log s' = backend_log s).
Proof.
  unfold search_invoices. rewrite cached_read_forced.
  destruct (search_ready s) eqn:Hs, (cosmos_ready s) eqn:Hc,
    index_answer as [[|hit found]|message], cosmos_answer as [found'|message'];
    cbn -[_set_cache search_cache_key]; rewrite ?Hc; cbn -[_set_cache search_cache_key];
    eexists; eexists; (split; [reflexivity|]); (split; [apply set_cache_entry|]);
    repeat split; try discriminate; intros;
    try match goal with
        | |- context [_set_cache ?a ?b ?c ?d] =>
            destruct (set_cache_frame a b c d) as (_ & _ & ->)
        end;
    cbn [backend_log log_call]; rewrite <- ?app_assoc; cbn [app]; eauto.
Qed.

End reads.

(** The state a write leaves when nothing has to be evicted. *)
Definition stored_state (now : Z) (cache_key : string) (data : pyval) (s : t) : t :=
  {| cache := dict_set cache_key data (cache s);
     cache_timestamps := <[cache_key := now]> (cache_timestamps s);
     cache_access_count := <[cache_key := 1]> (cache_access_count s);
     cache_hit_count := <[cache_key := 0]> (cache_hit_count s);
     cache_miss_count := <[cache_key := 0]> (cache_miss_count s);
     cache_stats := cache_stats s;
     cosmos_ready := cosmos_ready s; search_ready := search_ready s;
     backend_log := backend_log s |}.

Lemma set_cache_room now k data s :
  Z.of_nat (length (keys_with_prefix (cache_type_of k) s)) < max_size_of k ->
  _set_cache now k data s = stored_state now k data s.
Proof.
  intros Hlt. unfold _set_cache. cbn zeta.
  replace (_ >=? _) with false; [reflexivity|].
  symmetry. rewrite Z.geb_leb. apply Z.leb_gt. exact Hlt.
Qed.

(** *** A client whose name matches no invoice exactly *)

Definition index_hit : pyval :=
  PyDict [("invoice_number", PyStr "INV-1"); ("client_name", PyStr "Acme Corp")].

(** All the readings of one operation taken at [now]. *)
Definition at_time (now : Z) : instants := mk_instants now now now.

Section client_scenario.
Variable md5 : string -> string.

(** [get_client_invoices("acme")] on a fresh manager with both services
    there: the index answers one invoice, of another client. *)
Definition first_lookup : outcome pyval * t :=
  get_client_invoices md5 "acme" false (at_time 0) (at_time 0)
    (Returns [index_hit]) (Returns []) (init true true).

(** The same call ten seconds later. *)
Definition second_lookup : outcome pyval * t :=
  get_client_invoices md5 "acme" false (at_time (seconds 10)) (at_time (seconds 10))
    (Returns [index_hit]) (Returns []) (snd first_lookup).

Lemma search_key_not_client_key query :
  client_cache_key "acme" <> search_cache_key md5 query.
Proof. unfold search_cache_key. cbn. discriminate. Qed.

Lemma first_lookup_state :
  first_lookup
  = (Returns (PyList []),
     stored_state 0 (client_cache_key "acme") (PyList [])
       (stored_state 0 (search_cache_key md5 "acme") (PyList [index_hit])
          (log_call (IndexSearch "acme")
             (miss_state (search_cache_key md5 "acme")
                (miss_state (client_cache_key "acme") (init true true)))))).
Proof.
  unfold first_lookup, get_client_invoices.
  rewrite cached_read_absent by reflexivity.
  unfold search_invoices. rewrite cached_read_absent by reflexivity.
  cbn -[insert lookup empty search_cache_key _set_cache].
  rewrite (set_cache_room 0 (search_cache_key md5 "acme")) by reflexivity.
  rewrite (set_cache_room 0 (client_cache_key "acme")) by reflexivity.
  reflexivity.
Qed.

(** The second call finds the empty list it cached, within its time to
    live; it runs the search again, which is answered from the cache: no
    service is asked. *)
Lemma second_lookup_asks_nobody :
  falsy_hit (client_cache_key "acme") (at_time (seconds 10)) (snd first_lookup) /\
  fst second_lookup = Returns (PyList []) /\
  backend_log (snd first_lookup) = [IndexSearch "acme"] /\
  backend_log (snd second_lookup) = backend_log (snd first_lookup).
Proof.
  assert (Hf : falsy_hit (client_cache_key "acme") (at_time (seconds 10))
                 (snd first_lookup)).
  { rewrite first_lookup_state. exists 0. cbn [snd stored_state cache_timestamps cache].
    split; [apply lookup_insert_eq|]. split; [reflexivity|].
    now rewrite dict_get_set_eq. }
  split; [exact Hf|].
  unfold second_lookup. rewrite (get_client_invoices_falsy _ _ _ _ _ _ _ Hf).
  rewrite first_lookup_state. cbn [snd].
  unfold get_client_invoices. rewrite cached_read_forced.
  unfold search_invoices.
  rewrite (cached_read_served _ _ _ 0).
  - cbn [hit_state stored_state cache].
    rewrite dict_get_set_ne by apply search_key_not_client_key.
    rewrite dict_get_set_eq. cbn [default filter_client].
    cbn -[_set_cache client_cache_key search_cache_key hit_state stored_state].
    match goal with
    | |- context [_set_cache ?a ?b ?c ?d] =>
        destruct (set_cache_frame a b c d) as (_ & _ & ->)
    end.
    cbn. auto.
  - cbn [hit_state stored_state cache_timestamps].
    rewrite !lookup_insert_ne by apply search_key_not_client_key.
    apply lookup_insert_eq.
  - reflexivity.
  - cbn [hit_state stored_state cache].
    rewrite dict_get_set_ne by apply search_key_not_client_key.
    now rewrite dict_get_set_eq.
Qed.

End client_scenario.

Lemma hit_state_counts touched key s :
  cache_hits (cache_stats (hit_state touched key s)) = cache_hits (cache_stats s) + 1 /\
  cache_hit_count (hit_state touched key s) !! key
  = Some (default 0 (cache_hit_count s !! key) + 1) /\
  cache_timestamps (hit_state touched key s) !! key = Some touched /\
  cache (hit_state touched key s) = cache s.
Proof.
  simpl. repeat split; apply lookup_insert_eq.
Qed.

(** C10, as amended.  When the entry under the key of a read is within its
    time to live and holds a falsy value, [_get_from_cache] counts a hit
    (hit counters raised, timestamp refreshed) but the guard does not serve
    the value, and the read goes on exactly as a forced refresh would from
    the state the counted hit left.  This holds of [get_statistics],
    [list_invoices], [get_invoice], [search_invoices], [get_client_invoices]
    and [get_service_status_cached].  With the document store there,
    [get_statistics], [list_invoices] and [get_invoice] then ask it again
    and cache its answer; with the search index there, [search_invoices]
    asks it again and caches what the search ends with.
    ([get_client_invoices] goes through [search_invoices], which may
    answer from its own cached result: see
    [second_lookup_asks_nobody].) *)
Theorem falsy_cached_value_not_served (md5 : string -> string) :
  (forall key i s, falsy_hit key i s ->
     cached_read false i key s = (None, hit_state (touched i) key s) /\
     cache_hits (cache_stats (hit_state (touched i) key s))
     = cache_hits (cache_stats s) + 1 /\
     cache_hit_count (hit_state (touched i) key s) !! key
     = Some (default 0 (cache_hit_count s !! key) + 1) /\
     cache_timestamps (hit_state (touched i) key s) !! key = Some (touched i)) /\
  (forall i fresh s, falsy_hit "statistics_main" i s ->
     get_statistics false i fresh s
     = get_statistics true i fresh (hit_state (touched i) "statistics_main" s)) /\
  (forall limit i fresh s, falsy_hit ("invoice_list_" +:+ pretty limit) i s ->
     list_invoices limit false i fresh s
     = list_invoices limit true i fresh
         (hit_state (touched i) ("invoice_list_" +:+ pretty limit) s)) /\
  (forall number i fresh s, falsy_hit ("invoice_detail_" +:+ number) i s ->
     get_invoice number false i fresh s
     = get_invoice number true i fresh
         (hit_state (touched i) ("invoice_detail_" +:+ number) s)) /\
  (forall query i index_answer cosmos_answer s,
     falsy_hit (search_cache_key md5 query) i s ->
     search_invoices md5 query false i index_answer cosmos_answer s
     = search_invoices md5 query true i index_answer cosmos_answer
         (hit_state (touched i) (search_cache_key md5 query) s)) /\
  (forall client i i_search index_answer cosmos_answer s,
     falsy_hit (client_cache_key client) i s ->
     get_client_invoices md5 client false i i_search index_answer cosmos_answer s
     = get_client_invoices md5 client true i i_search index_answer cosmos_answer
         (hit_state (touched i) (client_cache_key client) s)) /\
  (forall i status cache_statistics s, falsy_hit "service_status_main" i s ->
     get_service_status_cached false i status cache_statistics s
     = get_service_status_cached true i status cache_statistics
         (hit_state (touched i) "service_status_main" s)) /\
  (forall i fresh s, falsy_hit "statistics_main" i s -> cosmos_ready s = true ->
     exists s', get_statistics false i fresh s = (fresh, s') /\
       backend_log s' = backend_log s ++ [CosmosStatistics] /\
       dict_get "statistics_main" (cache s') = Some fresh) /\
  (forall limit i fresh s, falsy_hit ("invoice_list_" +:+ pretty limit) i s ->
     cosmos_ready s = true ->
     exists s', list_invoices limit false i fresh s = (PyList fresh, s') /\
       backend_log s' = backend_log s ++ [CosmosList limit] /\
       dict_get ("invoice_list_" +:+ pretty limit) (cache s') = Some (PyList fresh)) /\
  (forall number i fresh s, falsy_hit ("invoice_detail_" +:+ number) i s ->
     cosmos_ready s = true ->
     exists s', get_invoice number false i fresh s = (fresh, s') /\
       backend_log s' = backend_log s ++ [CosmosGet number] /\
       dict_get ("invoice_detail_" +:+ number) (cache s') = Some fresh) /\
  (forall query i index_answer cosmos_answer s,
     falsy_hit (search_cache_key md5 query) i s -> search_ready s = true ->
     exists results later s',
       search_invoices md5 query false i index_answer cosmos_answer s
       = (PyList results, s') /\
       backend_log s' = backend_log s ++ IndexSearch query :: later /\
       dict_get (search_cache_key md5 query) (cache s') = Some (PyList results)).
Proof.
  split; [|split; [|split; [|split; [|split; [|split; [|split;
    [|split; [|split; [|split]]]]]]]]].
  - intros key i s H. split; [now apply cached_read_falsy|].
    destruct (hit_state_counts (touched i) key s) as (H1 & H2 & H3 & _). auto.
  - intros. now apply get_statistics_falsy.
  - intros. now apply list_invoices_falsy.
  - intros. now apply get_invoice_falsy.
  - intros. now apply search_invoices_falsy.
  - intros. now apply get_client_invoices_falsy.
  - intros. now apply get_service_status_cached_falsy.
  - intros i fresh s H Hc. rewrite (get_statistics_falsy _ _ _ H).
    apply (get_statistics_fresh i fresh (hit_state _ _ s)). exact Hc.
  - intros limit i fresh s H Hc. rewrite (list_invoices_falsy _ _ _ _ H).
    apply (list_invoices_fresh limit i fresh (hit_state _ _ s)). exact Hc.
  - intros number i fresh s H Hc. rewrite (get_invoice_falsy _ _ _ _ H).
    apply (get_invoice_fresh number i fresh (hit_state _ _ s)). exact Hc.
  - intros query i index_answer cosmos_answer s H Hs.
    rewrite (search_invoices_falsy md5 _ _ _ _ _ H).
    destruct (search_invoices_fresh md5 query i index_answer cosmos_answer
                (hit_state (touched i) (search_cache_key md5 query) s))
      as (results & s' & E & Hd & Hlog & _).
    destruct (Hlog Hs) as (later & Hl).
    exists results, later, s'. auto.
Qed.

(** An invoice that does not exist, looked up on a fresh manager. *)
Definition missing_invoice_looked_up : t :=
  snd (get_invoice "INV-9" false (at_time 0) PyNone (init true true)).

Lemma falsy_cached_value_not_served_witness :
  falsy_hit "invoice_detail_INV-9" (at_time (seconds 10)) missing_invoice_looked_up /\
  exists s',
    get_invoice "INV-9" false (at_time (seconds 10)) PyNone missing_invoice_looked_up
    = (PyNone, s') /\
    backend_log s' = backend_log missing_invoice_looked_up ++ [CosmosGet "INV-9"] /\
    dict_get "invoice_detail_INV-9" (cache s') = Some PyNone.
Proof.
  assert (H : falsy_hit "invoice_detail_INV-9" (at_time (seconds 10))
                missing_invoice_looked_up).
  { exists 0. repeat split. }
  split; [exact H|].
  exact (proj1 (proj2 (proj2 (proj2 (proj2 (proj2 (proj2 (proj2 (proj2 (proj2
           (falsy_cached_value_not_served (fun text => text)))))))))))
           "INV-9" (at_time (seconds 10)) PyNone missing_invoice_looked_up H eq_refl).
Defined.

(** C10 as stated fails for [get_client_invoices]: whatever the hash, the
    second lookup of the client "acme" finds its cached empty list within
    its time to live and yet asks no service, the search it runs again
    being answered from the cache. *)
Lemma cached_empty_client_list_counterexample :
  ~ (exists md5 : string -> string,
       forall client i i_search index_answer cosmos_answer s,
         falsy_hit (client_cache_key client) i s ->
         backend_log (snd (get_client_invoices md5 client false i i_search
                             index_answer cosmos_answer s))
         <> backend_log s).
Proof.
  intros [md5 H].
  destruct (second_lookup_asks_nobody md5) as (Hf & _ & _ & Hlog).
  exact (H "acme" (at_time (seconds 10)) (at_time (seconds 10))
           (Returns [index_hit]) (Returns []) (snd (first_lookup md5)) Hf Hlog).
Qed.

(** *** A query that matches nothing *)

Section empty_search.
Variable md5 : string -> string.

(** [search_invoices("zzz")] on a fresh manager with both services there,
    both of which find nothing. *)
Definition first_search : pyval * t :=
  search_invoices md5 "zzz" false (at_time 0) (Returns []) (Returns []) (init true true).

(** The same search ten seconds later. *)
Definition second_search : pyval * t :=
  search_invoices md5 "zzz" false (at_time (seconds 10)) (Returns []) (Returns [])
    (snd first_search).

Lemma first_search_state :
  first_search
  = (PyList [],
     stored_state 0 (search_cache_key md5 "zzz") (PyList [])
       (log_call (CosmosSearch "zzz")
          (log_call (IndexSearch "zzz")
             (miss_state (search_cache_key md5 "zzz") (init true true))))).
Proof.
  unfold first_search, search_invoices.
  rewrite cached_read_absent by reflexivity.
  cbn -[insert lookup empty search_cache_key _set_cache].
  now rewrite (set_cache_room 0 (search_cache_key md5 "zzz")) by reflexivity.
Qed.

Lemma first_search_cached :
  falsy_hit (search_cache_key md5 "zzz") (at_time (seconds 10)) (snd first_search).
Proof.
  rewrite first_search_state. exists 0. cbn [snd stored_state cache_timestamps cache].
  split; [apply lookup_insert_eq|]. split; [reflexivity|].
  now rewrite dict_get_set_eq.
Qed.

End empty_search.

(** C8, on the code.  The empty result of the first search is stored under
    the key of the query, and is within its time to live ten seconds
    later; the second search all the same asks the index and the document
    store again: four calls in all, although the cache counted a hit. *)
Theorem empty_search_result_not_reused (md5 : string -> string) :
  fst (first_search md5) = PyList [] /\
  dict_get (search_cache_key md5 "zzz") (cache (snd (first_search md5)))
  = Some (PyList []) /\
  cache_timestamps (snd (first_search md5)) !! search_cache_key md5 "zzz" = Some 0 /\
  ttl_of (search_cache_key md5 "zzz") = 300 /\
  backend_log (snd (first_search md5)) = [IndexSearch "zzz"; CosmosSearch "zzz"] /\
  backend_log (snd (second_search md5))
  = [IndexSearch "zzz"; CosmosSearch "zzz"; IndexSearch "zzz"; CosmosSearch "zzz"] /\
  cache_hits (cache_stats (snd (second_search md5))) = 1.
Proof.
  split; [now rewrite first_search_state|].
  split; [rewrite first_search_state; apply dict_get_set_eq|].
  split; [rewrite first_search_state; apply lookup_insert_eq|].
  split; [reflexivity|].
  split; [now rewrite first_search_state|].
  unfold second_search.
  rewrite (search_invoices_falsy md5 _ _ _ _ _ (first_search_cached md5)).
  rewrite first_search_state. cbn [snd].
  unfold search_invoices. rewrite cached_read_forced.
  cbn [search_ready cosmos_ready hit_state stored_state log_call miss_state init
       andb snd fst].
  match goal with
  | |- context [_set_cache ?a ?b ?c ?d] =>
      rewrite (set_cache_room a b c d) by reflexivity
  end.
  split; reflexivity.
Qed.

(** *** Writes *)

Lemma dict_get_pop_none {V} k k' (d : dict V) :
  dict_get k d = None -> dict_get k (dict_pop k' d) = None.
Proof.
  induction d as [|[k0 v0] d IH]; simpl; [auto|].
  destruct (String.eqb k0 k) eqn:E; [discriminate|].
  intros H. destruct (String.eqb k0 k'); simpl; [exact H|].
  rewrite E. auto.
Qed.

(** [_clear_cache(pattern)] with a pattern that is not empty leaves no key
    that holds the pattern, and leaves the other entries as they were. *)
Lemma clear_cache_pattern p s :
  p <> "" ->
  cache (_clear_cache (Some p) s)
  = List.filter (fun kv => negb (contains p (fst kv))) (cache s) /\
  cosmos_ready (_clear_cache (Some p) s) = cosmos_ready s /\
  search_ready (_clear_cache (Some p) s) = search_ready s /\
  backend_log (_clear_cache (Some p) s) = backend_log s.
Proof.
  intros Hp. unfold _clear_cache.
  apply String.eqb_neq in Hp. rewrite Hp.
  rewrite remove_all_cache, pop_all_filter.
  destruct (remove_all_frame
              (List.filter (fun key => contains p key) (dict_keys (cache s))) s)
    as (H1 & H2 & H3 & _).
  auto.
Qed.

(** After a [save_invoice] that the document store accepted, the cache
    holds no key with "statistics" or "invoice_list" in it, and the
    document store is there. *)
Lemma invalidate_after_save_clears number client s :
  let s' := invalidate_after_save number client s in
  cosmos_ready s' = cosmos_ready s /\
  forall key, contains "statistics" key = true \/ contains "invoice_list" key = true ->
    dict_get key (cache s') = None.
Proof.
  unfold invalidate_after_save. cbv zeta.
  destruct (clear_cache_pattern "statistics" s ltac:(discriminate))
    as (Ha & Hca & _ & _).
  destruct (clear_cache_pattern "invoice_list" (_clear_cache (Some "statistics") s)
              ltac:(discriminate)) as (Hb & Hcb & _ & _).
  set (s_b := _clear_cache (Some "invoice_list") (_clear_cache (Some "statistics") s)) in *.
  assert (Hgone : forall key,
            contains "statistics" key = true \/ contains "invoice_list" key = true ->
            dict_get key (cache s_b) = None).
  { intros key [Hk|Hk]; rewrite Hb.
    - destruct (contains "invoice_list" key) eqn:E.
      + now apply dict_get_filter_out.
      + rewrite dict_get_filter_keep by exact E. rewrite Ha.
        now apply dict_get_filter_out.
    - now apply dict_get_filter_out. }
  assert (Hready : cosmos_ready s_b = cosmos_ready s) by (now rewrite Hcb, Hca).
  clearbody s_b. clear -Hgone Hready.
  destruct number as [n|]; [destruct (String.eqb n "")|];
    destruct (String.eqb client ""); simpl; split; auto; intros key Hk;
    repeat apply dict_get_pop_none; auto.
Qed.

Lemma save_invoice_clears number client cosmos_answer index_answer s :
  cosmos_saved (fst (save_invoice number client cosmos_answer index_answer s)) = true ->
  let s' := snd (save_invoice number client cosmos_answer index_answer s) in
  cosmos_ready s' = true /\
  forall key, contains "statistics" key = true \/ contains "invoice_list" key = true ->
    dict_get key (cache s') = None.
Proof.
  unfold save_invoice.
  destruct (cosmos_ready s) eqn:Hc, cosmos_answer as [[|]|message],
    (search_ready s) eqn:Hs, index_answer as [ok|message'];
    cbn -[invalidate_after_save]; rewrite ?Hs; cbn -[invalidate_after_save];
    try discriminate; intros _;
    match goal with
    | |- context [invalidate_after_save ?n ?c ?x] =>
        destruct (invalidate_after_save_clears n c x) as [Hr Hg];
        cbv zeta in Hr, Hg; rewrite Hr; split; [exact Hc|exact Hg]
    end.
Qed.

(** After such a save, [get_statistics] and [list_invoices] ask the
    document store: nothing cached before the save is returned. *)
Lemma reads_after_save_are_fresh number client cosmos_answer index_answer s :
  cosmos_saved (fst (save_invoice number client cosmos_answer index_answer s)) = true ->
  let s' := snd (save_invoice number client cosmos_answer index_answer s) in
  (forall i fresh, exists s'',
     get_statistics false i fresh s' = (fresh, s'') /\
     backend_log s'' = backend_log s' ++ [CosmosStatistics]) /\
  (forall limit i fresh, exists s'',
     list_invoices limit false i fresh s' = (PyList fresh, s'') /\
     backend_log s'' = backend_log s' ++ [CosmosList limit]).
Proof.
  intros Hsaved s'.
  destruct (save_invoice_clears _ _ _ _ _ Hsaved) as [Hready Hgone]. fold s' in Hready, Hgone.
  split.
  - intros i fresh. unfold get_statistics.
    destruct (cached_read_no_entry false i "statistics_main" s')
      as (s1 & -> & _ & Hc & _ & Hl).
    { apply Hgone. left. reflexivity. }
    rewrite Hc, Hready. simpl negb. cbv iota.
    eexists. split; [reflexivity|].
    destruct (set_cache_frame (stored i) "statistics_main" fresh
                (log_call CosmosStatistics s1)) as (_ & _ & ->).
    simpl. now rewrite Hl.
  - intros limit i fresh. unfold list_invoices.
    destruct (cached_read_no_entry false i ("invoice_list_" +:+ pretty limit) s')
      as (s1 & -> & _ & Hc & _ & Hl).
    { apply Hgone. right. reflexivity. }
    rewrite Hc, Hready. simpl negb. cbv iota.
    eexists. split; [reflexivity|].
    destruct (set_cache_frame (stored i) ("invoice_list_" +:+ pretty limit)
                (PyList fresh) (log_call (CosmosList limit) s1)) as (_ & _ & ->).
    simpl. now rewrite Hl.
Qed.

Lemma dict_get_pop_ne {V} k k' (d : dict V) :
  k' <> k -> dict_get k (dict_pop k' d) = dict_get k d.
Proof.
  intros Hne. induction d as [|[k0 v0] d IH]; simpl; [reflexivity|].
  destruct (String.eqb k0 k') eqn:E'; simpl.
  - apply String.eqb_eq in E'. subst k0.
    apply String.eqb_neq in Hne. now rewrite Hne.
  - destruct (String.eqb k0 k); auto.
Qed.

(** What the invalidation of [update_invoice_status] removes, and what it
    leaves: the keys with "statistics" in them and the keys that start with
    "search_results" are gone, and every other key but the one of the
    invoice keeps its entry, the [invoice_list] and [client_data] entries
    among them. *)
Lemma status_update_invalidation number s :
  let s' := invalidate_after_status_update number s in
  (forall key,
     contains "statistics" key = true \/ startswith key "search_results" = true ->
     dict_get key (cache s') = None) /\
  (forall key,
     contains "statistics" key = false -> startswith key "search_results" = false ->
     key <> "invoice_detail_" +:+ number ->
     dict_get key (cache s') = dict_get key (cache s)).
Proof.
  unfold invalidate_after_status_update. cbv zeta.
  rewrite remove_all_cache. unfold keys_with_prefix.
  rewrite (pop_all_filter (fun key => startswith key "search_results")).
  destruct (clear_cache_pattern "statistics" s ltac:(discriminate)) as (Ha & _).
  cbn [_remove_cache_entry cache]. rewrite Ha. split.
  - intros key [Hk|Hk].
    + destruct (startswith key "search_results") eqn:E.
      * now apply (dict_get_filter_out (fun key => startswith key "search_results")).
      * rewrite (dict_get_filter_keep (fun key => startswith key "search_results"))
          by exact E.
        apply dict_get_pop_none. now apply dict_get_filter_out.
    + now apply (dict_get_filter_out (fun key => startswith key "search_results")).
  - intros key H1 H2 H3.
    rewrite (dict_get_filter_keep (fun key => startswith key "search_results"))
      by exact H2.
    rewrite dict_get_pop_ne by congruence.
    now apply dict_get_filter_keep.
Qed.

(** *** A status update with a list page in the cache *)

Definition invoice_active : pyval :=
  PyDict [("invoice_number", PyStr "INV-1"); ("status", PyStr "active")].
Definition invoice_paid : pyval :=
  PyDict [("invoice_number", PyStr "INV-1"); ("status", PyStr "paid")].

(** [list_invoices(50)] and [get_statistics()] on a fresh manager. *)
Definition listed : t :=
  snd (get_statistics false (at_time 0) (PyDict [("total_invoices", PyInt 1)])
         (snd (list_invoices 50 false (at_time 0) [invoice_active] (init true true)))).

(** Then [update_invoice_status("INV-1", "paid")], accepted by both services. *)
Definition status_updated : bool * t := update_invoice_status "INV-1" "paid" true true listed.

(** Then [list_invoices(50)] again, ten seconds after the first. *)
Definition listed_again : pyval * t :=
  list_invoices 50 false (at_time (seconds 10)) [invoice_paid] (snd status_updated).

(** The same with [save_invoice] in the place of the status update. *)
Definition saved : save_result * t :=
  save_invoice (Some "INV-2") "Acme Corp" (Returns true) (Returns true) listed.

(** C2, on the code.  The status update succeeds and removes the
    [statistics] entry, but the list page cached before it stays in the
    cache, and the next [list_invoices(50)] returns that page, with the
    invoice still active, without asking the document store.
    [save_invoice] removes both. *)
Theorem status_update_leaves_list_pages :
  fst status_updated = true /\
  dict_get "statistics_main" (cache listed) <> None /\
  dict_get "statistics_main" (cache (snd status_updated)) = None /\
  dict_get "invoice_list_50" (cache (snd status_updated)) = Some (PyList [invoice_active]) /\
  fst listed_again = PyList [invoice_active] /\
  backend_log (snd listed_again)
  = [CosmosList 50; CosmosStatistics;
     CosmosUpdateStatus "INV-1" "paid"; IndexUpdateStatus "INV-1" "paid"] /\
  cosmos_saved (fst saved) = true /\
  dict_get "statistics_main" (cache (snd saved)) = None /\
  dict_get "invoice_list_50" (cache (snd saved)) = None.
Proof. vm_compute. repeat split; discriminate. Qed.

(** *** Well-formed caches and the size the code keeps *)

(** [cache] is a dictionary (no key twice) and every key of it has a
    timestamp: what [_evict_lru_items] relies on. *)
Definition wf (s : t) : Prop :=
  List.NoDup (dict_keys (cache s)) /\
  forall k, In k (dict_keys (cache s)) -> is_Some (cache_timestamps s !! k).

Lemma wf_init cosmos search : wf (init cosmos search).
Proof. split; [constructor|]. intros k []. Qed.

Lemma filter_all {A} (f : A -> bool) l :
  (forall x, In x l -> f x = true) -> List.filter f l = l.
Proof.
  induction l as [|x l IH]; simpl; intros H; [reflexivity|].
  rewrite (H x) by now left. f_equal. apply IH. intros y Hy. apply H. now right.
Qed.

(** On a dictionary, [pop] removes the one entry of the key. *)
Lemma dict_pop_filter {V} k (d : dict V) :
  List.NoDup (dict_keys d) ->
  dict_pop k d = List.filter (fun kv => negb (String.eqb (fst kv) k)) d.
Proof.
  induction d as [|[k0 v0] d IH]; simpl; intros Hnd; [reflexivity|].
  apply List.NoDup_cons_iff in Hnd. destruct Hnd as [Hnin Hnd].
  destruct (String.eqb k0 k) eqn:E; simpl.
  - apply String.eqb_eq in E. subst k0. symmetry. apply filter_all.
    intros [k' v'] Hin. simpl. apply negb_true_iff, String.eqb_neq.
    intros ->. apply Hnin. unfold dict_keys. apply in_map_iff. now exists (k, v').
  - f_equal. now apply IH.
Qed.

Lemma keys_filter_nodup {V} (f : string * V -> bool) (d : dict V) :
  List.NoDup (dict_keys d) -> List.NoDup (dict_keys (List.filter f d)).
Proof.
  induction d as [|[k0 v0] d IH]; simpl; intros Hnd; [constructor|].
  apply List.NoDup_cons_iff in Hnd. destruct Hnd as [Hnin Hnd].
  destruct (f (k0, v0)); simpl; [|now apply IH].
  constructor; [|now apply IH].
  intros Hin. apply Hnin. unfold dict_keys in *.
  apply in_map_iff in Hin. destruct Hin as (kv & Hk & Hin).
  apply filter_In in Hin. apply in_map_iff. exists kv. tauto.
Qed.

Lemma keys_filter_by_key {V} (g : string -> bool) (d : dict V) :
  dict_keys (List.filter (fun kv => g (fst kv)) d) = List.filter g (dict_keys d).
Proof.
  induction d as [|[k0 v0] d IH]; simpl; [reflexivity|].
  destruct (g k0); simpl; now rewrite IH.
Qed.

(** [key in keys] *)
Definition among (keys : list string) (key : string) : bool :=
  existsb (String.eqb key) keys.

Lemma among_In keys key : among keys key = true <-> In key keys.
Proof.
  unfold among. rewrite existsb_exists. split.
  - intros (k & Hin & E). apply String.eqb_eq in E. now subst.
  - intros Hin. exists key. split; [exact Hin|apply String.eqb_refl].
Qed.

(** On a dictionary, removing the keys of a list one after the other
    leaves the entries whose key is not in the list. *)
Lemma pop_all_among {V} keys : forall d : dict V,
  List.NoDup (dict_keys d) ->
  pop_all keys d = List.filter (fun kv => negb (among keys (fst kv))) d.
Proof.
  induction keys as [|k keys IH]; intros d Hnd; simpl.
  - symmetry. now apply filter_all.
  - rewrite IH by (rewrite dict_pop_filter by exact Hnd; now apply keys_filter_nodup).
    rewrite dict_pop_filter by exact Hnd.
    clear. induction d as [|[k0 v0] d IHd]; simpl; [reflexivity|].
    destruct (String.eqb k0 k) eqn:E; simpl; [exact IHd|].
    destruct (among keys k0); simpl; [exact IHd|]. now rewrite IHd.
Qed.

Lemma dict_keys_set {V} k (v : V) d :
  dict_keys (dict_set k v d)
  = if among (dict_keys d) k then dict_keys d else dict_keys d ++ [k].
Proof.
  induction d as [|[k0 v0] d IH]; simpl; [reflexivity|].
  rewrite (String.eqb_sym k k0).
  destruct (String.eqb k0 k) eqn:E; simpl; [reflexivity|].
  rewrite IH. unfold among. now destruct (existsb (String.eqb k) (dict_keys d)).
Qed.

Lemma dict_set_nodup {V} k (v : V) d :
  List.NoDup (dict_keys d) -> List.NoDup (dict_keys (dict_set k v d)).
Proof.
  intros Hnd. rewrite dict_keys_set.
  destruct (among (dict_keys d) k) eqn:E; [exact Hnd|].
  apply NoDup_ListNoDup, NoDup_app. repeat split.
  - now apply NoDup_ListNoDup.
  - intros x Hx Hin. apply list_elem_of_In in Hx.
    apply list_elem_of_In in Hin. destruct Hin as [<-|[]].
    apply among_In in Hx. congruence.
  - apply NoDup_ListNoDup. constructor; [intros []|constructor].
Qed.

Lemma wf_remove k s : wf s -> wf (_remove_cache_entry k s).
Proof.
  intros [Hnd Hts]. unfold wf. simpl.
  rewrite dict_pop_filter by exact Hnd. split.
  - now apply keys_filter_nodup.
  - intros k' Hin. rewrite (keys_filter_by_key (fun key => negb (String.eqb key k))) in Hin.
    apply filter_In in Hin. destruct Hin as [Hin Hne].
    apply negb_true_iff, String.eqb_neq in Hne.
    rewrite lookup_delete_ne by congruence. now apply Hts.
Qed.

Lemma wf_remove_all keys : forall s,
  wf s -> wf (fold_left (fun s' key => _remove_cache_entry key s') keys s).
Proof.
  induction keys as [|k keys IH]; intros s Hs; simpl; [exact Hs|].
  apply IH, wf_remove, Hs.
Qed.

Lemma wf_evict_all keys : forall s,
  wf s ->
  wf (fold_left (fun s' key => count_eviction (_remove_cache_entry key s')) keys s).
Proof.
  induction keys as [|k keys IH]; intros s Hs; simpl; [exact Hs|].
  apply IH. apply (wf_remove k s Hs).
Qed.

Lemma wf_set_cache now k data s : wf s -> wf (_set_cache now k data s).
Proof.
  intros Hs. unfold _set_cache. cbv zeta.
  set (s1 := if _ >=? _ then _ else s).
  assert (H1 : wf s1).
  { subst s1. destruct (_ >=? _); [|exact Hs]. now apply wf_evict_all. }
  clearbody s1. destruct H1 as [Hnd Hts]. split; simpl.
  - now apply dict_set_nodup.
  - intros k' Hin. rewrite dict_keys_set in Hin.
    destruct (String.eqb k k') eqn:E.
    + apply String.eqb_eq in E. subst. rewrite lookup_insert_eq. eauto.
    + apply String.eqb_neq in E. rewrite lookup_insert_ne by exact E.
      apply Hts. destruct (among (dict_keys (cache s1)) k); [exact Hin|].
      apply in_app_or in Hin. destruct Hin as [Hin|[Hin|[]]]; congruence.
Qed.

Lemma wf_get_from_cache now touched k s : wf s -> wf (snd (_get_from_cache now touched k s)).
Proof.
  intros [Hnd Hts]. unfold _get_from_cache.
  destruct (_is_cache_valid _ _ _); split; simpl; auto.
  intros k' Hin. destruct (String.eqb k k') eqn:E.
  - apply String.eqb_eq in E. subst. rewrite lookup_insert_eq. eauto.
  - apply String.eqb_neq in E. rewrite lookup_insert_ne by exact E. now apply Hts.
Qed.

Lemma wf_clear_cache pattern s : wf s -> wf (_clear_cache pattern s).
Proof.
  intros Hs. unfold _clear_cache.
  destruct pattern as [p|]; [destruct (String.eqb p "")|];
    try (split; [constructor|intros k []]).
  now apply wf_remove_all.
Qed.

Lemma insert_by_timestamp_perm x l : Permutation (insert_by_timestamp x l) (x :: l).
Proof.
  induction l as [|y l IH]; simpl; [reflexivity|].
  destruct (snd y <? snd x); [|reflexivity].
  rewrite IH. apply perm_swap.
Qed.

Lemma sort_by_timestamp_perm l : Permutation (sort_by_timestamp l) l.
Proof.
  induction l as [|x l IH]; simpl; [reflexivity|].
  rewrite insert_by_timestamp_perm. now constructor.
Qed.

(** The keys [_evict_lru_items] removes. *)
Definition evicted_keys (cache_type : string) (count : Z) (s : t) : list string :=
  let type_items :=
    map (fun key => (key, default 0 (cache_timestamps s !! key)))
        (keys_with_prefix cache_type s) in
  let sorted := sort_by_timestamp type_items in
  map fst (take (Z.to_nat (Z.min count (Z.of_nat (length sorted)))) sorted).

Lemma evicted_keys_facts cache_type count s :
  List.NoDup (dict_keys (cache s)) -> 0 <= count ->
  let keys := evicted_keys cache_type count s in
  List.NoDup keys /\ incl keys (keys_with_prefix cache_type s) /\
  Z.of_nat (length keys)
  = Z.min count (Z.of_nat (length (keys_with_prefix cache_type s))).
Proof.
  intros Hnd Hc. unfold evicted_keys. cbv zeta.
  set (items := map _ (keys_with_prefix cache_type s)).
  assert (Hfst : map fst items = keys_with_prefix cache_type s).
  { subst items. rewrite map_map. simpl. apply map_id. }
  assert (Hperm : Permutation (map fst (sort_by_timestamp items))
                    (keys_with_prefix cache_type s)).
  { rewrite <- Hfst. apply Permutation_map, sort_by_timestamp_perm. }
  assert (Hlen : length (sort_by_timestamp items)
                 = length (keys_with_prefix cache_type s)).
  { rewrite <- (length_map fst), (Permutation_length Hperm). reflexivity. }
  assert (Hndk : List.NoDup (keys_with_prefix cache_type s)).
  { unfold keys_with_prefix. now apply List.NoDup_filter. }
  rewrite Hlen. set (n := Z.to_nat _).
  rewrite <- (firstn_map fst).
  assert (Hsorted : List.NoDup (map fst (sort_by_timestamp items))).
  { eapply Permutation_NoDup; [symmetry; exact Hperm|exact Hndk]. }
  repeat split.
  - rewrite <- (firstn_skipn n (map fst (sort_by_timestamp items))) in Hsorted.
    apply NoDup_ListNoDup, NoDup_app in Hsorted. now apply NoDup_ListNoDup.
  - intros x Hx. eapply Permutation_in; [exact Hperm|].
    rewrite <- (firstn_skipn n (map fst (sort_by_timestamp items))).
    apply in_or_app. now left.
  - rewrite length_firstn, length_map, Hlen. subst n. lia.
Qed.

Lemma filter_among_length keys all :
  List.NoDup all -> List.NoDup keys -> incl keys all ->
  (length (List.filter (fun k => negb (among keys k)) all) + length keys
   = length all)%nat.
Proof.
  intros Hall Hkeys Hincl.
  rewrite Nat.add_comm, <- length_app. apply Permutation_length.
  apply Permutation.NoDup_Permutation; [| exact Hall |].
  - apply NoDup_ListNoDup, NoDup_app. repeat split.
    + now apply NoDup_ListNoDup.
    + intros x Hx Hin. apply list_elem_of_In in Hx. apply list_elem_of_In in Hin.
      apply filter_In in Hin. destruct Hin as [_ Hn].
      apply negb_true_iff in Hn. apply among_In in Hx. congruence.
    + apply NoDup_ListNoDup. now apply List.NoDup_filter.
  - intros x. rewrite in_app_iff, filter_In. split.
    + intros [Hx|[Hx _]]; auto.
    + intros Hx. destruct (among keys x) eqn:E.
      * left. now apply among_In.
      * right. auto.
Qed.

Lemma filter_swap {A} (f g : A -> bool) l :
  List.filter f (List.filter g l) = List.filter g (List.filter f l).
Proof.
  induction l as [|x l IH]; simpl; [reflexivity|].
  destruct (f x) eqn:Ef, (g x) eqn:Eg; simpl; rewrite ?Ef, ?Eg, IH; reflexivity.
Qed.

Lemma evict_lru_items_unfold cache_type count s :
  _evict_lru_items cache_type count s
  = fold_left (fun s' key => count_eviction (_remove_cache_entry key s'))
      (evicted_keys cache_type count s) s.
Proof. reflexivity. Qed.

(** [_evict_lru_items] removes [count] entries of those whose key starts
    with [cache_type], all of them when there are fewer, and counts them. *)
Lemma evict_lru_items_count cache_type count s :
  wf s -> 0 <= count ->
  let s' := _evict_lru_items cache_type count s in
  Z.of_nat (length (keys_with_prefix cache_type s'))
  = Z.of_nat (length (keys_with_prefix cache_type s))
    - Z.min count (Z.of_nat (length (keys_with_prefix cache_type s))) /\
  evictions (cache_stats s')
  = evictions (cache_stats s)
    + Z.min count (Z.of_nat (length (keys_with_prefix cache_type s))) /\
  (forall prefix,
     (length (keys_with_prefix prefix s') <= length (keys_with_prefix prefix s))%nat) /\
  wf s'.
Proof.
  intros Hwf Hc. pose proof Hwf as [Hnd _]. cbv zeta.
  rewrite evict_lru_items_unfold.
  destruct (evicted_keys_facts cache_type count s Hnd Hc) as (Hk1 & Hk2 & Hk3).
  set (keys := evicted_keys cache_type count s) in *.
  assert (Hkeys : forall prefix,
            keys_with_prefix prefix
              (fold_left (fun s' key => count_eviction (_remove_cache_entry key s')) keys s)
            = List.filter (fun k => negb (among keys k)) (keys_with_prefix prefix s)).
  { intros prefix. unfold keys_with_prefix.
    rewrite evict_all_cache, pop_all_among by exact Hnd.
    rewrite (keys_filter_by_key (fun k => negb (among keys k))).
    apply filter_swap. }
  repeat split.
  - rewrite Hkeys.
    pose proof (filter_among_length keys (keys_with_prefix cache_type s)) as Hlen.
    unfold keys_with_prefix in Hlen at 1.
    specialize (Hlen (List.NoDup_filter _ Hnd) Hk1 Hk2). lia.
  - destruct (evict_all_frame keys s) as (_ & _ & _ & ->). lia.
  - intros prefix. rewrite Hkeys. apply List.filter_length_le.
  - now apply wf_evict_all.
  - now apply wf_evict_all.
Qed.

Lemma keys_with_prefix_set prefix k data s1 :
  (length (List.filter (fun key => startswith key prefix)
             (dict_keys (dict_set k data (cache s1))))
   <= length (keys_with_prefix prefix s1) + 1)%nat.
Proof.
  rewrite dict_keys_set. unfold keys_with_prefix.
  destruct (among (dict_keys (cache s1)) k); [lia|].
  rewrite List.filter_app, length_app. simpl.
  destruct (startswith k prefix); simpl; lia.
Qed.

(** After a write, the keys that start with the first word of the written
    key are at most as many as the limit the code looked up for it. *)
Lemma set_cache_keeps_limit now k data s :
  wf s -> 1 <= max_size_of k ->
  Z.of_nat (length (keys_with_prefix (cache_type_of k) (_set_cache now k data s)))
  <= max_size_of k.
Proof.
  intros Hwf Hm. unfold _set_cache. cbv zeta.
  set (size := Z.of_nat (length (keys_with_prefix (cache_type_of k) s))).
  destruct (size >=? max_size_of k) eqn:E.
  - rewrite Z.geb_leb in E. apply Z.leb_le in E.
    destruct (evict_lru_items_count (cache_type_of k) (size - max_size_of k + 1) s Hwf)
      as (Hlen & _); [lia|].
    fold size in Hlen.
    unfold keys_with_prefix at 1. cbn [cache].
    pose proof (keys_with_prefix_set (cache_type_of k) k data
                  (_evict_lru_items (cache_type_of k) (size - max_size_of k + 1) s)).
    lia.
  - rewrite Z.geb_leb in E. apply Z.leb_gt in E.
    unfold keys_with_prefix at 1. cbn [cache].
    pose proof (keys_with_prefix_set (cache_type_of k) k data s).
    fold size. unfold size in *. lia.
Qed.

Lemma evict_lru_items_keys cache_type count s :
  wf s ->
  dict_keys (cache (_evict_lru_items cache_type count s))
  = List.filter (fun k => negb (among (evicted_keys cache_type count s) k))
      (dict_keys (cache s)).
Proof.
  intros [Hnd _]. rewrite evict_lru_items_unfold, evict_all_cache.
  rewrite pop_all_among by exact Hnd.
  apply (keys_filter_by_key (fun k => negb (among (evicted_keys cache_type count s) k))).
Qed.

(** The keys whose first word is [cache_type]: the entries the code
    treats as one category. *)
Definition keys_of_type (cache_type : string) (s : t) : list string :=
  List.filter (fun key => String.eqb (cache_type_of key) cache_type) (dict_keys (cache s)).

Lemma first_word_is_prefix key : startswith key (cache_type_of key) = true.
Proof.
  unfold startswith, cache_type_of.
  induction key as [|c key IH]; simpl; [reflexivity|].
  destruct (Ascii.eqb c "_"); simpl; [reflexivity|].
  destruct (ascii_dec c c); [exact IH|congruence].
Qed.

Lemma filter_length_impl {A} (f g : A -> bool) l :
  (forall x, f x = true -> g x = true) ->
  (length (List.filter f l) <= length (List.filter g l))%nat.
Proof.
  intros H. induction l as [|x l IH]; simpl; [lia|].
  destruct (f x) eqn:E.
  - rewrite (H x E). simpl. lia.
  - destruct (g x); simpl; lia.
Qed.

Lemma keys_of_type_within_prefix cache_type s :
  (length (keys_of_type cache_type s) <= length (keys_with_prefix cache_type s))%nat.
Proof.
  apply filter_length_impl. intros key E.
  apply String.eqb_eq in E. subst. apply first_word_is_prefix.
Qed.

(** [self.cache_max_size.get(cache_type, 50)] *)
Definition limit_of_type (cache_type : string) : Z :=
  default 50 (dict_get cache_type cache_max_size).

Lemma limit_of_type_positive cache_type : 1 <= limit_of_type cache_type.
Proof.
  unfold limit_of_type, cache_max_size. cbn [dict_get].
  repeat match goal with
         | |- context [String.eqb ?a ?b] => destruct (String.eqb a b)
         end; cbn [default from_option id]; lia.
Qed.

(** Every category, as the code reads categories off the keys, is within
    the limit the code looks up for it. *)
Definition within_limits (s : t) : Prop :=
  forall cache_type,
    Z.of_nat (length (keys_of_type cache_type s)) <= limit_of_type cache_type.

Lemma set_cache_within_limits now k data s :
  wf s -> within_limits s -> within_limits (_set_cache now k data s).
Proof.
  intros Hwf Hlim cache_type.
  destruct (String.eqb (cache_type_of k) cache_type) eqn:E.
  - apply String.eqb_eq in E. subst cache_type.
    pose proof (keys_of_type_within_prefix (cache_type_of k) (_set_cache now k data s)).
    pose proof (set_cache_keeps_limit now k data s Hwf
                  (limit_of_type_positive (cache_type_of k))).
    unfold limit_of_type, max_size_of in *. lia.
  - specialize (Hlim cache_type).
    unfold _set_cache. cbv zeta. unfold keys_of_type at 1. cbn [cache].
    set (s1 := if _ >=? _ then _ else s).
    assert (H1 : (length (keys_of_type cache_type s1)
                  <= length (keys_of_type cache_type s))%nat).
    { subst s1. destruct (_ >=? _); [|lia].
      unfold keys_of_type. rewrite evict_lru_items_keys by exact Hwf.
      rewrite filter_swap. apply List.filter_length_le. }
    assert (H2 : List.filter (fun key => String.eqb (cache_type_of key) cache_type)
                   (dict_keys (dict_set k data (cache s1)))
                 = keys_of_type cache_type s1).
    { rewrite dict_keys_set. unfold keys_of_type.
      destruct (among (dict_keys (cache s1)) k); [reflexivity|].
      rewrite List.filter_app. simpl. rewrite E. apply app_nil_r. }
    rewrite H2. lia.
Qed.

(** Writes made one after the other. *)
Definition write_all (writes : list (Z * string * pyval)) (s : t) : t :=
  fold_left (fun s' w => _set_cache (fst (fst w)) (snd (fst w)) (snd w) s') writes s.

(** The size the code keeps.  After any sequence of [_set_cache] calls on
    a fresh manager, the keys of one first word are at most as many as
    [cache_max_size] allows that word, 50 when it has no entry: at most 10
    keys [statistics_...], and at most 50 keys [invoice_...] ([invoice_list]
    and [invoice_detail] together), 50 [search_...], 50 [client_...],
    50 [agent_...], 50 [service_...]. *)
Lemma writes_within_limits writes cosmos search :
  let s := write_all writes (init cosmos search) in
  wf s /\ within_limits s /\
  Z.of_nat (length (keys_of_type "statistics" s)) <= 10 /\
  Z.of_nat (length (keys_of_type "invoice" s)) <= 50.
Proof.
  cbv zeta.
  assert (H : forall s0, wf s0 -> within_limits s0 ->
                wf (write_all writes s0) /\ within_limits (write_all writes s0)).
  { induction writes as [|w writes IH]; intros s0 Hwf Hlim; simpl; [auto|].
    apply IH; [now apply wf_set_cache|now apply set_cache_within_limits]. }
  destruct (H (init cosmos search)) as [Hwf Hlim].
  - apply wf_init.
  - intros cache_type. pose proof (limit_of_type_positive cache_type).
    unfold keys_of_type. simpl. lia.
  - split; [exact Hwf|]. split; [exact Hlim|].
    split; [apply (Hlim "statistics")|apply (Hlim "invoice")].
Qed.

(** *** The entries evicted are the oldest *)

Definition older (a b : string * Z) : Prop := snd a <= snd b.

Lemma insert_by_timestamp_sorted x l :
  StronglySorted older l -> StronglySorted older (insert_by_timestamp x l).
Proof.
  induction 1 as [|y l Hs IH Hall]; simpl.
  - repeat constructor.
  - destruct (snd y <? snd x) eqn:E.
    + constructor; [exact IH|].
      apply List.Forall_forall. intros z Hz.
      apply (Permutation_in _ (insert_by_timestamp_perm x l)) in Hz.
      destruct Hz as [<-|Hz].
      * apply Z.ltb_lt in E. unfold older. lia.
      * rewrite List.Forall_forall in Hall. now apply Hall.
    + apply Z.ltb_ge in E. constructor; [now constructor|].
      constructor; [exact E|].
      apply List.Forall_forall. intros z Hz.
      rewrite List.Forall_forall in Hall. specialize (Hall z Hz).
      unfold older in *. lia.
Qed.

Lemma sort_by_timestamp_sorted l : StronglySorted older (sort_by_timestamp l).
Proof.
  induction l as [|x l IH]; simpl; [constructor|].
  now apply insert_by_timestamp_sorted.
Qed.

Lemma sorted_app_older l1 : forall l2,
  StronglySorted older (l1 ++ l2) ->
  forall a b, In a l1 -> In b l2 -> older a b.
Proof.
  induction l1 as [|x l1 IH]; intros l2 Hs a b Ha Hb; [destruct Ha|].
  simpl in Hs. inversion Hs as [|? ? Hs' Hall]; subst.
  destruct Ha as [<-|Ha].
  - rewrite List.Forall_forall in Hall. apply Hall, in_or_app. now right.
  - now apply (IH l2 Hs').
Qed.

(** No entry that stays was written or served before an entry that goes. *)
Lemma evicted_keys_oldest cache_type count s gone kept :
  In gone (evicted_keys cache_type count s) ->
  In kept (keys_with_prefix cache_type s) ->
  ~ In kept (evicted_keys cache_type count s) ->
  default 0 (cache_timestamps s !! gone) <= default 0 (cache_timestamps s !! kept).
Proof.
  unfold evicted_keys. cbv zeta.
  set (items := map (fun key => (key, default 0 (cache_timestamps s !! key)))
                    (keys_with_prefix cache_type s)).
  set (n := Z.to_nat _).
  intros Hgone Hkept Hstays.
  assert (Hitem : forall a, In a (sort_by_timestamp items) ->
                    snd a = default 0 (cache_timestamps s !! fst a)).
  { intros a Ha. apply (Permutation_in _ (sort_by_timestamp_perm items)) in Ha.
    subst items. apply in_map_iff in Ha. destruct Ha as (key & <- & _). reflexivity. }
  apply in_map_iff in Hgone. destruct Hgone as (a & <- & Ha).
  assert (Ha' : In a (sort_by_timestamp items)).
  { rewrite <- (firstn_skipn n (sort_by_timestamp items)). apply in_or_app. now left. }
  rewrite <- (Hitem a Ha').
  set (b := (kept, default 0 (cache_timestamps s !! kept))).
  assert (Hb : In b (sort_by_timestamp items)).
  { apply (Permutation_in _ (Permutation_sym (sort_by_timestamp_perm items))).
    subst items b. apply in_map_iff. now exists kept. }
  rewrite <- (firstn_skipn n (sort_by_timestamp items)) in Hb.
  apply in_app_or in Hb. destruct Hb as [Hb|Hb].
  - exfalso. apply Hstays. apply in_map_iff. now exists b.
  - change (older a b).
    apply (sorted_app_older (take n (sort_by_timestamp items))
             (drop n (sort_by_timestamp items))); auto.
    rewrite firstn_skipn. apply sort_by_timestamp_sorted.
Qed.

End ServiceManagerFacts.

(** ** The job queue *)

Module InvoiceQueueFacts.
Import Py InvoiceQueue.

Lemma in_insert_desc x y l : In x (insert_desc y l) <-> x = y \/ In x l.
Proof.
  induction l as [|z l IH]; simpl; [intuition|].
  destruct (item_ltb y z); simpl; rewrite ?IH; intuition.
Qed.

Lemma in_sort_desc x l : In x (sort_desc l) <-> In x l.
Proof.
  induction l as [|y l IH]; simpl; [tauto|].
  rewrite in_insert_desc, IH. intuition.
Qed.

Lemma in_push item q : In item (push item q).
Proof.
  unfold push.
  assert (Hs : In item (sort_desc (queue q ++ [item]))).
  { apply in_sort_desc, in_or_app. right. now left. }
  destruct (redis_client q); [|exact Hs].
  destruct (existsb _ (queue q)) eqn:E; [|exact Hs].
  apply existsb_exists in E. destruct E as ([p id] & Hin & Heq).
  apply andb_true_iff in Heq. destruct Heq as [Hp Hid]. simpl in Hp, Hid.
  apply Z.eqb_eq in Hp. apply String.eqb_eq in Hid.
  destruct item as [p' id']. simpl in *. now subst.
Qed.

(** A job is created queued, with no retry counted and three allowed. *)
Lemma enqueue_invoice_queued now id details priority q :
  let q' := snd (enqueue_invoice now id details priority q) in
  status_of id q' = Some QUEUED /\ retries_of id q' = Some 0 /\
  option_map max_retries (get_job_status id q') = Some 3 /\
  In (priority, id) (queue q').
Proof.
  unfold status_of, retries_of, get_job_status. simpl.
  rewrite lookup_insert_eq. simpl. repeat split. apply in_push.
Qed.

Lemma update_job_status_status now id new_status p r e q job :
  get_job_status id q = Some job ->
  let q' := update_job_status now id new_status p r e q in
  status_of id q' = Some new_status /\
  retries_of id q' = Some (retry_count job) /\
  option_map max_retries (get_job_status id q') = Some (max_retries job) /\
  queue q' = queue q /\ redis_client q' = redis_client q.
Proof.
  intros Hj. unfold update_job_status. rewrite Hj.
  unfold status_of, retries_of, get_job_status. simpl.
  rewrite lookup_insert_eq. simpl. auto.
Qed.

(** [cancel_job] succeeds on a queued job, which it leaves cancelled and
    out of the in-memory queue; on any other job, and on a job it does not
    know, it answers false and changes nothing. *)
Lemma cancel_job_only_queued now id q :
  match status_of id q with
  | Some QUEUED =>
      fst (cancel_job now id q) = true /\
      status_of id (snd (cancel_job now id q)) = Some CANCELLED
  | _ => cancel_job now id q = (false, q)
  end.
Proof.
  unfold status_of, cancel_job.
  destruct (get_job_status id q) as [job|] eqn:Hj; simpl; [|reflexivity].
  destruct (status job) eqn:Hs; simpl; try reflexivity.
  split; [reflexivity|].
  destruct (update_job_status_status now id CANCELLED None None None q job Hj)
    as (H1 & _).
  unfold status_of, get_job_status in *. simpl. exact H1.
Qed.

(** A failure with retries left, on the in-memory queue: the count stored
    with the job goes up by one, the job is queued again, at the priority
    of minus that count. *)
Lemma on_failure_retry_memory now id message q job :
  redis_client q = false ->
  get_job_status id q = Some job ->
  retry_count job < max_retries job ->
  let q' := on_failure now id message q in
  status_of id q' = Some QUEUED /\
  retries_of id q' = Some (retry_count job + 1) /\
  In (- (retry_count job + 1), id) (queue q').
Proof.
  intros Hr Hj Hlt. unfold on_failure. rewrite Hj.
  replace (retry_count job <? max_retries job) with true
    by (symmetry; apply Z.ltb_lt; exact Hlt).
  unfold bump_retry_count. rewrite Hr.
  match goal with
  | |- context [update_job_status now id QUEUED None None None ?q1] =>
      destruct (update_job_status_status now id QUEUED None None None q1
                  (mk_job (job_id job) (order_details job) (status job) (created_at job)
                     (started_at job) (completed_at job) (result job) (error job)
                     (progress job) (retry_count job + 1) (max_retries job)))
        as (H1 & H2 & _)
  end.
  { unfold get_job_status. simpl. apply lookup_insert_eq. }
  cbv zeta. unfold status_of, retries_of, get_job_status in *. simpl in *.
  repeat split; auto. apply in_push.
Qed.

(** The same failure on the Redis queue: the job is queued again at
    priority minus one more than the stored count, but the count stored
    with the job stays as it was. *)
Lemma on_failure_retry_redis now id message q job :
  redis_client q = true ->
  get_job_status id q = Some job ->
  retry_count job < max_retries job ->
  let q' := on_failure now id message q in
  status_of id q' = Some QUEUED /\
  retries_of id q' = Some (retry_count job) /\
  In (- (retry_count job + 1), id) (queue q').
Proof.
  intros Hr Hj Hlt. unfold on_failure. rewrite Hj.
  replace (retry_count job <? max_retries job) with true
    by (symmetry; apply Z.ltb_lt; exact Hlt).
  unfold bump_retry_count. rewrite Hr.
  destruct (update_job_status_status now id QUEUED None None None q job Hj)
    as (H1 & H2 & _).
  cbv zeta. unfold status_of, retries_of, get_job_status in *. simpl in *.
  repeat split; auto. apply in_push.
Qed.

(** A failure with no retry left ends the job. *)
Lemma on_failure_exhausted now id message q job :
  get_job_status id q = Some job ->
  max_retries job <= retry_count job ->
  let q' := on_failure now id message q in
  status_of id q' = Some FAILED /\ queue q' = queue q.
Proof.
  intros Hj Hle. unfold on_failure. rewrite Hj.
  replace (retry_count job <? max_retries job) with false
    by (symmetry; apply Z.ltb_ge; exact Hle).
  destruct (update_job_status_status now id FAILED None None (Some message) q job Hj)
    as (H1 & _ & _ & H2 & _).
  auto.
Qed.

(** *** A job whose generation fails every time *)

Definition order : pyval := PyDict [("client_name", PyStr "Acme Corp")].

Definition failing_round (q : t) : t :=
  work 0 0 (Raises "AI services not available") (Raises "unused") q.

Fixpoint rounds (n : nat) (q : t) : t :=
  match n with
  | O => q
  | S n' => rounds n' (failing_round q)
  end.

(** One job on a queue backed by Redis ([true]) or by memory ([false]). *)
Definition one_job (redis : bool) : t :=
  snd (enqueue_invoice 0 "job-1" order 0 (init redis)).

(** C9, on the code.  With the in-memory queue the job is retried three
    times and the fourth failure ends it, with three retries counted.
    With the Redis queue the count stored with the job never moves: after
    four failures, and after twenty, the job is queued again with no retry
    counted, waiting at priority -1. *)
Theorem retry_count_lost_with_redis :
  status_of "job-1" (one_job true) = Some QUEUED /\
  status_of "job-1" (rounds 3 (one_job false)) = Some QUEUED /\
  retries_of "job-1" (rounds 3 (one_job false)) = Some 3 /\
  status_of "job-1" (rounds 4 (one_job false)) = Some FAILED /\
  queue (rounds 4 (one_job false)) = [] /\
  status_of "job-1" (rounds 4 (one_job true)) = Some QUEUED /\
  retries_of "job-1" (rounds 4 (one_job true)) = Some 0 /\
  queue (rounds 4 (one_job true)) = [(-1, "job-1")] /\
  status_of "job-1" (rounds 20 (one_job true)) = Some QUEUED /\
  retries_of "job-1" (rounds 20 (one_job true)) = Some 0.
Proof. vm_compute. repeat split. Qed.

(** *** A failed job stays failed *)

(** [q'] differs from [q] at most in the job [id'] and in queue items of
    that job. *)
Definition touches_only (id' : string) (q q' : t) : Prop :=
  (forall id, id <> id' -> jobs q' !! id = jobs q !! id) /\
  (forall item, In item (queue q') -> In item (queue q) \/ snd item = id').

Lemma touches_only_refl id' q : touches_only id' q q.
Proof. split; auto. Qed.

Lemma touches_only_trans id' q1 q2 q3 :
  touches_only id' q1 q2 -> touches_only id' q2 q3 -> touches_only id' q1 q3.
Proof.
  intros [Hj1 Hq1] [Hj2 Hq2]. split.
  - intros id Hne. rewrite Hj2, Hj1 by exact Hne. reflexivity.
  - intros item Hin. destruct (Hq2 item Hin) as [H|H]; auto.
Qed.

Lemma update_job_status_touches now id' new_status p r e q :
  touches_only id' q (update_job_status now id' new_status p r e q).
Proof.
  unfold update_job_status. destruct (get_job_status id' q); [|apply touches_only_refl].
  split; simpl; auto. intros id Hne. now rewrite lookup_insert_ne by congruence.
Qed.

Lemma in_push_inv item other q : In other (push item q) -> other = item \/ In other (queue q).
Proof.
  unfold push. intros Hin.
  assert (Hs : In other (sort_desc (queue q ++ [item])) -> other = item \/ In other (queue q)).
  { intros H. apply in_sort_desc, in_app_or in H. destruct H as [H|[H|[]]]; auto. }
  destruct (redis_client q); [|auto].
  destruct (existsb _ (queue q)); auto.
Qed.

Lemma on_failure_touches now id' message q :
  touches_only id' q (on_failure now id' message q).
Proof.
  unfold on_failure.
  destruct (get_job_status id' q) as [job|]; [|apply update_job_status_touches].
  destruct (retry_count job <? max_retries job); [|apply update_job_status_touches].
  unfold bump_retry_count. cbv zeta.
  match goal with
  | |- context [update_job_status now id' QUEUED None None None ?q1] =>
      assert (H1 : touches_only id' q q1);
      [|pose proof (update_job_status_touches now id' QUEUED None None None q1) as H2;
        set (q2 := update_job_status now id' QUEUED None None None q1) in *]
  end.
  { destruct (redis_client q); [apply touches_only_refl|].
    split; simpl; auto. intros id Hne. now rewrite lookup_insert_ne by congruence. }
  destruct (touches_only_trans _ _ _ _ H1 H2) as [Hj Hq].
  split; simpl; [exact Hj|].
  intros item Hin. apply in_push_inv in Hin. destruct Hin as [->|Hin]; auto.
Qed.

Lemma process_job_touches started finished id' generated saved q :
  touches_only id' q (_process_job started finished id' generated saved q).
Proof.
  unfold _process_job.
  destruct (get_job_status id' q); [|apply touches_only_refl].
  repeat match goal with
         | |- touches_only _ ?a ?a => apply touches_only_refl
         | |- touches_only id' _ (match ?x with _ => _ end) => destruct x
         | |- touches_only id' _ (on_failure _ _ _ ?q1) =>
             apply (touches_only_trans id' _ q1);
             [|apply on_failure_touches]
         | |- touches_only id' _ (update_job_status _ _ _ _ _ _ ?q1) =>
             apply (touches_only_trans id' _ q1);
             [|apply update_job_status_touches]
         end.
Qed.

(** The job is failed and no item of the queue is for it. *)
Definition failed_for_good (id : string) (q : t) : Prop :=
  status_of id q = Some FAILED /\ forall item, In item (queue q) -> snd item <> id.

Lemma failed_for_good_kept id id' q q' :
  id <> id' -> touches_only id' q q' -> failed_for_good id q -> failed_for_good id q'.
Proof.
  intros Hne [Hj Hq] [Hs Hn]. split.
  - unfold status_of, get_job_status in *. now rewrite Hj.
  - intros item Hin. destruct (Hq item Hin) as [H|H]; [now apply Hn|congruence].
Qed.

(** Once a job has failed for good, nothing the queue offers moves it:
    neither the worker taking the next job, whatever the generation does,
    nor a cancellation of any job, nor the arrival of another job. *)
Lemma failed_job_stays_failed id q :
  failed_for_good id q ->
  (forall started finished generated saved,
     failed_for_good id (work started finished generated saved q)) /\
  (forall now id', failed_for_good id (snd (cancel_job now id' q))) /\
  (forall now, cancel_job now id q = (false, q)) /\
  (forall now new_id details priority, new_id <> id ->
     failed_for_good id (snd (enqueue_invoice now new_id details priority q))).
Proof.
  intros Hf. pose proof Hf as [Hs Hn]. split; [|split; [|split]].
  - intros started finished generated saved.
    unfold work, _get_next_job. destruct (queue q) as [|[p id'] rest] eqn:Eq.
    + exact Hf.
    + assert (Hne : id <> id').
      { intros ->. apply (Hn (p, id')); [now left|reflexivity]. }
      eapply failed_for_good_kept; [exact Hne|apply process_job_touches|].
      split; [exact Hs|]. simpl. intros item Hin. apply Hn. now right.
  - intros now id'. destruct (String.eqb id id') eqn:E.
    + apply String.eqb_eq in E. subst id'.
      pose proof (cancel_job_only_queued now id q) as Hc. rewrite Hs in Hc.
      now rewrite Hc.
    + apply String.eqb_neq in E. unfold cancel_job.
      destruct (get_job_status id' q) as [job|]; [|exact Hf].
      destruct (JobStatus_eqb (status job) QUEUED); [|exact Hf].
      destruct (update_job_status_touches now id' CANCELLED None None None q)
        as [Hj Hq].
      set (q1 := update_job_status now id' CANCELLED None None None q) in *.
      split.
      * unfold status_of, get_job_status in *. simpl. now rewrite Hj.
      * simpl. intros item Hin.
        assert (Hin1 : In item (queue q1)).
        { destruct (redis_client q1).
          - apply in_rev in Hin. apply in_rev.
            clear -Hin. induction (rev (queue q1)) as [|x l IH]; simpl in *; [exact Hin|].
            destruct (String.eqb (snd x) id'); [now right|].
            destruct Hin as [<-|Hin]; [now left|right; now apply IH].
          - apply filter_In in Hin. tauto. }
        destruct (Hq item Hin1) as [H|H]; [now apply Hn|congruence].
  - intros now. pose proof (cancel_job_only_queued now id q) as Hc.
    now rewrite Hs in Hc.
  - intros now new_id details priority Hne. split.
    + unfold status_of, get_job_status in *. simpl.
      now rewrite lookup_insert_ne by exact Hne.
    + simpl. intros item Hin. apply in_push_inv in Hin.
      destruct Hin as [->|Hin]; [simpl; exact Hne|now apply Hn].
Qed.

End InvoiceQueueFacts.

Module CacheFacts.
Import Py ServiceManager ServiceManagerFacts.

(** *** The operations as sequences of steps on the cache *)

(** The steps the operations of the manager are made of. *)
Inductive prim : Type :=
| PGet (now touched : Z) (key : string)
| PSet (now : Z) (key : string) (data : pyval)
| PRemove (key : string)
| PClearAll
| PLog (c : backend_call)
| PSwept.

Definition prim_step (s : t) (p : prim) : t :=
  match p with
  | PGet now touched key => snd (_get_from_cache now touched key s)
  | PSet now key data => _set_cache now key data s
  | PRemove key => _remove_cache_entry key s
  | PClearAll => _clear_cache None s
  | PLog c => log_call c s
  | PSwept =>
      with_stats (fun st =>
        mk_stats (total_requests st) (cache_hits st) (cache_misses st)
                 (evictions st) (cleanup_runs st + 1)) s
  end.

Definition prim_run (s : t) (ps : list prim) : t := fold_left prim_step ps s.

(** The keys the operations of the manager write. *)
Definition public_key (key : string) : Prop :=
  key = "statistics_main" \/ key = "service_status_main" \/
  startswith key "invoice_list_" = true \/ startswith key "invoice_detail_" = true \/
  startswith key "search_results_" = true \/ startswith key "client_data_" = true.

Definition writes_public (p : prim) : Prop :=
  match p with
  | PSet _ key _ => public_key key
  | _ => True
  end.

(** A state reached by steps that write public keys only. *)
Definition steps (s s' : t) : Prop :=
  exists ps, s' = prim_run s ps /\ Forall writes_public ps.

Lemma steps_refl s : steps s s.
Proof. exists []. split; [reflexivity|constructor]. Qed.

Lemma steps_trans s1 s2 s3 : steps s1 s2 -> steps s2 s3 -> steps s1 s3.
Proof.
  intros (ps & -> & H1) (qs & -> & H2). exists (ps ++ qs). split.
  - unfold prim_run. now rewrite fold_left_app.
  - apply Forall_app. split; assumption.
Qed.

Lemma steps_one s p : writes_public p -> steps s (prim_step s p).
Proof. intros H. exists [p]. split; [reflexivity|]. now constructor. Qed.

Lemma steps_remove_all keys : forall s,
  steps s (fold_left (fun s' key => _remove_cache_entry key s') keys s).
Proof.
  induction keys as [|k keys IH]; intros s; simpl; [apply steps_refl|].
  eapply steps_trans; [|apply IH]. apply (steps_one s (PRemove k)). exact I.
Qed.

Lemma steps_clear_cache pattern s : steps s (_clear_cache pattern s).
Proof.
  assert (Hall : steps s (_clear_cache None s)) by (apply (steps_one s PClearAll); exact I).
  destruct pattern as [p|]; [|exact Hall].
  unfold _clear_cache in *. destruct (String.eqb p ""); [exact Hall|].
  apply steps_remove_all.
Qed.

Lemma prefix_append p x : String.prefix p (p +:+ x) = true.
Proof.
  induction p as [|c p IH]; simpl; [now destruct x|].
  destruct (ascii_dec c c); [exact IH|congruence].
Qed.

Lemma steps_cached_read force i key s : steps s (snd (cached_read force i key s)).
Proof.
  unfold cached_read. destruct force; [apply steps_refl|].
  pose proof (steps_one s (PGet (checked i) (touched i) key) I) as H. simpl in H.
  destruct (_get_from_cache (checked i) (touched i) key s) as [cached s1].
  simpl in H. now destruct (truthy cached).
Qed.

Lemma steps_set now key data s : public_key key -> steps s (_set_cache now key data s).
Proof. intros H. apply (steps_one s (PSet now key data)). exact H. Qed.

Lemma steps_log c s : steps s (log_call c s).
Proof. apply (steps_one s (PLog c)). exact I. Qed.

Ltac public :=
  unfold public_key, startswith;
  first [ now left
        | right; now left
        | do 2 right; left; apply prefix_append
        | do 3 right; left; apply prefix_append
        | do 4 right; left; apply prefix_append
        | do 5 right; apply prefix_append ].

Section of_calls.
Variable md5 : string -> string.

Lemma steps_get_statistics force i fresh s :
  steps s (snd (get_statistics force i fresh s)).
Proof.
  unfold get_statistics. cbv zeta.
  pose proof (steps_cached_read force i "statistics_main" s) as H.
  destruct (cached_read force i "statistics_main" s) as [[v|] s1]; simpl in *; [exact H|].
  destruct (cosmos_ready s1); simpl; [|exact H].
  eapply steps_trans; [exact H|]. eapply steps_trans; [apply steps_log|].
  apply steps_set. public.
Qed.

Lemma steps_list_invoices limit force i fresh s :
  steps s (snd (list_invoices limit force i fresh s)).
Proof.
  unfold list_invoices. cbv zeta.
  pose proof (steps_cached_read force i ("invoice_list_" +:+ pretty limit) s) as H.
  destruct (cached_read force i ("invoice_list_" +:+ pretty limit) s) as [[v|] s1];
    simpl in *; [exact H|].
  destruct (cosmos_ready s1); simpl; [|exact H].
  eapply steps_trans; [exact H|]. eapply steps_trans; [apply steps_log|].
  apply steps_set. public.
Qed.

Lemma steps_get_invoice number force i fresh s :
  steps s (snd (get_invoice number force i fresh s)).
Proof.
  unfold get_invoice. cbv zeta.
  pose proof (steps_cached_read force i ("invoice_detail_" +:+ number) s) as H.
  destruct (cached_read force i ("invoice_detail_" +:+ number) s) as [[v|] s1];
    simpl in *; [exact H|].
  destruct (cosmos_ready s1); simpl; [|exact H].
  eapply steps_trans; [exact H|]. eapply steps_trans; [apply steps_log|].
  apply steps_set. public.
Qed.

Lemma steps_search_invoices query force i index_answer cosmos_answer s :
  steps s (snd (search_invoices md5 query force i index_answer cosmos_answer s)).
Proof.
  unfold search_invoices. cbv zeta.
  pose proof (steps_cached_read force i (search_cache_key md5 query) s) as H.
  destruct (cached_read force i (search_cache_key md5 query) s) as [[v|] s1];
    simpl in *; [exact H|].
  set (first := if search_ready s1 then _ else _).
  assert (H1 : steps s1 (snd first)).
  { subst first. destruct (search_ready s1); [|apply steps_refl].
    destruct index_answer; apply steps_log. }
  destruct first as [results s2]. simpl in H1.
  set (second := if _ && cosmos_ready s2 then _ else _).
  assert (H2 : steps s2 (snd second)).
  { subst second. destruct (_ && cosmos_ready s2); [|apply steps_refl].
    destruct cosmos_answer; apply steps_log. }
  destruct second as [results' s3]. simpl in *.
  eapply steps_trans; [exact H|]. eapply steps_trans; [exact H1|].
  eapply steps_trans; [exact H2|].
  apply steps_set. unfold search_cache_key. public.
Qed.

Lemma steps_get_client_invoices client force i i_search index_answer cosmos_answer s :
  steps s (snd (get_client_invoices md5 client force i i_search index_answer
                  cosmos_answer s)).
Proof.
  unfold get_client_invoices. cbv zeta.
  pose proof (steps_cached_read force i (client_cache_key client) s) as H.
  destruct (cached_read force i (client_cache_key client) s) as [[v|] s1];
    simpl in *; [exact H|].
  pose proof (steps_search_invoices client false i_search index_answer cosmos_answer s1)
    as H1.
  destruct (search_invoices md5 client false i_search index_answer cosmos_answer s1)
    as [invoices s2].
  simpl in H1. pose proof (steps_trans _ _ _ H H1) as H2.
  destruct invoices; simpl; try exact H2.
  destruct (filter_client client xs); simpl; [|exact H2].
  eapply steps_trans; [exact H2|]. apply steps_set. unfold client_cache_key. public.
Qed.

Lemma steps_get_service_status_cached force i status statistics s :
  steps s (snd (get_service_status_cached force i status statistics s)).
Proof.
  unfold get_service_status_cached. cbv zeta.
  pose proof (steps_cached_read force i "service_status_main" s) as H.
  destruct (cached_read force i "service_status_main" s) as [[v|] s1];
    simpl in *; [exact H|].
  eapply steps_trans; [exact H|]. apply steps_set. public.
Qed.

Lemma steps_invalidate_after_save number client s :
  steps s (invalidate_after_save number client s).
Proof.
  unfold invalidate_after_save. cbv zeta.
  set (s_b := _clear_cache (Some "invoice_list") _).
  assert (Hb : steps s s_b).
  { eapply steps_trans; apply steps_clear_cache. }
  set (s_c := match number with Some _ => _ | None => s_b end).
  assert (Hc : steps s s_c).
  { subst s_c. destruct number as [n|]; [|exact Hb].
    destruct (String.eqb n ""); [exact Hb|].
    eapply steps_trans; [exact Hb|]. apply (steps_one s_b (PRemove _)). exact I. }
  destruct (String.eqb client ""); [exact Hc|].
  eapply steps_trans; [exact Hc|]. apply (steps_one s_c (PRemove _)). exact I.
Qed.

Lemma steps_save_invoice number client cosmos_answer index_answer s :
  steps s (snd (save_invoice number client cosmos_answer index_answer s)).
Proof.
  unfold save_invoice.
  set (first := if cosmos_ready s then _ else _).
  assert (H1 : steps s (snd first)).
  { subst first. destruct (cosmos_ready s); [|apply steps_refl].
    destruct cosmos_answer; apply steps_log. }
  destruct first as [[saved warnings] s1]. simpl in H1.
  set (second := if search_ready s1 then _ else _).
  assert (H2 : steps s1 (snd second)).
  { subst second. destruct (search_ready s1); [|apply steps_refl].
    destruct index_answer; apply steps_log. }
  destruct second as [[indexed warnings'] s2]. simpl in *.
  pose proof (steps_trans _ _ _ H1 H2) as H.
  destruct saved; [|exact H].
  eapply steps_trans; [exact H|]. apply steps_invalidate_after_save.
Qed.

Lemma steps_invalidate_after_status_update number s :
  steps s (invalidate_after_status_update number s).
Proof.
  unfold invalidate_after_status_update. cbv zeta.
  eapply steps_trans; [apply steps_clear_cache|].
  eapply steps_trans; [|apply steps_remove_all].
  apply (steps_one _ (PRemove ("invoice_detail_" +:+ number))). exact I.
Qed.

Lemma steps_update_invoice_status number status cosmos_answer index_answer s :
  steps s (snd (update_invoice_status number status cosmos_answer index_answer s)).
Proof.
  unfold update_invoice_status.
  set (first := if cosmos_ready s then _ else _).
  assert (H1 : steps s (snd first)).
  { subst first. destruct (cosmos_ready s); [apply steps_log|apply steps_refl]. }
  destruct first as [success s1]. simpl in H1.
  set (s2 := if search_ready s1 then _ else s1).
  assert (H2 : steps s s2).
  { subst s2. destruct (search_ready s1); [|exact H1].
    eapply steps_trans; [exact H1|apply steps_log]. }
  simpl. destruct success; [|exact H2].
  eapply steps_trans; [exact H2|]. apply steps_invalidate_after_status_update.
Qed.

Lemma steps_cleanup now s : steps s (cleanup_expired_cache now s).
Proof.
  unfold cleanup_expired_cache. cbv zeta.
  eapply steps_trans; [apply steps_remove_all|].
  apply (steps_one _ PSwept). exact I.
Qed.

(** Every call on the manager is a sequence of steps on its cache. *)
Lemma steps_step s c : steps s (step md5 s c).
Proof.
  destruct c; simpl.
  - apply steps_get_statistics.
  - apply steps_list_invoices.
  - apply steps_get_invoice.
  - apply steps_search_invoices.
  - apply steps_get_client_invoices.
  - apply steps_get_service_status_cached.
  - apply steps_save_invoice.
  - apply steps_update_invoice_status.
  - apply steps_cleanup.
  - apply steps_clear_cache.
Qed.

Lemma steps_run cs : forall s, steps s (run md5 s cs).
Proof.
  induction cs as [|c cs IH]; intros s; simpl; [apply steps_refl|].
  eapply steps_trans; [apply steps_step|apply IH].
Qed.

End of_calls.

(** *** What every state of the manager satisfies *)

(** The tracking tables follow the cache: the timestamps, the access
    counts and the hit counts have the keys of [cache] and no other; an
    entry served [h] times since it was written has access count [h + 1];
    every request counted is either a hit or a miss. *)
Record tracked (s : t) : Prop := mk_tracked {
  tracked_nodup : List.NoDup (dict_keys (cache s));
  tracked_timestamps :
    forall k, is_Some (cache_timestamps s !! k) <-> In k (dict_keys (cache s));
  tracked_access :
    forall k, is_Some (cache_access_count s !! k) <-> In k (dict_keys (cache s));
  tracked_hits :
    forall k, is_Some (cache_hit_count s !! k) <-> In k (dict_keys (cache s));
  tracked_counts :
    forall k h, cache_hit_count s !! k = Some h ->
      0 <= h /\ cache_access_count s !! k = Some (h + 1);
  tracked_requests :
    total_requests (cache_stats s)
    = cache_hits (cache_stats s) + cache_misses (cache_stats s);
  tracked_positive :
    0 <= cache_hits (cache_stats s) /\ 0 <= cache_misses (cache_stats s) /\
    0 <= evictions (cache_stats s) /\ 0 <= cleanup_runs (cache_stats s)
}.

Lemma tracked_wf s : tracked s -> wf s.
Proof.
  intros H. split; [apply (tracked_nodup s H)|].
  intros k Hin. now apply (tracked_timestamps s H).
Qed.

Lemma tracked_init cosmos search : tracked (init cosmos search).
Proof.
  split; simpl; try lia.
  - constructor.
  - intros k. rewrite lookup_empty. split; [intros [x Hx]; discriminate|intros []].
  - intros k. rewrite lookup_empty. split; [intros [x Hx]; discriminate|intros []].
  - intros k. rewrite lookup_empty. split; [intros [x Hx]; discriminate|intros []].
  - intros k h. rewrite lookup_empty. discriminate.
Qed.

Lemma in_keys_pop {V} k k' (d : dict V) :
  List.NoDup (dict_keys d) ->
  In k' (dict_keys (dict_pop k d)) <-> k' <> k /\ In k' (dict_keys d).
Proof.
  intros Hnd. rewrite dict_pop_filter by exact Hnd.
  rewrite (keys_filter_by_key (fun key => negb (String.eqb key k))).
  rewrite filter_In, negb_true_iff, String.eqb_neq. tauto.
Qed.

Lemma in_keys_set {V} k k' (v : V) (d : dict V) :
  In k' (dict_keys (dict_set k v d)) <-> k' = k \/ In k' (dict_keys d).
Proof.
  rewrite dict_keys_set. destruct (among (dict_keys d) k) eqn:E.
  - apply among_In in E. split; [tauto|]. intros [->|H]; assumption.
  - rewrite in_app_iff. simpl. split; [intros [H|[H|[]]]; auto|].
    intros [->|H]; auto.
Qed.

Lemma is_Some_delete (m : gmap string Z) k k' :
  is_Some (delete k m !! k') <-> k' <> k /\ is_Some (m !! k').
Proof.
  destruct (decide (k = k')) as [->|Hne].
  - rewrite lookup_delete_eq. split; [intros [x Hx]; discriminate|tauto].
  - rewrite lookup_delete_ne by exact Hne. split; [intros H; split; congruence|tauto].
Qed.

Lemma is_Some_insert (m : gmap string Z) k k' v :
  is_Some (<[k := v]> m !! k') <-> k' = k \/ is_Some (m !! k').
Proof.
  destruct (decide (k = k')) as [->|Hne].
  - rewrite lookup_insert_eq. split; [auto|eauto].
  - rewrite lookup_insert_ne by exact Hne. split; [auto|]. intros [->|H]; congruence.
Qed.

Lemma tracked_remove k s : tracked s -> tracked (_remove_cache_entry k s).
Proof.
  intros [Hnd Hts Hac Hhi Hco Hre Hpo]. split; simpl; auto.
  - rewrite dict_pop_filter by exact Hnd. now apply keys_filter_nodup.
  - intros k'. rewrite is_Some_delete, in_keys_pop, Hts by exact Hnd. tauto.
  - intros k'. rewrite is_Some_delete, in_keys_pop, Hac by exact Hnd. tauto.
  - intros k'. rewrite is_Some_delete, in_keys_pop, Hhi by exact Hnd. tauto.
  - intros k' h. destruct (decide (k = k')) as [->|Hne].
    + rewrite lookup_delete_eq. discriminate.
    + rewrite !lookup_delete_ne by exact Hne. apply Hco.
Qed.

Lemma tracked_evict_all keys : forall s,
  tracked s ->
  tracked (fold_left (fun s' key => count_eviction (_remove_cache_entry key s')) keys s).
Proof.
  induction keys as [|k keys IH]; intros s Hs; simpl; [exact Hs|].
  apply IH. destruct (tracked_remove k s Hs) as [Hnd Hts Hac Hhi Hco Hre Hpo].
  split; simpl in *; auto. lia.
Qed.

Lemma tracked_set_cache now k data s : tracked s -> tracked (_set_cache now k data s).
Proof.
  intros Hs. unfold _set_cache. cbv zeta.
  set (s1 := if _ >=? _ then _ else s).
  assert (H1 : tracked s1).
  { subst s1. destruct (_ >=? _); [|exact Hs]. now apply tracked_evict_all. }
  clearbody s1. destruct H1 as [Hnd Hts Hac Hhi Hco Hre Hpo]. split; simpl; auto.
  - now apply dict_set_nodup.
  - intros k'. rewrite is_Some_insert, in_keys_set, Hts. tauto.
  - intros k'. rewrite is_Some_insert, in_keys_set, Hac. tauto.
  - intros k'. rewrite is_Some_insert, in_keys_set, Hhi. tauto.
  - intros k' h. destruct (decide (k = k')) as [->|Hne].
    + rewrite !lookup_insert_eq. intros [= <-]. split; [lia|reflexivity].
    + rewrite !lookup_insert_ne by exact Hne. apply Hco.
Qed.

Lemma get_from_cache_cache now touched k s :
  cache (snd (_get_from_cache now touched k s)) = cache s.
Proof. unfold _get_from_cache. now destruct (_is_cache_valid _ _ _). Qed.

Lemma tracked_get_from_cache now touched k s :
  tracked s -> tracked (snd (_get_from_cache now touched k s)).
Proof.
  intros [Hnd Hts Hac Hhi Hco Hre Hpo]. unfold _get_from_cache.
  destruct (_is_cache_valid now k _) eqn:Ev; split; simpl; auto; try lia.
  - intros k'. rewrite is_Some_insert, <- Hts. split; [|tauto].
    intros [->|H]; [|exact H].
    unfold _is_cache_valid in Ev. simpl in Ev.
    destruct (cache_timestamps s !! k); [eauto|discriminate].
  - assert (Hk : In k (dict_keys (cache s))).
    { apply Hts. unfold _is_cache_valid in Ev. simpl in Ev.
      destruct (cache_timestamps s !! k); [eauto|discriminate]. }
    intros k'. rewrite is_Some_insert, Hac. split; [|tauto].
    intros [->|H]; assumption.
  - assert (Hk : In k (dict_keys (cache s))).
    { apply Hts. unfold _is_cache_valid in Ev. simpl in Ev.
      destruct (cache_timestamps s !! k); [eauto|discriminate]. }
    intros k'. rewrite is_Some_insert, Hhi. split; [|tauto].
    intros [->|H]; assumption.
  - assert (Hk : In k (dict_keys (cache s))).
    { apply Hts. unfold _is_cache_valid in Ev. simpl in Ev.
      destruct (cache_timestamps s !! k); [eauto|discriminate]. }
    apply Hhi in Hk. destruct Hk as [h0 Hh0].
    destruct (Hco k h0 Hh0) as [Hpos Hacc].
    intros k' h. destruct (decide (k = k')) as [->|Hne].
    + rewrite !lookup_insert_eq, Hh0, Hacc. simpl. intros [= <-].
      split; [lia|reflexivity].
    + rewrite !lookup_insert_ne by exact Hne. apply Hco.
Qed.

Lemma tracked_clear_all s : tracked s -> tracked (_clear_cache None s).
Proof.
  intros [Hnd Hts Hac Hhi Hco Hre Hpo]. split; simpl; auto.
  - constructor.
  - intros k. rewrite lookup_empty. split; [intros [x Hx]; discriminate|intros []].
  - intros k. rewrite lookup_empty. split; [intros [x Hx]; discriminate|intros []].
  - intros k. rewrite lookup_empty. split; [intros [x Hx]; discriminate|intros []].
  - intros k h. rewrite lookup_empty. discriminate.
Qed.

Lemma tracked_prim_step s p : tracked s -> tracked (prim_step s p).
Proof.
  intros Hs. destruct p; simpl.
  - now apply tracked_get_from_cache.
  - now apply tracked_set_cache.
  - now apply tracked_remove.
  - now apply tracked_clear_all.
  - destruct Hs. split; assumption.
  - destruct Hs as [Hnd Hts Hac Hhi Hco Hre Hpo]. split; simpl; auto. lia.
Qed.

Lemma keys_of_type_remove cache_type k s :
  List.NoDup (dict_keys (cache s)) ->
  (length (keys_of_type cache_type (_remove_cache_entry k s))
   <= length (keys_of_type cache_type s))%nat.
Proof.
  intros Hnd. unfold keys_of_type. simpl.
  rewrite dict_pop_filter by exact Hnd.
  rewrite (keys_filter_by_key (fun key => negb (String.eqb key k))).
  rewrite filter_swap. apply List.filter_length_le.
Qed.

Lemma within_limits_prim_step s p :
  tracked s -> within_limits s -> within_limits (prim_step s p).
Proof.
  intros Hs Hlim. destruct p; simpl.
  - intros cache_type. unfold keys_of_type. rewrite get_from_cache_cache. apply Hlim.
  - apply set_cache_within_limits; [now apply tracked_wf|exact Hlim].
  - intros cache_type.
    pose proof (keys_of_type_remove cache_type key s (tracked_nodup s Hs)).
    specialize (Hlim cache_type). lia.
  - intros cache_type. pose proof (limit_of_type_positive cache_type).
    unfold keys_of_type. simpl. lia.
  - exact Hlim.
  - exact Hlim.
Qed.

(** Every key of the cache is one the operations of the manager write. *)
Definition public_keys (s : t) : Prop := Forall public_key (dict_keys (cache s)).

Lemma public_keys_prim_step s p :
  tracked s -> writes_public p -> public_keys s -> public_keys (prim_step s p).
Proof.
  unfold public_keys. rewrite !List.Forall_forall.
  intros Hs Hp Hkeys. destruct p; simpl.
  - rewrite get_from_cache_cache. exact Hkeys.
  - intros k Hin. unfold _set_cache in Hin. cbv zeta in Hin. cbn [cache] in Hin.
    apply in_keys_set in Hin. destruct Hin as [->|Hin]; [exact Hp|].
    apply Hkeys. destruct (_ >=? _); [|exact Hin].
    rewrite evict_lru_items_keys in Hin by now apply tracked_wf.
    apply filter_In in Hin. tauto.
  - intros k Hin. apply in_keys_pop in Hin; [|apply (tracked_nodup s Hs)].
    apply Hkeys. tauto.
  - intros k [].
  - exact Hkeys.
  - exact Hkeys.
Qed.

(** What holds of the manager whatever calls were made on it. *)
Definition sound (s : t) : Prop := tracked s /\ within_limits s /\ public_keys s.

Lemma sound_init cosmos search : sound (init cosmos search).
Proof.
  split; [apply tracked_init|]. split.
  - intros cache_type. pose proof (limit_of_type_positive cache_type).
    unfold keys_of_type. simpl. lia.
  - constructor.
Qed.

Lemma sound_steps s s' : steps s s' -> sound s -> sound s'.
Proof.
  intros (ps & -> & Hps). revert s. induction Hps as [|p ps Hp Hps IH]; intros s Hs.
  - exact Hs.
  - simpl. apply IH. destruct Hs as (Ht & Hl & Hk). split; [|split].
    + now apply tracked_prim_step.
    + now apply within_limits_prim_step.
    + now apply public_keys_prim_step.
Qed.

Lemma sound_reachable md5 s : reachable md5 s -> sound s.
Proof.
  intros (cosmos & search & cs & ->).
  apply (sound_steps (init cosmos search)); [apply steps_run|apply sound_init].
Qed.

Lemma reachable_init md5 cosmos search : reachable md5 (init cosmos search).
Proof. exists cosmos, search, []. reflexivity. Qed.

Lemma reachable_step md5 s c : reachable md5 s -> reachable md5 (step md5 s c).
Proof.
  intros (cosmos & search & cs & ->). exists cosmos, search, (cs ++ [c]).
  unfold run. now rewrite fold_left_app.
Qed.

(** The tables have as many entries as the cache. *)
Lemma tracked_size (m : gmap string Z) keys :
  List.NoDup keys -> (forall k, is_Some (m !! k) <-> In k keys) ->
  size m = length keys.
Proof.
  intros Hnd H. rewrite <- (size_dom (D := gset string)).
  assert (E : dom m = list_to_set keys).
  { apply set_eq. intros k.
    rewrite elem_of_dom, elem_of_list_to_set, H. symmetry. apply list_elem_of_In. }
  rewrite E. apply size_list_to_set. now apply NoDup_ListNoDup.
Qed.

(** *** The report of [get_cache_statistics] *)

Lemma hit_rate_bounds hits requests :
  0 <= hits <= requests -> 0 < requests ->
  (0 <= inject_Z hits / inject_Z requests * 100 <= 100)%Q.
Proof.
  intros Hh Hr. destruct requests as [|r|r]; try lia.
  unfold Qle, Qdiv, Qmult, Qinv, inject_Z. simpl. split; nia.
Qed.

Definition warm : t :=
  run id (init true true)
    [GetStatistics false (mk_instants 0 0 0) (PyDict [("total_invoices", PyInt 3)]);
     GetStatistics false (mk_instants 1 1 1) PyNone].

(** X1.  In every state the manager reaches by its cache-aware
    operations, the sweep of the timer and [_clear_cache], the counters
    [get_cache_statistics] reports are consistent: [total_requests] is
    [cache_hits + cache_misses], neither is negative, and the hit rate
    (before rounding) lies between 0 and 100; it is 0 while no request was
    counted. *)
Theorem hit_rate_is_a_percentage (md5 : string -> string) (s : t)
    (Hs : reachable md5 s) :
  let report := get_cache_statistics s in
  total_requests (counters report)
  = cache_hits (counters report) + cache_misses (counters report) /\
  0 <= cache_hits (counters report) /\ 0 <= cache_misses (counters report) /\
  (0 <= hit_rate report <= 100)%Q /\
  (total_requests (counters report) = 0 -> hit_rate report = 0%Q).
Proof.
  destruct (sound_reachable md5 s Hs) as (Ht & _ & _).
  pose proof (tracked_requests s Ht) as Hre.
  destruct (tracked_positive s Ht) as (Hh & Hm & _).
  cbv zeta. unfold get_cache_statistics. cbn [counters hit_rate].
  repeat split; try assumption.
  - destruct (total_requests (cache_stats s) >? 0) eqn:E; [|discriminate].
    apply hit_rate_bounds; lia.
  - destruct (total_requests (cache_stats s) >? 0) eqn:E; [|discriminate].
    apply hit_rate_bounds; lia.
  - intros H0. rewrite H0. reflexivity.
Qed.

Lemma hit_rate_is_a_percentage_witness :
  total_requests (cache_stats warm) = 2 /\ cache_hits (cache_stats warm) = 1 /\
  (0 <= hit_rate (get_cache_statistics warm) <= 100)%Q /\
  (hit_rate (get_cache_statistics warm) == 50)%Q.
Proof.
  assert (Hr : reachable id warm) by (eexists _, _, _; reflexivity).
  split; [reflexivity|]. split; [reflexivity|]. split.
  - apply (hit_rate_is_a_percentage id warm Hr).
  - reflexivity.
Defined.

(** X2.  In every reachable state the tables kept beside the cache
    follow it: [get_cache_statistics] reports as many timestamps and as
    many access counts as cache entries, the hit counts are as many too, a
    key is in the cache exactly when it has a timestamp, and the access
    count of a key is its hit count plus one (the write counts as the
    first access). *)
Theorem tracking_tables_follow_cache (md5 : string -> string) (s : t)
    (Hs : reachable md5 s) :
  let report := get_cache_statistics s in
  timestamp_entries report = cache_entries report /\
  access_count_entries report = cache_entries report /\
  Z.of_nat (size (cache_hit_count s)) = cache_entries report /\
  (forall key, is_Some (dict_get key (cache s)) <->
               is_Some (cache_timestamps s !! key)) /\
  (forall key h, cache_hit_count s !! key = Some h ->
     0 <= h /\ cache_access_count s !! key = Some (h + 1)).
Proof.
  destruct (sound_reachable md5 s Hs) as (Ht & _ & _).
  destruct Ht as [Hnd Hts Hac Hhi Hco _ _].
  cbv zeta. unfold get_cache_statistics.
  cbn [timestamp_entries cache_entries access_count_entries].
  assert (Hlen : length (cache s) = length (dict_keys (cache s))).
  { unfold dict_keys. now rewrite length_map. }
  rewrite Hlen.
  rewrite (tracked_size _ _ Hnd Hts), (tracked_size _ _ Hnd Hac),
    (tracked_size _ _ Hnd Hhi).
  repeat split; try reflexivity.
  - intros [v Hv]. apply Hts. clear -Hv.
    induction (cache s) as [|[k0 v0] d IH]; simpl in *; [discriminate|].
    destruct (String.eqb k0 key) eqn:E; [left; now apply String.eqb_eq|right; auto].
  - intros H. apply Hts in H. clear -H.
    induction (cache s) as [|[k0 v0] d IH]; simpl in *; [destruct H|].
    destruct (String.eqb k0 key) eqn:E; [eauto|].
    apply IH. destruct H as [H|H]; [|exact H].
    apply String.eqb_neq in E. congruence.
  - apply (Hco key h H).
  - apply (Hco key h H).
Qed.

Lemma tracking_tables_follow_cache_witness :
  timestamp_entries (get_cache_statistics warm) = 1 /\
  access_count_entries (get_cache_statistics warm) = 1 /\
  cache_access_count warm !! "statistics_main" = Some 2.
Proof.
  assert (Hr : reachable id warm) by (eexists _, _, _; reflexivity).
  destruct (tracking_tables_follow_cache id warm Hr) as (H1 & H2 & _ & _ & H5).
  split; [exact H1|]. split; [exact H2|].
  apply (H5 "statistics_main" 1). reflexivity.
Defined.

(** *** Categories and the size of the cache *)

(** The categories [get_cache_statistics] reports on. *)
Definition categories : list string := dict_keys cache_ttl.

(** The sum of the sizes the report gives the categories. *)
Definition sum_of_sizes (report : cache_statistics) : Z :=
  fold_right Z.add 0 (map snd (cache_sizes report)).

Definition indicator (b : bool) : Z := if b then 1 else 0.

Lemma filter_length_cons {A} (f : A -> bool) x l :
  Z.of_nat (length (List.filter f (x :: l)))
  = indicator (f x) + Z.of_nat (length (List.filter f l)).
Proof. simpl. destruct (f x); simpl; lia. Qed.

(** Keys counted once for each of the tests [tests] they pass. *)
Lemma counted_by_tests {A} (tests : list (A -> bool)) (l : list A) :
  (forall x, In x l -> fold_right Z.add 0 (map (fun f => indicator (f x)) tests) = 1) ->
  fold_right Z.add 0 (map (fun f => Z.of_nat (length (List.filter f l))) tests)
  = Z.of_nat (length l).
Proof.
  induction l as [|x l IH]; intros Hone.
  - induction tests as [|f tests IHt]; simpl in *; [reflexivity|]. now rewrite IHt.
  - assert (Hsplit : forall ts : list (A -> bool),
      fold_right Z.add 0 (map (fun f => Z.of_nat (length (List.filter f (x :: l)))) ts)
      = fold_right Z.add 0 (map (fun f => indicator (f x)) ts)
        + fold_right Z.add 0 (map (fun f => Z.of_nat (length (List.filter f l))) ts)).
    { induction ts as [|f ts IHt]; [reflexivity|].
      cbn [map fold_right]. rewrite IHt, filter_length_cons. lia. }
    rewrite Hsplit, IH, (Hone x) by (intros; apply Hone; now right) || now left.
    cbn [length]. lia.
Qed.

Lemma prefix_split p : forall key,
  String.prefix p key = true -> exists x, key = p +:+ x.
Proof.
  induction p as [|c p IH]; intros key H.
  - now exists key.
  - destruct key as [|c' key]; simpl in H; [discriminate|].
    destruct (ascii_dec c c') as [<-|]; [|discriminate].
    destruct (IH key H) as (x & ->). now exists x.
Qed.

(** What a key the manager writes looks like. *)
Lemma public_key_shape key :
  public_key key ->
  key = "statistics_main" \/ key = "service_status_main" \/
  (exists x, key = "invoice_list_" +:+ x) \/ (exists x, key = "invoice_detail_" +:+ x) \/
  (exists x, key = "search_results_" +:+ x) \/ (exists x, key = "client_data_" +:+ x).
Proof.
  unfold public_key, startswith.
  intros [H|[H|[H|[H|[H|H]]]]]; auto;
    apply prefix_split in H; auto 10.
Qed.

(** A key the manager writes belongs to one category of the report. *)
Lemma public_key_one_category key :
  public_key key ->
  fold_right Z.add 0
    (map (fun f : string -> bool => indicator (f key))
         (map (fun cache_type key => startswith key cache_type) categories)) = 1.
Proof.
  intros H. apply public_key_shape in H.
  destruct H as [->|[->|[(x & ->)|[(x & ->)|[(x & ->)|(x & ->)]]]]]; reflexivity.
Qed.

(** The first words of the keys the manager writes. *)
Definition first_words : list string :=
  ["statistics"; "service"; "invoice"; "search"; "client"].

Lemma public_key_one_first_word key :
  public_key key ->
  fold_right Z.add 0
    (map (fun f : string -> bool => indicator (f key))
         (map (fun word key => String.eqb (cache_type_of key) word) first_words)) = 1.
Proof.
  intros H. apply public_key_shape in H.
  destruct H as [->|[->|[(x & ->)|[(x & ->)|[(x & ->)|(x & ->)]]]]]; reflexivity.
Qed.

Lemma nodup_all_equal {A} (a : A) l :
  List.NoDup l -> (forall x, In x l -> x = a) -> (length l <= 1)%nat.
Proof.
  intros Hnd Hall. destruct l as [|x [|y l]]; simpl; try lia.
  exfalso. apply List.NoDup_cons_iff in Hnd. destruct Hnd as [Hnin _].
  apply Hnin. left. rewrite (Hall x), (Hall y); simpl; auto.
Qed.

Lemma filter_two_within {A} (f g h : A -> bool) l :
  (forall x, f x = true -> h x = true /\ g x = false) ->
  (forall x, g x = true -> h x = true) ->
  (length (List.filter f l) + length (List.filter g l) <= length (List.filter h l))%nat.
Proof.
  intros Hf Hg. induction l as [|x l IH]; simpl; [lia|].
  destruct (f x) eqn:Ef.
  - destruct (Hf x Ef) as [-> ->]. simpl. lia.
  - destruct (g x) eqn:Eg.
    + rewrite (Hg x Eg). simpl. lia.
    + destruct (h x); simpl; lia.
Qed.

(** X3.  In every reachable state ["cache_sizes"] lists the seven
    categories of [cache_ttl] in their order, each with the number of
    cached keys that start with the category name, and these sizes add up
    to ["total_cached_items"]: every key the manager writes is counted in
    exactly one category. *)
Theorem category_sizes_add_up (md5 : string -> string) (s : t)
    (Hs : reachable md5 s) :
  let report := get_cache_statistics s in
  map fst (cache_sizes report) = dict_keys cache_ttl /\
  (forall category, In category (dict_keys cache_ttl) ->
     dict_get category (cache_sizes report)
     = Some (Z.of_nat (category_size category s))) /\
  sum_of_sizes report = total_cached_items report.
Proof.
  destruct (sound_reachable md5 s Hs) as (_ & _ & Hk).
  cbv zeta. split; [reflexivity|]. split.
  - intros category Hin. simpl in Hin.
    repeat (destruct Hin as [<-|Hin]; [reflexivity|]). destruct Hin.
  - unfold sum_of_sizes, get_cache_statistics.
    cbn [cache_sizes total_cached_items]. rewrite map_map. cbn [snd].
    unfold keys_with_prefix.
    replace (length (cache s)) with (length (dict_keys (cache s)))
      by (unfold dict_keys; apply length_map).
    rewrite <- (counted_by_tests
                  (map (fun cache_type key => startswith key cache_type) categories)
                  (dict_keys (cache s))).
    + unfold categories. now rewrite map_map.
    + intros key Hin. apply public_key_one_category.
      unfold public_keys in Hk. rewrite List.Forall_forall in Hk. now apply Hk.
Qed.

Definition busy : t :=
  run id (init true true)
    [GetStatistics false (mk_instants 0 0 0) (PyDict [("total_invoices", PyInt 3)]);
     ListInvoices 50 false (mk_instants 1 1 1) [PyDict [("id", PyStr "INV-1")]];
     GetInvoice "INV-1" false (mk_instants 2 2 2) (PyDict [("id", PyStr "INV-1")]);
     SearchInvoices "acme" false (mk_instants 3 3 3) (Returns []) (Returns [])].

Lemma category_sizes_add_up_witness :
  total_cached_items (get_cache_statistics busy) = 4 /\
  sum_of_sizes (get_cache_statistics busy) = 4.
Proof.
  assert (Hr : reachable id busy) by (eexists _, _, _; reflexivity).
  destruct (category_sizes_add_up id busy Hr) as (_ & _ & H).
  split; [reflexivity|]. exact H.
Defined.

(** X4.  The cache never holds more than 152 entries, whatever calls were
    made: the limit [_set_cache] applies is the one of the first word of
    the key, which is 10 for ["statistics"] and the default 50 for
    ["invoice"], ["search"], ["client"] and ["service"].  So the invoice
    lists and the invoice details share 50 entries, the search results
    have 50, the client data 50, and the statistics and the service status
    one entry each. *)
Theorem cache_holds_at_most_152_entries (md5 : string -> string) (s : t)
    (Hs : reachable md5 s) :
  total_cached_items (get_cache_statistics s) <= 152 /\
  (category_size "invoice_list" s + category_size "invoice_detail" s <= 50)%nat /\
  (category_size "search_results" s <= 50)%nat /\
  (category_size "client_data" s <= 50)%nat /\
  (category_size "statistics" s <= 1)%nat /\
  (category_size "service_status" s <= 1)%nat.
Proof.
  destruct (sound_reachable md5 s Hs) as (Ht & Hl & Hk).
  pose proof (tracked_nodup s Ht) as Hnd.
  unfold public_keys in Hk. rewrite List.Forall_forall in Hk.
  assert (Hinv := Hl "invoice"). assert (Hsea := Hl "search").
  assert (Hcli := Hl "client").
  change (limit_of_type "invoice") with 50 in Hinv.
  change (limit_of_type "search") with 50 in Hsea.
  change (limit_of_type "client") with 50 in Hcli.
  assert (Hone : forall (f : string -> bool) main,
            (forall key, public_key key -> f key = true -> key = main) ->
            (length (List.filter f (dict_keys (cache s))) <= 1)%nat).
  { intros f main Hmain. apply (nodup_all_equal main).
    - now apply List.NoDup_filter.
    - intros key Hin. apply filter_In in Hin.
      destruct Hin as [Hin E]. apply Hmain; auto. }
  assert (Hsta : (length (keys_of_type "statistics" s) <= 1)%nat).
  { apply (Hone _ "statistics_main"). intros key Hp E.
    apply public_key_shape in Hp.
    destruct Hp as [->|[->|[(x & ->)|[(x & ->)|[(x & ->)|(x & ->)]]]]];
      try reflexivity; discriminate E. }
  assert (Hser : (length (keys_of_type "service" s) <= 1)%nat).
  { apply (Hone _ "service_status_main"). intros key Hp E.
    apply public_key_shape in Hp.
    destruct Hp as [->|[->|[(x & ->)|[(x & ->)|[(x & ->)|(x & ->)]]]]];
      try reflexivity; discriminate E. }
  assert (Hpre : forall category word,
            (forall x, cache_type_of (category +:+ x) = word) ->
            forall key, startswith key category = true ->
                        String.eqb (cache_type_of key) word = true).
  { intros category word Hw key H. apply prefix_split in H. destruct H as (x & ->).
    apply String.eqb_eq, Hw. }
  assert (Hwithin : forall category word,
            (forall x, cache_type_of (category +:+ x) = word) ->
            (category_size category s <= length (keys_of_type word s))%nat).
  { intros category word Hw. unfold category_size, keys_with_prefix, keys_of_type.
    apply filter_length_impl. apply (Hpre category word Hw). }
  repeat split.
  - unfold get_cache_statistics. cbn [total_cached_items].
    replace (length (cache s)) with (length (dict_keys (cache s)))
      by (unfold dict_keys; apply length_map).
    rewrite <- (counted_by_tests
                  (map (fun word key => String.eqb (cache_type_of key) word) first_words)
                  (dict_keys (cache s))).
    + cbn [first_words map fold_right]. unfold keys_of_type in *. lia.
    + intros key Hin. apply public_key_one_first_word. now apply Hk.
  - unfold category_size, keys_with_prefix.
    pose proof (filter_two_within
                  (fun key => startswith key "invoice_list")
                  (fun key => startswith key "invoice_detail")
                  (fun key => String.eqb (cache_type_of key) "invoice")
                  (dict_keys (cache s))) as H.
    unfold keys_of_type in Hinv. etransitivity; [apply H|lia].
    + intros key Hkey. split; [now apply (Hpre "invoice_list" "invoice")|].
      apply prefix_split in Hkey. destruct Hkey as (x & ->). reflexivity.
    + intros key Hkey. now apply (Hpre "invoice_detail" "invoice").
  - pose proof (Hwithin "search_results" "search" (fun x => eq_refl)). lia.
  - pose proof (Hwithin "client_data" "client" (fun x => eq_refl)). lia.
  - apply (Hone (fun key => startswith key "statistics") "statistics_main").
    intros key Hp E. apply public_key_shape in Hp.
    destruct Hp as [->|[->|[(x & ->)|[(x & ->)|[(x & ->)|(x & ->)]]]]];
      try reflexivity; discriminate E.
  - apply (Hone (fun key => startswith key "service_status") "service_status_main").
    intros key Hp E. apply public_key_shape in Hp.
    destruct Hp as [->|[->|[(x & ->)|[(x & ->)|[(x & ->)|(x & ->)]]]]];
      try reflexivity; discriminate E.
Qed.

Lemma cache_holds_at_most_152_entries_witness :
  total_cached_items (get_cache_statistics busy) <= 152 /\
  (category_size "invoice_list" busy + category_size "invoice_detail" busy <= 50)%nat.
Proof.
  assert (Hr : reachable id busy) by (eexists _, _, _; reflexivity).
  destruct (cache_holds_at_most_152_entries id busy Hr) as (H1 & H2 & _).
  split; [exact H1|exact H2].
Defined.

(** *** The sweep of expired entries *)

Lemma remove_all_tables keys : forall s key,
  let s' := fold_left (fun s' k => _remove_cache_entry k s') keys s in
  (In key keys ->
   cache_timestamps s' !! key = None /\ cache_access_count s' !! key = None /\
   cache_hit_count s' !! key = None /\ cache_miss_count s' !! key = None) /\
  (~ In key keys ->
   cache_timestamps s' !! key = cache_timestamps s !! key /\
   cache_access_count s' !! key = cache_access_count s !! key /\
   cache_hit_count s' !! key = cache_hit_count s !! key /\
   cache_miss_count s' !! key = cache_miss_count s !! key /\
   dict_get key (cache s') = dict_get key (cache s)).
Proof.
  induction keys as [|k keys IH]; intros s key; cbn zeta.
  - split; [intros []|auto 10].
  - cbn [fold_left]. destruct (IH (_remove_cache_entry k s) key) as [Hin Hout].
    cbn zeta in Hin, Hout. split.
    + intros [->|H]; [|now apply Hin].
      destruct (in_dec string_dec key keys) as [H|H]; [now apply Hin|].
      destruct (Hout H) as (-> & -> & -> & -> & _). simpl.
      rewrite !lookup_delete_eq. auto.
    + intros H. destruct Hout as (-> & -> & -> & -> & ->);
        [intros Hk; apply H; now right|].
      assert (Hne : k <> key) by (intros ->; apply H; now left).
      simpl. rewrite !lookup_delete_ne by exact Hne.
      rewrite dict_get_pop_ne by congruence. auto 10.
Qed.

Lemma in_expired_keys now key s :
  In key (expired_keys now s) <->
  exists timestamp, cache_timestamps s !! key = Some timestamp /\
                    seconds (ttl_of key) < now - timestamp.
Proof.
  unfold expired_keys. rewrite in_map_iff. split.
  - intros ([k ts] & <- & Hin). apply filter_In in Hin. destruct Hin as [Hin Hgt].
    apply list_elem_of_In, elem_of_map_to_list in Hin. simpl in *.
    exists ts. split; [exact Hin|]. rewrite Z.gtb_ltb in Hgt. now apply Z.ltb_lt.
  - intros (ts & Hts & Hgt). exists (key, ts). split; [reflexivity|].
    apply filter_In. split.
    + apply list_elem_of_In, elem_of_map_to_list. exact Hts.
    + simpl. rewrite Z.gtb_ltb. now apply Z.ltb_lt.
Qed.

Lemma not_in_keys_get {V} key (d : dict V) :
  ~ In key (dict_keys d) -> dict_get key d = None.
Proof.
  induction d as [|[k v] d IH]; simpl; intros H; [reflexivity|].
  destruct (String.eqb k key) eqn:E.
  - apply String.eqb_eq in E. tauto.
  - apply IH. tauto.
Qed.

Lemma tracked_remove_all keys : forall s,
  tracked s -> tracked (fold_left (fun s' key => _remove_cache_entry key s') keys s).
Proof.
  induction keys as [|k keys IH]; intros s Hs; simpl; [exact Hs|].
  apply IH. now apply tracked_remove.
Qed.

(** Statistics written at 0 s, a list page written at 200 s. *)
Definition two_ages : t :=
  run id (init true true)
    [GetStatistics false (mk_instants 0 0 0) (PyDict [("total_invoices", PyInt 3)]);
     ListInvoices 50 false (mk_instants (seconds 200) (seconds 200) (seconds 200))
       [PyDict [("id", PyStr "INV-1")]]].

(** X5.  [cleanup_expired_cache] at time [now], on a reachable state:
    every entry older than the TTL of its key is removed with its
    timestamp and its three counters; every entry younger than the TTL of
    its key is kept with its value and its timestamp.  After the sweep no
    entry is older than its TTL; [cleanup_runs] grew by one and the other
    counters did not move. *)
Theorem cleanup_removes_what_expired (md5 : string -> string) (s : t)
    (Hs : reachable md5 s) (now : Z) :
  let s' := cleanup_expired_cache now s in
  (forall key timestamp, cache_timestamps s !! key = Some timestamp ->
     seconds (ttl_of key) < now - timestamp ->
     dict_get key (cache s') = None /\ cache_timestamps s' !! key = None /\
     cache_access_count s' !! key = None /\ cache_hit_count s' !! key = None /\
     cache_miss_count s' !! key = None) /\
  (forall key timestamp, cache_timestamps s !! key = Some timestamp ->
     now - timestamp < seconds (ttl_of key) ->
     dict_get key (cache s') = dict_get key (cache s) /\
     cache_timestamps s' !! key = Some timestamp) /\
  (forall key timestamp, cache_timestamps s' !! key = Some timestamp ->
     now - timestamp <= seconds (ttl_of key)) /\
  cleanup_runs (cache_stats s') = cleanup_runs (cache_stats s) + 1 /\
  total_requests (cache_stats s') = total_requests (cache_stats s) /\
  evictions (cache_stats s') = evictions (cache_stats s) /\
  reachable md5 s'.
Proof.
  destruct (sound_reachable md5 s Hs) as (Ht & _ & _).
  cbv zeta. unfold cleanup_expired_cache. cbv zeta.
  set (keys := expired_keys now s).
  set (s1 := fold_left (fun s' key => _remove_cache_entry key s') keys s).
  assert (Htab : forall key,
    (In key keys ->
     cache_timestamps s1 !! key = None /\ cache_access_count s1 !! key = None /\
     cache_hit_count s1 !! key = None /\ cache_miss_count s1 !! key = None) /\
    (~ In key keys ->
     cache_timestamps s1 !! key = cache_timestamps s !! key /\
     cache_access_count s1 !! key = cache_access_count s !! key /\
     cache_hit_count s1 !! key = cache_hit_count s !! key /\
     cache_miss_count s1 !! key = cache_miss_count s !! key /\
     dict_get key (cache s1) = dict_get key (cache s))).
  { intros key. apply (remove_all_tables keys s key). }
  assert (Ht1 : tracked s1).
  { subst s1. now apply tracked_remove_all. }
  split; [|split; [|split; [|split; [|split; [|split]]]]].
  - intros key ts Hts Hgt.
    assert (Hin : In key keys) by (apply in_expired_keys; eauto).
    destruct (proj1 (Htab key) Hin) as (H1 & H2 & H3 & H4).
    cbn [with_stats cache cache_timestamps cache_access_count cache_hit_count
         cache_miss_count].
    repeat split; auto.
    apply not_in_keys_get. intros Hk.
    apply (tracked_timestamps s1 Ht1) in Hk. rewrite H1 in Hk. now destruct Hk.
  - intros key ts Hts Hle.
    assert (Hout : ~ In key keys).
    { intros Hin. apply in_expired_keys in Hin. destruct Hin as (ts' & Hts' & Hgt).
      rewrite Hts in Hts'. injection Hts' as <-. lia. }
    destruct (proj2 (Htab key) Hout) as (H1 & _ & _ & _ & H5).
    cbn [with_stats cache cache_timestamps]. rewrite H1, H5.
    split; [reflexivity|exact Hts].
  - intros key ts. cbn [with_stats cache_timestamps]. intros Hts.
    destruct (in_dec string_dec key keys) as [Hin|Hout].
    + destruct (proj1 (Htab key) Hin) as (H1 & _). congruence.
    + destruct (proj2 (Htab key) Hout) as (H1 & _). rewrite H1 in Hts.
      destruct (Z_le_gt_dec (now - ts) (seconds (ttl_of key))) as [Hle|Hgt]; [exact Hle|].
      exfalso. apply Hout, in_expired_keys. exists ts. split; [exact Hts|lia].
  - cbn [with_stats cache_stats cleanup_runs]. subst s1.
    destruct (remove_all_frame keys s) as (_ & _ & _ & ->). reflexivity.
  - cbn [with_stats cache_stats total_requests]. subst s1.
    destruct (remove_all_frame keys s) as (_ & _ & _ & ->). reflexivity.
  - cbn [with_stats cache_stats evictions]. subst s1.
    destruct (remove_all_frame keys s) as (_ & _ & _ & ->). reflexivity.
  - apply (reachable_step md5 s (CleanupExpiredCache now) Hs).
Qed.

Lemma cleanup_removes_what_expired_witness :
  dict_keys (cache two_ages) = ["statistics_main"; "invoice_list_50"] /\
  dict_get "statistics_main" (cache (cleanup_expired_cache (seconds 400) two_ages)) = None /\
  dict_get "invoice_list_50" (cache (cleanup_expired_cache (seconds 400) two_ages))
  = dict_get "invoice_list_50" (cache two_ages).
Proof.
  assert (Hr : reachable id two_ages) by (eexists _, _, _; reflexivity).
  destruct (cleanup_removes_what_expired id two_ages Hr (seconds 400))
    as (Hgone & Hkept & _).
  split; [reflexivity|]. split.
  - apply (Hgone "statistics_main" 0); reflexivity.
  - apply (Hkept "invoice_list_50" (seconds 200)); reflexivity.
Defined.

(** X6.  The sweep is invisible to the reads: for every state, every key
    and every read at a time not before the sweep, [_is_cache_valid] and
    the value [_get_from_cache] returns are the same whether or not
    [cleanup_expired_cache] ran.  What the sweep removes was already
    absent for the reads. *)
Theorem cleanup_is_invisible_to_reads (s : t) (swept now touched : Z) (key : string)
    (Hlater : swept <= now) :
  _is_cache_valid now key (cleanup_expired_cache swept s) = _is_cache_valid now key s /\
  fst (_get_from_cache now touched key (cleanup_expired_cache swept s))
  = fst (_get_from_cache now touched key s).
Proof.
  unfold cleanup_expired_cache. cbv zeta.
  set (keys := expired_keys swept s).
  pose proof (remove_all_tables keys s key) as Htab. cbv zeta in Htab.
  set (s1 := fold_left (fun s' k => _remove_cache_entry k s') keys s) in *.
  assert (Hvalid : _is_cache_valid now key s1 = _is_cache_valid now key s /\
                   (_is_cache_valid now key s = true ->
                    dict_get key (cache s1) = dict_get key (cache s))).
  { unfold _is_cache_valid.
    destruct (in_dec string_dec key keys) as [Hin|Hout].
    - destruct (proj1 Htab Hin) as (-> & _).
      apply in_expired_keys in Hin. destruct Hin as (ts & -> & Hgt).
      assert (E : (now - ts <? seconds (ttl_of key)) = false) by (apply Z.ltb_ge; lia).
      rewrite E. split; [reflexivity|discriminate].
    - destruct (proj2 Htab Hout) as (-> & _ & _ & _ & ->). auto. }
  destruct Hvalid as [Hv Hd]. split.
  - exact Hv.
  - unfold _get_from_cache.
    change (_is_cache_valid now key (with_stats _ (with_stats _ s1)))
      with (_is_cache_valid now key s1).
    change (_is_cache_valid now key (with_stats _ s))
      with (_is_cache_valid now key s).
    rewrite Hv. destruct (_is_cache_valid now key s) eqn:E; [|reflexivity].
    cbn [fst with_stats cache]. now rewrite Hd.
Qed.

Lemma cleanup_is_invisible_to_reads_witness :
  fst (_get_from_cache (seconds 450) (seconds 450) "invoice_list_50"
         (cleanup_expired_cache (seconds 400) two_ages))
  = PyList [PyDict [("id", PyStr "INV-1")]] /\
  fst (_get_from_cache (seconds 450) (seconds 450) "statistics_main"
         (cleanup_expired_cache (seconds 400) two_ages))
  = fst (_get_from_cache (seconds 450) (seconds 450) "statistics_main" two_ages).
Proof.
  split.
  - rewrite (proj2 (cleanup_is_invisible_to_reads two_ages (seconds 400) (seconds 450)
                      (seconds 450) "invoice_list_50" ltac:(discriminate))).
    reflexivity.
  - apply (cleanup_is_invisible_to_reads two_ages (seconds 400) (seconds 450)
             (seconds 450) "statistics_main"). discriminate.
Defined.

(** *** Writing into a full category *)

Lemma wf_fill prefix n : forall s, wf s -> wf (fill prefix n s).
Proof.
  unfold fill. induction (seq 1 n) as [|i l IH]; intros s Hs; simpl; [exact Hs|].
  apply IH. now apply wf_set_cache.
Qed.

(** Ten [statistics] entries, written at the times 1 to 10. *)
Definition ten_statistics : t := fill "statistics_test_" 10 (init true true).

(** X7.  [_set_cache] on a state whose cached keys all have a timestamp:
    while the keys that start with the first word of the new key are fewer
    than the limit, nothing is evicted and every cached key stays; from the
    limit on, [evictions] grows by [size - max_size + 1], and every key
    that leaves the cache starts with that first word and is at least as
    old, by its timestamp, as every key of that first word that stays. *)
Theorem full_category_write_evicts_oldest (s : t) (Hs : wf s)
    (now : Z) (key : string) (data : pyval) :
  let cache_type := cache_type_of key in
  let size := Z.of_nat (length (keys_with_prefix cache_type s)) in
  let s' := _set_cache now key data s in
  (size < max_size_of key ->
   evictions (cache_stats s') = evictions (cache_stats s) /\
   forall k, In k (dict_keys (cache s)) -> In k (dict_keys (cache s'))) /\
  (max_size_of key <= size ->
   evictions (cache_stats s')
   = evictions (cache_stats s) + (size - max_size_of key + 1) /\
   forall gone,
     In gone (dict_keys (cache s)) -> ~ In gone (dict_keys (cache s')) ->
     startswith gone cache_type = true /\
     forall kept,
       In kept (dict_keys (cache s')) -> kept <> key ->
       startswith kept cache_type = true ->
       default 0 (cache_timestamps s !! gone) <= default 0 (cache_timestamps s !! kept)).
Proof.
  cbv zeta. unfold _set_cache. cbv zeta.
  set (cache_type := cache_type_of key).
  set (size := Z.of_nat (length (keys_with_prefix cache_type s))).
  pose proof (limit_of_type_positive cache_type) as Hmax.
  change (limit_of_type cache_type) with (max_size_of key) in Hmax.
  split.
  - intros Hlt.
    replace (size >=? max_size_of key) with false
      by (symmetry; rewrite Z.geb_leb; apply Z.leb_gt; exact Hlt).
    cbn [cache cache_stats]. split; [reflexivity|].
    intros k Hin. apply in_keys_set. now right.
  - intros Hle.
    replace (size >=? max_size_of key) with true
      by (symmetry; rewrite Z.geb_leb; apply Z.leb_le; exact Hle).
    cbn [cache cache_stats].
    set (count := size - max_size_of key + 1).
    destruct (evict_lru_items_count cache_type count s Hs) as (_ & Hev & _);
      [subst count; lia|].
    fold size in Hev. split; [rewrite Hev; subst count; lia|].
    intros gone Hin Hout.
    assert (Hgone : In gone (evicted_keys cache_type count s)).
    { apply among_In. destruct (among (evicted_keys cache_type count s) gone) eqn:E;
        [reflexivity|].
      exfalso. apply Hout, in_keys_set. right.
      rewrite evict_lru_items_keys by exact Hs. apply filter_In. now rewrite E. }
    pose proof Hs as [Hnd _].
    destruct (evicted_keys_facts cache_type count s Hnd) as (_ & Hincl & _);
      [subst count; lia|].
    split.
    + specialize (Hincl gone Hgone). unfold keys_with_prefix in Hincl.
      apply filter_In in Hincl. tauto.
    + intros kept Hkept Hne Hpre.
      apply in_keys_set in Hkept. destruct Hkept as [?|Hkept]; [contradiction|].
      rewrite evict_lru_items_keys in Hkept by exact Hs.
      apply filter_In in Hkept. destruct Hkept as [Hk Hnot].
      apply negb_true_iff in Hnot.
      apply (evicted_keys_oldest cache_type count s gone kept Hgone).
      * unfold keys_with_prefix. apply filter_In. auto.
      * intros Hin'. apply among_In in Hin'. congruence.
Qed.

Lemma full_category_write_evicts_oldest_witness :
  evictions (cache_stats (_set_cache 11 "statistics_test_11" PyNone ten_statistics)) = 1 /\
  ~ In "statistics_test_1"
      (dict_keys (cache (_set_cache 11 "statistics_test_11" PyNone ten_statistics))) /\
  startswith "statistics_test_1" (cache_type_of "statistics_test_11") = true.
Proof.
  assert (Hwf : wf ten_statistics) by (apply wf_fill, wf_init).
  destruct (full_category_write_evicts_oldest ten_statistics Hwf 11
              "statistics_test_11" PyNone) as (_ & Hfull).
  destruct Hfull as (Hev & Hgone); [vm_compute; discriminate|].
  assert (Hout : ~ In "statistics_test_1"
      (dict_keys (cache (_set_cache 11 "statistics_test_11" PyNone ten_statistics)))).
  { vm_compute. intros H.
    repeat (destruct H as [H|H]; [discriminate H|]). exact H. }
  split; [exact Hev|]. split; [exact Hout|].
  apply (Hgone "statistics_test_1"); [|exact Hout].
  vm_compute. auto.
Defined.

End CacheFacts.

Module ResilienceFacts.
Import Py RateLimitHandler RateLimitHandlerFacts.

Ltac reduce_handler :=
  cbn [circuit_breaker rate_limiter ticks calls draws trace fst snd negb].

(** *** Delays *)

Lemma Qmin_mono x x' y : (x <= x' -> Qmin x y <= Qmin x' y)%Q.
Proof. intros H. apply Q.min_le_compat_r. exact H. Qed.

Lemma power_step (q : Q) (attempt : nat) :
  (1 <= q -> q ^ Z.of_nat attempt <= q ^ Z.of_nat (S attempt))%Q.
Proof. intros Hq. apply Qpower_le_compat_l; [lia|exact Hq]. Qed.

(** With a base delay, a maximal delay and a jitter that are not
    negative, the three backoff delays lie between 0 and [max_delay]. *)
Lemma backoff_bounds (base_delay max_delay jitter : Q) (attempt : nat) :
  (0 <= base_delay)%Q -> (0 <= max_delay)%Q -> (0 <= jitter)%Q ->
  (0 <= rate_limit_delay base_delay max_delay attempt jitter <= max_delay)%Q /\
  (0 <= transient_delay base_delay max_delay attempt <= max_delay)%Q /\
  (0 <= default_delay base_delay max_delay attempt <= max_delay)%Q.
Proof.
  intros Hbase Hmax Hjitter.
  unfold rate_limit_delay, transient_delay, default_delay.
  assert (H2 : (0 <= 2 ^ Z.of_nat attempt)%Q) by (apply Qpower_0_le; discriminate).
  assert (H3 : (0 <= (3 # 2) ^ Z.of_nat attempt)%Q) by (apply Qpower_0_le; discriminate).
  assert (Hn : (0 <= inject_Z (Z.of_nat attempt + 1))%Q).
  { unfold Qle, inject_Z. simpl. lia. }
  split; [|split].
  - apply Qmin_bounds; [|exact Hmax].
    apply (Qplus_le_compat 0 _ 0 _); [|exact Hjitter]. now apply Qmult_le_0_compat.
  - apply Qmin_bounds; [|exact Hmax]. now apply Qmult_le_0_compat.
  - apply Qmin_bounds; [|exact Hmax]. now apply Qmult_le_0_compat.
Qed.

Lemma sleepable_below (delay bound : Q) :
  (0 <= delay <= bound)%Q -> sleepable bound -> sleepable delay.
Proof.
  intros [H0 Hle] [_ Hday]. split; [exact H0|].
  eapply Qle_trans; [exact Hle|exact Hday].
Qed.

Lemma min_interval_bounds (rpm : Z) :
  10 <= rpm -> (0 < 60 / inject_Z rpm /\ 60 / inject_Z rpm <= 6)%Q.
Proof.
  intros H. destruct rpm as [|p|p]; try lia.
  unfold Qlt, Qle, Qdiv, Qmult, Qinv, inject_Z. simpl. split; lia.
Qed.

Lemma elapsed_nonneg (d : Z) : 0 <= d -> (0 <= inject_Z d / inject_Z 1000000)%Q.
Proof.
  intros H. unfold Qle, Qdiv, Qmult, Qinv, inject_Z. simpl. lia.
Qed.

Lemma elapsed_six (d : Z) :
  seconds 6 <= d -> (6 <= inject_Z d / inject_Z 1000000)%Q.
Proof.
  unfold seconds. intros H. unfold Qle, Qdiv, Qmult, Qinv, inject_Z. simpl. lia.
Qed.

(** The wait [get_delay] asks for, for a limiter that keeps the bounds of
    its ceiling. *)
Lemma get_delay_bounds (l : AdaptiveRateLimiter.t) (now : Z)
    (Hi : AdaptiveRateLimiterFacts.inv l)
    (Hclock : forall last, AdaptiveRateLimiter.last_request_time l = Some last ->
                           last <= now) :
  (0 <= AdaptiveRateLimiter.get_delay now l <= 6)%Q /\
  (AdaptiveRateLimiter.get_delay now l
   <= 60 / inject_Z (AdaptiveRateLimiter.requests_per_minute l))%Q /\
  (AdaptiveRateLimiter.last_request_time l = None ->
   AdaptiveRateLimiter.get_delay now l = 0%Q) /\
  (forall last, AdaptiveRateLimiter.last_request_time l = Some last ->
     seconds 6 <= now - last -> AdaptiveRateLimiter.get_delay now l = 0%Q).
Proof.
  pose proof (AdaptiveRateLimiterFacts.inv_floor l Hi) as Hf.
  destruct (min_interval_bounds _ Hf) as [Hpos Hsix].
  unfold AdaptiveRateLimiter.get_delay.
  destruct (AdaptiveRateLimiter.last_request_time l) as [last|] eqn:El.
  - specialize (Hclock last eq_refl).
    pose proof (elapsed_nonneg (now - last) ltac:(lia)) as He.
    set (since := (inject_Z (now - last) / inject_Z 1000000)%Q) in *.
    set (interval := (60 / inject_Z (AdaptiveRateLimiter.requests_per_minute l))%Q) in *.
    destruct (Qlt_le_dec since interval) as [Hlt|Hge].
    + assert (H0 : (0 <= interval - since)%Q).
      { apply Qlt_le_weak in Hlt. apply -> Qle_minus_iff in Hlt. exact Hlt. }
      assert (Hle : (interval - since <= interval)%Q).
      { apply Qle_trans with (interval + 0)%Q.
        - unfold Qminus. apply Qplus_le_r.
          apply (Qopp_le_compat 0 since) in He. exact He.
        - rewrite Qplus_0_r. apply Qle_refl. }
      split; [split; [exact H0|]|split; [exact Hle|split; [discriminate|]]].
      * eapply Qle_trans; [exact Hle|exact Hsix].
      * intros last' [= <-] H6. exfalso.
        pose proof (elapsed_six (now - last) H6) as H6'. fold since in H6'.
        apply (Qlt_irrefl since).
        eapply Qlt_le_trans; [exact Hlt|]. eapply Qle_trans; [exact Hsix|exact H6'].
    + split; [split; [apply Qle_refl|discriminate]|].
      split; [apply Qlt_le_weak; exact Hpos|]. split; [discriminate|reflexivity].
  - split; [split; [apply Qle_refl|discriminate]|].
    split; [apply Qlt_le_weak; exact Hpos|]. split; reflexivity.
Qed.

(** An event of the trace that is not a sleep [time.sleep] refuses. *)
Definition accepted (ev : event) : Prop :=
  match ev with
  | Slept delay => sleepable delay
  | _ => True
  end.

Section turns.
Context {V : Type}.
Variables base_delay max_delay : Q.
Variable e : env V.

(** What the breaker is after the check of a turn. *)
Definition checked_breaker (h : handler) : CircuitBreaker.t :=
  snd (CircuitBreaker.can_execute (clock e (ticks h)) (circuit_breaker h)).

(** A [try] block that raises: either the breaker refused and nothing was
    invoked, or the wrapped function was invoked once and raised. *)
Lemma try_block_raises h message h1 :
  try_block e h = (Raises message, h1) ->
  circuit_breaker h1 = checked_breaker h /\
  (S (ticks h) <= ticks h1)%nat /\
  (calls h1 = calls h /\ message = breaker_open_message /\
   fst (CircuitBreaker.can_execute (clock e (ticks h)) (circuit_breaker h)) = false
   \/
   calls h1 = S (calls h) /\ func e (calls h) = Raises message /\
   fst (CircuitBreaker.can_execute (clock e (ticks h)) (circuit_breaker h)) = true).
Proof.
  unfold try_block, checked_breaker, breaker_can_execute, limiter_can_proceed,
    limiter_get_delay, sleep, emit, invoke, breaker_record_success,
    limiter_record_success, bind, ret, now, with_breaker, with_limiter.
  reduce_handler.
  destruct (CircuitBreaker.can_execute (clock e (ticks h)) (circuit_breaker h))
    as [[|] b1]; reduce_handler.
  - match goal with
    | |- context [AdaptiveRateLimiter.can_proceed ?a ?b] =>
        destruct (AdaptiveRateLimiter.can_proceed a b) as [[|] l1]
    end; reduce_handler;
      destruct (func e (calls h)) as [v|m]; reduce_handler; intros [= <- <-];
      reduce_handler;
      (split; [reflexivity|]); (split; [lia|]); right; auto.
  - intros [= <- <-]. reduce_handler. split; [reflexivity|]. split; [lia|]. left. auto.
Qed.

Lemma try_block_returns h v h1 :
  try_block e h = (Returns v, h1) ->
  func e (calls h) = Returns v /\ calls h1 = S (calls h) /\
  fst (CircuitBreaker.can_execute (clock e (ticks h)) (circuit_breaker h)) = true /\
  circuit_breaker h1 = CircuitBreaker.record_success (checked_breaker h) /\
  (S (ticks h) <= ticks h1)%nat.
Proof.
  unfold try_block, checked_breaker, breaker_can_execute, limiter_can_proceed,
    limiter_get_delay, sleep, emit, invoke, breaker_record_success,
    limiter_record_success, bind, ret, now, with_breaker, with_limiter.
  reduce_handler.
  destruct (CircuitBreaker.can_execute (clock e (ticks h)) (circuit_breaker h))
    as [[|] b1]; reduce_handler.
  - match goal with
    | |- context [AdaptiveRateLimiter.can_proceed ?a ?b] =>
        destruct (AdaptiveRateLimiter.can_proceed a b) as [[|] l1]
    end; reduce_handler;
      destruct (func e (calls h)) as [v'|m]; reduce_handler; intros [= <- <-];
      reduce_handler; repeat split; lia.
  - discriminate.
Qed.

(** The [except] block records one failure on the breaker, whatever the
    class of the error, and goes on unless the error is permanent. *)
Lemma except_block_records attempt message h :
  exists h',
    except_block base_delay max_delay e attempt message h
    = (match _classify_error message with permanent => false | _ => true end, h') /\
    circuit_breaker h'
    = CircuitBreaker.record_failure (clock e (ticks h)) (circuit_breaker h) /\
    calls h' = calls h /\ ticks h' = S (ticks h).
Proof.
  unfold except_block.
  destruct (_classify_error message); eexists; (split; [reflexivity|]); simpl; auto.
Qed.

(** The loop invokes the wrapped function at most once a turn; what it
    returns is what the last invocation returned; what it raises is the
    refusal of the breaker, an error one of the invocations raised, or
    what [raise last_exception] makes of the error it started with. *)
Lemma attempts_invocations remaining : forall attempt last h,
  let r := attempts base_delay max_delay e remaining attempt last h in
  (calls h <= calls (snd r) <= calls h + remaining)%nat /\
  (forall v, fst r = Returns v ->
     (calls h < calls (snd r))%nat /\ func e (pred (calls (snd r))) = Returns v) /\
  (forall message, fst r = Raises message ->
     Raises message = raise_last (V := V) last /\ snd r = h \/
     message = breaker_open_message \/
     exists n, (calls h <= n < calls (snd r))%nat /\ func e n = Raises message).
Proof.
  induction remaining as [|remaining IH]; intros attempt last h; cbv zeta.
  - cbn [attempts]. unfold ret. cbn [fst snd]. split; [lia|]. split.
    + intros v Hv. destruct last; discriminate Hv.
    + intros message Hm. left. auto.
  - rewrite attempts_turn.
    destruct (try_block e h) as [[v|message] h1] eqn:Etry.
    + apply try_block_returns in Etry. destruct Etry as (Hf & Hc & _).
      cbn [fst snd]. split; [lia|]. split.
      * intros v' [= <-]. rewrite Hc. cbn [pred]. split; [lia|exact Hf].
      * discriminate.
    + apply try_block_raises in Etry. destruct Etry as (_ & _ & Hcases).
      destruct (except_block_records attempt message h1)
        as (h2 & -> & _ & Hc2 & _).
      assert (Hsource : message = breaker_open_message \/
                        exists n, (calls h <= n < calls h2)%nat /\
                                  func e n = Raises message).
      { destruct Hcases as [(_ & -> & _)|(Hc1 & Hf & _)]; [now left|].
        right. exists (calls h). split; [lia|exact Hf]. }
      assert (Hcalls : (calls h <= calls h2 <= S (calls h))%nat).
      { destruct Hcases as [(Hc1 & _)|(Hc1 & _)]; lia. }
      destruct (_classify_error message) eqn:Eclass;
        try (specialize (IH (S attempt) (Some message) h2); cbv zeta in IH;
             destruct (attempts base_delay max_delay e remaining (S attempt)
                         (Some message) h2) as [r h3];
             cbn [fst snd] in *; destruct IH as (IHc & IHv & IHm);
             split; [lia|]; split;
             [ intros v Hv; destruct (IHv v Hv) as [Hlt Hf]; split; [lia|exact Hf]
             | intros m Hm; destruct (IHm m Hm) as [[Hl ->]|[->|(n & Hn & Hf)]];
               [ injection Hl as ->; right; exact Hsource
               | right; now left
               | right; right; exists n; split; [lia|exact Hf] ] ]).
      cbn [fst snd]. split; [lia|]. split; [discriminate|].
      intros m [= <-]. right. exact Hsource.
Qed.

Lemma can_execute_failure_count now b :
  CircuitBreaker.failure_count (snd (CircuitBreaker.can_execute now b))
  = CircuitBreaker.failure_count b.
Proof.
  unfold CircuitBreaker.can_execute.
  destruct (CircuitBreaker.state b); [reflexivity| |reflexivity].
  now destruct (CircuitBreaker._should_attempt_reset now b).
Qed.

Lemma record_failure_opens now b :
  CircuitBreakerFacts.inv b ->
  let b' := CircuitBreaker.record_failure now b in
  CircuitBreakerFacts.inv b' /\
  CircuitBreaker.failure_count b' = CircuitBreaker.failure_count b + 1 /\
  CircuitBreaker.last_failure_time b' = Some now /\
  (5 <= CircuitBreaker.failure_count b' ->
   CircuitBreaker.state b' = CircuitBreaker.OPEN).
Proof.
  intros Hb. cbv zeta. split; [|split; [|split]].
  - apply (CircuitBreakerFacts.breaker_inv_step b (CircuitBreaker.RecordFailure now) Hb).
  - reflexivity.
  - reflexivity.
  - unfold CircuitBreaker.record_failure. cbn.
    rewrite (CircuitBreakerFacts.inv_threshold b Hb). intros H5.
    replace (CircuitBreaker.failure_count b + 1 >=? 5) with true
      by (symmetry; apply Z.geb_le; exact H5).
    reflexivity.
Qed.

(** When every invocation raises an error that is not permanent, every
    turn records one failure on the breaker, whether the function was
    invoked or the breaker refused. *)
Lemma attempts_all_fail remaining : forall attempt last h,
  (forall n, exists message,
     func e n = Raises message /\ _classify_error message <> permanent) ->
  CircuitBreakerFacts.inv (circuit_breaker h) ->
  let r := attempts base_delay max_delay e remaining attempt last h in
  CircuitBreakerFacts.inv (circuit_breaker (snd r)) /\
  CircuitBreaker.failure_count (circuit_breaker (snd r))
  = CircuitBreaker.failure_count (circuit_breaker h) + Z.of_nat remaining /\
  (exists message, fst r = Raises message) /\
  ((0 < remaining)%nat ->
   (exists now, CircuitBreaker.last_failure_time (circuit_breaker (snd r)) = Some now /\
                now = clock e (pred (ticks (snd r)))) /\
   (5 <= CircuitBreaker.failure_count (circuit_breaker (snd r)) ->
    CircuitBreaker.state (circuit_breaker (snd r)) = CircuitBreaker.OPEN)).
Proof.
  induction remaining as [|remaining IH]; intros attempt last h Hfail Hb; cbv zeta.
  - cbn [attempts]. unfold ret. cbn [fst snd]. split; [exact Hb|].
    split; [simpl; lia|]. split; [|lia].
    unfold raise_last. destruct last; eauto.
  - rewrite attempts_turn.
    destruct (try_block e h) as [[v|message] h1] eqn:Etry.
    { apply try_block_returns in Etry. destruct Etry as (Hf & _).
      destruct (Hfail (calls h)) as (m & Hm & _). congruence. }
    apply try_block_raises in Etry. destruct Etry as (Hb1 & _ & Hcases).
    assert (Hclass : _classify_error message <> permanent).
    { destruct Hcases as [(_ & -> & _)|(_ & Hf & _)]; [discriminate|].
      destruct (Hfail (calls h)) as (m & Hm & Hc). congruence. }
    destruct (except_block_records attempt message h1)
      as (h2 & -> & Hb2 & _ & Hticks).
    assert (Hinv1 : CircuitBreakerFacts.inv (circuit_breaker h1)).
    { rewrite Hb1. unfold checked_breaker.
      apply (CircuitBreakerFacts.breaker_inv_step _
               (CircuitBreaker.CanExecute (clock e (ticks h))) Hb). }
    destruct (record_failure_opens (clock e (ticks h1)) (circuit_breaker h1) Hinv1)
      as (Hinv2 & Hcount & Hlast & Hopen).
    rewrite <- Hb2 in Hinv2, Hcount, Hlast, Hopen.
    assert (Hc1 : CircuitBreaker.failure_count (circuit_breaker h1)
                  = CircuitBreaker.failure_count (circuit_breaker h)).
    { rewrite Hb1. apply can_execute_failure_count. }
    destruct (_classify_error message) eqn:Eclass; try congruence;
      specialize (IH (S attempt) (Some message) h2 Hfail Hinv2); cbv zeta in IH;
      destruct (attempts base_delay max_delay e remaining (S attempt)
                  (Some message) h2) as [r h3] eqn:Erest;
      cbn [fst snd] in *; destruct IH as (IHinv & IHcount & IHr & IHopen);
      (split; [exact IHinv|]); (split; [lia|]); (split; [exact IHr|]);
      intros _;
      (destruct remaining as [|remaining'];
       [ cbn [attempts] in Erest; unfold ret in Erest; injection Erest as _ <-;
         split; [exists (clock e (ticks h1)); split; [exact Hlast|];
                 rewrite Hticks; reflexivity|exact Hopen]
       | apply IHopen; lia ]).
Qed.

(** Every turn reads the clock. *)
Lemma attempts_ticks remaining attempt last h :
  (0 < remaining)%nat ->
  (ticks h < ticks (snd (attempts base_delay max_delay e remaining attempt last h)))%nat.
Proof.
  assert (Hgrow : forall k a l h0,
            (ticks h0 <= ticks (snd (attempts base_delay max_delay e k a l h0)))%nat).
  { induction k as [|k IH]; intros a l h0; [cbn; lia|].
    rewrite attempts_turn.
    destruct (try_block e h0) as [[v|m] h1] eqn:Etry.
    - apply try_block_returns in Etry. cbn [snd]. lia.
    - apply try_block_raises in Etry. destruct Etry as (_ & Ht & _).
      destruct (except_block_records a m h1) as (h2 & -> & _ & _ & Ht2).
      destruct (_classify_error m);
        try (specialize (IH (S a) (Some m) h2);
             destruct (attempts base_delay max_delay e k (S a) (Some m) h2);
             cbn [snd] in *; lia);
        cbn [snd]; lia. }
  destruct remaining as [|remaining]; [lia|]. intros _.
  rewrite attempts_turn.
  destruct (try_block e h) as [[v|m] h1] eqn:Etry.
  - apply try_block_returns in Etry. cbn [snd]. lia.
  - apply try_block_raises in Etry. destruct Etry as (_ & Ht & _).
    destruct (except_block_records attempt m h1) as (h2 & -> & _ & _ & Ht2).
    destruct (_classify_error m);
      try (specialize (Hgrow remaining (S attempt) (Some m) h2);
           destruct (attempts base_delay max_delay e remaining (S attempt) (Some m) h2);
           cbn [snd] in *; lia);
      cbn [snd]; lia.
Qed.

Ltac accept_all :=
  repeat (apply List.Forall_cons; [first [exact I|assumption]|]);
  apply List.Forall_nil.

(** The limiter keeps the bounds of its ceiling, and the clock is never
    read before the last request it recorded. *)
Definition steady (h : handler) : Prop :=
  AdaptiveRateLimiterFacts.inv (rate_limiter h) /\
  forall n last,
    AdaptiveRateLimiter.last_request_time (rate_limiter h) = Some last ->
    last <= clock e n.

Lemma can_proceed_last_request now l :
  AdaptiveRateLimiter.last_request_time (snd (AdaptiveRateLimiter.can_proceed now l))
  = AdaptiveRateLimiter.last_request_time l.
Proof. unfold AdaptiveRateLimiter.can_proceed. destruct (_ >=? _); reflexivity. Qed.

(** The [try] block sleeps at most once, the wait of the limiter, which is
    at most 6 seconds; when it raises, the limiter has recorded nothing. *)
Lemma try_block_sleeps h :
  steady h ->
  exists added,
    trace (snd (try_block e h)) = trace h ++ added /\
    Forall accepted added /\
    (forall message, fst (try_block e h) = Raises message ->
       steady (snd (try_block e h))).
Proof.
  intros [Hi Hclock].
  assert (Hdelay : forall now,
            accepted (Slept (AdaptiveRateLimiter.get_delay (clock e now)
                               (snd (AdaptiveRateLimiter.can_proceed
                                       (clock e (S (ticks h))) (rate_limiter h)))))).
  { intros now.
    destruct (get_delay_bounds
                (snd (AdaptiveRateLimiter.can_proceed (clock e (S (ticks h)))
                        (rate_limiter h))) (clock e now)) as ([H0 H6] & _).
    - now apply AdaptiveRateLimiterFacts.inv_can_proceed.
    - intros last. rewrite can_proceed_last_request. apply Hclock.
    - split; [exact H0|]. eapply Qle_trans; [exact H6|]. discriminate. }
  assert (Hsteady : steady
            {| circuit_breaker := circuit_breaker h;
               rate_limiter := snd (AdaptiveRateLimiter.can_proceed
                                      (clock e (S (ticks h))) (rate_limiter h));
               ticks := ticks h; calls := calls h; draws := draws h;
               trace := trace h |}).
  { split; reduce_handler.
    - now apply AdaptiveRateLimiterFacts.inv_can_proceed.
    - intros n last. rewrite can_proceed_last_request. apply Hclock. }
  destruct Hsteady as [Hi1 Hclock1]. cbn [rate_limiter] in Hi1, Hclock1.
  unfold try_block, breaker_can_execute, limiter_can_proceed,
    limiter_get_delay, breaker_record_success, limiter_record_success,
    sleep, emit, invoke, bind, ret, now, with_breaker, with_limiter.
  reduce_handler.
  destruct (CircuitBreaker.can_execute (clock e (ticks h)) (circuit_breaker h))
    as [[|] b1]; reduce_handler.
  - specialize (Hdelay (S (S (ticks h)))).
    destruct (AdaptiveRateLimiter.can_proceed (clock e (S (ticks h))) (rate_limiter h))
      as [[|] l1]; reduce_handler; cbn [snd] in Hdelay, Hi1, Hclock1;
      destruct (func e (calls h)) as [v|m]; reduce_handler;
      rewrite <- ?app_assoc; cbn [app];
      eexists; (split; [reflexivity|]);
      (split; [accept_all|]);
      intros message; try discriminate; intros _; (split; [exact Hi1|exact Hclock1]).
  - exists []. split; [now rewrite app_nil_r|]. split; [constructor|].
    intros message _. split; [exact Hi|exact Hclock].
Qed.

(** The [except] block sleeps at most once, one of the three backoff
    delays, and leaves the last request of the limiter as it was. *)
Lemma except_block_sleeps attempt message h :
  (0 <= base_delay)%Q -> sleepable max_delay ->
  (forall n, 0 <= uniform e n <= 1)%Q ->
  steady h ->
  exists added,
    trace (snd (except_block base_delay max_delay e attempt message h))
    = trace h ++ added /\
    Forall accepted added /\
    steady (snd (except_block base_delay max_delay e attempt message h)).
Proof.
  intros Hbase Hmax Hjitter [Hi Hclock].
  destruct (backoff_bounds base_delay max_delay (uniform e (draws h)) attempt Hbase
              (proj1 Hmax) (proj1 (Hjitter (draws h)))) as (Hr & Ht & Hd).
  apply sleepable_below in Hr, Ht, Hd; try exact Hmax.
  unfold except_block.
  destruct (_classify_error message);
    unfold breaker_record_failure, random_uniform, limiter_record_rate_limit,
      sleep, emit, bind, ret, now, with_breaker, with_limiter; reduce_handler;
    rewrite <- ?app_assoc; cbn [app];
    eexists; (split; [reflexivity|]);
    (split; [accept_all|]);
    (split; reduce_handler;
     [first [exact Hi|now apply AdaptiveRateLimiterFacts.inv_record_rate_limit]
     |exact Hclock]).
Qed.

(** On a regular call every sleep of the loop is one [time.sleep]
    accepts. *)
Lemma attempts_sleeps remaining : forall attempt last h,
  (0 <= base_delay)%Q -> sleepable max_delay ->
  (forall n, 0 <= uniform e n <= 1)%Q ->
  steady h ->
  exists added,
    trace (snd (attempts base_delay max_delay e remaining attempt last h))
    = trace h ++ added /\
    Forall accepted added.
Proof.
  induction remaining as [|remaining IH]; intros attempt last h Hbase Hmax Hjitter Hh.
  - exists []. cbn. split; [now rewrite app_nil_r|constructor].
  - rewrite attempts_turn.
    destruct (try_block_sleeps h Hh) as (pre & Hpre & Hacc & Hkeep).
    destruct (try_block e h) as [[v|message] h1] eqn:Etry; cbn [fst snd] in *.
    + exists pre. split; [exact Hpre|exact Hacc].
    + specialize (Hkeep message eq_refl).
      destruct (except_block_sleeps attempt message h1 Hbase Hmax Hjitter Hkeep)
        as (mid & Hmid & Hacc2 & Hkeep2).
      destruct (except_block base_delay max_delay e attempt message h1)
        as [[|] h2]; cbn [fst snd] in *.
      * destruct (IH (S attempt) (Some message) h2 Hbase Hmax Hjitter Hkeep2)
          as (rest & Hrest & Hacc3).
        exists (pre ++ mid ++ rest). split.
        -- rewrite Hrest, Hmid, Hpre. now rewrite <- !app_assoc.
        -- apply Forall_app. split; [exact Hacc|].
           apply Forall_app. split; assumption.
      * exists (pre ++ mid). split.
        -- rewrite Hmid, Hpre. now rewrite <- !app_assoc.
        -- apply Forall_app. split; assumption.
Qed.

Lemma regular_steady h : regular base_delay max_delay e h -> steady h.
Proof.
  intros Hreg. split.
  - apply AdaptiveRateLimiterFacts.limiter_reachable_inv.
    apply (regular_limiter _ _ _ _ Hreg).
  - apply (regular_clock _ _ _ _ Hreg).
Qed.

End turns.

(** X8.  A regular call through [with_retry(max_retries, base_delay,
    max_delay)] with at most 1024 turns (delays that are not negative, the
    longest at most a day; draws of the jitter between 0 and 1; errors
    with ASCII messages; the limiter in a state it can reach and not ahead
    of the clock) invokes the wrapped function at most [max_retries]
    times.  A value it returns is the value the last invocation returned.
    An error it raises is an error one of the invocations raised, or the
    refusal of the circuit breaker, or, with [max_retries = 0], the error
    of [raise None], in which case nothing was done at all.  Every delay
    the call hands to [time.sleep] is one it accepts: none is negative,
    none is longer than a day. *)
Theorem wrapper_invocations_bounded {V : Type} (max_retries : nat)
    (base_delay max_delay : Q) (e : env V) (h : handler)
    (Hturns : (max_retries <= 1024)%nat)
    (Hregular : regular base_delay max_delay e h) :
  let r := wrapper max_retries base_delay max_delay e h in
  (calls h <= calls (snd r) <= calls h + max_retries)%nat /\
  (forall v, fst r = Returns v ->
     (calls h < calls (snd r))%nat /\ func e (pred (calls (snd r))) = Returns v) /\
  (forall message, fst r = Raises message ->
     max_retries = 0%nat /\ message = raise_none_message /\ snd r = h \/
     message = breaker_open_message \/
     exists n, (calls h <= n < calls (snd r))%nat /\ func e n = Raises message) /\
  (exists added, trace (snd r) = trace h ++ added /\ Forall accepted added).
Proof.
  cbv zeta. unfold wrapper.
  destruct (attempts_invocations base_delay max_delay e max_retries 0%nat None h)
    as (Hc & Hv & Hm).
  split; [exact Hc|]. split; [exact Hv|]. split.
  - intros message Hmsg. destruct (Hm message Hmsg) as [[Hl Hs]|[->|Hn]]; auto.
    destruct max_retries as [|n]; [left|].
    + injection Hl as ->. auto.
    + exfalso.
      pose proof (attempts_ticks base_delay max_delay e (S n) 0%nat None h) as Hlt.
      rewrite Hs in Hlt. lia.
  - apply attempts_sleeps.
    + apply (regular_base _ _ _ _ Hregular).
    + apply (regular_max _ _ _ _ Hregular).
    + apply (regular_jitter _ _ _ _ Hregular).
    + now apply (regular_steady base_delay max_delay).
Qed.

(** A function that fails twice on a timeout of its connection and then
    returns 7. *)
Definition flaky_env : env Z :=
  {| func := fun n => if (n <? 2)%nat then Raises "connection timeout" else Returns 7;
     clock := fun n => seconds (Z.of_nat n); uniform := fun _ => 1 # 2 |}.

Lemma wrapper_invocations_bounded_witness :
  fst (wrapper 5 1 60 flaky_env (init 0)) = Returns 7 /\
  (calls (snd (wrapper 5 1 60 flaky_env (init 0))) <= 5)%nat /\
  backoffs (trace (snd (wrapper 5 1 60 flaky_env (init 0)))) = [1 * inject_Z 1; 1 * inject_Z 2]%Q /\
  exists added,
    trace (snd (wrapper 5 1 60 flaky_env (init 0))) = added /\ Forall accepted added.
Proof.
  assert (Hreg : regular 1 60 flaky_env (init 0)).
  { split.
    - discriminate.
    - split; discriminate.
    - intros n. split; discriminate.
    - intros n message H. destruct n as [|[|n]]; cbn in H;
        first [discriminate H|injection H as <-; reflexivity].
    - exists 0, []. reflexivity.
    - intros n last. discriminate. }
  destruct (wrapper_invocations_bounded 5 1 60 flaky_env (init 0) ltac:(lia) Hreg)
    as (Hcalls & _ & _ & Hsleeps).
  split; [reflexivity|]. split; [exact (proj2 Hcalls)|]. split; [reflexivity|].
  exact Hsleeps.
Defined.

(** A function that always raises "boom". *)
Definition failing_env : env Z :=
  {| func := fun _ => Raises "boom"; clock := fun n => seconds (Z.of_nat n);
     uniform := fun _ => 1 # 2 |}.

(** X9.  When every invocation of the wrapped function raises an error
    that is not classified permanent, a regular call through [with_retry]
    with at least five turns and at most 1024 (delays that are not
    negative, the longest at most a day; draws of the jitter between 0 and
    1; errors with ASCII messages; the limiter in a state it can reach and
    not ahead of the clock) ends with an error and leaves the circuit
    breaker OPEN, with one failure recorded for each turn, refused turns
    included; for the next 60 seconds from the last failure [can_execute]
    refuses and changes nothing.  Every delay the call hands to
    [time.sleep] is one it accepts. *)
Theorem failing_call_opens_breaker {V : Type} (max_retries : nat)
    (base_delay max_delay : Q) (e : env V) (h : handler)
    (Hfail : forall n, exists message,
       func e n = Raises message /\ _classify_error message <> permanent)
    (Hb : CircuitBreaker.reachable (circuit_breaker h))
    (Hmax : (5 <= max_retries <= 1024)%nat)
    (Hregular : regular base_delay max_delay e h) :
  let r := wrapper max_retries base_delay max_delay e h in
  (exists message, fst r = Raises message) /\
  CircuitBreaker.state (circuit_breaker (snd r)) = CircuitBreaker.OPEN /\
  CircuitBreaker.failure_count (circuit_breaker (snd r))
  = CircuitBreaker.failure_count (circuit_breaker h) + Z.of_nat max_retries /\
  (calls (snd r) <= calls h + max_retries)%nat /\
  (forall now last,
     CircuitBreaker.last_failure_time (circuit_breaker (snd r)) = Some last ->
     now - last <= seconds 60 ->
     CircuitBreaker.can_execute now (circuit_breaker (snd r))
     = (false, circuit_breaker (snd r))) /\
  (exists added, trace (snd r) = trace h ++ added /\ Forall accepted added).
Proof.
  cbv zeta. unfold wrapper.
  pose proof (CircuitBreakerFacts.breaker_reachable_inv _ Hb) as Hinv.
  destruct (attempts_all_fail base_delay max_delay e max_retries 0%nat None h Hfail Hinv)
    as (Hinv' & Hcount & Hr & Hopen).
  destruct (attempts_invocations base_delay max_delay e max_retries 0%nat None h)
    as (Hc & _).
  destruct Hopen as (_ & Hopen); [lia|].
  pose proof (CircuitBreakerFacts.inv_count _ Hinv) as H0.
  assert (Hstate : CircuitBreaker.state
                     (circuit_breaker (snd (attempts base_delay max_delay e max_retries
                                               0%nat None h)))
                   = CircuitBreaker.OPEN) by (apply Hopen; lia).
  split; [exact Hr|]. split; [exact Hstate|]. split; [exact Hcount|].
  split; [lia|]. split.
  - intros now last Hlast Hle.
    apply (CircuitBreakerFacts.can_execute_open_early now _ last Hstate Hlast).
    now rewrite (CircuitBreakerFacts.inv_timeout _ Hinv').
  - apply attempts_sleeps.
    + apply (regular_base _ _ _ _ Hregular).
    + apply (regular_max _ _ _ _ Hregular).
    + apply (regular_jitter _ _ _ _ Hregular).
    + now apply (regular_steady base_delay max_delay).
Qed.

Lemma failing_call_opens_breaker_witness :
  CircuitBreaker.state (circuit_breaker (snd (wrapper 5 2 120 failing_env (init 0))))
  = CircuitBreaker.OPEN /\
  calls (snd (wrapper 5 2 120 failing_env (init 0))) = 5%nat.
Proof.
  split; [|reflexivity].
  refine (proj1 (proj2 (failing_call_opens_breaker 5 2 120 failing_env (init 0) _ _ _ _))).
  - intros n. exists "boom". split; [reflexivity|discriminate].
  - apply CircuitBreakerFacts.breaker_reachable_init.
  - lia.
  - split.
    + discriminate.
    + split; discriminate.
    + intros n. split; discriminate.
    + intros n message [= <-]. reflexivity.
    + exists 0, []. reflexivity.
    + intros n last. discriminate.
Defined.

(** X10.  The three backoff delays of the [except] block at an attempt
    and at the next one, both below 1024, for a base delay and a maximal
    delay that are not negative and two draws of the jitter between 0 and
    1, one for each attempt.  Each delay lies between 0 and [max_delay].
    The delay after a rate limit lies between [min(base * 2^attempt,
    max_delay)] and [min(base * 2^attempt + 1, max_delay)].  The delay
    after a transient error and the default delay do not decrease from one
    attempt to the next; the delay after a rate limit does not decrease
    either, whatever the two draws, as soon as [base * 2^attempt] is at
    least 1. *)
Theorem backoff_delays_within_bounds (base_delay max_delay jitter jitter' : Q)
    (attempt : nat)
    (Hbase : (0 <= base_delay)%Q) (Hmax : (0 <= max_delay)%Q)
    (Hjitter : (0 <= jitter <= 1)%Q) (Hjitter' : (0 <= jitter' <= 1)%Q)
    (Hattempt : (S attempt < 1024)%nat) :
  (0 <= rate_limit_delay base_delay max_delay attempt jitter <= max_delay)%Q /\
  (0 <= transient_delay base_delay max_delay attempt <= max_delay)%Q /\
  (0 <= default_delay base_delay max_delay attempt <= max_delay)%Q /\
  (Qmin (base_delay * 2 ^ Z.of_nat attempt) max_delay
   <= rate_limit_delay base_delay max_delay attempt jitter
   <= Qmin (base_delay * 2 ^ Z.of_nat attempt + 1) max_delay)%Q /\
  (transient_delay base_delay max_delay attempt
   <= transient_delay base_delay max_delay (S attempt))%Q /\
  (default_delay base_delay max_delay attempt
   <= default_delay base_delay max_delay (S attempt))%Q /\
  ((1 <= base_delay * 2 ^ Z.of_nat attempt)%Q ->
   (rate_limit_delay base_delay max_delay attempt jitter
    <= rate_limit_delay base_delay max_delay (S attempt) jitter')%Q).
Proof.
  destruct (backoff_bounds base_delay max_delay jitter attempt Hbase Hmax (proj1 Hjitter))
    as (Hr & Ht & Hd).
  split; [exact Hr|]. split; [exact Ht|]. split; [exact Hd|].
  unfold rate_limit_delay, transient_delay, default_delay.
  split; [split|split; [|split]].
  - apply Qmin_mono.
    rewrite <- (Qplus_0_r (base_delay * 2 ^ Z.of_nat attempt)) at 1.
    apply Qplus_le_r. exact (proj1 Hjitter).
  - apply Qmin_mono. apply Qplus_le_r. exact (proj2 Hjitter).
  - apply Qmin_mono.
    rewrite !(Qmult_comm base_delay). apply Qmult_le_compat_r; [|exact Hbase].
    unfold Qle, inject_Z. simpl. lia.
  - apply Qmin_mono.
    rewrite !(Qmult_comm base_delay). apply Qmult_le_compat_r; [|exact Hbase].
    apply power_step. discriminate.
  - intros Hone. apply Qmin_mono.
    apply Qle_trans with (base_delay * 2 ^ Z.of_nat attempt + 1)%Q.
    { apply Qplus_le_r. exact (proj2 Hjitter). }
    apply Qle_trans with (base_delay * 2 ^ Z.of_nat (S attempt))%Q.
    + assert (Hdouble : (base_delay * 2 ^ Z.of_nat (S attempt)
                         == base_delay * 2 ^ Z.of_nat attempt
                            + base_delay * 2 ^ Z.of_nat attempt)%Q).
      { rewrite Nat2Z.inj_succ. unfold Z.succ.
        rewrite Qpower_plus by (intros H; vm_compute in H; discriminate H).
        change (2 ^ 1)%Q with 2%Q. ring. }
      rewrite Hdouble. apply Qplus_le_r. exact Hone.
    + rewrite <- (Qplus_0_r (base_delay * 2 ^ Z.of_nat (S attempt))) at 1.
      apply Qplus_le_r. exact (proj1 Hjitter').
Qed.

Lemma backoff_delays_within_bounds_witness :
  (0 <= default_delay 2 120 4 <= 120)%Q /\
  (default_delay 2 120 4 == 81 # 8)%Q /\
  (rate_limit_delay 1 60 6 (1 # 2) == 60)%Q /\
  (rate_limit_delay 1 60 2 (9 # 10) <= rate_limit_delay 1 60 3 0)%Q.
Proof.
  destruct (backoff_delays_within_bounds 2 120 0 0 4) as (_ & _ & Hd & _);
    [discriminate|discriminate|split; discriminate|split; discriminate|lia|].
  destruct (backoff_delays_within_bounds 1 60 (9 # 10) 0 2) as (_ & _ & _ & _ & _ & _ & Hr);
    [discriminate|discriminate|split; discriminate|split; discriminate|lia|].
  split; [exact Hd|]. split; [reflexivity|]. split; [reflexivity|].
  apply Hr. discriminate.
Defined.

(** With a base delay below 1 the delay after a rate limit can go down
    from one attempt to the next: 0.1 s with a draw of 0.9 gives 1 s at
    attempt 0, and a draw of 0 gives 0.2 s at attempt 1. *)
Lemma rate_limit_delay_can_decrease :
  (rate_limit_delay (1 # 10) 60 0 (9 # 10) == 1)%Q /\
  (rate_limit_delay (1 # 10) 60 1 0 == 1 # 5)%Q.
Proof. split; reflexivity. Qed.

(** *** The breaker and the limiter, seen from the caller *)

(** X11.  A circuit breaker in a reachable state refuses a call exactly
    when it is OPEN and at most 60 seconds have passed since the last
    failure; a refusal leaves the breaker as it was; and an OPEN breaker
    has counted at least five failures. *)
Theorem breaker_refuses_only_while_open (b : CircuitBreaker.t)
    (Hb : CircuitBreaker.reachable b) (now : Z) :
  (fst (CircuitBreaker.can_execute now b) = false <->
   CircuitBreaker.state b = CircuitBreaker.OPEN /\
   exists last, CircuitBreaker.last_failure_time b = Some last /\
                now - last <= seconds 60) /\
  (fst (CircuitBreaker.can_execute now b) = false ->
   snd (CircuitBreaker.can_execute now b) = b) /\
  (CircuitBreaker.state b = CircuitBreaker.OPEN ->
   5 <= CircuitBreaker.failure_count b).
Proof.
  pose proof (CircuitBreakerFacts.breaker_reachable_inv b Hb) as Hi.
  pose proof (CircuitBreakerFacts.inv_timeout b Hi) as Ht.
  pose proof (CircuitBreakerFacts.inv_max_calls b Hi) as Hm.
  unfold CircuitBreaker.can_execute, CircuitBreaker._should_attempt_reset.
  destruct (CircuitBreaker.state b) eqn:Es.
  - split; [split; [discriminate|intros [H _]; discriminate]|].
    split; [discriminate|discriminate].
  - assert (Hl : CircuitBreaker.last_failure_time b <> None)
      by (apply (CircuitBreakerFacts.inv_clock b Hi); congruence).
    destruct (CircuitBreaker.last_failure_time b) as [last|]; [|congruence].
    rewrite Ht. destruct (now - last >? seconds 60) eqn:E; cbn [fst snd].
    + rewrite Z.gtb_ltb in E. apply Z.ltb_lt in E.
      split; [split; [discriminate|]|split; [discriminate|]].
      * intros (_ & last' & [= <-] & Hle). lia.
      * intros _. apply (CircuitBreakerFacts.inv_tripped b Hi). congruence.
    + rewrite Z.gtb_ltb in E. apply Z.ltb_ge in E.
      split; [split; [intros _; split; [reflexivity|eauto]|reflexivity]|].
      split; [reflexivity|].
      intros _. apply (CircuitBreakerFacts.inv_tripped b Hi). congruence.
  - assert (Hh : 0 <= CircuitBreaker.half_open_calls b < 3)
      by (apply (CircuitBreakerFacts.inv_trials b Hi); exact Es).
    rewrite Hm. cbn [fst snd].
    replace (CircuitBreaker.half_open_calls b <? 3) with true
      by (symmetry; apply Z.ltb_lt; lia).
    split; [split; [discriminate|intros [H _]; discriminate]|].
    split; [discriminate|discriminate].
Qed.

Lemma breaker_refuses_only_while_open_witness :
  fst (CircuitBreaker.can_execute (seconds 60) CircuitBreakerFacts.tripped_example)
  = false /\
  fst (CircuitBreaker.can_execute (seconds 60 + 1) CircuitBreakerFacts.tripped_example)
  = true.
Proof.
  assert (Hr : CircuitBreaker.reachable CircuitBreakerFacts.tripped_example).
  { exists [CircuitBreaker.RecordFailure 0; CircuitBreaker.RecordFailure 0;
            CircuitBreaker.RecordFailure 0; CircuitBreaker.RecordFailure 0;
            CircuitBreaker.RecordFailure 0]. reflexivity. }
  split.
  - apply (proj1 (breaker_refuses_only_while_open _ Hr (seconds 60))).
    split; [reflexivity|]. exists 0. split; [reflexivity|discriminate].
  - reflexivity.
Defined.

(** X12.  For a rate limiter in a reachable state, asked not before its
    last request: the wait [get_delay] returns is between 0 and 6 seconds,
    never more than [60 / requests_per_minute], and it is 0 before the
    first recorded request and once 6 seconds have passed since the last
    one. *)
Theorem limiter_wait_is_short (l : AdaptiveRateLimiter.t)
    (Hl : AdaptiveRateLimiter.reachable l) (now : Z)
    (Hclock : forall last, AdaptiveRateLimiter.last_request_time l = Some last ->
                           last <= now) :
  (0 <= AdaptiveRateLimiter.get_delay now l <= 6)%Q /\
  (AdaptiveRateLimiter.get_delay now l
   <= 60 / inject_Z (AdaptiveRateLimiter.requests_per_minute l))%Q /\
  (AdaptiveRateLimiter.last_request_time l = None ->
   AdaptiveRateLimiter.get_delay now l = 0%Q) /\
  (forall last, AdaptiveRateLimiter.last_request_time l = Some last ->
     seconds 6 <= now - last -> AdaptiveRateLimiter.get_delay now l = 0%Q).
Proof.
  apply get_delay_bounds; [|exact Hclock].
  apply AdaptiveRateLimiterFacts.limiter_reachable_inv. exact Hl.
Qed.

(** A limiter that recorded a success at 10 s. *)
Definition busy_limiter : AdaptiveRateLimiter.t :=
  AdaptiveRateLimiter.run (AdaptiveRateLimiter.init 0)
    [AdaptiveRateLimiter.RecordSuccess (seconds 10)].

Lemma limiter_wait_is_short_witness :
  (AdaptiveRateLimiter.get_delay (seconds 10 + 250000) busy_limiter == 3 # 4)%Q /\
  (0 <= AdaptiveRateLimiter.get_delay (seconds 10 + 250000) busy_limiter <= 6)%Q.
Proof.
  split; [reflexivity|].
  refine (proj1 (limiter_wait_is_short busy_limiter _ (seconds 10 + 250000) _)).
  - exists 0, [AdaptiveRateLimiter.RecordSuccess (seconds 10)]. reflexivity.
  - intros last [= <-]. discriminate.
Defined.

(** A limiter whose budget of the minute is used up: ten successes at
    time 0, then five rate limits, which bring the ceiling down to 10. *)
Definition spent_limiter : AdaptiveRateLimiter.t :=
  AdaptiveRateLimiter.run (AdaptiveRateLimiter.init 0)
    (repeat (AdaptiveRateLimiter.RecordSuccess 0) 10
     ++ repeat AdaptiveRateLimiter.RecordRateLimit 5).

Definition spent_handler : handler :=
  {| circuit_breaker := CircuitBreaker.init; rate_limiter := spent_limiter;
     ticks := 0; calls := 0; draws := 0; trace := [] |}.

(** X13.  The rate limiter never blocks a call.  Whenever the circuit
    breaker allows the attempt, the [try] block invokes the wrapped
    function exactly once, whatever [can_proceed] answers; a used-up
    budget (the window of 60 seconds still open and [request_count] at
    the ceiling) only puts one sleep of [get_delay] seconds, at most 6,
    before the invocation. *)
Theorem spent_budget_delays_but_never_blocks {V : Type} (e : env V) (h : handler)
    (Hallowed : fst (CircuitBreaker.can_execute (clock e (ticks h)) (circuit_breaker h))
                = true)
    (Hl : AdaptiveRateLimiter.reachable (rate_limiter h))
    (Hclock : forall last,
       AdaptiveRateLimiter.last_request_time (rate_limiter h) = Some last ->
       last <= clock e (S (S (ticks h)))) :
  let checked := AdaptiveRateLimiter.can_proceed (clock e (S (ticks h))) (rate_limiter h) in
  let delay := AdaptiveRateLimiter.get_delay (clock e (S (S (ticks h)))) (snd checked) in
  calls (snd (try_block e h)) = S (calls h) /\
  (exists rest,
     trace (snd (try_block e h))
     = trace h ++ (if fst checked then [] else [Slept delay])
       ++ Invoked (calls h) :: rest) /\
  (0 <= delay <= 6)%Q /\
  (fst checked = false <->
   clock e (S (ticks h)) - AdaptiveRateLimiter.window_start (rate_limiter h) < seconds 60 /\
   AdaptiveRateLimiter.requests_per_minute (rate_limiter h)
   <= AdaptiveRateLimiter.request_count (rate_limiter h)).
Proof.
  cbv zeta.
  pose proof (AdaptiveRateLimiterFacts.limiter_reachable_inv _ Hl) as Hi.
  split; [|split; [|split]].
  - unfold try_block, breaker_can_execute, limiter_can_proceed,
      limiter_get_delay, breaker_record_success, limiter_record_success,
      sleep, emit, invoke, bind, ret, now, with_breaker, with_limiter.
    reduce_handler.
    destruct (CircuitBreaker.can_execute (clock e (ticks h)) (circuit_breaker h))
      as [[|] b1]; [|discriminate Hallowed].
    reduce_handler.
    destruct (AdaptiveRateLimiter.can_proceed (clock e (S (ticks h))) (rate_limiter h))
      as [[|] l1]; reduce_handler;
      destruct (func e (calls h)) as [v|m]; reduce_handler; reflexivity.
  - unfold try_block, breaker_can_execute, limiter_can_proceed,
      limiter_get_delay, breaker_record_success, limiter_record_success,
      sleep, emit, invoke, bind, ret, now, with_breaker, with_limiter.
    reduce_handler.
    destruct (CircuitBreaker.can_execute (clock e (ticks h)) (circuit_breaker h))
      as [[|] b1]; [|discriminate Hallowed].
    reduce_handler.
    destruct (AdaptiveRateLimiter.can_proceed (clock e (S (ticks h))) (rate_limiter h))
      as [[|] l1]; reduce_handler;
      destruct (func e (calls h)) as [v|m]; reduce_handler;
      eexists; rewrite <- ?app_assoc; cbn [app]; reflexivity.
  - apply get_delay_bounds.
    + apply AdaptiveRateLimiterFacts.inv_can_proceed. exact Hi.
    + intros last Hlast. apply Hclock. rewrite <- Hlast.
      unfold AdaptiveRateLimiter.can_proceed.
      destruct (_ >=? _); reflexivity.
  - pose proof (AdaptiveRateLimiterFacts.inv_floor _ Hi) as Hf.
    unfold AdaptiveRateLimiter.can_proceed.
    destruct (clock e (S (ticks h)) - AdaptiveRateLimiter.window_start (rate_limiter h)
              >=? seconds 60) eqn:E; cbn.
    + apply Z.geb_le in E. rewrite Z.ltb_ge. split; lia.
    + rewrite Z.geb_leb in E. apply Z.leb_gt in E. rewrite Z.ltb_ge. split; [|tauto].
      intros H. split; [exact E|exact H].
Qed.

Lemma spent_budget_delays_but_never_blocks_witness :
  fst (AdaptiveRateLimiter.can_proceed (seconds 1) spent_limiter) = false /\
  calls (snd (try_block RateLimitHandlerFacts.calm_env spent_handler)) = 1%nat.
Proof.
  split; [reflexivity|].
  refine (proj1 (spent_budget_delays_but_never_blocks RateLimitHandlerFacts.calm_env
                   spent_handler _ _ _)).
  - reflexivity.
  - exists 0, (repeat (AdaptiveRateLimiter.RecordSuccess 0) 10
               ++ repeat AdaptiveRateLimiter.RecordRateLimit 5).
    reflexivity.
  - intros last [= <-]. discriminate.
Defined.

(** *** The backoff sleeps of a call that keeps failing *)

Lemma backoffs_skip pre : forall rest,
  Forall (fun ev => ev <> BreakerFailure) pre ->
  backoffs (pre ++ rest) = backoffs rest.
Proof.
  induction pre as [|ev pre IH]; intros rest Hpre; [reflexivity|].
  inversion Hpre as [|? ? Hev Hpre']; subst.
  cbn [app]. destruct ev; try (cbn [backoffs]; now apply IH). congruence.
Qed.

Section sleeps.
Context {V : Type}.
Variables base_delay max_delay : Q.
Variable e : env V.

(** What a [try] block that raises adds to the trace records no failure. *)
Lemma try_block_raises_trace h message h1 :
  try_block e h = (Raises message, h1) ->
  exists pre, trace h1 = trace h ++ pre /\
              Forall (fun ev => ev <> BreakerFailure) pre.
Proof.
  unfold try_block, breaker_can_execute, limiter_can_proceed,
    limiter_get_delay, breaker_record_success, limiter_record_success,
    sleep, emit, invoke, bind, ret, now, with_breaker, with_limiter.
  reduce_handler.
  destruct (CircuitBreaker.can_execute (clock e (ticks h)) (circuit_breaker h))
    as [[|] b1]; reduce_handler.
  - destruct (AdaptiveRateLimiter.can_proceed (clock e (S (ticks h))) (rate_limiter h))
      as [[|] l1]; reduce_handler;
      destruct (func e (calls h)) as [v|m]; reduce_handler; intros [= <- <-];
      reduce_handler; rewrite <- ?app_assoc; cbn [app];
      eexists; (split; [reflexivity|]); repeat constructor; discriminate.
  - intros [= <- <-]. reduce_handler. exists []. split; [now rewrite app_nil_r|constructor].
Qed.

(** When every invocation raises an error of no known class, every turn
    ends with the default backoff of its attempt. *)
Lemma attempts_all_unknown remaining : forall attempt last h,
  (forall n, exists message,
     func e n = Raises message /\ _classify_error message = unknown) ->
  exists added,
    trace (snd (attempts base_delay max_delay e remaining attempt last h))
    = trace h ++ added /\
    backoffs added = map (default_delay base_delay max_delay) (seq attempt remaining).
Proof.
  induction remaining as [|remaining IH]; intros attempt last h Hfail.
  - exists []. cbn. now rewrite app_nil_r.
  - rewrite attempts_turn.
    destruct (try_block e h) as [[v|message] h1] eqn:Etry.
    { apply try_block_returns in Etry. destruct Etry as (Hf & _).
      destruct (Hfail (calls h)) as (m & Hm & _). congruence. }
    pose proof (try_block_raises e h message h1 Etry) as (_ & _ & Hcases).
    assert (Hclass : _classify_error message = unknown).
    { destruct Hcases as [(_ & -> & _)|(_ & Hf & _)]; [reflexivity|].
      destruct (Hfail (calls h)) as (m & Hm & Hc). congruence. }
    destruct (try_block_raises_trace h message h1 Etry) as (pre & Hpre & Hquiet).
    destruct (except_block_unknown base_delay max_delay e attempt message h1 Hclass)
      as (h2 & -> & Htrace & _).
    destruct (IH (S attempt) (Some message) h2 Hfail) as (added & Hadded & Hback).
    exists (pre ++ BreakerFailure :: Slept (default_delay base_delay max_delay attempt)
                                  :: added).
    split.
    + rewrite Hadded, Htrace, Hpre. rewrite <- !app_assoc. reflexivity.
    + rewrite backoffs_skip by exact Hquiet. cbn [backoffs seq map]. now rewrite Hback.
Qed.

End sleeps.

End ResilienceFacts.

Module ServicesFacts.
Import Py ServiceManager ServiceManagerFacts.

(** *** Looking up the invoices of a client *)

Lemma lower_empty s : lower s = "" <-> s = "".
Proof. destruct s; simpl; split; intros H; congruence. Qed.

(** A record built from a hit of the index has no ["invoice_data"], so
    its client reads as the empty name. *)
Lemma search_record_client client result record :
  AzureSearchService.search_record result = Some record ->
  is_client_match client record = Some (String.eqb "" (lower client)).
Proof.
  unfold AzureSearchService.search_record.
  destruct (dict_get "@search.score" result); [|discriminate].
  intros [= <-]. reflexivity.
Qed.

Lemma search_records_filtered client results : forall records,
  client <> "" ->
  AzureSearchService.search_records results = Some records ->
  filter_client client records = Some [].
Proof.
  induction results as [|result results IH]; intros records Hne; simpl.
  - intros [= <-]. reflexivity.
  - destruct (AzureSearchService.search_record result) as [record|] eqn:E;
      [|discriminate].
    destruct (AzureSearchService.search_records results) as [rest|]; [|discriminate].
    intros [= <-]. simpl.
    rewrite (search_record_client client result record E).
    rewrite (IH rest Hne eq_refl).
    assert (Hl : String.eqb "" (lower client) = false).
    { apply String.eqb_neq. intros H. symmetry in H.
      apply (proj1 (lower_empty client)) in H. now apply Hne. }
    now rewrite Hl.
Qed.

Lemma index_hits_filtered client service answer :
  client <> "" ->
  filter_client client (AzureSearchService.search_invoices service answer) = Some [].
Proof.
  intros Hne. unfold AzureSearchService.search_invoices.
  destruct (negb _ || negb _); [reflexivity|].
  destruct answer as [results|]; [|reflexivity].
  destruct (AzureSearchService.search_records results) as [records|] eqn:E;
    [|reflexivity].
  simpl. now apply (search_records_filtered client results).
Qed.

(** One hit of the index for the client Acme Corp. *)
Definition acme_hit : dict pyval :=
  [("@search.score", PyFloat 1); ("invoice_number", PyStr "INV-1");
   ("client_name", PyStr "Acme Corp"); ("status", PyStr "active")].

Definition index_up : AzureSearchService.t :=
  AzureSearchService.init (Returns tt).

(** X14.  [get_client_invoices] for a client with a non-empty name, on a
    manager whose search index is available and with nothing cached for
    the client: whenever [AzureSearchService.search_invoices] finds
    anything, the records it builds carry no ["invoice_data"], so the
    filter on [invoice_data.client.name] drops every one of them.  The
    operation returns the empty list, caches it under the key of the
    client, and the document store is never asked. *)
Theorem client_lookup_loses_index_hits (md5 : string -> string) (client : string)
    (service : AzureSearchService.t) (answer : outcome (list (dict pyval)))
    (cosmos_answer : outcome (list pyval)) (i i_search : instants) (s : t)
    (Hname : client <> "")
    (Hindex : search_ready s = true)
    (Hfound : AzureSearchService.search_invoices service answer <> [])
    (Hclient : cache_timestamps s !! client_cache_key client = None)
    (Hsearch : cache_timestamps s !! search_cache_key md5 client = None) :
  let hits := AzureSearchService.search_invoices service answer in
  let r := get_client_invoices md5 client false i i_search (Returns hits)
             cosmos_answer s in
  fst r = Returns (PyList []) /\
  dict_get (client_cache_key client) (cache (snd r)) = Some (PyList []) /\
  backend_log (snd r) = backend_log s ++ [IndexSearch client].
Proof.
  cbv zeta. set (hits := AzureSearchService.search_invoices service answer) in *.
  unfold get_client_invoices. cbv zeta.
  rewrite (cached_read_absent i _ _ Hclient).
  unfold search_invoices. cbv zeta.
  assert (Hsearch' : cache_timestamps (miss_state (client_cache_key client) s)
                       !! search_cache_key md5 client = None) by exact Hsearch.
  rewrite (cached_read_absent i_search _ _ Hsearch').
  cbn [search_ready miss_state]. rewrite Hindex.
  destruct hits as [|hit hits'] eqn:Eh; [congruence|].
  cbn [andb]. rewrite <- Eh.
  assert (Hf : filter_client client hits = Some []).
  { subst hits. now apply index_hits_filtered. }
  rewrite Hf. cbn [fst snd]. split; [reflexivity|]. split.
  - apply set_cache_entry.
  - destruct (set_cache_frame (stored i) (client_cache_key client) (PyList [])
                (_set_cache (stored i_search) (search_cache_key md5 client) (PyList hits)
                   (log_call (IndexSearch client)
                      (miss_state (search_cache_key md5 client)
                         (miss_state (client_cache_key client) s)))))
      as (_ & _ & ->).
    destruct (set_cache_frame (stored i_search) (search_cache_key md5 client)
                (PyList hits)
                (log_call (IndexSearch client)
                   (miss_state (search_cache_key md5 client)
                      (miss_state (client_cache_key client) s))))
      as (_ & _ & ->).
    reflexivity.
Qed.

Lemma client_lookup_loses_index_hits_witness :
  AzureSearchService.search_invoices index_up (Returns [acme_hit])
  = [PyDict [("score", PyFloat 1); ("invoice_number", PyStr "INV-1");
             ("client_name", PyStr "Acme Corp"); ("invoice_date", PyNone);
             ("total_amount", PyNone); ("status", PyStr "active");
             ("highlights", PyDict [])]] /\
  fst (get_client_invoices id "Acme Corp" false (mk_instants 0 0 0) (mk_instants 0 0 0)
         (Returns (AzureSearchService.search_invoices index_up (Returns [acme_hit])))
         (Returns []) (init true true))
  = Returns (PyList []).
Proof.
  split; [reflexivity|].
  apply (client_lookup_loses_index_hits id "Acme Corp" index_up (Returns [acme_hit])
           (Returns []) (mk_instants 0 0 0) (mk_instants 0 0 0) (init true true));
    try reflexivity; discriminate.
Defined.

(** *** Start-up and the availability of the services *)

(** The manager start-up leaves: the five flags in the order of the
    source, and the five handles. *)
Definition started (cosmos search ai_project blob_storage agent_flag : bool)
    (cosmos_handle : bool) (search_handle : option AzureSearchService.t)
    (ai_handle blob_handle agent_handle : bool) : services :=
  {| services_available :=
       [("cosmos", cosmos); ("search", search); ("ai_project", ai_project);
        ("blob_storage", blob_storage); ("agent", agent_flag)];
     cosmos_service := cosmos_handle; search_service := search_handle;
     ai_project_client := ai_handle; blob_service := blob_handle;
     agent := agent_handle |}.

Definition returned {A} (o : outcome A) : bool :=
  match o with Returns _ => true | Raises _ => false end.

Definition returned_value {A} (o : outcome A) : option A :=
  match o with Returns a => Some a | Raises _ => None end.

Lemma initialize_services_started st :
  let ai := returned (ai_client_constructed st) in
  let blob := storage_configured st && returned (blob_constructed st) in
  _initialize_services st
  = started (match cosmos_constructed st with Returns true => true | _ => false end)
            (returned (search_constructed st)) ai blob (ai && agent_obtained st)
            (returned (cosmos_constructed st)) (returned_value (search_constructed st))
            ai blob (ai && agent_obtained st).
Proof.
  cbv zeta. unfold _initialize_services.
  assert (H1 : _init_cosmos_service st no_services
               = started (match cosmos_constructed st with Returns true => true | _ => false end)
                         false false false false
                         (returned (cosmos_constructed st)) None false false false).
  { unfold _init_cosmos_service. destruct (cosmos_constructed st) as [[|]|]; reflexivity. }
  rewrite H1. clear H1.
  generalize (match cosmos_constructed st with Returns true => true | _ => false end).
  generalize (returned (cosmos_constructed st)). intros hc c.
  assert (H2 : _init_search_service st (started c false false false false hc None false false false)
               = started c (returned (search_constructed st)) false false false
                         hc (returned_value (search_constructed st)) false false false).
  { unfold _init_search_service. destruct (search_constructed st); reflexivity. }
  rewrite H2. clear H2.
  generalize (returned (search_constructed st)).
  generalize (returned_value (search_constructed st)). intros hs f.
  assert (H3 : _init_ai_project_client st (started c f false false false hc hs false false false)
               = started c f (returned (ai_client_constructed st)) false false
                         hc hs (returned (ai_client_constructed st)) false false).
  { unfold _init_ai_project_client. destruct (ai_client_constructed st); reflexivity. }
  rewrite H3. clear H3.
  generalize (returned (ai_client_constructed st)). intros a.
  assert (H4 : _init_blob_service st (started c f a false false hc hs a false false)
               = started c f a (storage_configured st && returned (blob_constructed st)) false
                         hc hs a (storage_configured st && returned (blob_constructed st))
                         false).
  { unfold _init_blob_service.
    destruct (storage_configured st); [|reflexivity].
    destruct (blob_constructed st); reflexivity. }
  rewrite H4. clear H4.
  generalize (storage_configured st && returned (blob_constructed st)). intros b.
  unfold _init_agent. cbn [ai_project_client started].
  destruct a; [|reflexivity]. destruct (agent_obtained st); reflexivity.
Qed.

(** X15.  After [_initialize_services], whatever start-up met:
    [services_available] has exactly the five names; a name that is none
    of them is not available; ["cosmos"] is available only if the service
    was built and reported itself available; ["search"] is available
    exactly when the constructor of [AzureSearchService] returned, which
    it also does when it caught an error and left the service unavailable;
    an available ["blob_storage"], ["ai_project"] or ["agent"] has its
    handle, and the agent is available only with the AI project client. *)
Theorem startup_flags (st : startup) :
  let sv := _initialize_services st in
  dict_keys (services_available sv)
  = ["cosmos"; "search"; "ai_project"; "blob_storage"; "agent"] /\
  (forall name,
     ~ In name ["cosmos"; "search"; "ai_project"; "blob_storage"; "agent"] ->
     is_service_available name sv = false) /\
  (is_service_available "cosmos" sv = true ->
   cosmos_constructed st = Returns true /\ cosmos_service sv = true) /\
  (is_service_available "search" sv = true <->
   exists service, search_constructed st = Returns service) /\
  (forall setup,
     search_constructed st = Returns (AzureSearchService.init setup) ->
     is_service_available "search" sv = true /\
     search_service sv = Some (AzureSearchService.init setup)) /\
  (is_service_available "blob_storage" sv = true -> blob_service sv = true) /\
  (is_service_available "ai_project" sv = true -> get_ai_project_client sv = true) /\
  (is_service_available "agent" sv = true ->
   get_agent sv = true /\ is_service_available "ai_project" sv = true).
Proof.
  cbv zeta. pose proof (initialize_services_started st) as Hshape. cbv zeta in Hshape.
  rewrite Hshape. clear Hshape.
  split; [reflexivity|].
  split.
  { intros name Hname.
    assert (Hn : String.eqb "cosmos" name = false /\ String.eqb "search" name = false /\
                 String.eqb "ai_project" name = false /\
                 String.eqb "blob_storage" name = false /\
                 String.eqb "agent" name = false).
    { repeat split; apply String.eqb_neq; intros <-; apply Hname; simpl; tauto. }
    destruct Hn as (H1 & H2 & H3 & H4 & H5).
    unfold is_service_available.
    rewrite (String.eqb_sym name "ai_project"), (String.eqb_sym name "agent"), H3, H5.
    cbn [andb]. unfold started. cbn [services_available dict_get].
    now rewrite H1, H2, H3, H4, H5. }
  split.
  { destruct (cosmos_constructed st) as [[|]|]; cbn; intros H;
      [split; reflexivity | discriminate H | discriminate H]. }
  split.
  { destruct (search_constructed st) as [service|message]; cbn; split.
    - intros _. now exists service.
    - reflexivity.
    - discriminate.
    - intros (service & H). discriminate H. }
  split.
  { intros setup ->. split; reflexivity. }
  split.
  { destruct (storage_configured st), (blob_constructed st); cbn; intros H;
      try discriminate H; reflexivity. }
  split.
  { destruct (ai_client_constructed st); cbn; intros H; try discriminate H; reflexivity. }
  destruct (ai_client_constructed st), (agent_obtained st); cbn; intros H;
    try discriminate H; split; reflexivity.
Qed.

(** *** Generating with the AI agent *)

Lemma ai_down_raises sv ai :
  is_service_available "ai_project" sv = false \/
  is_service_available "agent" sv = false ->
  _ai_generate_with_fallback sv ai = Raises "AI services not available".
Proof.
  intros H. unfold _ai_generate_with_fallback.
  destruct H as [-> | ->]; [reflexivity|].
  now rewrite orb_true_r.
Qed.

(** The second check of [_ai_generate_with_fallback] never fires: services
    that pass the first have their handles. *)
Lemma ai_up_has_handles sv :
  is_service_available "ai_project" sv = true ->
  is_service_available "agent" sv = true ->
  get_ai_project_client sv = true /\ get_agent sv = true.
Proof.
  unfold is_service_available, get_ai_project_client, get_agent. cbn [String.eqb].
  change (String.eqb "ai_project" "ai_project") with true.
  change (String.eqb "agent" "ai_project") with false.
  change (String.eqb "agent" "agent") with true.
  cbn [andb].
  destruct (default false (dict_get "ai_project" (services_available sv)));
    destruct (default false (dict_get "agent" (services_available sv)));
    destruct (ai_project_client sv), (agent sv); cbn; intros H1 H2;
    try discriminate; auto.
Qed.

(** The services and the AI service of a generation that goes well. *)
Definition ai_up : services :=
  _initialize_services
    (mk_startup (Returns true) (Returns (AzureSearchService.init (Returns tt)))
                (Returns tt) false (Returns tt) true).

Definition ai_answers : ai_backend :=
  {| thread_created := Returns "thread-1";
     message_created := Returns tt;
     run_processed := Returns (mk_agent_run "completed" "");
     messages_listed :=
       Returns [mk_agent_message "user" ["Generate an invoice"];
                mk_agent_message "assistant" ["Invoice INV-1"]] |}.

(** What [_ai_generate_with_fallback] returns when it returns. *)
Lemma ai_generate_returns (sv : services) (ai : ai_backend)
    (v : pyval) (Hv : _ai_generate_with_fallback sv ai = Returns v) :
  InvoiceQueue.reports_success v = Some true /\
  is_service_available "ai_project" sv = true /\
  is_service_available "agent" sv = true /\
  exists thread_id run messages last_message response,
    thread_created ai = Returns thread_id /\
    run_processed ai = Returns run /\ run_status run = "completed" /\
    messages_listed ai = Returns messages /\
    last (List.filter (fun msg => String.eqb (role msg) "assistant") messages)
    = Some last_message /\
    last (text_messages last_message) = Some response /\
    v = PyDict [("success", PyBool true); ("response", PyStr response);
                ("thread_id", PyStr thread_id); ("method", PyStr "ai_generated")].
Proof.
  unfold _ai_generate_with_fallback in Hv.
  destruct (is_service_available "ai_project" sv) eqn:E1; [|discriminate Hv].
  destruct (is_service_available "agent" sv) eqn:E2; [|discriminate Hv].
  cbn [negb orb] in Hv.
  destruct (ai_up_has_handles sv E1 E2) as [H1 H2]. rewrite H1, H2 in Hv.
  cbn [negb orb] in Hv.
  destruct (thread_created ai) as [thread_id|] eqn:Et; [|discriminate Hv].
  destruct (message_created ai) as [[]|] eqn:Em; [|discriminate Hv].
  destruct (run_processed ai) as [run|] eqn:Er; [|discriminate Hv].
  destruct (String.eqb (run_status run) "completed") eqn:Es.
  - apply String.eqb_eq in Es.
    destruct (messages_listed ai) as [messages|] eqn:El; [|discriminate Hv].
    cbv zeta in Hv.
    destruct (last (List.filter (fun msg => String.eqb (role msg) "assistant") messages))
      as [last_message|] eqn:Ea; [|discriminate Hv].
    destruct (last (text_messages last_message)) as [response|] eqn:Ex;
      [|discriminate Hv].
    injection Hv as <-.
    split; [reflexivity|]. split; [reflexivity|]. split; [reflexivity|].
    exists thread_id, run, messages, last_message, response. auto 10.
  - destruct (String.eqb (run_status run) "failed"); discriminate Hv.
Qed.

(** X16.  [enhanced_ai_generate] never returns a failure report.  A value
    it returns is the success dictionary of the last invocation of
    [_ai_generate_with_fallback], made within five invocations: the AI
    project client and the agent are available, the run ended
    ["completed"], the response is the last text of the last assistant
    message, and ["success"] is [True].  So the branch of [_process_job]
    for a result without success is never taken. *)
Theorem ai_generation_returns_successes_only (sv : services) (ai : nat -> ai_backend)
    (clock : nat -> Z) (uniform : nat -> Q) (h : RateLimitHandler.handler) (v : pyval)
    (Hv : fst (enhanced_ai_generate sv ai clock uniform h) = Returns v) :
  let h' := snd (enhanced_ai_generate sv ai clock uniform h) in
  let n := pred (RateLimitHandler.calls h') in
  InvoiceQueue.reports_success v = Some true /\
  is_service_available "ai_project" sv = true /\
  is_service_available "agent" sv = true /\
  (RateLimitHandler.calls h < RateLimitHandler.calls h'
   <= RateLimitHandler.calls h + 5)%nat /\
  _ai_generate_with_fallback sv (ai n) = Returns v /\
  exists thread_id run messages last_message response,
    thread_created (ai n) = Returns thread_id /\
    run_processed (ai n) = Returns run /\ run_status run = "completed" /\
    messages_listed (ai n) = Returns messages /\
    last (List.filter (fun msg => String.eqb (role msg) "assistant") messages)
    = Some last_message /\
    last (text_messages last_message) = Some response /\
    v = PyDict [("success", PyBool true); ("response", PyStr response);
                ("thread_id", PyStr thread_id); ("method", PyStr "ai_generated")].
Proof.
  cbv zeta. unfold enhanced_ai_generate, RateLimitHandler.wrapper in *.
  set (e := {| RateLimitHandler.func := fun n => _ai_generate_with_fallback sv (ai n);
               RateLimitHandler.clock := clock;
               RateLimitHandler.uniform := uniform |}) in *.
  destruct (ResilienceFacts.attempts_invocations 2 120 e 5 0%nat None h)
    as (Hcalls & Hreturned & _).
  destruct (Hreturned v Hv) as [Hlt Hlast]. cbn [RateLimitHandler.func e] in Hlast.
  destruct (ai_generate_returns sv _ v Hlast) as (H1 & H2 & H3 & H4).
  split; [exact H1|]. split; [exact H2|]. split; [exact H3|].
  split; [lia|]. split; [exact Hlast|exact H4].
Qed.

Lemma ai_generation_returns_successes_only_witness :
  fst (enhanced_ai_generate ai_up (fun _ => ai_answers) (fun n => seconds (Z.of_nat n))
         (fun _ => 0%Q) (RateLimitHandler.init 0))
  = Returns (PyDict [("success", PyBool true); ("response", PyStr "Invoice INV-1");
                     ("thread_id", PyStr "thread-1"); ("method", PyStr "ai_generated")]) /\
  InvoiceQueue.reports_success
    (PyDict [("success", PyBool true); ("response", PyStr "Invoice INV-1");
             ("thread_id", PyStr "thread-1"); ("method", PyStr "ai_generated")])
  = Some true.
Proof.
  split; [reflexivity|].
  apply (ai_generation_returns_successes_only ai_up (fun _ => ai_answers)
           (fun n => seconds (Z.of_nat n)) (fun _ => 0%Q) (RateLimitHandler.init 0)).
  reflexivity.
Defined.

(** The services when the AI project client could not be built. *)
Definition ai_down : services :=
  _initialize_services
    (mk_startup (Returns true) (Returns (AzureSearchService.init (Returns tt)))
                (Raises "no credentials") false (Returns tt) true).

(** X17.  With the AI project client or the agent unavailable,
    [enhanced_ai_generate] does not fail at once: the error
    ["AI services not available"] is classified unknown, so all five turns
    are used, with the default backoff slept after each of them (2, 3,
    4.5, 6.75 and 10.125 seconds), and the call ends with that error or
    the refusal of the circuit breaker, which is left OPEN with five more
    failures counted. *)
Theorem unavailable_ai_costs_five_turns (sv : services) (ai : nat -> ai_backend)
    (clock : nat -> Z) (uniform : nat -> Q) (h : RateLimitHandler.handler)
    (Hdown : is_service_available "ai_project" sv = false \/
             is_service_available "agent" sv = false)
    (Hb : CircuitBreaker.reachable (RateLimitHandler.circuit_breaker h)) :
  let r := enhanced_ai_generate sv ai clock uniform h in
  (fst r = Raises "AI services not available" \/
   fst r = Raises RateLimitHandler.breaker_open_message) /\
  RateLimitHandler._classify_error "AI services not available"
  = RateLimitHandler.unknown /\
  (exists added,
     RateLimitHandler.trace (snd r) = RateLimitHandler.trace h ++ added /\
     RateLimitHandler.backoffs added
     = map (RateLimitHandler.default_delay 2 120) [0; 1; 2; 3; 4]%nat) /\
  Forall2 Qeq (map (RateLimitHandler.default_delay 2 120) [0; 1; 2; 3; 4]%nat)
          [2; 3; 9 # 2; 27 # 4; 81 # 8]%Q /\
  CircuitBreaker.state (RateLimitHandler.circuit_breaker (snd r)) = CircuitBreaker.OPEN /\
  CircuitBreaker.failure_count (RateLimitHandler.circuit_breaker (snd r))
  = CircuitBreaker.failure_count (RateLimitHandler.circuit_breaker h) + 5.
Proof.
  cbv zeta. unfold enhanced_ai_generate, RateLimitHandler.wrapper.
  set (e := {| RateLimitHandler.func := fun n => _ai_generate_with_fallback sv (ai n);
               RateLimitHandler.clock := clock;
               RateLimitHandler.uniform := uniform |}).
  assert (Hfunc : forall n, RateLimitHandler.func e n = Raises "AI services not available").
  { intros n. apply ai_down_raises. exact Hdown. }
  pose proof (CircuitBreakerFacts.breaker_reachable_inv _ Hb) as Hinv.
  destruct (ResilienceFacts.attempts_all_fail 2 120 e 5 0%nat None h) as
    (_ & Hcount & _ & Hopen); [|exact Hinv|].
  { intros n. exists "AI services not available". split; [apply Hfunc|discriminate]. }
  destruct (ResilienceFacts.attempts_all_unknown 2 120 e 5 0%nat None h) as
    (added & Hadded & Hback).
  { intros n. exists "AI services not available". split; [apply Hfunc|reflexivity]. }
  destruct (ResilienceFacts.attempts_invocations 2 120 e 5 0%nat None h)
    as (_ & _ & Hraised).
  destruct (ResilienceFacts.attempts_all_fail 2 120 e 5 0%nat None h) as
    (_ & _ & (message & Hmsg) & _); [|exact Hinv|].
  { intros n. exists "AI services not available". split; [apply Hfunc|discriminate]. }
  split; [|split; [reflexivity|split; [|split; [|split]]]].
  - destruct (Hraised message Hmsg) as [[Hl Hs]|[->|(n & _ & Hn)]].
    + exfalso.
      pose proof (ResilienceFacts.attempts_ticks 2 120 e 5 0%nat None h ltac:(lia)) as Hlt.
      rewrite Hs in Hlt. lia.
    + right. exact Hmsg.
    + left. rewrite Hfunc in Hn. rewrite Hmsg. congruence.
  - exists added. split; [exact Hadded|exact Hback].
  - repeat constructor.
  - destruct Hopen as (_ & Hopen); [lia|]. apply Hopen.
    pose proof (CircuitBreakerFacts.inv_count _ Hinv). lia.
  - rewrite Hcount. reflexivity.
Qed.

Lemma unavailable_ai_costs_five_turns_witness :
  is_service_available "ai_project" ai_down = false /\
  fst (enhanced_ai_generate ai_down (fun _ => ai_answers) (fun n => seconds (Z.of_nat n))
         (fun _ => 0%Q) (RateLimitHandler.init 0))
  = Raises "AI services not available" /\
  CircuitBreaker.state
    (RateLimitHandler.circuit_breaker
       (snd (enhanced_ai_generate ai_down (fun _ => ai_answers)
               (fun n => seconds (Z.of_nat n)) (fun _ => 0%Q) (RateLimitHandler.init 0))))
  = CircuitBreaker.OPEN.
Proof.
  split; [reflexivity|]. split; [reflexivity|].
  refine (proj1 (proj2 (proj2 (proj2 (proj2
    (unavailable_ai_costs_five_turns ai_down (fun _ => ai_answers)
       (fun n => seconds (Z.of_nat n)) (fun _ => 0%Q) (RateLimitHandler.init 0) _ _)))))).
  - left. reflexivity.
  - apply CircuitBreakerFacts.breaker_reachable_init.
Defined.

End ServicesFacts.

Module QueueFacts.
Import Py InvoiceQueue InvoiceQueueFacts.

(** *** The order of the queue *)

(** [a] is served before [b]. *)
Definition by_priority (a b : Z * string) : Prop := fst b <= fst a.

Lemma item_ltb_priority a b :
  (item_ltb a b = true -> fst a <= fst b) /\ (item_ltb a b = false -> fst b <= fst a).
Proof.
  unfold item_ltb. split; intros H.
  - apply orb_true_iff in H. destruct H as [H|H].
    + apply Z.ltb_lt in H. lia.
    + apply andb_true_iff in H. destruct H as [H _]. apply Z.eqb_eq in H. lia.
  - apply orb_false_iff in H. destruct H as [H _]. apply Z.ltb_ge in H. exact H.
Qed.

Lemma insert_desc_perm x l : Permutation (insert_desc x l) (x :: l).
Proof.
  induction l as [|y l IH]; simpl; [reflexivity|].
  destruct (item_ltb x y); [|reflexivity].
  rewrite IH. apply perm_swap.
Qed.

Lemma sort_desc_perm l : Permutation (sort_desc l) l.
Proof.
  induction l as [|x l IH]; simpl; [reflexivity|].
  rewrite insert_desc_perm. now constructor.
Qed.

Lemma insert_desc_sorted x l :
  StronglySorted by_priority l -> StronglySorted by_priority (insert_desc x l).
Proof.
  induction 1 as [|y l Hl IH Hy]; simpl; [repeat constructor|].
  destruct (item_ltb x y) eqn:E.
  - constructor; [exact IH|].
    apply List.Forall_forall. intros z Hz.
    apply in_insert_desc in Hz. destruct Hz as [->|Hz].
    + unfold by_priority. apply (proj1 (item_ltb_priority x y)). exact E.
    + rewrite List.Forall_forall in Hy. now apply Hy.
  - constructor; [now constructor|].
    assert (Hxy : by_priority x y).
    { unfold by_priority. apply (proj2 (item_ltb_priority x y)). exact E. }
    constructor; [exact Hxy|].
    apply List.Forall_forall. intros z Hz. rewrite List.Forall_forall in Hy.
    specialize (Hy z Hz). unfold by_priority in *. lia.
Qed.

Lemma sort_desc_sorted l : StronglySorted by_priority (sort_desc l).
Proof.
  induction l as [|x l IH]; simpl; [constructor|]. now apply insert_desc_sorted.
Qed.

Lemma push_sorted item q :
  StronglySorted by_priority (queue q) -> StronglySorted by_priority (push item q).
Proof.
  intros H. unfold push.
  destruct (redis_client q); [destruct (existsb _ _); [exact H|]|]; apply sort_desc_sorted.
Qed.

(** An item of a job that has none in the queue is added to it. *)
Lemma push_perm item q :
  (forall other, In other (queue q) -> snd other <> snd item) ->
  Permutation (push item q) (item :: queue q).
Proof.
  intros Hnew. unfold push.
  assert (Hs : Permutation (sort_desc (queue q ++ [item])) (item :: queue q)).
  { rewrite sort_desc_perm. rewrite Permutation_app_comm. reflexivity. }
  destruct (redis_client q); [|exact Hs].
  destruct (existsb _ (queue q)) eqn:E; [|exact Hs].
  apply existsb_exists in E. destruct E as (other & Hin & Heq).
  apply andb_true_iff in Heq. destruct Heq as [_ Hid]. apply String.eqb_eq in Hid.
  exfalso. now apply (Hnew other Hin).
Qed.

Lemma push_ext item q q' :
  redis_client q' = redis_client q -> queue q' = queue q -> push item q' = push item q.
Proof. unfold push. now intros -> ->. Qed.

Lemma filter_sorted (f : Z * string -> bool) l :
  StronglySorted by_priority l -> StronglySorted by_priority (List.filter f l).
Proof.
  induction 1 as [|y l Hl IH Hy]; simpl; [constructor|].
  destruct (f y); [|exact IH]. constructor; [exact IH|].
  rewrite List.Forall_forall in *. intros z Hz. apply filter_In in Hz. apply Hy, Hz.
Qed.

(** With one item for a job at most, taking the first item of the job
    away is taking all of them away, from either end. *)
Lemma remove_first_filter id l :
  List.NoDup (map snd l) ->
  remove_first id l = List.filter (fun item => negb (String.eqb (snd item) id)) l.
Proof.
  induction l as [|x l IH]; simpl; [reflexivity|]. intros Hnd.
  apply List.NoDup_cons_iff in Hnd. destruct Hnd as [Hx Hnd].
  destruct (String.eqb (snd x) id) eqn:E; simpl.
  - apply String.eqb_eq in E. subst id. clear IH.
    induction l as [|y l IH]; simpl; [reflexivity|].
    simpl in Hx. destruct (String.eqb (snd y) (snd x)) eqn:Ey; simpl.
    + apply String.eqb_eq in Ey. exfalso. apply Hx. now left.
    + f_equal. apply IH.
      * intros H. apply Hx. now right.
      * simpl in Hnd. apply List.NoDup_cons_iff in Hnd. apply Hnd.
  - f_equal. now apply IH.
Qed.

Lemma cancel_queue_filter id l :
  List.NoDup (map snd l) ->
  rev (remove_first id (rev l))
  = List.filter (fun item => negb (String.eqb (snd item) id)) l.
Proof.
  intros Hnd. rewrite remove_first_filter.
  - rewrite filter_rev. apply rev_involutive.
  - rewrite map_rev. apply List.NoDup_rev. exact Hnd.
Qed.

(** *** What the operations do to a job *)

(** [q] is [q0] but for the job [id], which is there with the identity
    and the retry budget of [job]. *)
Definition holds (id : string) (job : InvoiceJob) (q0 q : t) : Prop :=
  redis_client q = redis_client q0 /\ queue q = queue q0 /\
  (forall id', id' <> id -> jobs q !! id' = jobs q0 !! id') /\
  exists job', get_job_status id q = Some job' /\ job_id job' = job_id job /\
               retry_count job' = retry_count job /\ max_retries job' = max_retries job.

Lemma holds_refl id job q : get_job_status id q = Some job -> holds id job q q.
Proof. intros H. repeat split; auto. exists job. auto. Qed.

Lemma holds_update now id st p r e job q0 q :
  holds id job q0 q ->
  holds id job q0 (update_job_status now id st p r e q) /\
  status_of id (update_job_status now id st p r e q) = Some st.
Proof.
  intros (Hr & Hq & Hj & job' & Hjob & H1 & H2 & H3).
  unfold update_job_status. rewrite Hjob. unfold holds, status_of, get_job_status.
  cbn [notify redis_client queue jobs]. rewrite lookup_insert_eq. cbn.
  repeat split; auto.
  - intros id' Hne. rewrite lookup_insert_ne by congruence. now apply Hj.
  - eexists. split; [reflexivity|]. cbn. auto.
Qed.

(** The [except] block: the job fails for good, or waits again with one
    more item in the queue. *)
Lemma holds_on_failure now id message job q0 q :
  holds id job q0 q ->
  let q' := on_failure now id message q in
  redis_client q' = redis_client q0 /\
  (forall id', id' <> id -> jobs q' !! id' = jobs q0 !! id') /\
  exists job', get_job_status id q' = Some job' /\ job_id job' = job_id job /\
    max_retries job' = max_retries job /\
    (status job' = FAILED /\ max_retries job <= retry_count job /\
     retry_count job' = retry_count job /\ queue q' = queue q0
     \/
     status job' = QUEUED /\ retry_count job < max_retries job /\
     retry_count job <= retry_count job' <= retry_count job + 1 /\
     queue q' = push (- (retry_count job + 1), id) q0).
Proof.
  intros H. pose proof H as (Hr & Hq & Hj & job' & Hjob & H1 & H2 & H3). cbv zeta.
  unfold on_failure. rewrite Hjob. rewrite H2, H3.
  destruct (retry_count job <? max_retries job) eqn:E.
  - apply Z.ltb_lt in E. unfold bump_retry_count. cbv zeta.
    set (bumped := mk_job _ _ _ _ _ _ _ _ _ _ _).
    set (q1 := if redis_client q then q else _).
    assert (Hq1 : redis_client q1 = redis_client q0 /\ queue q1 = queue q0 /\
                  (forall id', id' <> id -> jobs q1 !! id' = jobs q0 !! id') /\
                  exists job1, get_job_status id q1 = Some job1 /\
                    job_id job1 = job_id job /\ max_retries job1 = max_retries job /\
                    retry_count job <= retry_count job1 <= retry_count job + 1).
    { subst q1. destruct (redis_client q) eqn:Er.
      - split; [congruence|]. split; [exact Hq|]. split; [exact Hj|].
        exists job'. split; [exact Hjob|]. split; [exact H1|]. split; [exact H3|]. lia.
      - cbn [redis_client queue jobs]. split; [congruence|]. split; [exact Hq|]. split.
        + intros id' Hne. rewrite lookup_insert_ne by congruence. now apply Hj.
        + exists bumped. unfold get_job_status. cbn [jobs]. rewrite lookup_insert_eq.
          subst bumped. cbn [job_id max_retries retry_count].
          split; [reflexivity|]. split; [exact H1|]. split; [exact H3|]. lia. }
    destruct Hq1 as (Hr1 & Hqq1 & Hj1 & job1 & Hjob1 & Ha & Hb & Hc).
    destruct (holds_update now id QUEUED None None None job1 q1 q1
                (holds_refl id job1 q1 Hjob1))
      as ((Hr2 & Hq2 & Hj2 & job2 & Hjob2 & Ha2 & Hb2 & Hc2) & Hst).
    set (q2 := update_job_status now id QUEUED None None None q1) in *.
    cbn [redis_client jobs queue get_job_status].
    split; [congruence|]. split.
    { intros id' Hne. rewrite Hj2 by exact Hne. now apply Hj1. }
    exists job2. split; [exact Hjob2|]. split; [congruence|]. split; [congruence|].
    right. unfold status_of in Hst. rewrite Hjob2 in Hst. cbn in Hst.
    split; [congruence|]. split; [exact E|]. split; [lia|].
    subst bumped. cbn [retry_count]. rewrite H2.
    apply push_ext; congruence.
  - apply Z.ltb_ge in E.
    destruct (holds_update now id FAILED None None (Some message) job q0 q H)
      as ((Hr2 & Hq2 & Hj2 & job2 & Hjob2 & Ha2 & Hb2 & Hc2) & Hst).
    split; [exact Hr2|]. split; [exact Hj2|].
    exists job2. split; [exact Hjob2|]. split; [exact Ha2|]. split; [exact Hc2|].
    left. unfold status_of in Hst. rewrite Hjob2 in Hst. cbn in Hst.
    split; [congruence|]. auto.
Qed.

(** [_process_job] ends the job, completed or failed, or puts it back
    into the queue. *)
Lemma process_job_outcome started finished id generated saved q job :
  get_job_status id q = Some job ->
  let q' := _process_job started finished id generated saved q in
  redis_client q' = redis_client q /\
  (forall id', id' <> id -> jobs q' !! id' = jobs q !! id') /\
  exists job', get_job_status id q' = Some job' /\ job_id job' = job_id job /\
    max_retries job' = max_retries job /\
    ((status job' = COMPLETED \/ status job' = FAILED) /\
     retry_count job' = retry_count job /\ queue q' = queue q
     \/
     status job' = QUEUED /\ retry_count job < max_retries job /\
     retry_count job <= retry_count job' <= retry_count job + 1 /\
     queue q' = push (- (retry_count job + 1), id) q).
Proof.
  intros Hjob. cbv zeta. unfold _process_job. rewrite Hjob.
  pose proof (holds_refl id job q Hjob) as H0.
  destruct (holds_update started id PROCESSING (Some 0%Q) None None job q q H0) as [H1 _].
  set (q1 := update_job_status started id PROCESSING (Some 0%Q) None None q) in *.
  destruct (holds_update started id PROCESSING (Some (2 # 10)) None None job q q1 H1)
    as [H2 _].
  set (q2 := update_job_status started id PROCESSING (Some (2 # 10)) None None q1) in *.
  assert (Hfail : forall message q3, holds id job q q3 ->
    redis_client (on_failure finished id message q3) = redis_client q /\
    (forall id', id' <> id -> jobs (on_failure finished id message q3) !! id' = jobs q !! id') /\
    exists job', get_job_status id (on_failure finished id message q3) = Some job' /\
      job_id job' = job_id job /\ max_retries job' = max_retries job /\
      ((status job' = COMPLETED \/ status job' = FAILED) /\
       retry_count job' = retry_count job /\
       queue (on_failure finished id message q3) = queue q
       \/
       status job' = QUEUED /\ retry_count job < max_retries job /\
       retry_count job <= retry_count job' <= retry_count job + 1 /\
       queue (on_failure finished id message q3) = push (- (retry_count job + 1), id) q)).
  { intros message q3 H3.
    destruct (holds_on_failure finished id message job q q3 H3)
      as (Hr & Hj & job' & Hj' & Ha & Hb & Hc).
    split; [exact Hr|]. split; [exact Hj|]. exists job'.
    split; [exact Hj'|]. split; [exact Ha|]. split; [exact Hb|].
    destruct Hc as [(Hs & _ & Hrc & Hqq)|Hc]; [left; auto|right; exact Hc]. }
  destruct generated as [response|message]; [|now apply Hfail].
  destruct (holds_update finished id PROCESSING (Some (6 # 10)) None None job q q2 H2)
    as [H3 _].
  set (q3 := update_job_status finished id PROCESSING (Some (6 # 10)) None None q2) in *.
  destruct (reports_success response) as [[|]|]; [|now apply Hfail|now apply Hfail].
  destruct saved as [[invoice_data storage_result]|message]; [|now apply Hfail].
  destruct (holds_update finished id PROCESSING (Some (9 # 10)) None None job q q3 H3)
    as [H4 _].
  set (q4 := update_job_status finished id PROCESSING (Some (9 # 10)) None None q3) in *.
  match goal with
  | |- context [update_job_status finished id COMPLETED ?p ?r ?e q4] =>
      destruct (holds_update finished id COMPLETED p r e job q q4 H4)
        as ((Hr & Hq & Hj & job' & Hj' & Ha & Hb & Hc) & Hst)
  end.
  split; [exact Hr|]. split; [exact Hj|]. exists job'.
  split; [exact Hj'|]. split; [exact Ha|]. split; [exact Hc|]. left.
  unfold status_of in Hst. rewrite Hj' in Hst. cbn in Hst.
  split; [left; congruence|]. auto.
Qed.

(** *** What holds of a queue and its pool, whatever was done *)

Record queue_inv (s : system) : Prop := mk_queue_inv {
  inv_once : List.NoDup (map snd (queue (invoice_queue s)) ++ submitted s);
  inv_queued : forall item, In item (queue (invoice_queue s)) ->
    status_of (snd item) (invoice_queue s) = Some QUEUED;
  inv_submitted : forall id, In id (submitted s) ->
    status_of id (invoice_queue s) = Some QUEUED \/
    status_of id (invoice_queue s) = Some CANCELLED;
  inv_waiting : forall id, status_of id (invoice_queue s) = Some QUEUED ->
    In id (map snd (queue (invoice_queue s))) \/ In id (submitted s);
  inv_sorted : StronglySorted by_priority (queue (invoice_queue s));
  inv_jobs : forall id job, jobs (invoice_queue s) !! id = Some job ->
    job_id job = id /\ 0 <= retry_count job <= max_retries job /\ max_retries job = 3 /\
    id <> ""
}.

Lemma queue_inv_start redis : queue_inv {| invoice_queue := init redis; submitted := [] |}.
Proof.
  split; cbn.
  - constructor.
  - intros item [].
  - intros id [].
  - unfold status_of, get_job_status. cbn. intros id H. rewrite lookup_empty in H.
    discriminate H.
  - constructor.
  - intros id job H. rewrite lookup_empty in H. discriminate H.
Qed.

Lemma in_ids item (l : list (Z * string)) : In item l -> In (snd item) (map snd l).
Proof. apply in_map. Qed.

Lemma in_ids_inv id (l : list (Z * string)) :
  In id (map snd l) -> exists item, In item l /\ snd item = id.
Proof. intros H. apply in_map_iff in H. destruct H as (item & <- & Hin). eauto. Qed.

Lemma queue_inv_enqueue s now new_id details priority :
  queue_inv s -> new_id <> "" -> jobs (invoice_queue s) !! new_id = None ->
  queue_inv (step s (EnqueueInvoice now new_id details priority)).
Proof.
  intros [Honce Hqueued Hsub Hwait Hsorted Hjobs] Hname Hfresh.
  destruct s as [q sub]. cbn in *.
  assert (Hnone : status_of new_id q = None).
  { unfold status_of, get_job_status. now rewrite Hfresh. }
  assert (Hnq : forall other, In other (queue q) -> snd other <> new_id).
  { intros other Hin Heq. specialize (Hqueued other Hin). rewrite Heq in Hqueued.
    congruence. }
  assert (Hns : ~ In new_id sub).
  { intros Hin. destruct (Hsub new_id Hin); congruence. }
  pose proof (push_perm (priority, new_id) q Hnq) as Hperm.
  assert (Hother : forall id, id <> new_id ->
            status_of id
              (notify (mk_job new_id details QUEUED now None None None None 0 0 3)
                 {| redis_client := redis_client q;
                    jobs := <[new_id := mk_job new_id details QUEUED now None None None None 0 0 3]>
                              (jobs q);
                    queue := push (priority, new_id) q;
                    notified := notified q |})
            = status_of id q).
  { intros id Hne. unfold status_of, get_job_status. cbn.
    now rewrite lookup_insert_ne by congruence. }
  assert (Hnew : status_of new_id
              (notify (mk_job new_id details QUEUED now None None None None 0 0 3)
                 {| redis_client := redis_client q;
                    jobs := <[new_id := mk_job new_id details QUEUED now None None None None 0 0 3]>
                              (jobs q);
                    queue := push (priority, new_id) q;
                    notified := notified q |})
            = Some QUEUED).
  { unfold status_of, get_job_status. cbn. now rewrite lookup_insert_eq. }
  split; cbn [invoice_queue submitted step enqueue_invoice snd].
  - cbn [notify queue].
    apply (Permutation.Permutation_NoDup (l := new_id :: map snd (queue q) ++ sub)).
    + symmetry. change (new_id :: map snd (queue q) ++ sub)
        with (map snd ((priority, new_id) :: queue q) ++ sub).
      apply Permutation_app_tail, Permutation_map, Hperm.
    + constructor; [|exact Honce].
      intros Hin. apply in_app_or in Hin. destruct Hin as [Hin|Hin]; [|now apply Hns].
      apply in_ids_inv in Hin. destruct Hin as (item & Hin & Heq).
      now apply (Hnq item Hin).
  - intros item Hin. cbn [notify queue] in Hin. apply in_push_inv in Hin.
    destruct Hin as [->|Hin]; [exact Hnew|].
    rewrite Hother by (now apply Hnq). now apply Hqueued.
  - intros id Hin. rewrite Hother by (intros ->; now apply Hns). now apply Hsub.
  - intros id Hst. cbn [notify queue].
    destruct (String.eqb id new_id) eqn:E.
    + apply String.eqb_eq in E. subst id. left.
      apply (in_ids (priority, new_id)), in_push.
    + apply String.eqb_neq in E. rewrite Hother in Hst by exact E.
      destruct (Hwait id Hst) as [Hin|Hin]; [left|now right].
      apply in_ids_inv in Hin. destruct Hin as (item & Hin & <-).
      apply in_ids. apply (Permutation_in _ (Permutation_sym Hperm)). now right.
  - cbn [notify queue]. now apply push_sorted.
  - intros id job. cbn [notify jobs]. intros Hjob.
    destruct (String.eqb id new_id) eqn:E.
    + apply String.eqb_eq in E. subst id. rewrite lookup_insert_eq in Hjob.
      injection Hjob as <-. cbn. repeat split; try lia. exact Hname.
    + apply String.eqb_neq in E. rewrite lookup_insert_ne in Hjob by congruence.
      now apply Hjobs.
Qed.

Lemma queue_inv_worker_loop s : queue_inv s -> queue_inv (step s WorkerLoop).
Proof.
  intros [Honce Hqueued Hsub Hwait Hsorted Hjobs].
  destruct s as [q sub]. cbn in *. unfold _worker_loop, _get_next_job. cbn.
  destruct (queue q) as [|[p id] rest] eqn:Eq; cbn in *.
  - split; cbn; rewrite ?Eq; auto.
  - assert (Hname : String.eqb id "" = false).
    { apply String.eqb_neq. specialize (Hqueued (p, id) (or_introl eq_refl)).
      unfold status_of, get_job_status in Hqueued. cbn in Hqueued.
      destruct (jobs q !! id) as [job|] eqn:Hjob; [|discriminate Hqueued].
      apply (Hjobs id job Hjob). }
    rewrite Hname.
    assert (Hst : forall id', status_of id'
                    {| redis_client := redis_client q; jobs := jobs q; queue := rest;
                       notified := notified q |} = status_of id' q) by reflexivity.
    split; cbn.
    + apply (Permutation.Permutation_NoDup (l := id :: map snd rest ++ sub));
        [|exact Honce].
      rewrite app_assoc. apply Permutation_cons_append.
    + intros item Hin. rewrite Hst. apply Hqueued. now right.
    + intros id' Hin. rewrite Hst. apply in_app_or in Hin.
      destruct Hin as [Hin|[<-|[]]]; [now apply Hsub|].
      left. apply (Hqueued (p, id)). now left.
    + intros id' H. rewrite Hst in H. destruct (Hwait id' H) as [[<-|Hin]|Hin].
      * right. apply in_or_app. right. now left.
      * now left.
      * right. apply in_or_app. now left.
    + now inversion Hsorted.
    + exact Hjobs.
Qed.

Lemma nodup_app_disjoint {A} (l1 l2 : list A) x :
  List.NoDup (l1 ++ l2) -> In x l1 -> In x l2 -> False.
Proof.
  induction l1 as [|y l1 IH]; simpl; intros Hnd H1 H2; [exact H1|].
  apply List.NoDup_cons_iff in Hnd. destruct Hnd as [Hy Hnd].
  destruct H1 as [->|H1]; [|now apply IH].
  apply Hy, in_or_app. now right.
Qed.

Lemma remove_submitted_perm id l :
  In id l -> Permutation l (id :: remove_submitted id l).
Proof.
  induction l as [|x l IH]; simpl; [intros []|]. intros H.
  destruct (String.eqb x id) eqn:E.
  - apply String.eqb_eq in E. now subst x.
  - apply String.eqb_neq in E. destruct H as [H|H]; [congruence|].
    rewrite (IH H) at 1. apply perm_swap.
Qed.

Lemma nodup_filter_ids (f : Z * string -> bool) (l : list (Z * string)) (r : list string) :
  List.NoDup (map snd l ++ r) -> List.NoDup (map snd (List.filter f l) ++ r).
Proof.
  induction l as [|x l IH]; simpl; [auto|]. intros Hnd.
  apply List.NoDup_cons_iff in Hnd. destruct Hnd as [Hx Hnd].
  destruct (f x); [|now apply IH]. simpl. constructor; [|now apply IH].
  intros Hin. apply Hx. apply in_app_or in Hin. apply in_or_app.
  destruct Hin as [Hin|Hin]; [left|now right].
  apply in_map_iff in Hin. destruct Hin as (y & Hy & Hin). apply filter_In in Hin.
  apply in_map_iff. exists y. tauto.
Qed.

Lemma status_of_other id' q q' :
  jobs q' !! id' = jobs q !! id' -> status_of id' q' = status_of id' q.
Proof. unfold status_of, get_job_status. now intros ->. Qed.

Lemma queue_inv_process s started finished id generated saved :
  queue_inv s -> In id (submitted s) ->
  queue_inv (step s (ProcessJob started finished id generated saved)).
Proof.
  intros [Honce Hqueued Hsub Hwait Hsorted Hjobs] Hin.
  destruct s as [q sub]. cbn in *.
  assert (Hjob : exists job, get_job_status id q = Some job).
  { destruct (Hsub id Hin) as [H|H]; unfold status_of in H;
      destruct (get_job_status id q) as [job|]; try discriminate H; eauto. }
  destruct Hjob as [job Hjob].
  destruct (process_job_outcome started finished id generated saved q job Hjob)
    as (Hr & Hj & job' & Hjob' & Hid & Hmax & Hcases).
  set (q' := _process_job started finished id generated saved q) in *.
  destruct (Hjobs id job Hjob) as (Hkey & Hrc & Hthree & Hname).
  assert (Hnq : forall other, In other (queue q) -> snd other <> id).
  { intros other Ho Heq. apply (nodup_app_disjoint _ _ id Honce); [|exact Hin].
    rewrite <- Heq. now apply in_ids. }
  pose proof (remove_submitted_perm id sub Hin) as Hperm.
  assert (Hnd : List.NoDup (id :: map snd (queue q) ++ remove_submitted id sub)).
  { apply (Permutation.Permutation_NoDup (l := map snd (queue q) ++ sub)); [|exact Honce].
    rewrite Hperm at 1. symmetry. apply Permutation_middle. }
  assert (Hrest : forall id', In id' (remove_submitted id sub) -> In id' sub /\ id' <> id).
  { intros id' H. split.
    - apply (Permutation_in _ (Permutation_sym Hperm)). now right.
    - intros ->. apply List.NoDup_cons_iff in Hnd. apply (proj1 Hnd).
      apply in_or_app. now right. }
  assert (Hst : forall id', id' <> id -> status_of id' q' = status_of id' q).
  { intros id' Hne. apply status_of_other. now apply Hj. }
  assert (Hst' : status_of id q' = Some (status job')).
  { unfold status_of. now rewrite Hjob'. }
  assert (Hjobs' : forall id0 job0, jobs q' !! id0 = Some job0 ->
            job_id job0 = id0 /\ 0 <= retry_count job0 <= max_retries job0 /\
            max_retries job0 = 3 /\ id0 <> "").
  { intros id0 job0 H0. destruct (String.eqb id0 id) eqn:E.
    - apply String.eqb_eq in E. subst id0. unfold get_job_status in Hjob'.
      rewrite Hjob' in H0. injection H0 as <-.
      split; [congruence|]. split; [|split; [congruence|exact Hname]].
      destruct Hcases as [(_ & Hc & _)|(_ & Hlt & Hc & _)]; lia.
    - apply String.eqb_neq in E. rewrite Hj in H0 by exact E. now apply Hjobs. }
  destruct Hcases as [(Hend & _ & Hqueue)|(Hagain & _ & _ & Hqueue)].
  - split; cbn; rewrite ?Hqueue.
    + apply List.NoDup_cons_iff in Hnd. apply Hnd.
    + intros item Hi. rewrite Hst by (now apply Hnq). now apply Hqueued.
    + intros id' Hi. destruct (Hrest id' Hi) as [Hi' Hne].
      rewrite Hst by exact Hne. now apply Hsub.
    + intros id' H. destruct (String.eqb id' id) eqn:E.
      * apply String.eqb_eq in E. subst id'. rewrite Hst' in H.
        destruct Hend as [He|He]; rewrite He in H; discriminate H.
      * apply String.eqb_neq in E. rewrite Hst in H by exact E.
        destruct (Hwait id' H) as [Hw|Hw]; [now left|right].
        apply (Permutation_in _ Hperm) in Hw. destruct Hw as [Hw|Hw]; [congruence|exact Hw].
    + exact Hsorted.
    + exact Hjobs'.
  - pose proof (push_perm (- (retry_count job + 1), id) q Hnq) as Hpush.
    split; cbn; rewrite ?Hqueue.
    + apply (Permutation.Permutation_NoDup
               (l := id :: map snd (queue q) ++ remove_submitted id sub)); [|exact Hnd].
      symmetry.
      change (id :: map snd (queue q) ++ remove_submitted id sub)
        with (map snd ((- (retry_count job + 1), id) :: queue q)
              ++ remove_submitted id sub).
      apply Permutation_app_tail, Permutation_map, Hpush.
    + intros item Hi. apply in_push_inv in Hi. destruct Hi as [->|Hi].
      * cbn. rewrite Hst'. now rewrite Hagain.
      * rewrite Hst by (now apply Hnq). now apply Hqueued.
    + intros id' Hi. destruct (Hrest id' Hi) as [Hi' Hne].
      rewrite Hst by exact Hne. now apply Hsub.
    + intros id' H. destruct (String.eqb id' id) eqn:E.
      * apply String.eqb_eq in E. subst id'. left.
        apply (in_ids (- (retry_count job + 1), id)), in_push.
      * apply String.eqb_neq in E. rewrite Hst in H by exact E.
        destruct (Hwait id' H) as [Hw|Hw].
        -- left. apply in_ids_inv in Hw. destruct Hw as (item & Hw & <-).
           apply in_ids. apply (Permutation_in _ (Permutation_sym Hpush)). now right.
        -- right. apply (Permutation_in _ Hperm) in Hw.
           destruct Hw as [Hw|Hw]; [congruence|exact Hw].
    + now apply push_sorted.
    + exact Hjobs'.
Qed.

(** What [cancel_job] does to a job that waits. *)
Lemma cancel_job_queued now id q job :
  List.NoDup (map snd (queue q)) ->
  get_job_status id q = Some job -> status job = QUEUED ->
  let q' := snd (cancel_job now id q) in
  fst (cancel_job now id q) = true /\
  redis_client q' = redis_client q /\
  queue q' = List.filter (fun item => negb (String.eqb (snd item) id)) (queue q) /\
  (forall id', id' <> id -> jobs q' !! id' = jobs q !! id') /\
  exists job', get_job_status id q' = Some job' /\ status job' = CANCELLED /\
    job_id job' = job_id job /\ retry_count job' = retry_count job /\
    max_retries job' = max_retries job.
Proof.
  intros Hnd Hjob Hq. cbv zeta. unfold cancel_job. rewrite Hjob, Hq. cbn [JobStatus_eqb].
  destruct (holds_update now id CANCELLED None None None job q q (holds_refl id job q Hjob))
    as ((Hr & Hqq & Hj & job' & Hjob' & Ha & Hb & Hc) & Hst).
  set (q1 := update_job_status now id CANCELLED None None None q) in *.
  cbn [fst snd redis_client queue jobs get_job_status].
  split; [reflexivity|]. split; [exact Hr|]. split.
  - rewrite Hqq. destruct (redis_client q1); [|reflexivity].
    now apply cancel_queue_filter.
  - split; [exact Hj|]. exists job'. split; [exact Hjob'|].
    unfold status_of in Hst. rewrite Hjob' in Hst. cbn in Hst.
    split; [congruence|]. auto.
Qed.

Lemma queue_inv_cancel s now id : queue_inv s -> queue_inv (step s (CancelJob now id)).
Proof.
  intros Hinv. pose proof Hinv as [Honce Hqueued Hsub Hwait Hsorted Hjobs].
  destruct s as [q sub]. cbn in *.
  destruct (get_job_status id q) as [job|] eqn:Hjob;
    [|unfold cancel_job; rewrite Hjob; exact Hinv].
  destruct (JobStatus_eqb (status job) QUEUED) eqn:Es;
    [|unfold cancel_job; rewrite Hjob, Es; exact Hinv].
  assert (Hq : status job = QUEUED) by (destruct (status job); try discriminate; reflexivity).
  assert (Hnd : List.NoDup (map snd (queue q))) by (eapply NoDup_app_remove_r; exact Honce).
  destruct (cancel_job_queued now id q job Hnd Hjob Hq)
    as (_ & Hr & Hqueue & Hj & job' & Hjob' & Hst' & Ha & Hb & Hc).
  set (q' := snd (cancel_job now id q)) in *.
  assert (Hst : forall id', id' <> id -> status_of id' q' = status_of id' q).
  { intros id' Hne. apply status_of_other. now apply Hj. }
  assert (Hcancelled : status_of id q' = Some CANCELLED).
  { unfold status_of. rewrite Hjob'. cbn. now rewrite Hst'. }
  split; cbn; rewrite ?Hqueue.
  - now apply nodup_filter_ids.
  - intros item Hi. apply filter_In in Hi. destruct Hi as [Hi Hne].
    apply negb_true_iff, String.eqb_neq in Hne.
    rewrite Hst by exact Hne. now apply Hqueued.
  - intros id' Hi. destruct (String.eqb id' id) eqn:E.
    + apply String.eqb_eq in E. subst id'. now right.
    + apply String.eqb_neq in E. rewrite Hst by exact E. now apply Hsub.
  - intros id' H. destruct (String.eqb id' id) eqn:E.
    + apply String.eqb_eq in E. subst id'. congruence.
    + rewrite Hst in H by (now apply String.eqb_neq).
      destruct (Hwait id' H) as [Hw|Hw]; [left|now right].
      apply in_ids_inv in Hw. destruct Hw as (item & Hw & <-).
      apply in_ids. apply filter_In. split; [exact Hw|]. now rewrite E.
  - now apply filter_sorted.
  - intros id0 job0 H0. destruct (String.eqb id0 id) eqn:E.
    + apply String.eqb_eq in E. subst id0. unfold get_job_status in Hjob'.
      rewrite Hjob' in H0. injection H0 as <-.
      destruct (Hjobs id job Hjob) as (H1 & H2 & H3 & H4).
      split; [congruence|]. split; [lia|]. split; [congruence|exact H4].
    + apply String.eqb_neq in E. rewrite Hj in H0 by exact E. now apply Hjobs.
Qed.

Lemma reachable_queue_inv s : reachable s -> queue_inv s.
Proof.
  induction 1 as [redis|s c Hs IH Hc]; [apply queue_inv_start|].
  destruct c as [now new_id details priority| |started finished id generated saved|now id].
  - destruct Hc as [Hname Hfresh]. now apply queue_inv_enqueue.
  - now apply queue_inv_worker_loop.
  - now apply queue_inv_process.
  - now apply queue_inv_cancel.
Qed.

(** *** Jobs that wait, jobs that are done *)

(** A call that is possible on a given queue. *)
Ltac possible_call :=
  first [ exact I | split; [discriminate|reflexivity] | left; reflexivity ].

(** A queue with one job waiting and one job taken by the worker. *)
Definition two_jobs : system :=
  step (step (step {| invoice_queue := init false; submitted := [] |}
                (EnqueueInvoice 0 "job-1" order 0))
             WorkerLoop)
       (EnqueueInvoice 1 "job-2" order 5).

Lemma two_jobs_reachable : reachable two_jobs.
Proof.
  unfold two_jobs. repeat (apply reachable_next; [|possible_call]).
  apply reachable_start.
Qed.

(** X18.  In every state of a queue and its worker pool, reached by
    enqueueing with fresh ids, turns of the worker loop, runs of submitted
    [_process_job] calls and cancellations, on Redis or in memory: no job
    waits twice (the ids in the queue and with the pool are all
    different); every item of the queue is for a stored job of status
    queued; a job with the pool is queued or cancelled; every queued job
    is in the queue or with the pool, so none is lost; [_get_next_job]
    hands out a queued job of the highest priority in the queue and leaves
    no other item for it; and every stored job has its id, three retries
    allowed and a retry count between 0 and 3. *)
Theorem waiting_jobs_are_served_once (s : system) (Hs : reachable s) :
  let q := invoice_queue s in
  List.NoDup (map snd (queue q) ++ submitted s) /\
  (forall item, In item (queue q) -> status_of (snd item) q = Some QUEUED) /\
  (forall id, In id (submitted s) ->
     status_of id q = Some QUEUED \/ status_of id q = Some CANCELLED) /\
  (forall id, status_of id q = Some QUEUED ->
     In id (map snd (queue q)) \/ In id (submitted s)) /\
  (forall id q1, _get_next_job q = (Some id, q1) ->
     status_of id q = Some QUEUED /\
     exists priority,
       queue q = (priority, id) :: queue q1 /\
       forall item, In item (queue q1) -> fst item <= priority /\ snd item <> id) /\
  (forall id job, get_job_status id q = Some job ->
     job_id job = id /\ 0 <= retry_count job <= max_retries job /\ max_retries job = 3).
Proof.
  cbv zeta. destruct (reachable_queue_inv s Hs) as [Honce Hqueued Hsub Hwait Hsorted Hjobs].
  split; [exact Honce|]. split; [exact Hqueued|]. split; [exact Hsub|].
  split; [exact Hwait|]. split.
  2:{ intros id job Hjob. destruct (Hjobs id job Hjob) as (H1 & H2 & H3 & _). auto. }
  intros id q1. unfold _get_next_job.
  destruct (queue (invoice_queue s)) as [|[p id'] rest] eqn:Eq; [discriminate|].
  intros [= <- <-]. cbn [queue]. split.
  - apply (Hqueued (p, id')). now left.
  - exists p. split; [reflexivity|]. intros item Hin. split.
    + apply StronglySorted_inv in Hsorted. destruct Hsorted as [_ Hall].
      rewrite List.Forall_forall in Hall. now apply Hall.
    + intros Heq. cbn [map snd] in Honce. apply List.NoDup_cons_iff in Honce.
      apply (proj1 Honce). apply in_or_app. left. rewrite <- Heq. now apply in_ids.
Qed.

Lemma waiting_jobs_are_served_once_witness :
  fst (_get_next_job (invoice_queue two_jobs)) = Some "job-2" /\
  status_of "job-2" (invoice_queue two_jobs) = Some QUEUED.
Proof.
  split; [reflexivity|].
  destruct (waiting_jobs_are_served_once two_jobs two_jobs_reachable)
    as (_ & _ & _ & _ & Hnext & _).
  cbv zeta in Hnext.
  exact (proj1 (Hnext "job-2" (snd (_get_next_job (invoice_queue two_jobs))) eq_refl)).
Defined.

(** What can be done one after the other. *)
Inductive leads : system -> system -> Prop :=
| leads_here (s : system) : leads s s
| leads_on (s s' : system) (c : call) :
    leads s s' -> possible s' c -> leads s (step s' c).

Lemma leads_reachable s s' : reachable s -> leads s s' -> reachable s'.
Proof. intros Hs. induction 1; [exact Hs|]. apply reachable_next; auto. Qed.

(** A call leaves a job alone that neither waits nor is with the pool. *)
Lemma step_keeps_done_job s c id job :
  queue_inv s -> possible s c ->
  get_job_status id (invoice_queue s) = Some job ->
  status job <> QUEUED -> status job <> CANCELLED ->
  get_job_status id (invoice_queue (step s c)) = Some job.
Proof.
  intros [Honce Hqueued Hsub Hwait Hsorted Hjobs] Hc Hjob Hnq Hnc.
  destruct s as [q sub]. cbn in *.
  destruct c as [now new_id details priority| |started finished id' generated saved|now id'];
    cbn in *.
  - unfold get_job_status in *. cbn. rewrite lookup_insert_ne; [exact Hjob|].
    destruct Hc as [_ Hc]. intros ->. congruence.
  - unfold _worker_loop, _get_next_job. cbn.
    destruct (queue q) as [|[p id'] rest]; [exact Hjob|].
    destruct (String.eqb id' ""); exact Hjob.
  - assert (Hne : id <> id').
    { intros ->. unfold status_of in Hsub.
      destruct (Hsub id' Hc) as [H|H]; rewrite Hjob in H; cbn in H; congruence. }
    destruct (process_job_touches started finished id' generated saved q) as [Hj _].
    unfold get_job_status in *. now rewrite Hj.
  - destruct (String.eqb id id') eqn:E.
    + apply String.eqb_eq in E. subst id'. unfold cancel_job. rewrite Hjob.
      destruct (status job); try exact Hjob. congruence.
    + apply String.eqb_neq in E. unfold cancel_job.
      destruct (get_job_status id' q) as [job'|]; [|exact Hjob].
      destruct (JobStatus_eqb (status job') QUEUED); [|exact Hjob].
      destruct (update_job_status_touches now id' CANCELLED None None None q) as [Hj _].
      unfold get_job_status in *. cbn. now rewrite Hj.
Qed.

(** X19.  A job that is completed or failed in a reachable state is
    final: whatever is done afterwards, the stored job stays exactly as it
    is, it is neither in the queue nor with the pool, [cancel_job] answers
    [False] for it and changes nothing, and [_get_next_job] never hands it
    out again. *)
Theorem finished_job_is_final (s s' : system) (id : string) (job : InvoiceJob)
    (Hs : reachable s) (Hlater : leads s s')
    (Hjob : get_job_status id (invoice_queue s) = Some job)
    (Hdone : status job = COMPLETED \/ status job = FAILED) :
  get_job_status id (invoice_queue s') = Some job /\
  ~ In id (map snd (queue (invoice_queue s'))) /\ ~ In id (submitted s') /\
  (forall now, cancel_job now id (invoice_queue s') = (false, invoice_queue s')) /\
  (forall q1, _get_next_job (invoice_queue s') <> (Some id, q1)).
Proof.
  assert (Hkept : get_job_status id (invoice_queue s') = Some job).
  { induction Hlater as [|s s' c Hl IH Hc]; [exact Hjob|].
    apply step_keeps_done_job; auto.
    - apply reachable_queue_inv. now apply (leads_reachable s s').
    - destruct Hdone as [-> | ->]; discriminate.
    - destruct Hdone as [-> | ->]; discriminate. }
  pose proof (reachable_queue_inv s' (leads_reachable s s' Hs Hlater))
    as [Honce Hqueued Hsub Hwait Hsorted Hjobs].
  assert (Hst : status_of id (invoice_queue s') = Some (status job)).
  { unfold status_of. now rewrite Hkept. }
  assert (Hout : ~ In id (map snd (queue (invoice_queue s')))).
  { intros Hin. apply in_ids_inv in Hin. destruct Hin as (item & Hin & <-).
    specialize (Hqueued item Hin). rewrite Hst in Hqueued.
    destruct Hdone as [H|H]; rewrite H in Hqueued; discriminate. }
  split; [exact Hkept|]. split; [exact Hout|]. split; [|split].
  - intros Hin. destruct (Hsub id Hin) as [H|H]; rewrite Hst in H;
      destruct Hdone as [H'|H']; rewrite H' in H; discriminate.
  - intros now. unfold cancel_job. rewrite Hkept.
    destruct Hdone as [-> | ->]; reflexivity.
  - intros q1. unfold _get_next_job.
    destruct (queue (invoice_queue s')) as [|[p id'] rest] eqn:Eq; [discriminate|].
    intros [= -> <-]. apply Hout. cbn. now left.
Qed.

(** The queue after the job taken by the worker was processed with
    success. *)
Definition one_done : system :=
  step two_jobs
    (ProcessJob 2 3 "job-1" (Returns (PyDict [("success", PyBool true)]))
       (Returns (PyDict [], PyDict []))).

Definition done_job : InvoiceJob :=
  match get_job_status "job-1" (invoice_queue one_done) with
  | Some job => job
  | None => mk_job "" PyNone FAILED 0 None None None None 0 0 0
  end.

Lemma finished_job_is_final_witness :
  status done_job = COMPLETED /\
  get_job_status "job-1"
    (invoice_queue (step (step one_done (CancelJob 4 "job-1")) WorkerLoop))
  = Some done_job.
Proof.
  split; [reflexivity|].
  refine (proj1 (finished_job_is_final one_done
                   (step (step one_done (CancelJob 4 "job-1")) WorkerLoop)
                   "job-1" done_job _ _ _ _)).
  - apply reachable_next; [exact two_jobs_reachable|]. left. reflexivity.
  - apply leads_on; [|exact I]. apply leads_on; [|exact I]. apply leads_here.
  - reflexivity.
  - left. reflexivity.
Defined.

(** *** Cancelling a job the worker has taken *)

(** [_process_job] with a generation and a saving that go well. *)
Lemma process_job_completes started finished id response invoice_data storage_result q job :
  get_job_status id q = Some job ->
  reports_success response = Some true ->
  let q' := _process_job started finished id (Returns response)
              (Returns (invoice_data, storage_result)) q in
  status_of id q' = Some COMPLETED /\ queue q' = queue q /\
  option_map result (get_job_status id q')
  = Some (Some (PyDict [("success", PyBool true); ("invoice_data", invoice_data);
                        ("storage_result", storage_result);
                        ("method", PyStr "queue_processed")])).
Proof.
  intros Hjob Hok. cbv zeta. unfold _process_job. rewrite Hjob, Hok.
  pose proof (holds_refl id job q Hjob) as H0.
  destruct (holds_update started id PROCESSING (Some 0%Q) None None job q q H0) as [H1 _].
  set (q1 := update_job_status started id PROCESSING (Some 0%Q) None None q) in *.
  destruct (holds_update started id PROCESSING (Some (2 # 10)) None None job q q1 H1)
    as [H2 _].
  set (q2 := update_job_status started id PROCESSING (Some (2 # 10)) None None q1) in *.
  destruct (holds_update finished id PROCESSING (Some (6 # 10)) None None job q q2 H2)
    as [H3 _].
  set (q3 := update_job_status finished id PROCESSING (Some (6 # 10)) None None q2) in *.
  destruct (holds_update finished id PROCESSING (Some (9 # 10)) None None job q q3 H3)
    as [H4 _].
  set (q4 := update_job_status finished id PROCESSING (Some (9 # 10)) None None q3) in *.
  match goal with
  | |- context [update_job_status finished id COMPLETED ?p ?r ?e q4] =>
      destruct (holds_update finished id COMPLETED p r e job q q4 H4)
        as ((_ & Hq & _) & Hst)
  end.
  split; [exact Hst|]. split; [exact Hq|].
  destruct H4 as (_ & _ & _ & job4 & Hjob4 & _).
  unfold update_job_status. rewrite Hjob4. unfold get_job_status. cbn [notify jobs].
  rewrite lookup_insert_eq. reflexivity.
Qed.

(** [_process_job] with a generation that raises, for a job that has
    retries left. *)
Lemma process_job_retries started finished id message saved q job :
  get_job_status id q = Some job ->
  retry_count job < max_retries job ->
  let q' := _process_job started finished id (Raises message) saved q in
  status_of id q' = Some QUEUED /\
  queue q' = push (- (retry_count job + 1), id) q.
Proof.
  intros Hjob Hlt. cbv zeta. unfold _process_job. rewrite Hjob.
  pose proof (holds_refl id job q Hjob) as H0.
  destruct (holds_update started id PROCESSING (Some 0%Q) None None job q q H0) as [H1 _].
  set (q1 := update_job_status started id PROCESSING (Some 0%Q) None None q) in *.
  destruct (holds_update started id PROCESSING (Some (2 # 10)) None None job q q1 H1)
    as [H2 _].
  set (q2 := update_job_status started id PROCESSING (Some (2 # 10)) None None q1) in *.
  destruct (holds_on_failure finished id message job q q2 H2)
    as (_ & _ & job' & Hjob' & _ & _ & [(_ & Hge & _)|(Hst & _ & _ & Hq)]); [lia|].
  split; [|exact Hq]. unfold status_of. rewrite Hjob'. cbn. now rewrite Hst.
Qed.

(** The queue after the worker took its one job. *)
Definition taken : system :=
  step (step {| invoice_queue := init false; submitted := [] |}
             (EnqueueInvoice 0 "job-1" order 0))
       WorkerLoop.

Lemma taken_reachable : reachable taken.
Proof.
  unfold taken. repeat (apply reachable_next; [|possible_call]).
  apply reachable_start.
Qed.

(** X20.  Cancelling a job the worker loop has already taken does not
    stop it.  For a queued job that is with the pool, [cancel_job] answers
    [True] and marks the job cancelled, but the submitted [_process_job]
    still runs: with a generation and a saving that go well the cancelled
    job ends completed, and with a generation that fails and retries left
    it is queued again, with a new item in the queue. *)
Theorem cancelled_job_is_still_processed (s : system) (now : Z) (id : string)
    (job : InvoiceJob) (Hs : reachable s) (Hin : In id (submitted s))
    (Hjob : get_job_status id (invoice_queue s) = Some job)
    (Hq : status job = QUEUED) :
  let s1 := step s (CancelJob now id) in
  fst (cancel_job now id (invoice_queue s)) = true /\
  status_of id (invoice_queue s1) = Some CANCELLED /\
  reachable s1 /\ In id (submitted s1) /\
  (forall started finished response invoice_data storage_result,
     reports_success response = Some true ->
     let s2 := step s1 (ProcessJob started finished id (Returns response)
                          (Returns (invoice_data, storage_result))) in
     reachable s2 /\ status_of id (invoice_queue s2) = Some COMPLETED) /\
  (forall started finished message saved,
     retry_count job < max_retries job ->
     let s2 := step s1 (ProcessJob started finished id (Raises message) saved) in
     reachable s2 /\ status_of id (invoice_queue s2) = Some QUEUED /\
     In (- (retry_count job + 1), id) (queue (invoice_queue s2))).
Proof.
  cbv zeta. pose proof (reachable_queue_inv s Hs) as [Honce _ _ _ _ _].
  assert (Hnd : List.NoDup (map snd (queue (invoice_queue s))))
    by (eapply NoDup_app_remove_r; exact Honce).
  destruct (cancel_job_queued now id (invoice_queue s) job Hnd Hjob Hq)
    as (Htrue & _ & _ & _ & job' & Hjob' & Hst' & _ & Hrc & Hmax).
  assert (Hs1 : reachable (step s (CancelJob now id)))
    by (apply reachable_next; [exact Hs|exact I]).
  destruct s as [q sub]. cbn in *.
  split; [exact Htrue|]. split.
  { unfold status_of. rewrite Hjob'. cbn. now rewrite Hst'. }
  split; [exact Hs1|]. split; [exact Hin|]. split.
  - intros started finished response invoice_data storage_result Hok. split.
    + exact (reachable_next
               {| invoice_queue := snd (cancel_job now id q); submitted := sub |}
               (ProcessJob started finished id (Returns response)
                  (Returns (invoice_data, storage_result))) Hs1 Hin).
    + now apply (process_job_completes started finished id response invoice_data
                   storage_result _ job' Hjob' Hok).
  - intros started finished message saved Hlt. split.
    + exact (reachable_next
               {| invoice_queue := snd (cancel_job now id q); submitted := sub |}
               (ProcessJob started finished id (Raises message) saved) Hs1 Hin).
    + destruct (process_job_retries started finished id message saved _ job' Hjob')
        as [H1 H2]; [lia|].
      split; [exact H1|]. rewrite H2, Hrc. apply in_push.
Qed.

Lemma cancelled_job_is_still_processed_witness :
  fst (cancel_job 2 "job-1" (invoice_queue taken)) = true /\
  status_of "job-1"
    (invoice_queue
       (step (step taken (CancelJob 2 "job-1"))
             (ProcessJob 3 4 "job-1" (Returns (PyDict [("success", PyBool true)]))
                (Returns (PyDict [], PyDict [])))))
  = Some COMPLETED.
Proof.
  split; [reflexivity|].
  refine (proj2 (proj1 (proj2 (proj2 (proj2 (proj2
    (cancelled_job_is_still_processed taken 2 "job-1"
       (mk_job "job-1" order QUEUED 0 None None None None 0 0 3)
       taken_reachable _ _ _))))) 3 4 (PyDict [("success", PyBool true)])
       (PyDict []) (PyDict []) _)).
  - left. reflexivity.
  - reflexivity.
  - reflexivity.
  - reflexivity.
Defined.

(** *** The numbers of [get_queue_stats] *)














(** *** Jobs of the same priority *)

Lemma ascii_compare_refl c : Ascii.compare c c = Eq.
Proof. unfold Ascii.compare. apply N.compare_refl. Qed.

Lemma string_compare_refl s : String.compare s s = Eq.
Proof.
  induction s as [|c s IH]; simpl; [reflexivity|]. now rewrite ascii_compare_refl.
Qed.

Lemma string_compare_trans s1 : forall s2 s3,
  String.compare s1 s2 = Lt -> String.compare s2 s3 = Lt -> String.compare s1 s3 = Lt.
Proof.
  induction s1 as [|c1 s1 IH]; intros [|c2 s2] [|c3 s3]; simpl; try congruence.
  destruct (Ascii.compare c1 c2) eqn:E12; try congruence.
  - apply Ascii.compare_eq_iff in E12. subst c2.
    destruct (Ascii.compare c1 c3); try congruence. apply IH.
  - intros _. destruct (Ascii.compare c2 c3) eqn:E23; try congruence.
    + apply Ascii.compare_eq_iff in E23. subst c3. now rewrite E12.
    + intros _. unfold Ascii.compare in *.
      apply (proj1 (N.compare_lt_iff _ _)) in E12.
      apply (proj1 (N.compare_lt_iff _ _)) in E23.
      replace (N_of_ascii c1 ?= N_of_ascii c3)%N with Lt; [reflexivity|].
      symmetry. apply N.compare_lt_iff. eapply N.lt_trans; eassumption.
Qed.

Lemma string_ltb_trans s1 s2 s3 :
  String.ltb s1 s2 = true -> String.ltb s2 s3 = true -> String.ltb s1 s3 = true.
Proof.
  unfold String.ltb. intros H1 H2.
  destruct (String.compare s1 s2) eqn:E1; try discriminate.
  destruct (String.compare s2 s3) eqn:E2; try discriminate.
  now rewrite (string_compare_trans s1 s2 s3 E1 E2).
Qed.

Lemma string_ltb_total s1 s2 :
  s1 <> s2 -> String.ltb s1 s2 = false -> String.ltb s2 s1 = true.
Proof.
  unfold String.ltb. intros Hne H. rewrite String.compare_antisym.
  destruct (String.compare s1 s2) eqn:E; try discriminate; [|reflexivity].
  apply String.compare_eq_iff in E. contradiction.
Qed.

(** [a] comes before [b] in the queue: [b < a] as Python compares the
    tuples. *)
Definition before (a b : Z * string) : Prop := item_ltb b a = true.

Lemma before_trans a b c : before a b -> before b c -> before a c.
Proof.
  unfold before, item_ltb. intros H1 H2.
  apply orb_true_iff in H1, H2. apply orb_true_iff.
  destruct H1 as [H1|H1], H2 as [H2|H2];
    rewrite ?andb_true_iff, ?Z.ltb_lt, ?Z.eqb_eq in *.
  - left. lia.
  - left. lia.
  - left. lia.
  - right. destruct H1 as [H1 H1'], H2 as [H2 H2']. split; [lia|].
    now apply (string_ltb_trans _ (snd b)).
Qed.

Lemma before_total a b : snd a <> snd b -> item_ltb a b = false -> before a b.
Proof.
  unfold before, item_ltb. intros Hne H. apply orb_false_iff in H. destruct H as [H1 H2].
  apply Z.ltb_ge in H1. apply orb_true_iff.
  destruct (Z.eq_dec (fst a) (fst b)) as [E|E].
  - right. rewrite E, Z.eqb_refl in *. cbn in *. now apply string_ltb_total.
  - left. apply Z.ltb_lt. lia.
Qed.

Lemma insert_desc_before x l :
  StronglySorted before l -> (forall y, In y l -> snd y <> snd x) ->
  StronglySorted before (insert_desc x l).
Proof.
  induction 1 as [|y l Hl IH Hy]; simpl; intros Hnew; [repeat constructor|].
  destruct (item_ltb x y) eqn:E.
  - constructor; [apply IH; intros z Hz; apply Hnew; now right|].
    apply List.Forall_forall. intros z Hz.
    apply in_insert_desc in Hz. destruct Hz as [->|Hz]; [exact E|].
    rewrite List.Forall_forall in Hy. now apply Hy.
  - assert (Hxy : before x y).
    { apply before_total; [|exact E]. intros Heq. apply (Hnew y); [now left|].
      now symmetry. }
    constructor; [now constructor|]. constructor; [exact Hxy|].
    apply List.Forall_forall. intros z Hz. rewrite List.Forall_forall in Hy.
    apply (before_trans x y z Hxy). now apply Hy.
Qed.

Lemma sort_desc_before l :
  List.NoDup (map snd l) -> StronglySorted before (sort_desc l).
Proof.
  induction l as [|x l IH]; simpl; intros Hnd; [constructor|].
  apply List.NoDup_cons_iff in Hnd. destruct Hnd as [Hx Hnd].
  apply insert_desc_before; [now apply IH|].
  intros y Hy Heq. apply (proj1 (in_sort_desc y l)) in Hy. apply Hx. rewrite <- Heq.
  now apply in_ids.
Qed.

Lemma push_before item q :
  List.NoDup (map snd (queue q)) ->
  (forall other, In other (queue q) -> snd other <> snd item) ->
  StronglySorted before (queue q) -> StronglySorted before (push item q).
Proof.
  intros Hnd Hnew Hs. unfold push.
  assert (H : StronglySorted before (sort_desc (queue q ++ [item]))).
  { apply sort_desc_before. rewrite map_app. cbn.
    apply (Permutation.Permutation_NoDup (l := snd item :: map snd (queue q))).
    - apply Permutation_cons_append.
    - constructor; [|exact Hnd]. intros Hin. apply in_ids_inv in Hin.
      destruct Hin as (other & Hin & Heq). now apply (Hnew other Hin). }
  destruct (redis_client q); [destruct (existsb _ _); [exact Hs|exact H]|exact H].
Qed.

Lemma filter_before (f : Z * string -> bool) l :
  StronglySorted before l -> StronglySorted before (List.filter f l).
Proof.
  induction 1 as [|y l Hl IH Hy]; simpl; [constructor|].
  destruct (f y); [|exact IH]. constructor; [exact IH|].
  rewrite List.Forall_forall in *. intros z Hz. apply filter_In in Hz. apply Hy, Hz.
Qed.

Lemma reachable_before s : reachable s -> StronglySorted before (queue (invoice_queue s)).
Proof.
  induction 1 as [redis|s c Hs IH Hc]; [constructor|].
  pose proof (reachable_queue_inv s Hs) as [Honce Hqueued Hsub Hwait _ Hjobs].
  assert (Hnd : List.NoDup (map snd (queue (invoice_queue s))))
    by (eapply NoDup_app_remove_r; exact Honce).
  destruct s as [q sub]. cbn in *.
  destruct c as [now new_id details priority| |started finished id generated saved|now id];
    cbn in *.
  - destruct Hc as [_ Hfresh]. apply push_before; auto.
    intros other Hin Heq. specialize (Hqueued other Hin). cbn in Heq. rewrite Heq in Hqueued.
    unfold status_of, get_job_status in Hqueued. rewrite Hfresh in Hqueued.
    discriminate Hqueued.
  - unfold _worker_loop, _get_next_job. cbn [invoice_queue submitted].
    destruct (queue q) as [|[p id] rest] eqn:Eq; cbn; [rewrite Eq; constructor|].
    apply StronglySorted_inv in IH. destruct (String.eqb id ""); cbn; apply IH.
  - assert (Hjob : exists job, get_job_status id q = Some job).
    { destruct (Hsub id Hc) as [H|H]; unfold status_of in H;
        destruct (get_job_status id q) as [job|]; try discriminate H; eauto. }
    destruct Hjob as [job Hjob].
    destruct (process_job_outcome started finished id generated saved q job Hjob)
      as (_ & _ & job' & _ & _ & _ & [(_ & _ & ->)|(_ & _ & _ & ->)]); [exact IH|].
    apply push_before; auto.
    intros other Ho Heq. apply (nodup_app_disjoint _ _ id Honce); [|exact Hc].
    cbn in Heq. rewrite <- Heq. now apply in_ids.
  - destruct (get_job_status id q) as [job|] eqn:Hjob;
      [|unfold cancel_job; rewrite Hjob; exact IH].
    destruct (JobStatus_eqb (status job) QUEUED) eqn:Es;
      [|unfold cancel_job; rewrite Hjob, Es; exact IH].
    assert (Hq : status job = QUEUED)
      by (destruct (status job); try discriminate; reflexivity).
    destruct (cancel_job_queued now id q job Hnd Hjob Hq) as (_ & _ & -> & _).
    now apply filter_before.
Qed.

(** Two jobs of the same priority, enqueued in the order of their ids. *)
Definition same_priority : system :=
  step (step {| invoice_queue := init false; submitted := [] |}
             (EnqueueInvoice 0 "job-a" order 0))
       (EnqueueInvoice 1 "job-b" order 0).

(** X24.  Jobs of the same priority are not served in the order of their
    arrival.  In every reachable state of a queue kept in memory, the
    queue is strictly descending in the order of the tuples
    [(priority, job_id)]: the job [_get_next_job] takes has a higher
    priority than any item left or, at equal priority, the larger id.  So
    of two jobs enqueued with the same priority on an empty queue, the one
    with the larger id is served first, also when it came second. *)
Theorem equal_priority_jobs_are_served_by_id (s : system) (Hs : reachable s)
    (Hmemory : redis_client (invoice_queue s) = false) :
  let q := invoice_queue s in
  StronglySorted before (queue q) /\
  (forall id q1, _get_next_job q = (Some id, q1) ->
     forall priority' id', In (priority', id') (queue q1) ->
       exists priority, In (priority, id) (queue q) /\
         (priority' < priority \/
          priority' = priority /\ String.ltb id' id = true)) /\
  (forall now new_id details now' new_id' details' priority id q1,
     queue q = [] ->
     let q2 := snd (enqueue_invoice now' new_id' details' priority
                      (snd (enqueue_invoice now new_id details priority q))) in
     _get_next_job q2 = (Some id, q1) ->
     id = (if String.ltb new_id new_id' then new_id' else new_id)).
Proof.
  cbv zeta. pose proof (reachable_before s Hs) as Hsorted.
  split; [exact Hsorted|]. split.
  - intros id q1. unfold _get_next_job.
    destruct (queue (invoice_queue s)) as [|[p id0] rest] eqn:Eq; [discriminate|].
    intros [= <- <-]. cbn [queue]. intros priority' id' Hin.
    exists p. split; [now left|].
    apply StronglySorted_inv in Hsorted. destruct Hsorted as [_ Hall].
    rewrite List.Forall_forall in Hall. specialize (Hall _ Hin).
    unfold before, item_ltb in Hall. cbn in Hall.
    apply orb_true_iff in Hall. destruct Hall as [H|H].
    + left. now apply Z.ltb_lt.
    + right. apply andb_true_iff in H. destruct H as [H1 H2].
      apply Z.eqb_eq in H1. auto.
  - intros now new_id details now' new_id' details' priority id q1 Hempty.
    set (q1' := snd (enqueue_invoice now new_id details priority (invoice_queue s))).
    assert (H1 : queue q1' = [(priority, new_id)] /\ redis_client q1' = false).
    { split; [|exact Hmemory]. subst q1'. cbn [enqueue_invoice snd notify queue].
      unfold push. rewrite Hmemory, Hempty. reflexivity. }
    destruct H1 as [Hq1 Hr1].
    assert (H2 : queue (snd (enqueue_invoice now' new_id' details' priority q1'))
                 = if String.ltb new_id new_id'
                   then [(priority, new_id'); (priority, new_id)]
                   else [(priority, new_id); (priority, new_id')]).
    { cbn [enqueue_invoice snd notify queue]. unfold push. rewrite Hr1, Hq1.
      cbn [app sort_desc fold_right insert_desc]. unfold item_ltb. cbn [fst snd].
      rewrite Z.ltb_irrefl, Z.eqb_refl. cbn [orb andb].
      destruct (String.ltb new_id new_id'); reflexivity. }
    unfold _get_next_job. rewrite H2.
    destruct (String.ltb new_id new_id'); intros [= <- _]; reflexivity.
Qed.

Lemma equal_priority_jobs_are_served_by_id_witness :
  fst (_get_next_job (invoice_queue same_priority)) = Some "job-b" /\
  StronglySorted before (queue (invoice_queue same_priority)).
Proof.
  split; [reflexivity|].
  refine (proj1 (equal_priority_jobs_are_served_by_id same_priority _ _)).
  - unfold same_priority. repeat (apply reachable_next; [|possible_call]).
    apply reachable_start.
  - reflexivity.
Defined.

End QueueFacts.

Module DegradedFacts.
Import Py ServiceManager ServiceManagerFacts CacheFacts.

(** *** The services a call reaches *)

Definition uses_cosmos (c : backend_call) : bool :=
  match c with
  | CosmosStatistics | CosmosList _ | CosmosGet _ | CosmosSearch _ | CosmosSave
  | CosmosUpdateStatus _ _ => true
  | IndexSearch _ | IndexInvoice | IndexUpdateStatus _ _ => false
  end.

Definition uses_index (c : backend_call) : bool :=
  match c with
  | IndexSearch _ | IndexInvoice | IndexUpdateStatus _ _ => true
  | CosmosStatistics | CosmosList _ | CosmosGet _ | CosmosSearch _ | CosmosSave
  | CosmosUpdateStatus _ _ => false
  end.

(** A call that only reaches a service that is available. *)
Definition permitted (cosmos search : bool) (c : backend_call) : Prop :=
  (uses_cosmos c = true -> cosmos = true) /\ (uses_index c = true -> search = true).

(** The keys written whether or not the document store is available. *)
Definition always_key (key : string) : Prop :=
  key = "service_status_main" \/ startswith key "search_results_" = true \/
  startswith key "client_data_" = true.

Definition kept_key (cosmos : bool) (key : string) : Prop :=
  always_key key \/ cosmos = true.

Definition quiet_write (cosmos search : bool) (p : prim) : Prop :=
  match p with
  | PSet _ key _ => kept_key cosmos key
  | PLog c => permitted cosmos search c
  | _ => True
  end.

Definition quiet_steps (cosmos search : bool) (s s' : t) : Prop :=
  exists ps, s' = prim_run s ps /\ Forall (quiet_write cosmos search) ps.

Section quiet.
Variables cosmos search : bool.

Lemma quiet_refl s : quiet_steps cosmos search s s.
Proof. exists []. split; [reflexivity|constructor]. Qed.

Lemma quiet_trans s1 s2 s3 :
  quiet_steps cosmos search s1 s2 -> quiet_steps cosmos search s2 s3 ->
  quiet_steps cosmos search s1 s3.
Proof.
  intros (ps & -> & H1) (qs & -> & H2). exists (ps ++ qs). split.
  - unfold prim_run. now rewrite fold_left_app.
  - apply Forall_app. split; assumption.
Qed.

Lemma quiet_one s p : quiet_write cosmos search p -> quiet_steps cosmos search s (prim_step s p).
Proof. intros H. exists [p]. split; [reflexivity|]. now constructor. Qed.

Lemma prim_step_flags s p :
  cosmos_ready (prim_step s p) = cosmos_ready s /\
  search_ready (prim_step s p) = search_ready s.
Proof.
  destruct p as [now touched key|now key data|key| |c|]; cbn [prim_step].
  - unfold _get_from_cache. destruct (_is_cache_valid _ _ _); split; reflexivity.
  - destruct (set_cache_frame now key data s) as (H1 & H2 & _). auto.
  - split; reflexivity.
  - split; reflexivity.
  - split; reflexivity.
  - split; reflexivity.
Qed.

Lemma quiet_flags s s' :
  quiet_steps cosmos search s s' ->
  cosmos_ready s' = cosmos_ready s /\ search_ready s' = search_ready s.
Proof.
  intros (ps & -> & _). revert s. induction ps as [|p ps IH]; intros s; [auto|].
  cbn [prim_run fold_left]. destruct (IH (prim_step s p)) as [H1 H2].
  destruct (prim_step_flags s p) as [H3 H4]. unfold prim_run in *. split; congruence.
Qed.

Lemma quiet_remove_all keys : forall s,
  quiet_steps cosmos search s (fold_left (fun s' key => _remove_cache_entry key s') keys s).
Proof.
  induction keys as [|k keys IH]; intros s; simpl; [apply quiet_refl|].
  eapply quiet_trans; [|apply IH]. apply (quiet_one s (PRemove k)). exact I.
Qed.

Lemma quiet_clear_cache pattern s : quiet_steps cosmos search s (_clear_cache pattern s).
Proof.
  assert (Hall : quiet_steps cosmos search s (_clear_cache None s))
    by (apply (quiet_one s PClearAll); exact I).
  destruct pattern as [p|]; [|exact Hall].
  unfold _clear_cache in *. destruct (String.eqb p ""); [exact Hall|].
  apply quiet_remove_all.
Qed.

Lemma quiet_cached_read force i key s :
  quiet_steps cosmos search s (snd (cached_read force i key s)).
Proof.
  unfold cached_read. destruct force; [apply quiet_refl|].
  pose proof (quiet_one s (PGet (checked i) (touched i) key) I) as H. simpl in H.
  destruct (_get_from_cache (checked i) (touched i) key s) as [cached s1].
  simpl in H. now destruct (truthy cached).
Qed.

Lemma quiet_set now key data s :
  kept_key cosmos key -> quiet_steps cosmos search s (_set_cache now key data s).
Proof. intros H. apply (quiet_one s (PSet now key data)). exact H. Qed.

Lemma quiet_log c s : permitted cosmos search c -> quiet_steps cosmos search s (log_call c s).
Proof. intros H. apply (quiet_one s (PLog c)). exact H. Qed.

End quiet.

(** *** Every call on the manager, step by step *)

Ltac always :=
  unfold kept_key, always_key, startswith;
  first [ left; left; reflexivity
        | left; right; left; apply prefix_append
        | left; right; right; apply prefix_append ].

Ltac cosmos_call := split; [intros _; congruence|discriminate].
Ltac index_call := split; [discriminate|intros _; congruence].

Section of_calls.
Variable md5 : string -> string.

Lemma quiet_get_statistics force i fresh s :
  quiet_steps (cosmos_ready s) (search_ready s) s (snd (get_statistics force i fresh s)).
Proof.
  unfold get_statistics. cbv zeta.
  pose proof (quiet_cached_read (cosmos_ready s) (search_ready s) force i
                "statistics_main" s) as H.
  destruct (cached_read force i "statistics_main" s) as [[v|] s1]; simpl in *; [exact H|].
  destruct (quiet_flags _ _ _ _ H) as [Hc Hx].
  destruct (cosmos_ready s1) eqn:E; simpl; [|exact H].
  eapply quiet_trans; [exact H|]. eapply quiet_trans; [apply quiet_log|apply quiet_set].
  - cosmos_call.
  - right. congruence.
Qed.

Lemma quiet_list_invoices limit force i fresh s :
  quiet_steps (cosmos_ready s) (search_ready s) s
    (snd (list_invoices limit force i fresh s)).
Proof.
  unfold list_invoices. cbv zeta.
  pose proof (quiet_cached_read (cosmos_ready s) (search_ready s) force i
                ("invoice_list_" +:+ pretty limit) s) as H.
  destruct (cached_read force i ("invoice_list_" +:+ pretty limit) s) as [[v|] s1];
    simpl in *; [exact H|].
  destruct (quiet_flags _ _ _ _ H) as [Hc Hx].
  destruct (cosmos_ready s1) eqn:E; simpl; [|exact H].
  eapply quiet_trans; [exact H|]. eapply quiet_trans; [apply quiet_log|apply quiet_set].
  - cosmos_call.
  - right. congruence.
Qed.

Lemma quiet_get_invoice number force i fresh s :
  quiet_steps (cosmos_ready s) (search_ready s) s
    (snd (get_invoice number force i fresh s)).
Proof.
  unfold get_invoice. cbv zeta.
  pose proof (quiet_cached_read (cosmos_ready s) (search_ready s) force i
                ("invoice_detail_" +:+ number) s) as H.
  destruct (cached_read force i ("invoice_detail_" +:+ number) s) as [[v|] s1];
    simpl in *; [exact H|].
  destruct (quiet_flags _ _ _ _ H) as [Hc Hx].
  destruct (cosmos_ready s1) eqn:E; simpl; [|exact H].
  eapply quiet_trans; [exact H|]. eapply quiet_trans; [apply quiet_log|apply quiet_set].
  - cosmos_call.
  - right. congruence.
Qed.

Lemma quiet_search_invoices query force i index_answer cosmos_answer s :
  quiet_steps (cosmos_ready s) (search_ready s) s
    (snd (search_invoices md5 query force i index_answer cosmos_answer s)).
Proof.
  unfold search_invoices. cbv zeta.
  pose proof (quiet_cached_read (cosmos_ready s) (search_ready s) force i
                (search_cache_key md5 query) s) as H.
  destruct (cached_read force i (search_cache_key md5 query) s) as [[v|] s1];
    simpl in *; [exact H|].
  destruct (quiet_flags _ _ _ _ H) as [Hc Hx].
  set (first := if search_ready s1 then _ else _).
  assert (H1 : quiet_steps (cosmos_ready s) (search_ready s) s1 (snd first)).
  { subst first. destruct (search_ready s1) eqn:E; [|apply quiet_refl].
    destruct index_answer; apply quiet_log; index_call. }
  destruct (quiet_flags _ _ _ _ H1) as [Hc1 Hx1].
  destruct first as [results s2]. simpl in H1, Hc1, Hx1.
  set (second := if _ && cosmos_ready s2 then _ else _).
  assert (H2 : quiet_steps (cosmos_ready s) (search_ready s) s2 (snd second)).
  { subst second. destruct (_ && cosmos_ready s2) eqn:E; [|apply quiet_refl].
    apply andb_true_iff in E. destruct E as [_ E].
    destruct cosmos_answer; apply quiet_log; cosmos_call. }
  destruct second as [results' s3]. simpl in *.
  eapply quiet_trans; [exact H|]. eapply quiet_trans; [exact H1|].
  eapply quiet_trans; [exact H2|].
  apply quiet_set. unfold search_cache_key. always.
Qed.

Lemma quiet_get_client_invoices client force i i_search index_answer cosmos_answer s :
  quiet_steps (cosmos_ready s) (search_ready s) s
    (snd (get_client_invoices md5 client force i i_search index_answer cosmos_answer s)).
Proof.
  unfold get_client_invoices. cbv zeta.
  pose proof (quiet_cached_read (cosmos_ready s) (search_ready s) force i
                (client_cache_key client) s) as H.
  destruct (cached_read force i (client_cache_key client) s) as [[v|] s1];
    simpl in *; [exact H|].
  destruct (quiet_flags _ _ _ _ H) as [Hc Hx].
  pose proof (quiet_search_invoices client false i_search index_answer cosmos_answer s1)
    as H1.
  rewrite Hc, Hx in H1.
  destruct (search_invoices md5 client false i_search index_answer cosmos_answer s1)
    as [invoices s2].
  simpl in H1. pose proof (quiet_trans _ _ _ _ _ H H1) as H2.
  destruct invoices; simpl; try exact H2.
  destruct (filter_client client xs); simpl; [|exact H2].
  eapply quiet_trans; [exact H2|]. apply quiet_set. unfold client_cache_key. always.
Qed.

Lemma quiet_get_service_status_cached force i status statistics s :
  quiet_steps (cosmos_ready s) (search_ready s) s
    (snd (get_service_status_cached force i status statistics s)).
Proof.
  unfold get_service_status_cached. cbv zeta.
  pose proof (quiet_cached_read (cosmos_ready s) (search_ready s) force i
                "service_status_main" s) as H.
  destruct (cached_read force i "service_status_main" s) as [[v|] s1];
    simpl in *; [exact H|].
  eapply quiet_trans; [exact H|]. apply quiet_set. always.
Qed.

Lemma quiet_invalidate_after_save cosmos search number client s :
  quiet_steps cosmos search s (invalidate_after_save number client s).
Proof.
  unfold invalidate_after_save. cbv zeta.
  set (s_b := _clear_cache (Some "invoice_list") _).
  assert (Hb : quiet_steps cosmos search s s_b).
  { eapply quiet_trans; apply quiet_clear_cache. }
  set (s_c := match number with Some _ => _ | None => s_b end).
  assert (Hc : quiet_steps cosmos search s s_c).
  { subst s_c. destruct number as [n|]; [|exact Hb].
    destruct (String.eqb n ""); [exact Hb|].
    eapply quiet_trans; [exact Hb|]. apply (quiet_one _ _ s_b (PRemove _)). exact I. }
  destruct (String.eqb client ""); [exact Hc|].
  eapply quiet_trans; [exact Hc|]. apply (quiet_one _ _ s_c (PRemove _)). exact I.
Qed.

Lemma quiet_save_invoice number client cosmos_answer index_answer s :
  quiet_steps (cosmos_ready s) (search_ready s) s
    (snd (save_invoice number client cosmos_answer index_answer s)).
Proof.
  unfold save_invoice.
  set (first := if cosmos_ready s then _ else _).
  assert (H1 : quiet_steps (cosmos_ready s) (search_ready s) s (snd first)).
  { subst first. destruct (cosmos_ready s) eqn:E; [|apply quiet_refl].
    destruct cosmos_answer; apply quiet_log; cosmos_call. }
  destruct (quiet_flags _ _ _ _ H1) as [Hc Hx].
  destruct first as [[saved warnings] s1]. simpl in H1, Hc, Hx.
  set (second := if search_ready s1 then _ else _).
  assert (H2 : quiet_steps (cosmos_ready s) (search_ready s) s1 (snd second)).
  { subst second. destruct (search_ready s1) eqn:E; [|apply quiet_refl].
    destruct index_answer; apply quiet_log; index_call. }
  destruct second as [[indexed warnings'] s2]. simpl in *.
  pose proof (quiet_trans _ _ _ _ _ H1 H2) as H.
  destruct saved; [|exact H].
  eapply quiet_trans; [exact H|]. apply quiet_invalidate_after_save.
Qed.

Lemma quiet_invalidate_after_status_update cosmos search number s :
  quiet_steps cosmos search s (invalidate_after_status_update number s).
Proof.
  unfold invalidate_after_status_update. cbv zeta.
  eapply quiet_trans; [apply quiet_clear_cache|].
  eapply quiet_trans; [|apply quiet_remove_all].
  apply (quiet_one _ _ _ (PRemove ("invoice_detail_" +:+ number))). exact I.
Qed.

Lemma quiet_update_invoice_status number status cosmos_answer index_answer s :
  quiet_steps (cosmos_ready s) (search_ready s) s
    (snd (update_invoice_status number status cosmos_answer index_answer s)).
Proof.
  unfold update_invoice_status.
  set (first := if cosmos_ready s then _ else _).
  assert (H1 : quiet_steps (cosmos_ready s) (search_ready s) s (snd first)).
  { subst first. destruct (cosmos_ready s) eqn:E; [|apply quiet_refl].
    apply quiet_log; cosmos_call. }
  destruct (quiet_flags _ _ _ _ H1) as [Hc Hx].
  destruct first as [success s1]. simpl in H1, Hc, Hx.
  set (s2 := if search_ready s1 then _ else s1).
  assert (H2 : quiet_steps (cosmos_ready s) (search_ready s) s s2).
  { subst s2. destruct (search_ready s1) eqn:E; [|exact H1].
    eapply quiet_trans; [exact H1|]. apply quiet_log; index_call. }
  simpl. destruct success; [|exact H2].
  eapply quiet_trans; [exact H2|]. apply quiet_invalidate_after_status_update.
Qed.

Lemma quiet_cleanup cosmos search now s :
  quiet_steps cosmos search s (cleanup_expired_cache now s).
Proof.
  unfold cleanup_expired_cache. cbv zeta.
  eapply quiet_trans; [apply quiet_remove_all|].
  apply (quiet_one _ _ _ PSwept). exact I.
Qed.

Lemma quiet_step s c :
  quiet_steps (cosmos_ready s) (search_ready s) s (step md5 s c).
Proof.
  destruct c; simpl.
  - apply quiet_get_statistics.
  - apply quiet_list_invoices.
  - apply quiet_get_invoice.
  - apply quiet_search_invoices.
  - apply quiet_get_client_invoices.
  - apply quiet_get_service_status_cached.
  - apply quiet_save_invoice.
  - apply quiet_update_invoice_status.
  - apply quiet_cleanup.
  - apply quiet_clear_cache.
Qed.

Lemma quiet_run cs : forall s,
  quiet_steps (cosmos_ready s) (search_ready s) s (run md5 s cs).
Proof.
  induction cs as [|c cs IH]; intros s; simpl; [apply quiet_refl|].
  pose proof (quiet_step s c) as H. destruct (quiet_flags _ _ _ _ H) as [Hc Hx].
  eapply quiet_trans; [exact H|]. specialize (IH (step md5 s c)).
  now rewrite Hc, Hx in IH.
Qed.

End of_calls.

(** *** What the manager keeps to, whatever is unavailable *)

Record quiet (cosmos search : bool) (s : t) : Prop := mk_quiet {
  quiet_cosmos : cosmos_ready s = cosmos;
  quiet_search : search_ready s = search;
  quiet_log_permitted : forall c, In c (backend_log s) -> permitted cosmos search c;
  quiet_keys : forall key, In key (dict_keys (cache s)) -> kept_key cosmos key;
  quiet_tracked : tracked s
}.

Lemma quiet_init cosmos search : quiet cosmos search (init cosmos search).
Proof.
  split; cbn; try reflexivity; try (intros ? []). apply tracked_init.
Qed.

Lemma get_from_cache_log now touched key s :
  backend_log (snd (_get_from_cache now touched key s)) = backend_log s.
Proof. unfold _get_from_cache. now destruct (_is_cache_valid _ _ _). Qed.

Lemma quiet_prim_step cosmos search s p :
  quiet cosmos search s -> quiet_write cosmos search p -> quiet cosmos search (prim_step s p).
Proof.
  intros [Hc Hx Hlog Hkeys Ht] Hp.
  destruct (prim_step_flags s p) as [Hc' Hx'].
  split; [congruence|congruence| | |now apply tracked_prim_step].
  - destruct p as [now touched key|now key data|key| |c|]; cbn [prim_step].
    + now rewrite get_from_cache_log.
    + destruct (set_cache_frame now key data s) as (_ & _ & ->). exact Hlog.
    + exact Hlog.
    + exact Hlog.
    + cbn. intros c' Hin. apply in_app_or in Hin.
      destruct Hin as [Hin|[<-|[]]]; [now apply Hlog|exact Hp].
    + exact Hlog.
  - destruct p as [now touched key|now key data|key| |c|]; cbn [prim_step].
    + now rewrite get_from_cache_cache.
    + intros k Hin. unfold _set_cache in Hin. cbv zeta in Hin. cbn [cache] in Hin.
      apply in_keys_set in Hin. destruct Hin as [->|Hin]; [exact Hp|].
      apply Hkeys. destruct (_ >=? _); [|exact Hin].
      rewrite evict_lru_items_keys in Hin by now apply tracked_wf.
      apply filter_In in Hin. tauto.
    + intros k Hin. apply in_keys_pop in Hin; [|apply (tracked_nodup s Ht)].
      apply Hkeys. tauto.
    + intros k [].
    + exact Hkeys.
    + exact Hkeys.
Qed.

Lemma quiet_kept cosmos search s s' :
  quiet_steps cosmos search s s' -> quiet cosmos search s -> quiet cosmos search s'.
Proof.
  intros (ps & -> & Hps). revert s. induction Hps as [|p ps Hp Hps IH]; intros s Hs.
  - exact Hs.
  - cbn. apply IH. now apply quiet_prim_step.
Qed.

Lemma quiet_reached md5 cosmos search cs :
  quiet cosmos search (run md5 (init cosmos search) cs).
Proof.
  apply (quiet_kept cosmos search (init cosmos search)); [|apply quiet_init].
  apply (quiet_run md5 cs (init cosmos search)).
Qed.

(** X22.  A document store or a search index that was not available at
    start-up is never called.  Whatever calls are made on a manager
    started with given availability of the document store and of the
    search index, the availability does not change, every call that
    reached the document store was made with the document store available
    and every call that reached the index with the index available; with
    neither available no call to the document store or to the index is
    ever made.  This is about these two services only: the probe of the
    AI service that [get_service_status] runs for
    [get_service_status_cached] is not among the calls recorded.  Without
    the document store the cache only ever holds the service status,
    search results and client data. *)
Theorem unavailable_services_are_never_called (md5 : string -> string)
    (cosmos search : bool) (cs : list call) :
  let s := run md5 (init cosmos search) cs in
  cosmos_ready s = cosmos /\ search_ready s = search /\
  (forall c, In c (backend_log s) ->
     (uses_cosmos c = true -> cosmos = true) /\ (uses_index c = true -> search = true)) /\
  (cosmos = false -> search = false -> backend_log s = []) /\
  (cosmos = false ->
   forall key, In key (dict_keys (cache s)) ->
     key = "service_status_main" \/ startswith key "search_results_" = true \/
     startswith key "client_data_" = true).
Proof.
  cbv zeta. destruct (quiet_reached md5 cosmos search cs) as [Hc Hx Hlog Hkeys _].
  split; [exact Hc|]. split; [exact Hx|]. split; [exact Hlog|]. split.
  - intros -> ->. destruct (backend_log _) as [|c l]; [reflexivity|].
    destruct (Hlog c (or_introl eq_refl)) as [H1 H2].
    destruct c; cbn in H1, H2; first [discriminate (H1 eq_refl)|discriminate (H2 eq_refl)].
  - intros -> key Hin. destruct (Hkeys key Hin) as [H|H]; [exact H|discriminate H].
Qed.

(** The keys of what only the document store provides. *)
Definition store_key (key : string) : Prop :=
  key = "statistics_main" \/ startswith key "invoice_list_" = true \/
  startswith key "invoice_detail_" = true.

Lemma store_key_not_always key : store_key key -> ~ always_key key.
Proof.
  unfold store_key, always_key, startswith. intros Hs Ha.
  destruct Hs as [->|[H|H]];
    [|apply prefix_split in H; destruct H as (x & ->)..];
    destruct Ha as [H'|[H'|H']]; vm_compute in H'; discriminate H'.
Qed.

Lemma no_store_entry md5 search cs key :
  store_key key ->
  dict_get key (cache (run md5 (init false search) cs)) = None.
Proof.
  intros Hkey. apply not_in_keys_get. intros Hin.
  destruct (quiet_reached md5 false search cs) as [_ _ _ Hkeys _].
  destruct (Hkeys key Hin) as [H|H]; [|discriminate H].
  now apply (store_key_not_always key).
Qed.

(** X23.  On a manager started without the document store, in every
    state it reaches: [get_statistics] returns the report with 0 invoices
    and the error ["CosmosDB service not available"], [list_invoices]
    returns [[]] and [get_invoice] returns [None], with or without
    [force_refresh], and none of them caches its answer or calls a
    service; [save_invoice] reports ["cosmos_saved"] false and
    [update_invoice_status] returns [False], and neither invalidates
    anything in the cache. *)
Theorem reads_without_document_store (md5 : string -> string) (search : bool)
    (cs : list call) :
  let s := run md5 (init false search) cs in
  (forall force_refresh i fresh,
     let r := get_statistics force_refresh i fresh s in
     fst r = degraded_statistics /\ cache (snd r) = cache s /\
     backend_log (snd r) = backend_log s) /\
  (forall limit force_refresh i fresh,
     let r := list_invoices limit force_refresh i fresh s in
     fst r = PyList [] /\ cache (snd r) = cache s /\
     backend_log (snd r) = backend_log s) /\
  (forall invoice_number force_refresh i fresh,
     let r := get_invoice invoice_number force_refresh i fresh s in
     fst r = PyNone /\ cache (snd r) = cache s /\
     backend_log (snd r) = backend_log s) /\
  (forall invoice_number client_name cosmos_answer index_answer,
     let r := save_invoice invoice_number client_name cosmos_answer index_answer s in
     cosmos_saved (fst r) = false /\ cache (snd r) = cache s) /\
  (forall invoice_number status cosmos_answer index_answer,
     let r := update_invoice_status invoice_number status cosmos_answer index_answer s in
     fst r = false /\ cache (snd r) = cache s).
Proof.
  cbv zeta. destruct (quiet_reached md5 false search cs) as [Hc Hx _ _ _].
  set (s := run md5 (init false search) cs) in *.
  assert (Hread : forall force_refresh i key, store_key key ->
            exists s', cached_read force_refresh i key s = (None, s') /\
              cache s' = cache s /\ cosmos_ready s' = false /\
              backend_log s' = backend_log s).
  { intros force_refresh i key Hkey.
    destruct (cached_read_no_entry force_refresh i key s
                (no_store_entry md5 search cs key Hkey))
      as (s' & H1 & H2 & H3 & _ & H4).
    exists s'. rewrite H3, Hc. auto. }
  split; [|split; [|split; [|split]]].
  - intros force_refresh i fresh. unfold get_statistics. cbv zeta.
    destruct (Hread force_refresh i "statistics_main") as (s' & -> & H1 & H2 & H3).
    { now left. }
    rewrite H2. cbn. auto.
  - intros limit force_refresh i fresh. unfold list_invoices. cbv zeta.
    destruct (Hread force_refresh i ("invoice_list_" +:+ pretty limit))
      as (s' & -> & H1 & H2 & H3).
    { right. left. apply prefix_append. }
    rewrite H2. cbn. auto.
  - intros invoice_number force_refresh i fresh. unfold get_invoice. cbv zeta.
    destruct (Hread force_refresh i ("invoice_detail_" +:+ invoice_number))
      as (s' & -> & H1 & H2 & H3).
    { right. right. apply prefix_append. }
    rewrite H2. cbn. auto.
  - intros invoice_number client_name cosmos_answer index_answer.
    unfold save_invoice. rewrite Hc. cbn [search_ready].
    destruct (search_ready s); [destruct index_answer|]; cbn; auto.
  - intros invoice_number status cosmos_answer index_answer.
    unfold update_invoice_status. rewrite Hc. cbn [search_ready].
    destruct (search_ready s); cbn; auto.
Qed.

End DegradedFacts.
